(** * Hybrid HDC model: k-mer vocabulary, encoder, Adam, two-stage training

    A shallow embedding of [research/learned_hdc/hybrid_hdc_combined.py],
    of the cross-validation functions of [validate_real_data.py] and of the
    export of [export_learned_embeddings.py], which call it.

    Conventions of the embedding:
    - numpy's float64 arithmetic is idealised to the real numbers [R];
      [np.sqrt], [np.exp] and [np.log] are [sqrt], [exp] and [ln];
    - a numpy vector is a [list R], a matrix a list of rows;
    - a Python [str] is a [string]; the alphabet is ASCII, which is the only
      part of Unicode whose upper-casing can land in [ACGT];
    - the dictionary [kmer_to_idx] is a [gmap string nat];
    - methods of [HybridHDCModel] run in a state-and-exception monad over the
      model record, so that every attribute write is visible in the state;
    - [numpy.random.RandomState] is an interface ([RandomSource]) whose
      state is threaded through the model; a seed is a natural number
      (negative seeds, which numpy refuses as well, are not modelled). *)

From Stdlib Require Import Reals Lra Lia Ascii String.
From stdpp Require Import gmap strings list fin_maps sorting.

(** ** Python exceptions and results

    [NotFinite] is not a Python exception.  Where numpy divides a float64
    by zero it goes on, with a warning, with inf or nan; the real numbers
    have no such value, so the embedding ends the run at that float with
    [Raise NotFinite].  What the Python run does after that point is
    outside the model, and no statement below describes it. *)

Inductive PyError : Type :=
  | RuntimeError      (* "Model must be fine-tuned before prediction" *)
  | ValueError        (* np.stack of no arrays, argmax of an empty row,
                         a seed that RandomState refuses *)
  | ZeroDivisionError
  | IndexError
  | TypeError
  | AttributeError
  | RecursionError
  | NotFinite.        (* a float64 that is inf or nan: the model ends here *)

Inductive result (A : Type) : Type :=
  | Ok (a : A)
  | Raise (e : PyError).
Arguments Ok {A} a.
Arguments Raise {A} e.

(** ** K-mer vocabulary *)

Module Kmer.

Definition bases : list string := ["A"; "C"; "G"; "T"]%string.

(** [[b + s for b in bases for s in smaller]] *)
Definition prepend_bases (smaller : list string) : list string :=
  flat_map (λ b, map (λ s, b +:+ s) smaller) bases.

(** [generate_kmers(k)].  The recursion of the source only stops at [k == 1];
    for [k <= 0] it never reaches the base case and Python raises
    [RecursionError]. *)
Fixpoint generate_kmers (k : nat) : result (list string) :=
  match k with
  | 0 => Raise RecursionError
  | S k' =>
      match k' with
      | 0 => Ok bases
      | S _ =>
          match generate_kmers k' with
          | Ok smaller => Ok (prepend_bases smaller)
          | Raise e => Raise e
          end
      end
  end.

(** [enumerate(kmers)], counting from [n]. *)
Fixpoint enumerate_from (n : nat) (l : list string) : list (nat * string) :=
  match l with
  | [] => []
  | x :: l' => (n, x) :: enumerate_from (S n) l'
  end.

(** [{kmer: i for i, kmer in enumerate(kmers)}]: entries are inserted in
    order, a later duplicate key overwrites an earlier one. *)
Definition build_kmer_to_idx (kmers : list string) : gmap string nat :=
  fold_left (λ d p, <[p.2 := p.1]> d) (enumerate_from 0 kmers) ∅.

(** The specification side: validity and the base-4 rank of a k-mer. *)

Definition is_base (c : ascii) : bool :=
  bool_decide (c = "A"%char ∨ c = "C"%char ∨ c = "G"%char ∨ c = "T"%char).

Fixpoint all_bases (s : string) : bool :=
  match s with
  | EmptyString => true
  | String c s' => is_base c && all_bases s'
  end.

Definition valid_kmer (k : nat) (s : string) : Prop :=
  String.length s = k ∧ all_bases s = true.

Definition base_digit (c : ascii) : nat :=
  if bool_decide (c = "C"%char) then 1
  else if bool_decide (c = "G"%char) then 2
  else if bool_decide (c = "T"%char) then 3
  else 0.

(** Most significant symbol first, in the base order A, C, G, T. *)
Fixpoint kmer_rank (s : string) : nat :=
  match s with
  | EmptyString => 0
  | String c s' => base_digit c * 4 ^ String.length s' + kmer_rank s'
  end.

End Kmer.

(** ** Vectors and matrices over the reals (numpy arrays) *)

Open Scope R_scope.

Abbreviation vec := (list R) (only parsing).
Abbreviation matrix := (list (list R)) (only parsing).

(** [np.zeros(n)] and [np.zeros((r, c))] *)
Definition zeros (n : nat) : vec := replicate n 0.
Definition zeros2 (r c : nat) : matrix := replicate r (zeros c).

Definition vadd (a b : vec) : vec := zip_with Rplus a b.
Definition vsub (a b : vec) : vec := zip_with Rminus a b.
Definition vmul (a b : vec) : vec := zip_with Rmult a b.
Definition vscale (c : R) (a : vec) : vec := map (Rmult c) a.
Definition vdiv (a : vec) (c : R) : vec := map (λ x, x / c) a.

(** [np.sum] of a vector *)
Definition vsum (a : vec) : R := foldr Rplus 0 a.

Definition dot (a b : vec) : R := vsum (vmul a b).

(** [np.linalg.norm] *)
Definition norm (a : vec) : R := sqrt (vsum (map (λ x, x * x) a)).

(** [rows.sum(axis=0)] and [rows.mean(axis=0)] of a non-empty stack of rows *)
Definition sum_axis0 (rows : matrix) : vec :=
  match rows with
  | [] => []
  | r :: rs => fold_left vadd rs r
  end.

Definition mean_axis0 (rows : matrix) : vec :=
  vdiv (sum_axis0 rows) (INR (length rows)).

(** Matrix helpers: [A.T], [A @ B], [A + b] (row broadcast).  The number of
    columns is read off the first row: every matrix of the model has at
    least one row (the sizes of a configuration are positive). *)
Definition ncols (A : matrix) : nat :=
  match A with
  | [] => O
  | r :: _ => length r
  end.

Fixpoint transpose_w (w : nat) (A : matrix) : matrix :=
  match w with
  | O => []
  | S w' => transpose_w w' A ++ [map (λ row, nth w' row 0) A]
  end.

Definition transpose (A : matrix) : matrix := transpose_w (ncols A) A.

(** A row vector times a matrix: [x @ B], a combination of the rows of [B]. *)
Definition vecmat (x : vec) (B : matrix) : vec :=
  fold_left vadd (zip_with vscale x B) (zeros (ncols B)).

Definition matmul (A B : matrix) : matrix := map (λ x, vecmat x B) A.

Definition add_bias (A : matrix) (b : vec) : matrix := map (λ row, vadd row b) A.

Definition madd (A B : matrix) : matrix := zip_with vadd A B.
Definition mscale (c : R) (A : matrix) : matrix := map (vscale c) A.

(** [np.sum(A**2)] *)
Definition sum_sq (A : matrix) : R := vsum (map (λ row, vsum (map (λ x, x ^ 2) row)) A).

Definition relu (x : R) : R := Rmax 0 x.

(** [np.clip(x, lo, hi)] *)
Definition clip (x lo hi : R) : R := Rmin (Rmax x lo) hi.

(** [np.max] of a non-empty vector; numpy raises [ValueError] on an empty one. *)
Definition np_max (a : vec) : result R :=
  match a with
  | [] => Raise ValueError
  | x :: xs => Ok (fold_left Rmax xs x)
  end.

(** [np.argmax]: the first position of the maximum. *)
Fixpoint argmax_from (best : R) (besti i : nat) (a : vec) : nat :=
  match a with
  | [] => besti
  | x :: xs =>
      if Rlt_dec best x then argmax_from x i (S i) xs
      else argmax_from best besti (S i) xs
  end.

Definition np_argmax (a : vec) : result nat :=
  match a with
  | [] => Raise ValueError
  | x :: xs => Ok (argmax_from x O 1%nat xs)
  end.

(** [cosine_similarity(a, b)] *)
Definition cosine_similarity (a b : vec) : R :=
  let norm_a := norm a in
  let norm_b := norm b in
  if Req_dec_T norm_a 0 then 0
  else if Req_dec_T norm_b 0 then 0
  else dot a b / (norm_a * norm_b).

(** [softmax(x, axis=-1)] on one row *)
Definition softmax_row (x : vec) : result vec :=
  match np_max x with
  | Raise e => Raise e
  | Ok mx =>
      let exp_x := map (λ xi, exp (xi - mx)) x in
      Ok (map (λ e, e / (vsum exp_x + 1e-10)) exp_x)
  end.

(** Sequencing of results over a list *)
Fixpoint result_all {A : Type} (l : list (result A)) : result (list A) :=
  match l with
  | [] => Ok []
  | Ok a :: l' =>
      match result_all l' with
      | Ok r => Ok (a :: r)
      | Raise e => Raise e
      end
  | Raise e :: _ => Raise e
  end.

Definition softmax (X : matrix) : result matrix := result_all (map softmax_row X).

(** ** The state-and-exception monad of the methods

    A method takes the object's state and returns a value or a raised
    exception together with the state it leaves behind: attribute writes made
    before a [raise] persist, as in Python. *)

Definition M (S A : Type) : Type := S → result A * S.

Definition ret {S A : Type} (a : A) : M S A := λ s, (Ok a, s).

Definition bind {S A B : Type} (c : M S A) (f : A → M S B) : M S B :=
  λ s, match c s with
       | (Ok a, s') => f a s'
       | (Raise e, s') => (Raise e, s')
       end.

Definition raise {S A : Type} (e : PyError) : M S A := λ s, (Raise e, s).
Definition gets {S A : Type} (f : S → A) : M S A := λ s, (Ok (f s), s).
Definition modify {S : Type} (f : S → S) : M S unit := λ s, (Ok tt, f s).
Definition lift {S A : Type} (r : result A) : M S A := λ s, (r, s).

#[export] Instance M_ret {S : Type} : MRet (M S) := λ A a, ret a.
#[export] Instance M_bind {S : Type} : MBind (M S) := λ A B f c, bind c f.

(** [[f(x) for x in xs]] with an effectful [f], left to right *)
Fixpoint mapM {S A B : Type} (f : A → M S B) (xs : list A) : M S (list B) :=
  match xs with
  | [] => ret []
  | x :: xs' => y ← f x; ys ← mapM f xs'; ret (y :: ys)
  end.

(** [for x in xs: body(x)] *)
Fixpoint forM_ {S A : Type} (xs : list A) (body : A → M S unit) : M S unit :=
  match xs with
  | [] => ret tt
  | x :: xs' => body x;; forM_ xs' body
  end.

(** A computation every run of which, normal or exceptional, relates the
    state it starts from to the state it leaves by [P]. *)
Definition preserves {S A : Type} (P : S → S → Prop) (c : M S A) : Prop :=
  ∀ s, P s (c s).2.

(** Every normal return of the computation relates the initial state to the
    final one by [Q]. *)
Definition returns {S A : Type} (c : M S A) (Q : S → S → Prop) : Prop :=
  ∀ s a s', c s = (Ok a, s') → Q s s'.

(** ** The random source ([numpy.random.RandomState])

    Only the calls the model makes are listed; each consumes the generator
    state.  The laws are the ones numpy documents: [permutation(n)] is a
    permutation of [range(n)], [shuffle] permutes its argument, and
    [randn(r, c)] has shape [(r, c)]. *)

Class RandomSource : Type := {
  RandomState : Type;
  rng_seed : nat → RandomState;
  rng_random : RandomState → R * RandomState;
  rng_choice : list ascii → RandomState → ascii * RandomState;
  rng_permutation : nat → RandomState → list nat * RandomState;
  rng_shuffle : list nat → RandomState → list nat * RandomState;
  rng_randn : nat → nat → RandomState → matrix * RandomState;
  rng_permutation_perm : ∀ n s, (rng_permutation n s).1 ≡ₚ seq 0 n;
  rng_shuffle_perm : ∀ l s, (rng_shuffle l s).1 ≡ₚ l;
  rng_randn_shape : ∀ r c s,
    length (rng_randn r c s).1 = r ∧ Forall (λ row, length row = c) (rng_randn r c s).1
}.

(** [np.random.RandomState(seed)] and [np.random.seed(seed)]: the generator
    takes a seed between 0 and [2**32 - 1] and raises [ValueError] for a
    larger one. *)
Definition random_state {rs : RandomSource} (seed : nat) : result RandomState :=
  if bool_decide (Z.of_nat seed < 2 ^ 32)%Z then Ok (rng_seed seed)
  else Raise ValueError.

(** ** Configuration *)

Record HybridConfig : Type := {
  dim : nat;
  kmer_length : nat;
  num_classes : nat;
  contrastive_lr : R;
  contrastive_epochs : nat;
  temperature : R;
  num_negatives : nat;
  finetune_lr : R;
  finetune_epochs : nat;
  l2_reg : R;
  mlp_hidden : nat;
  patience : nat;
  min_delta : R
}.

Definition HYPERVECTOR_DIM : nat := 1000.

Definition default_config : HybridConfig := {|
  dim := HYPERVECTOR_DIM; kmer_length := 6; num_classes := 2;
  contrastive_lr := 0.01; contrastive_epochs := 20; temperature := 0.1;
  num_negatives := 8;
  finetune_lr := 0.001; finetune_epochs := 50; l2_reg := 0.001;
  mlp_hidden := 256; patience := 5; min_delta := 0.001 |}.

(** ** AdamOptimizer *)

(** Element-wise arithmetic on a parameter tensor of any shape. *)
Class Elementwise (T : Type) : Type := {
  ew_map : (R → R) → T → T;
  ew_map2 : (R → R → R) → T → T → T
}.

#[export] Instance vec_elementwise : Elementwise vec :=
  {| ew_map := λ f a, map f a; ew_map2 := λ f a b, zip_with f a b |}.

#[export] Instance matrix_elementwise : Elementwise matrix :=
  {| ew_map := λ f A, map (map f) A;
     ew_map2 := λ f A B, zip_with (zip_with f) A B |}.

Module Adam.

Record AdamOptimizer (T : Type) : Type := {
  lr : R; beta1 : R; beta2 : R; eps : R;
  m : T; v : T; t : nat
}.
Arguments lr {T}.
Arguments beta1 {T}.
Arguments beta2 {T}.
Arguments eps {T}.
Arguments m {T}.
Arguments v {T}.
Arguments t {T}.

(** [AdamOptimizer(shape, lr=lr)]: the moments are zero arrays of the
    parameter's shape, given here by a tensor of that shape. *)
Definition init {T : Type} `{Elementwise T} (like : T) (lr0 : R) : AdamOptimizer T :=
  {| lr := lr0; beta1 := 0.9; beta2 := 0.999; eps := 1e-8;
     m := ew_map (λ _, 0) like; v := ew_map (λ _, 0) like; t := 0 |}.

(** [update(param, grad)]: returns the optimizer with its new state and the
    updated parameter. *)
Definition update {T : Type} `{Elementwise T}
    (o : AdamOptimizer T) (param grad : T) : AdamOptimizer T * T :=
  let t' := S (t o) in
  let m' := ew_map2 (λ mi g, beta1 o * mi + (1 - beta1 o) * g) (m o) grad in
  let v' := ew_map2 (λ vi g, beta2 o * vi + (1 - beta2 o) * g ^ 2) (v o) grad in
  let m_hat := ew_map (λ mi, mi / (1 - beta1 o ^ t')) m' in
  let v_hat := ew_map (λ vi, vi / (1 - beta2 o ^ t')) v' in
  let step := ew_map2 (λ mh vh, lr o * mh / (sqrt vh + eps o)) m_hat v_hat in
  ({| lr := lr o; beta1 := beta1 o; beta2 := beta2 o; eps := eps o;
      m := m'; v := v'; t := t' |},
   ew_map2 Rminus param step).

End Adam.

(** ** The epoch loop with early stopping

    The control skeleton of [finetune]'s loop
    [for epoch in range(epochs): ...; if patience_counter >= patience: break],
    over any state: [train_epoch] is the training part of one epoch and
    returns [avg_loss]; [validate] computes the validation accuracy and is
    absent when no validation set was passed. *)

Record TrainingRun : Type := {
  best_val_acc : R;
  best_epoch : nat;
  patience_counter : nat;
  train_loss : list R;      (* history['train_loss'] *)
  val_acc : list R          (* history['val_acc'] *)
}.

Definition initial_run : TrainingRun :=
  {| best_val_acc := 0; best_epoch := O; patience_counter := O;
     train_loss := []; val_acc := [] |}.

Definition record_train_loss (avg_loss : R) (run : TrainingRun) : TrainingRun :=
  {| best_val_acc := best_val_acc run; best_epoch := best_epoch run;
     patience_counter := patience_counter run;
     train_loss := train_loss run ++ [avg_loss]; val_acc := val_acc run |}.

(** The validation block of one epoch ([epoch] counts from 0):
    [history['val_acc'].append(val_acc)] and the early-stopping test. *)
Definition early_stopping (min_delta : R) (epoch : nat) (acc : R) (run : TrainingRun)
  : TrainingRun :=
  if Rlt_dec (best_val_acc run + min_delta) acc then
    {| best_val_acc := acc; best_epoch := S epoch; patience_counter := O;
       train_loss := train_loss run; val_acc := val_acc run ++ [acc] |}
  else
    {| best_val_acc := best_val_acc run; best_epoch := best_epoch run;
       patience_counter := S (patience_counter run);
       train_loss := train_loss run; val_acc := val_acc run ++ [acc] |}.

Section EpochLoop.

Context {S : Type}.
Variable train_epoch : M S R.
Variable validate : option (M S R).
Variable patience : nat.
Variable min_delta : R.

(** [remaining] epochs are left in [range(epochs)], the next one is [epoch]. *)
Fixpoint epoch_loop (remaining epoch : nat) (run : TrainingRun) : M S TrainingRun :=
  match remaining with
  | O => ret run
  | Datatypes.S remaining' =>
      avg_loss ← train_epoch;
      let run1 := record_train_loss avg_loss run in
      match validate with
      | Some val =>
          acc ← val;
          let run2 := early_stopping min_delta epoch acc run1 in
          if bool_decide (patience ≤ patience_counter run2)%nat then ret run2
          else epoch_loop remaining' (Datatypes.S epoch) run2
      | None => epoch_loop remaining' (Datatypes.S epoch) run1
      end
  end.

End EpochLoop.

(** ** The model object

    The attributes of [HybridHDCModel].  The classifier weights are [None]
    until [finetune] creates them; the four optimizers do not exist before
    that either. *)

Section HybridHDC.

Context {rs : RandomSource}.

Record Model : Type := {
  config : HybridConfig;
  rng : RandomState;
  embeddings : matrix;
  kmers : list string;
  kmer_to_idx : gmap string nat;
  W1 : option matrix;
  b1 : option vec;
  W2 : option matrix;
  b2 : option vec;
  opt_W1 : option (Adam.AdamOptimizer matrix);
  opt_b1 : option (Adam.AdamOptimizer vec);
  opt_W2 : option (Adam.AdamOptimizer matrix);
  opt_b2 : option (Adam.AdamOptimizer vec);
  embed_m : matrix;
  embed_v : matrix;
  embed_t : nat;
  is_pretrained : bool;
  is_finetuned : bool
}.

(** Attribute assignment, one setter per attribute that is ever written
    after construction. *)
Definition set_rng (x : RandomState) (s : Model) : Model :=
  {| config := config s; rng := x; embeddings := embeddings s;
     kmers := kmers s; kmer_to_idx := kmer_to_idx s; W1 := W1 s; b1 := b1 s;
     W2 := W2 s; b2 := b2 s; opt_W1 := opt_W1 s; opt_b1 := opt_b1 s;
     opt_W2 := opt_W2 s; opt_b2 := opt_b2 s; embed_m := embed_m s;
     embed_v := embed_v s; embed_t := embed_t s;
     is_pretrained := is_pretrained s; is_finetuned := is_finetuned s |}.

Definition set_embeddings (x : matrix) (s : Model) : Model :=
  {| config := config s; rng := rng s; embeddings := x; kmers := kmers s;
     kmer_to_idx := kmer_to_idx s; W1 := W1 s; b1 := b1 s; W2 := W2 s;
     b2 := b2 s; opt_W1 := opt_W1 s; opt_b1 := opt_b1 s; opt_W2 := opt_W2 s;
     opt_b2 := opt_b2 s; embed_m := embed_m s; embed_v := embed_v s;
     embed_t := embed_t s; is_pretrained := is_pretrained s;
     is_finetuned := is_finetuned s |}.

Definition set_W1 (x : option matrix) (s : Model) : Model :=
  {| config := config s; rng := rng s; embeddings := embeddings s;
     kmers := kmers s; kmer_to_idx := kmer_to_idx s; W1 := x; b1 := b1 s;
     W2 := W2 s; b2 := b2 s; opt_W1 := opt_W1 s; opt_b1 := opt_b1 s;
     opt_W2 := opt_W2 s; opt_b2 := opt_b2 s; embed_m := embed_m s;
     embed_v := embed_v s; embed_t := embed_t s;
     is_pretrained := is_pretrained s; is_finetuned := is_finetuned s |}.

Definition set_b1 (x : option vec) (s : Model) : Model :=
  {| config := config s; rng := rng s; embeddings := embeddings s;
     kmers := kmers s; kmer_to_idx := kmer_to_idx s; W1 := W1 s; b1 := x;
     W2 := W2 s; b2 := b2 s; opt_W1 := opt_W1 s; opt_b1 := opt_b1 s;
     opt_W2 := opt_W2 s; opt_b2 := opt_b2 s; embed_m := embed_m s;
     embed_v := embed_v s; embed_t := embed_t s;
     is_pretrained := is_pretrained s; is_finetuned := is_finetuned s |}.

Definition set_W2 (x : option matrix) (s : Model) : Model :=
  {| config := config s; rng := rng s; embeddings := embeddings s;
     kmers := kmers s; kmer_to_idx := kmer_to_idx s; W1 := W1 s; b1 := b1 s;
     W2 := x; b2 := b2 s; opt_W1 := opt_W1 s; opt_b1 := opt_b1 s;
     opt_W2 := opt_W2 s; opt_b2 := opt_b2 s; embed_m := embed_m s;
     embed_v := embed_v s; embed_t := embed_t s;
     is_pretrained := is_pretrained s; is_finetuned := is_finetuned s |}.

Definition set_b2 (x : option vec) (s : Model) : Model :=
  {| config := config s; rng := rng s; embeddings := embeddings s;
     kmers := kmers s; kmer_to_idx := kmer_to_idx s; W1 := W1 s; b1 := b1 s;
     W2 := W2 s; b2 := x; opt_W1 := opt_W1 s; opt_b1 := opt_b1 s;
     opt_W2 := opt_W2 s; opt_b2 := opt_b2 s; embed_m := embed_m s;
     embed_v := embed_v s; embed_t := embed_t s;
     is_pretrained := is_pretrained s; is_finetuned := is_finetuned s |}.

Definition set_opt_W1 (x : option (Adam.AdamOptimizer matrix)) (s : Model) : Model :=
  {| config := config s; rng := rng s; embeddings := embeddings s;
     kmers := kmers s; kmer_to_idx := kmer_to_idx s; W1 := W1 s; b1 := b1 s;
     W2 := W2 s; b2 := b2 s; opt_W1 := x; opt_b1 := opt_b1 s;
     opt_W2 := opt_W2 s; opt_b2 := opt_b2 s; embed_m := embed_m s;
     embed_v := embed_v s; embed_t := embed_t s;
     is_pretrained := is_pretrained s; is_finetuned := is_finetuned s |}.

Definition set_opt_b1 (x : option (Adam.AdamOptimizer vec)) (s : Model) : Model :=
  {| config := config s; rng := rng s; embeddings := embeddings s;
     kmers := kmers s; kmer_to_idx := kmer_to_idx s; W1 := W1 s; b1 := b1 s;
     W2 := W2 s; b2 := b2 s; opt_W1 := opt_W1 s; opt_b1 := x;
     opt_W2 := opt_W2 s; opt_b2 := opt_b2 s; embed_m := embed_m s;
     embed_v := embed_v s; embed_t := embed_t s;
     is_pretrained := is_pretrained s; is_finetuned := is_finetuned s |}.

Definition set_opt_W2 (x : option (Adam.AdamOptimizer matrix)) (s : Model) : Model :=
  {| config := config s; rng := rng s; embeddings := embeddings s;
     kmers := kmers s; kmer_to_idx := kmer_to_idx s; W1 := W1 s; b1 := b1 s;
     W2 := W2 s; b2 := b2 s; opt_W1 := opt_W1 s; opt_b1 := opt_b1 s;
     opt_W2 := x; opt_b2 := opt_b2 s; embed_m := embed_m s;
     embed_v := embed_v s; embed_t := embed_t s;
     is_pretrained := is_pretrained s; is_finetuned := is_finetuned s |}.

Definition set_opt_b2 (x : option (Adam.AdamOptimizer vec)) (s : Model) : Model :=
  {| config := config s; rng := rng s; embeddings := embeddings s;
     kmers := kmers s; kmer_to_idx := kmer_to_idx s; W1 := W1 s; b1 := b1 s;
     W2 := W2 s; b2 := b2 s; opt_W1 := opt_W1 s; opt_b1 := opt_b1 s;
     opt_W2 := opt_W2 s; opt_b2 := x; embed_m := embed_m s;
     embed_v := embed_v s; embed_t := embed_t s;
     is_pretrained := is_pretrained s; is_finetuned := is_finetuned s |}.

Definition set_embed_m (x : matrix) (s : Model) : Model :=
  {| config := config s; rng := rng s; embeddings := embeddings s;
     kmers := kmers s; kmer_to_idx := kmer_to_idx s; W1 := W1 s; b1 := b1 s;
     W2 := W2 s; b2 := b2 s; opt_W1 := opt_W1 s; opt_b1 := opt_b1 s;
     opt_W2 := opt_W2 s; opt_b2 := opt_b2 s; embed_m := x;
     embed_v := embed_v s; embed_t := embed_t s;
     is_pretrained := is_pretrained s; is_finetuned := is_finetuned s |}.

Definition set_embed_v (x : matrix) (s : Model) : Model :=
  {| config := config s; rng := rng s; embeddings := embeddings s;
     kmers := kmers s; kmer_to_idx := kmer_to_idx s; W1 := W1 s; b1 := b1 s;
     W2 := W2 s; b2 := b2 s; opt_W1 := opt_W1 s; opt_b1 := opt_b1 s;
     opt_W2 := opt_W2 s; opt_b2 := opt_b2 s; embed_m := embed_m s;
     embed_v := x; embed_t := embed_t s; is_pretrained := is_pretrained s;
     is_finetuned := is_finetuned s |}.

Definition set_embed_t (x : nat) (s : Model) : Model :=
  {| config := config s; rng := rng s; embeddings := embeddings s;
     kmers := kmers s; kmer_to_idx := kmer_to_idx s; W1 := W1 s; b1 := b1 s;
     W2 := W2 s; b2 := b2 s; opt_W1 := opt_W1 s; opt_b1 := opt_b1 s;
     opt_W2 := opt_W2 s; opt_b2 := opt_b2 s; embed_m := embed_m s;
     embed_v := embed_v s; embed_t := x; is_pretrained := is_pretrained s;
     is_finetuned := is_finetuned s |}.

Definition set_is_pretrained (x : bool) (s : Model) : Model :=
  {| config := config s; rng := rng s; embeddings := embeddings s;
     kmers := kmers s; kmer_to_idx := kmer_to_idx s; W1 := W1 s; b1 := b1 s;
     W2 := W2 s; b2 := b2 s; opt_W1 := opt_W1 s; opt_b1 := opt_b1 s;
     opt_W2 := opt_W2 s; opt_b2 := opt_b2 s; embed_m := embed_m s;
     embed_v := embed_v s; embed_t := embed_t s; is_pretrained := x;
     is_finetuned := is_finetuned s |}.

Definition set_is_finetuned (x : bool) (s : Model) : Model :=
  {| config := config s; rng := rng s; embeddings := embeddings s;
     kmers := kmers s; kmer_to_idx := kmer_to_idx s; W1 := W1 s; b1 := b1 s;
     W2 := W2 s; b2 := b2 s; opt_W1 := opt_W1 s; opt_b1 := opt_b1 s;
     opt_W2 := opt_W2 s; opt_b2 := opt_b2 s; embed_m := embed_m s;
     embed_v := embed_v s; embed_t := embed_t s;
     is_pretrained := is_pretrained s; is_finetuned := x |}.

(** Small Python idioms *)

(** [l[i]] *)
Definition py_index {A : Type} (l : list A) (i : nat) : result A :=
  match l !! i with
  | Some x => Ok x
  | None => Raise IndexError
  end.

(** [A[indices]] (fancy indexing: a fresh array of the selected rows) *)
Definition take_rows {A : Type} (l : list A) (indices : list nat) : result (list A) :=
  result_all (map (py_index l) indices).

(** Reading an attribute that must not be [None]. *)
Definition require {A : Type} (f : Model → option A) (e : PyError) : M Model A :=
  λ s, match f s with
       | Some x => (Ok x, s)
       | None => (Raise e, s)
       end.

(** A call on [self.rng]: the generator state is replaced by the one the call
    leaves. *)
Definition with_rng {A : Type} (f : RandomState → A * RandomState) : M Model A :=
  λ s, let (a, g) := f (rng s) in (Ok a, set_rng g s).

(** [acc = init; for x in xs: acc = body(acc, x)] *)
Fixpoint foldM {S A B : Type} (body : B → A → M S B) (acc : B) (xs : list A) : M S B :=
  match xs with
  | [] => ret acc
  | x :: xs' => acc' ← body acc x; foldM body acc' xs'
  end.

(** [[l[i:i+n] for i in range(0, len(l), n)]] *)
Fixpoint batches_aux {A : Type} (fuel n : nat) (l : list A) : list (list A) :=
  match fuel with
  | O => []
  | S fuel' =>
      match l with
      | [] => []
      | _ :: _ => take n l :: batches_aux fuel' n (drop n l)
      end
  end.

Definition batches {A : Type} (n : nat) (l : list A) : list (list A) :=
  batches_aux (length l) n l.

(** ** Strings *)

(** [str.upper()] on ASCII *)
Definition upper_char (c : ascii) : ascii :=
  let n := nat_of_ascii c in
  if bool_decide (97 ≤ n ≤ 122)%nat then ascii_of_nat (n - 32) else c.

Fixpoint upper (s : string) : string :=
  match s with
  | EmptyString => EmptyString
  | String c s' => String (upper_char c) (upper s')
  end.

(** The window loop shared by [encode], [_contrastive_step] and
    [_finetune_step]:
    [for i in range(len(seq) - k + 1): idx = kmer_to_idx.get(seq[i:i+k].upper())],
    keeping the indices that are not [None].  [range] of a non-positive
    number is empty, which is what truncated subtraction gives. *)
Definition kmer_indices (k : nat) (idx : gmap string nat) (sequence : string) : list nat :=
  omap (λ i, idx !! upper (substring i k sequence))
       (seq 0 (String.length sequence + 1 - k)).

(** ** Construction *)

(** [HybridHDCModel(config, seed)] *)
Definition init (cfg : HybridConfig) (seed : nat) : result Model :=
  match random_state seed with
  | Raise e => Raise e
  | Ok g0 =>
      let num_kmers := (4 ^ kmer_length cfg)%nat in
      if bool_decide (dim cfg = O) then Raise ZeroDivisionError else
      let scale := sqrt (2 / INR (dim cfg)) in
      let (E0, g1) := rng_randn num_kmers (dim cfg) g0 in
      let E := map (vscale scale) E0 in
      match Kmer.generate_kmers (kmer_length cfg) with
      | Raise e => Raise e
      | Ok ks =>
          Ok {| config := cfg; rng := g1; embeddings := E;
                kmers := ks; kmer_to_idx := Kmer.build_kmer_to_idx ks;
                W1 := None; b1 := None; W2 := None; b2 := None;
                opt_W1 := None; opt_b1 := None; opt_W2 := None; opt_b2 := None;
                embed_m := map (map (λ _, 0)) E; embed_v := map (map (λ _, 0)) E;
                embed_t := O;
                is_pretrained := false; is_finetuned := false |}
      end
  end.

(** ** Encoding *)

(** [encode(sequence, normalize)] *)
Definition encode (sequence : string) (normalize : bool) : M Model vec :=
  cfg ← gets config;
  let k := kmer_length cfg in
  if bool_decide (String.length sequence < k)%nat then ret (zeros (dim cfg)) else
  table ← gets kmer_to_idx;
  let indices := kmer_indices k table sequence in
  if bool_decide (indices = []) then ret (zeros (dim cfg)) else
  E ← gets embeddings;
  vectors ← lift (take_rows E indices);
  let encoding := mean_axis0 vectors in
  if normalize then
    let n := norm encoding in
    if Rlt_dec 0 n then ret (vdiv encoding n) else ret encoding
  else ret encoding.

(** [np.stack] refuses an empty list of arrays. *)
Definition np_stack (rows : list vec) : result matrix :=
  match rows with
  | [] => Raise ValueError
  | _ :: _ => Ok rows
  end.

(** [encode_batch(sequences, normalize)] *)
Definition encode_batch (sequences : list string) (normalize : bool) : M Model matrix :=
  rows ← mapM (λ seq, encode seq normalize) sequences;
  lift (np_stack rows).

(** ** Augmentation *)

Definition base_chars : list ascii := ["A"; "C"; "G"; "T"]%char.

(** The loop of [augment_sequence] over the characters of the sequence. *)
Fixpoint augment_chars (chars : list ascii) (mutation_rate : R) (g : RandomState)
  : list ascii * RandomState :=
  match chars with
  | [] => ([], g)
  | c :: rest =>
      let (u, g1) := rng_random g in
      if Rlt_dec u mutation_rate then
        let (b, g2) := rng_choice base_chars g1 in
        let (rest', g3) := augment_chars rest mutation_rate g2 in
        (b :: rest', g3)
      else
        let (rest', g3) := augment_chars rest mutation_rate g1 in
        (c :: rest', g3)
  end.

(** [augment_sequence(sequence, rng, mutation_rate)] *)
Definition augment_sequence (sequence : string) (mutation_rate : R) (g : RandomState)
  : string * RandomState :=
  let (chars, g') := augment_chars (list_ascii_of_string sequence) mutation_rate g in
  (string_of_list_ascii chars, g').

(** ** The sparse Adam update of one embedding row

    The body of the inner loop [for idx in indices] of both
    [_contrastive_step] and [_finetune_step] (the two copies are textually
    identical up to the learning rate).  It reads [self.embed_t] and the
    current rows [idx] of [embed_m], [embed_v] and [embeddings], and writes
    the three rows back. *)
Definition sparse_adam_row (lr : R) (grad : vec) (idx : nat) : M Model unit :=
  let beta1 := 0.9 in
  let beta2 := 0.999 in
  let eps := 1e-8 in
  em ← gets embed_m;
  m_row ← lift (py_index em idx);
  let m_new := zip_with (λ mi g, beta1 * mi + (1 - beta1) * g) m_row grad in
  modify (set_embed_m (<[idx := m_new]> em));;
  ev ← gets embed_v;
  v_row ← lift (py_index ev idx);
  let v_new := zip_with (λ vi g, beta2 * vi + (1 - beta2) * g ^ 2) v_row grad in
  modify (set_embed_v (<[idx := v_new]> ev));;
  t ← gets embed_t;
  let m_hat := map (λ mi, mi / (1 - beta1 ^ t)) m_new in
  let v_hat := map (λ vi, vi / (1 - beta2 ^ t)) v_new in
  E ← gets embeddings;
  e_row ← lift (py_index E idx);
  let step := zip_with (λ mh vh, lr * mh / (sqrt vh + eps)) m_hat v_hat in
  modify (set_embeddings (<[idx := vsub e_row step]> E)).

(** [if indices: grad = d / len(indices); for idx in indices: ...] *)
Definition sparse_adam_sample (lr : R) (d : vec) (indices : list nat) : M Model unit :=
  match indices with
  | [] => ret tt
  | _ :: _ =>
      let grad := vdiv d (INR (length indices)) in
      forM_ indices (sparse_adam_row lr grad)
  end.

(** ** Stage 1: contrastive pre-training *)

(** The InfoNCE loss of one anchor from its scaled similarities
    ([sim_pos] and [sim_negs] are already divided by the temperature). *)
Definition info_nce (sim_pos : R) (sim_negs : list R) : R :=
  let exp_pos := exp (clip sim_pos (-20) 20) in
  let exp_negs := map (λ x, exp (clip x (-20) 20)) sim_negs in
  let denom := exp_pos + vsum exp_negs in
  - ln (exp_pos / (denom + 1e-10)).

(** [cosine_similarity(a, b) / config.temperature].  When a norm is zero
    [cosine_similarity] returns the Python int [0], and dividing it by a
    zero temperature raises [ZeroDivisionError].  Otherwise it returns a
    float64, whose division by a zero temperature does not raise: the
    quotient is inf or nan, and the embedding ends there. *)
Definition scaled_similarity (tau : R) (a b : vec) : result R :=
  if Req_dec_T tau 0 then
    if Req_dec_T (norm a) 0 then Raise ZeroDivisionError
    else if Req_dec_T (norm b) 0 then Raise ZeroDivisionError
    else Raise NotFinite
  else Ok (cosine_similarity a b / tau).

(** The loss of one anchor against its positive and its negatives, as
    [_contrastive_step] computes it from the encodings: [sim_pos], then
    [sim_negs] negative by negative, then the InfoNCE loss. *)
Definition anchor_loss (tau : R) (a p : list R) (negatives : list (list R)) : result R :=
  match scaled_similarity tau a p with
  | Raise e => Raise e
  | Ok sim_pos =>
      match result_all (map (scaled_similarity tau a) negatives) with
      | Raise e => Raise e
      | Ok sim_negs => Ok (info_nce sim_pos sim_negs)
      end
  end.

(** The body of the loop [for i in range(batch_size)] of
    [_contrastive_step]: returns the loss of anchor [i]. *)
Definition contrastive_anchor (anchors positives : matrix)
    (anchor_indices : list (list nat)) (batch_size i : nat) : M Model R :=
  cfg ← gets config;
  let lr := contrastive_lr cfg in
  let neg_idx0 := filter (λ j, j ≠ i) (seq 0 batch_size) in
  neg_idx1 ← with_rng (rng_shuffle neg_idx0);
  let neg_idx := take (num_negatives cfg) neg_idx1 in
  negatives ← lift (take_rows anchors neg_idx);
  a_i ← lift (py_index anchors i);
  p_i ← lift (py_index positives i);
  sim_pos ← lift (scaled_similarity (temperature cfg) a_i p_i);
  sim_negs ← lift (result_all (map (scaled_similarity (temperature cfg) a_i) negatives));
  let exp_pos := exp (clip sim_pos (-20) 20) in
  let exp_negs := map (λ x, exp (clip x (-20) 20)) sim_negs in
  let denom := exp_pos + vsum exp_negs in
  let loss := info_nce sim_pos sim_negs in
  let probs := map (λ e, e / denom) (exp_pos :: exp_negs) in
  let weighted_sum :=
    fold_left (λ ws pn, vadd ws (vscale pn.1 pn.2))
              (zip (tail probs) negatives)
              (vscale (hd 0 probs) p_i) in
  let d_anchor := vdiv (vsub weighted_sum p_i) (temperature cfg) in
  indices ← lift (py_index anchor_indices i);
  sparse_adam_sample lr d_anchor indices;;
  ret loss.

(** [_contrastive_step(sequences)] *)
Definition _contrastive_step (sequences : list string) : M Model R :=
  cfg ← gets config;
  let batch_size := length sequences in
  augmented ← mapM (λ seq, with_rng (augment_sequence seq 0.1)) sequences;
  anchors ← mapM (λ seq, encode seq true) sequences;
  positives ← mapM (λ aug, encode aug true) augmented;
  table ← gets kmer_to_idx;
  let anchor_indices := map (kmer_indices (kmer_length cfg) table) sequences in
  modify (λ s, set_embed_t (S (embed_t s)) s);;
  total_loss ← foldM (λ total i,
                        loss ← contrastive_anchor anchors positives anchor_indices batch_size i;
                        ret (total + loss))
                     0 (seq 0 batch_size);
  if bool_decide (batch_size = O) then raise ZeroDivisionError
  else ret (total_loss / INR batch_size).

(** One pass of the loop [for epoch in range(config.contrastive_epochs)] of
    [contrastive_pretrain]: returns [avg_loss].  [batch_size = 32]. *)
Definition contrastive_epoch (sequences : list string) : M Model R :=
  idx ← with_rng (rng_permutation (length sequences));
  seqs_shuf ← lift (take_rows sequences idx);
  '(epoch_loss, n_batches) ←
    foldM (λ (acc : R * nat) batch,
             if bool_decide (length batch < 2)%nat then ret acc
             else loss ← _contrastive_step batch;
                  ret (acc.1 + loss, S acc.2))
          (0, O) (batches 32 seqs_shuf);
  ret (epoch_loss / INR (Nat.max n_batches 1)).

(** [contrastive_pretrain(sequences)]: the list of per-epoch losses. *)
Definition contrastive_pretrain (sequences : list string) : M Model (list R) :=
  cfg ← gets config;
  losses ← foldM (λ losses _, avg_loss ← contrastive_epoch sequences;
                              ret (losses ++ [avg_loss]))
                 [] (seq 0 (contrastive_epochs cfg));
  modify (set_is_pretrained true);;
  ret losses.

(** ** Prediction *)

(** The forward pass [relu(X @ W1 + b1) @ W2 + b2]. *)
Definition forward_logits (X W1v : matrix) (b1v : vec) (W2v : matrix) (b2v : vec) : matrix :=
  let h1 := map (map relu) (add_bias (matmul X W1v) b1v) in
  add_bias (matmul h1 W2v) b2v.

(** [predict(sequences)] *)
Definition predict (sequences : list string) : M Model (list nat) :=
  W1v ← require W1 RuntimeError;
  encodings ← encode_batch sequences true;
  b1v ← require b1 TypeError;
  W2v ← require W2 TypeError;
  b2v ← require b2 TypeError;
  let logits := forward_logits encodings W1v b1v W2v b2v in
  lift (result_all (map np_argmax logits)).

(** [predict_proba(sequences)] *)
Definition predict_proba (sequences : list string) : M Model matrix :=
  W1v ← require W1 RuntimeError;
  encodings ← encode_batch sequences true;
  b1v ← require b1 TypeError;
  W2v ← require W2 TypeError;
  b2v ← require b2 TypeError;
  let logits := forward_logits encodings W1v b1v W2v b2v in
  lift (softmax logits).

(** ** Stage 2: supervised fine-tuning *)

(** The classifier initialisation at the top of [finetune]: fresh weights
    drawn from [self.rng] and four new optimizers. *)
Definition finetune_init : M Model unit :=
  cfg ← gets config;
  W1_raw ← with_rng (rng_randn (dim cfg) (mlp_hidden cfg));
  (if bool_decide (dim cfg = O) then raise ZeroDivisionError else ret tt);;
  let W1v := map (vscale (sqrt (2 / INR (dim cfg)))) W1_raw in
  modify (set_W1 (Some W1v));;
  let b1v := zeros (mlp_hidden cfg) in
  modify (set_b1 (Some b1v));;
  W2_raw ← with_rng (rng_randn (mlp_hidden cfg) (num_classes cfg));
  (if bool_decide (mlp_hidden cfg = O) then raise ZeroDivisionError else ret tt);;
  let W2v := map (vscale (sqrt (2 / INR (mlp_hidden cfg)))) W2_raw in
  modify (set_W2 (Some W2v));;
  let b2v := zeros (num_classes cfg) in
  modify (set_b2 (Some b2v));;
  modify (set_opt_W1 (Some (Adam.init W1v (finetune_lr cfg))));;
  modify (set_opt_b1 (Some (Adam.init b1v (finetune_lr cfg))));;
  modify (set_opt_W2 (Some (Adam.init W2v (finetune_lr cfg))));;
  modify (set_opt_b2 (Some (Adam.init b2v (finetune_lr cfg)))).

(** The forward loop of [_finetune_step] for one sequence: its pooled,
    normalised encoding and its k-mer indices. *)
Definition finetune_encode (seq : string) : M Model (vec * list nat) :=
  cfg ← gets config;
  table ← gets kmer_to_idx;
  let indices := kmer_indices (kmer_length cfg) table seq in
  match indices with
  | [] => ret (zeros (dim cfg), indices)
  | _ :: _ =>
      E ← gets embeddings;
      vecs ← lift (take_rows E indices);
      let enc := mean_axis0 vecs in
      let n := norm enc in
      if Rlt_dec 0 n then ret (vdiv enc n, indices) else ret (enc, indices)
  end.

(** [labels_onehot[i, l] = 1 for i, l in enumerate(labels)], from row [i]. *)
Fixpoint fill_onehot (i : nat) (labels : list nat) (O : matrix) : result matrix :=
  match labels with
  | [] => Ok O
  | l :: ls =>
      match O !! i with
      | Some row =>
          if bool_decide (l < length row)%nat
          then fill_onehot (S i) ls (<[i := <[l := 1]> row]> O)
          else Raise IndexError
      | None => Raise IndexError
      end
  end.

(** [self.W = self.opt_W.update(self.W, d_W)] for each of the four tensors. *)
Definition step_W2 (d : matrix) : M Model unit :=
  o ← require opt_W2 AttributeError; w ← require W2 TypeError;
  let (o', w') := Adam.update o w d in
  modify (set_opt_W2 (Some o'));; modify (set_W2 (Some w')).

Definition step_b2 (d : vec) : M Model unit :=
  o ← require opt_b2 AttributeError; w ← require b2 TypeError;
  let (o', w') := Adam.update o w d in
  modify (set_opt_b2 (Some o'));; modify (set_b2 (Some w')).

Definition step_W1 (d : matrix) : M Model unit :=
  o ← require opt_W1 AttributeError; w ← require W1 TypeError;
  let (o', w') := Adam.update o w d in
  modify (set_opt_W1 (Some o'));; modify (set_W1 (Some w')).

Definition step_b1 (d : vec) : M Model unit :=
  o ← require opt_b1 AttributeError; w ← require b1 TypeError;
  let (o', w') := Adam.update o w d in
  modify (set_opt_b1 (Some o'));; modify (set_b1 (Some w')).

(** [_finetune_step(sequences, labels)] *)
Definition _finetune_step (sequences : list string) (labels : list nat) : M Model R :=
  cfg ← gets config;
  let batch_size := length sequences in
  (* Forward pass *)
  enc_idx ← mapM finetune_encode sequences;
  let kmer_indices_batch := map snd enc_idx in
  encodings ← lift (np_stack (map fst enc_idx));
  W1v ← require W1 TypeError;
  b1v ← require b1 TypeError;
  W2v ← require W2 TypeError;
  b2v ← require b2 TypeError;
  let h1 := add_bias (matmul encodings W1v) b1v in
  let a1 := map (map relu) h1 in
  let logits := add_bias (matmul a1 W2v) b2v in
  (* Softmax + cross-entropy *)
  probs ← lift (softmax logits);
  labels_onehot ← lift (fill_onehot O labels (zeros2 batch_size (num_classes cfg)));
  let ce_rows := zip_with (λ y p, vsum (zip_with (λ yi pi, yi * ln (pi + 1e-10)) y p))
                          labels_onehot probs in
  let ce_loss := - (vsum ce_rows / INR (length ce_rows)) in
  let l2_loss := 0.5 * l2_reg cfg * (sum_sq W1v + sum_sq W2v) in
  let loss := ce_loss + l2_loss in
  (* Backward *)
  let d_logits := map (λ row, vdiv row (INR batch_size))
                      (zip_with vsub probs labels_onehot) in
  let d_W2 := madd (matmul (transpose a1) d_logits) (mscale (l2_reg cfg) W2v) in
  let d_b2 := sum_axis0 d_logits in
  let d_a1 := matmul d_logits (transpose W2v) in
  let d_h1 := zip_with (zip_with (λ d h, if Rlt_dec 0 h then d else 0)) d_a1 h1 in
  let d_W1 := madd (matmul (transpose encodings) d_h1) (mscale (l2_reg cfg) W1v) in
  let d_b1 := sum_axis0 d_h1 in
  let d_encodings := matmul d_h1 (transpose W1v) in
  (* Update MLP weights *)
  step_W2 d_W2;;
  step_b2 d_b2;;
  step_W1 d_W1;;
  step_b1 d_b1;;
  (* Update embeddings *)
  let lr := finetune_lr cfg * 0.1 in
  modify (λ s, set_embed_t (S (embed_t s)) s);;
  forM_ (zip d_encodings kmer_indices_batch)
        (λ di, sparse_adam_sample lr di.1 di.2);;
  ret loss.

(** The training part of one epoch of [finetune]: shuffle, run the batches,
    return [avg_loss].  [batch_size = 32]. *)
Definition finetune_train_epoch (train_seqs : list string) (train_labels : list nat)
  : M Model R :=
  idx ← with_rng (rng_permutation (length train_seqs));
  train_seqs_shuf ← lift (take_rows train_seqs idx);
  train_labels_shuf ← lift (take_rows train_labels idx);
  epoch_loss ←
    foldM (λ epoch_loss (b : list string * list nat),
             loss ← _finetune_step b.1 b.2;
             ret (epoch_loss + loss * INR (length b.2)))
          0 (zip (batches 32 train_seqs_shuf) (batches 32 train_labels_shuf));
  if bool_decide (length train_seqs = O) then raise ZeroDivisionError
  else ret (epoch_loss / INR (length train_seqs)).

(** [np.mean(np.array(val_preds) == np.array(val_labels))] *)
Definition accuracy (preds labels : list nat) : R :=
  vsum (zip_with (λ p l, if bool_decide (p = l) then 1 else 0) preds labels)
  / INR (length preds).

Definition finetune_validate (val_seqs : list string) (val_labels : list nat) : M Model R :=
  val_preds ← predict val_seqs;
  ret (accuracy val_preds val_labels).

(** [finetune(train_seqs, train_labels, val_seqs, val_labels)].  An absent
    validation set ([None]) and an empty one take the same branch of
    [if val_seqs:]; both are the empty list here. *)
Definition finetune (train_seqs : list string) (train_labels : list nat)
    (val_seqs : list string) (val_labels : list nat) : M Model TrainingRun :=
  cfg ← gets config;
  finetune_init;;
  run ← epoch_loop (finetune_train_epoch train_seqs train_labels)
                   (match val_seqs with
                    | [] => None
                    | _ :: _ => Some (finetune_validate val_seqs val_labels)
                    end)
                   (patience cfg) (min_delta cfg)
                   (finetune_epochs cfg) O initial_run;
  modify (set_is_finetuned true);;
  ret run.

End HybridHDC.

(** ** Specification vocabulary for the encoder

    What the specification calls the valid k-mer windows of a sequence, and
    the arithmetic mean of a family of rows, stated without reference to the
    dictionary or to numpy's reductions. *)

Definition is_valid_kmer (k : nat) (w : string) : bool :=
  bool_decide (String.length w = k) && Kmer.all_bases w.

(** Component [j] of the mean is the sum of the components [j] divided by the
    number of rows. *)
Definition arithmetic_mean (d : nat) (rows : list (list R)) : list R :=
  map (λ j, vsum (map (λ r, nth j r 0) rows) / INR (length rows)) (seq 0 d).

(** Following the specification's words: the arithmetic mean of the rows of
    the valid windows, the zero vector of dimension [d] when there is none,
    and division by the Euclidean norm only when normalisation is requested
    and that norm is positive. *)
Definition encode_spec (d : nat) (rows : list (list R)) (normalize : bool) : list R :=
  match rows with
  | [] => zeros d
  | _ :: _ =>
      let pooled := arithmetic_mean d rows in
      if normalize then
        if Rlt_dec 0 (norm pooled) then vdiv pooled (norm pooled) else pooled
      else pooled
  end.

Section EncoderSpec.

Context {rs : RandomSource}.

(** The embedding rows of the windows of [sequence] whose upper-cased
    content is a valid k-mer, in window order; the row of a k-mer is the one
    at its base-4 rank. *)
Definition valid_window_rows (s : Model) (sequence : string) : list (list R) :=
  let k := kmer_length (config s) in
  omap (λ i, let w := upper (substring i k sequence) in
             if is_valid_kmer k w then embeddings s !! Kmer.kmer_rank w else None)
       (seq 0 (String.length sequence + 1 - k)).

(** What the constructor establishes and no method changes: the vocabulary
    is the one generated for [kmer_length], and the embedding table has one
    row of length [dim] per k-mer. *)
Definition vocabulary_ok (s : Model) : Prop :=
  (1 ≤ kmer_length (config s))%nat
  ∧ Kmer.generate_kmers (kmer_length (config s)) = Ok (kmers s)
  ∧ kmer_to_idx s = Kmer.build_kmer_to_idx (kmers s).

Definition table_shaped (s : Model) : Prop :=
  length (embeddings s) = (4 ^ kmer_length (config s))%nat
  ∧ Forall (λ row, length row = dim (config s)) (embeddings s).

(** The part of the object that belongs to the classifier and to the
    constructor: everything except the embedding table, its moments and step
    counter, the random source and the [is_pretrained] flag. *)
Definition same_classifier (s s' : Model) : Prop :=
  config s' = config s ∧ kmers s' = kmers s ∧ kmer_to_idx s' = kmer_to_idx s
  ∧ W1 s' = W1 s ∧ b1 s' = b1 s ∧ W2 s' = W2 s ∧ b2 s' = b2 s
  ∧ opt_W1 s' = opt_W1 s ∧ opt_b1 s' = opt_b1 s
  ∧ opt_W2 s' = opt_W2 s ∧ opt_b2 s' = opt_b2 s
  ∧ is_finetuned s' = is_finetuned s.

(** The two moment tables have the shape of the embedding table. *)
Definition moments_shaped (s : Model) : Prop :=
  length (embed_m s) = length (embeddings s)
  ∧ Forall (λ row, length row = dim (config s)) (embed_m s)
  ∧ length (embed_v s) = length (embeddings s)
  ∧ Forall (λ row, length row = dim (config s)) (embed_v s).

(** The invariant of a constructed model. *)
Definition model_shaped (s : Model) : Prop :=
  vocabulary_ok s ∧ table_shaped s ∧ moments_shaped s.

(** An [r] by [c] array. *)
Definition matrix_shaped (r c : nat) (A : list (list R)) : Prop :=
  length A = r ∧ Forall (λ row, length row = c) A.

(** The classifier as [finetune] sets it up and its steps keep it: four
    tensors of the configured sizes, each with an optimizer whose moments
    have the tensor's shape. *)
Definition classifier_ready (s : Model) : Prop :=
  let cfg := config s in
  (0 < dim cfg)%nat ∧ (0 < mlp_hidden cfg)%nat ∧ (0 < num_classes cfg)%nat
  ∧ ∃ w1 bb1 w2 bb2 o1 ob1 o2 ob2,
      W1 s = Some w1 ∧ b1 s = Some bb1 ∧ W2 s = Some w2 ∧ b2 s = Some bb2
      ∧ opt_W1 s = Some o1 ∧ opt_b1 s = Some ob1
      ∧ opt_W2 s = Some o2 ∧ opt_b2 s = Some ob2
      ∧ matrix_shaped (dim cfg) (mlp_hidden cfg) w1
      ∧ matrix_shaped (dim cfg) (mlp_hidden cfg) (Adam.m o1)
      ∧ matrix_shaped (dim cfg) (mlp_hidden cfg) (Adam.v o1)
      ∧ length bb1 = mlp_hidden cfg
      ∧ length (Adam.m ob1) = mlp_hidden cfg ∧ length (Adam.v ob1) = mlp_hidden cfg
      ∧ matrix_shaped (mlp_hidden cfg) (num_classes cfg) w2
      ∧ matrix_shaped (mlp_hidden cfg) (num_classes cfg) (Adam.m o2)
      ∧ matrix_shaped (mlp_hidden cfg) (num_classes cfg) (Adam.v o2)
      ∧ length bb2 = num_classes cfg
      ∧ length (Adam.m ob2) = num_classes cfg ∧ length (Adam.v ob2) = num_classes cfg.

(** The classifier exists and its output layer has at least one class:
    [W2] is a non-empty stack of rows as long as [b2], and [b2] is not empty
    (what [finetune] creates for a configuration with positive sizes). *)
Definition classifier_shaped (s : Model) : Prop :=
  ∃ w1 bb1 w2 bb2,
    W1 s = Some w1 ∧ b1 s = Some bb1 ∧ W2 s = Some w2 ∧ b2 s = Some bb2
    ∧ (0 < length bb2)%nat ∧ w2 ≠ []
    ∧ Forall (λ row, length row = length bb2) w2.

(** Following the specification's words for the sparse update: one
    application of the Adam rule to one occurrence of row [idx], reading the
    moments, the embedding row and the shared step counter as they are in
    the state at that moment, and writing the three rows back. *)
Definition row_update (lr : R) (grad : list R) (s : Model) (idx : nat) : Model :=
  match embed_m s !! idx, embed_v s !! idx, embeddings s !! idx with
  | Some m_row, Some v_row, Some e_row =>
      let m_new := zip_with (λ mi g, 0.9 * mi + (1 - 0.9) * g) m_row grad in
      let v_new := zip_with (λ vi g, 0.999 * vi + (1 - 0.999) * g ^ 2) v_row grad in
      let m_hat := map (λ mi, mi / (1 - 0.9 ^ embed_t s)) m_new in
      let v_hat := map (λ vi, vi / (1 - 0.999 ^ embed_t s)) v_new in
      let step := zip_with (λ mh vh, lr * mh / (sqrt vh + 1e-8)) m_hat v_hat in
      set_embeddings (<[idx := vsub e_row step]> (embeddings s))
        (set_embed_v (<[idx := v_new]> (embed_v s))
           (set_embed_m (<[idx := m_new]> (embed_m s)) s))
  | _, _, _ => s
  end.

(** The updates of one sample, one row occurrence after the other, each on
    the state the previous one left; then the samples of a batch, one after
    the other. *)
Definition sample_update (lr : R) (s : Model) (sample : list R * list nat) : Model :=
  fold_left (row_update lr (vdiv sample.1 (INR (length sample.2)))) sample.2 s.

Definition batch_update (lr : R) (samples : list (list R * list nat)) (s : Model) : Model :=
  fold_left (sample_update lr) samples s.

(** Row [idx] exists in the embedding table and in both moment tables. *)
Definition in_tables (s : Model) (idx : nat) : Prop :=
  (idx < length (embed_m s))%nat ∧ (idx < length (embed_v s))%nat
  ∧ (idx < length (embeddings s))%nat.

(** The embedding side of the model is unchanged: the table, both moment
    tables and the step counter (and the configuration and dictionary they
    are read with). *)
Definition same_tables (s s' : Model) : Prop :=
  embeddings s' = embeddings s ∧ embed_m s' = embed_m s ∧ embed_v s' = embed_v s
  ∧ embed_t s' = embed_t s ∧ config s' = config s ∧ kmer_to_idx s' = kmer_to_idx s.

(** The anchors of a contrastive batch applied in order: anchor [i] draws
    from the random source and then applies [sample_update], with some
    gradient and its own index list [anchor_indices[i]], to the state the
    previous anchors left. *)
Inductive anchors_applied (lr : R) (anchor_indices : list (list nat))
  : list nat → Model → Model → Prop :=
  | applied_nil (s : Model) : anchors_applied lr anchor_indices [] s s
  | applied_cons (i : nat) (rest : list nat) (s s' : Model)
      (g : RandomState) (d : list R) (indices : list nat) :
      anchor_indices !! i = Some indices →
      anchors_applied lr anchor_indices rest
        (sample_update lr (set_rng g s) (d, indices)) s' →
      anchors_applied lr anchor_indices (i :: rest) s s'.

(** The state after a batch step that touched no embedding row: the random
    source has moved on and the step counter is one higher. *)
Definition advance (g : RandomState) (s : Model) : Model :=
  set_rng g (set_embed_t (S (embed_t s)) s).

(** No window of the sequence is a k-mer of the dictionary. *)
Definition no_valid_window (s : Model) (sequence : string) : Prop :=
  kmer_indices (kmer_length (config s)) (kmer_to_idx s) sequence = [].

(** Everything [encode] reads is unchanged. *)
Definition same_encoder (s s' : Model) : Prop :=
  config s' = config s ∧ kmers s' = kmers s ∧ kmer_to_idx s' = kmer_to_idx s
  ∧ embeddings s' = embeddings s.

(** The step counter is unchanged. *)
Definition same_embed_t (s s' : Model) : Prop := embed_t s' = embed_t s.

(** The step counter went up by exactly one. *)
Definition embed_t_incremented (s s' : Model) : Prop := embed_t s' = S (embed_t s).

(** The model with its classifier attributes removed. *)
Definition forget_classifier (s : Model) : Model :=
  set_opt_b2 None (set_opt_W2 None (set_opt_b1 None (set_opt_W1 None
    (set_b2 None (set_W2 None (set_b1 None (set_W1 None s))))))).

(** [finetune] after its initialisation block: the epoch loop and the
    [is_finetuned] flag. *)
Definition finetune_epochs_part (train_seqs : list string) (train_labels : list nat)
    (val_seqs : list string) (val_labels : list nat) : M Model TrainingRun :=
  cfg ← gets config;
  run ← epoch_loop (finetune_train_epoch train_seqs train_labels)
                   (match val_seqs with
                    | [] => None
                    | _ :: _ => Some (finetune_validate val_seqs val_labels)
                    end)
                   (patience cfg) (min_delta cfg)
                   (finetune_epochs cfg) O initial_run;
  modify (set_is_finetuned true);;
  ret run.

End EncoderSpec.

(** The first position of a maximum of a row. *)
Definition is_first_argmax (row : list R) (i : nat) : Prop :=
  (i < length row)%nat
  ∧ (∀ j, (j < length row)%nat → nth j row 0 <= nth i row 0)
  ∧ (∀ j, (j < i)%nat → nth j row 0 < nth i row 0).

(** ** A deterministic random source

    Used for the worked examples: the state counts the calls, [random()] is
    always [1/2], [choice] takes the first element, [permutation] and
    [shuffle] keep the order, and [randn] is the all-ones matrix. *)

Definition fixed_rng : RandomSource.
Proof.
  refine {| RandomState := nat;
            rng_seed := λ seed, seed;
            rng_random := λ g, (1 / 2, S g);
            rng_choice := λ l g, (hd "A"%char l, S g);
            rng_permutation := λ n g, (seq 0 n, S g);
            rng_shuffle := λ l g, (l, S g);
            rng_randn := λ r c g, (replicate r (replicate c 1), S g) |}.
  - intros n s. reflexivity.
  - intros l s. reflexivity.
  - intros r c s. split.
    + apply length_replicate.
    + apply Forall_replicate, length_replicate.
Defined.

(** ** A small model for the worked examples

    [HybridConfig(dim=2, kmer_length=1, num_classes=2, mlp_hidden=2,
    patience=2)] with the other fields at their defaults, and the object
    [HybridHDCModel(config, seed=0)] built on [fixed_rng]. *)

Definition tiny_config : HybridConfig := {|
  dim := 2; kmer_length := 1; num_classes := 2;
  contrastive_lr := 0.01; contrastive_epochs := 20; temperature := 0.1;
  num_negatives := 8;
  finetune_lr := 0.001; finetune_epochs := 50; l2_reg := 0.001;
  mlp_hidden := 2; patience := 2; min_delta := 0.001 |}.

(** The same configuration with a single class: every prediction is class 0
    and the validation accuracy on a set labelled 0 is 1 in every epoch. *)
Definition single_class_config : HybridConfig := {|
  dim := 2; kmer_length := 1; num_classes := 1;
  contrastive_lr := 0.01; contrastive_epochs := 20; temperature := 0.1;
  num_negatives := 8;
  finetune_lr := 0.001; finetune_epochs := 50; l2_reg := 0.001;
  mlp_hidden := 2; patience := 2; min_delta := 0.001 |}.

Definition tiny_embeddings : list (list R) :=
  map (vscale (sqrt (2 / INR 2))) (replicate 4 (replicate 2 1)).

(** The weights [finetune] draws for [tiny_model]; [tiny_fitted] below is
    [tiny_model] after the classifier initialisation of [finetune]. *)
Definition tiny_fitted_W1 : list (list R) :=
  map (vscale (sqrt (2 / INR 2))) (replicate 2 (replicate 2 1)).

Definition tiny_model : @Model fixed_rng :=
  @Build_Model fixed_rng
    tiny_config 1%nat tiny_embeddings
    Kmer.bases (Kmer.build_kmer_to_idx Kmer.bases)
    None None None None
    None None None None
    (map (map (λ _, 0)) tiny_embeddings) (map (map (λ _, 0)) tiny_embeddings)
    O false false.

Definition tiny_fitted : @Model fixed_rng :=
  @Build_Model fixed_rng
    tiny_config 3%nat tiny_embeddings
    Kmer.bases (Kmer.build_kmer_to_idx Kmer.bases)
    (Some tiny_fitted_W1) (Some (zeros 2)) (Some tiny_fitted_W1) (Some (zeros 2))
    (Some (Adam.init tiny_fitted_W1 0.001)) (Some (Adam.init (zeros 2) 0.001))
    (Some (Adam.init tiny_fitted_W1 0.001)) (Some (Adam.init (zeros 2) 0.001))
    (map (map (λ _, 0)) tiny_embeddings) (map (map (λ _, 0)) tiny_embeddings)
    O false false.

(** ** A scripted run for the early-stopping examples

    The state is the number of validations done so far; training does
    nothing and reports loss [0]; validation reads the next accuracy from a
    script (and repeats [0] when the script is exhausted). *)

Definition scripted_train : M nat R := λ n, (Ok 0, n).

Definition scripted_validate (script : list R) : M nat R :=
  λ n, (Ok (nth n script 0), S n).

(** ** The baseline encoder ([BaselineHDC])

    A table of random bits, one row per k-mer; a sequence is encoded as the
    bitwise majority of the rows of its valid windows.  The constructor
    draws the table with [rng.randint(0, 2, (num_kmers, dim))] from a
    generator of its own. *)

Class BitSource (rs : RandomSource) : Type := {
  rng_randint2 : nat → nat → RandomState → list (list R) * RandomState;
  rng_randint2_shape : ∀ r c g,
    length (rng_randint2 r c g).1 = r
    ∧ Forall (λ row, length row = c ∧ Forall (λ x, x = 0 ∨ x = 1) row)
             (rng_randint2 r c g).1
}.

Module Baseline.

Record BaselineHDC : Type := {
  dim : nat;
  kmer_length : nat;
  embeddings : list (list R);
  kmers : list string;
  kmer_to_idx : gmap string nat
}.

(** [BaselineHDC(dim, kmer_length, seed)] *)
Definition init {rs : RandomSource} {bits : BitSource rs}
    (dim0 kmer_length0 seed : nat) : result BaselineHDC :=
  match random_state seed with
  | Raise e => Raise e
  | Ok g =>
      let num_kmers := (4 ^ kmer_length0)%nat in
      let (E, _) := rng_randint2 num_kmers dim0 g in
      match Kmer.generate_kmers kmer_length0 with
      | Raise e => Raise e
      | Ok ks =>
          Ok {| dim := dim0; kmer_length := kmer_length0; embeddings := E;
                kmers := ks; kmer_to_idx := Kmer.build_kmer_to_idx ks |}
      end
  end.

(** The loop [for i in range(len(sequence) - k + 1)] of [encode] over the
    window positions still to visit, with the running [acc] and [count]. *)
Fixpoint accumulate (b : BaselineHDC) (sequence : string) (windows : list nat)
    (acc : list R) (count : nat) : result (list R * nat) :=
  match windows with
  | [] => Ok (acc, count)
  | i :: rest =>
      match kmer_to_idx b !! upper (substring i (kmer_length b) sequence) with
      | None => accumulate b sequence rest acc count
      | Some idx =>
          match py_index (embeddings b) idx with
          | Ok row => accumulate b sequence rest (vadd acc row) (S count)
          | Raise e => Raise e
          end
      end
  end.

(** [encode(sequence)]: [(acc > count / 2).astype(np.float32)] *)
Definition encode (b : BaselineHDC) (sequence : string) : result (list R) :=
  let k := kmer_length b in
  if bool_decide (String.length sequence < k)%nat then Ok (zeros (dim b)) else
  match accumulate b sequence (seq 0 (String.length sequence + 1 - k)) (zeros (dim b)) O with
  | Raise e => Raise e
  | Ok (acc, count) =>
      if bool_decide (count = O) then Ok (zeros (dim b))
      else Ok (map (λ a, if Rlt_dec (INR count / 2) a then 1 else 0) acc)
  end.

(** [encode_batch(sequences)] *)
Definition encode_batch (b : BaselineHDC) (sequences : list string)
  : result (list (list R)) :=
  match result_all (map (encode b) sequences) with
  | Raise e => Raise e
  | Ok rows => np_stack rows
  end.

End Baseline.

(** What the constructor of the baseline establishes. *)
Definition baseline_ok (b : Baseline.BaselineHDC) : Prop :=
  (1 ≤ Baseline.kmer_length b)%nat
  ∧ Kmer.generate_kmers (Baseline.kmer_length b) = Ok (Baseline.kmers b)
  ∧ Baseline.kmer_to_idx b = Kmer.build_kmer_to_idx (Baseline.kmers b)
  ∧ length (Baseline.embeddings b) = (4 ^ Baseline.kmer_length b)%nat
  ∧ Forall (λ row, length row = Baseline.dim b ∧ Forall (λ x, x = 0 ∨ x = 1) row)
           (Baseline.embeddings b).

(** The table rows of the windows of [sequence] whose upper-cased content is
    a valid k-mer, in window order. *)
Definition baseline_window_rows (b : Baseline.BaselineHDC) (sequence : string)
  : list (list R) :=
  let k := Baseline.kmer_length b in
  omap (λ i, let w := upper (substring i k sequence) in
             if is_valid_kmer k w then Baseline.embeddings b !! Kmer.kmer_rank w else None)
       (seq 0 (String.length sequence + 1 - k)).

(** Bit [j] of the majority vote over [rows]: 1 when the rows with a 1 at
    [j] are more than half of them, 0 otherwise (also on a tie). *)
Definition majority_bit (rows : list (list R)) (j : nat) : R :=
  if Rlt_dec (INR (length rows) / 2) (vsum (map (λ r, nth j r 0) rows)) then 1 else 0.

(** The number of rows with a 1 at position [j]. *)
Fixpoint ones_at (rows : list (list R)) (j : nat) : nat :=
  match rows with
  | [] => O
  | r :: rs => ((if Req_dec_T (nth j r 0%R) 1%R then 1 else 0) + ones_at rs j)%nat
  end.

(** A baseline object for the worked examples: [dim = 2], [k = 1], the rows
    of A, C, G, T being 10, 01, 11, 00. *)
Definition tiny_baseline : Baseline.BaselineHDC :=
  {| Baseline.dim := 2; Baseline.kmer_length := 1;
     Baseline.embeddings := [[1; 0]; [0; 1]; [1; 1]; [0; 0]];
     Baseline.kmers := Kmer.bases;
     Baseline.kmer_to_idx := Kmer.build_kmer_to_idx Kmer.bases |}.

(** A source of bits for the worked examples: all zeros. *)
Definition fixed_bits : BitSource fixed_rng.
Proof.
  refine {| rng_randint2 := λ r c (g : @RandomState fixed_rng),
                              (replicate r (replicate c 0), S g) |}.
  intros r c g. split; [apply length_replicate|].
  apply Forall_replicate. split; [apply length_replicate|].
  apply Forall_replicate. by left.
Defined.

(** ** [knn_predict]

    [train_vecs] and [test_vecs] are two-dimensional arrays with rows of the
    same length; labels are integers.  [np.argsort] is an interface: its
    default sort is not stable, so the order of ties is that of numpy's
    implementation; what numpy promises is a permutation of the positions
    along which the values do not decrease. *)

Class Argsort : Type := {
  argsort : list R → list nat;
  argsort_perm : ∀ l, argsort l ≡ₚ seq 0 (length l);
  argsort_sorted : ∀ l, StronglySorted (λ a b, nth a l 0 <= nth b l 0) (argsort l)
}.

(** [train_vecs.max()]: the maximum over all entries. *)
Definition matrix_max (A : list (list R)) : result R := np_max (concat A).

(** One entry of [train_vecs @ tv / (norm(train_vecs, axis=1) * norm(tv) + 1e-10)] *)
Definition cosine_score (row tv : list R) : R :=
  dot row tv / (norm row * norm tv + 1e-10).

(** One entry of [np.mean(train_vecs == tv, axis=1)] *)
Definition hamming_similarity (row tv : list R) : R :=
  vsum (zip_with (λ a b, if Req_dec_T a b then 1 else 0) row tv) / INR (length row).

Definition knn_similarities (train_vecs : list (list R)) (tv : list R) : result (list R) :=
  match matrix_max train_vecs with
  | Raise e => Raise e
  | Ok mx =>
      if Rlt_dec 1 mx then Ok (map (λ row, cosine_score row tv) train_vecs)
      else Ok (map (λ row, hamming_similarity row tv) train_vecs)
  end.

(** [l[-k:]] for [k >= 0]: the last [k] elements, all of them when [k] is 0
    (the slice is then [l[0:]]) or at least the length. *)
Definition last_k {A : Type} (k : nat) (l : list A) : list A :=
  if bool_decide (k = O) then l else drop (length l - k) l.

(** [collections.Counter]: the counts, keyed in order of first occurrence. *)
Fixpoint counter_add (x : nat) (counter : list (nat * nat)) : list (nat * nat) :=
  match counter with
  | [] => [(x, 1%nat)]
  | (y, c) :: rest =>
      if bool_decide (y = x) then (y, S c) :: rest else (y, c) :: counter_add x rest
  end.

Definition Counter (votes : list nat) : list (nat * nat) :=
  fold_left (λ counter x, counter_add x counter) votes [].

(** [counter.most_common(1)]: the first entry with the largest count. *)
Definition most_common_1 (counter : list (nat * nat)) : list (nat * nat) :=
  match counter with
  | [] => []
  | p :: rest => [fold_left (λ best q, if (best.2 <? q.2)%nat then q else best) rest p]
  end.

(** The body of the loop [for tv in test_vecs]. *)
Definition knn_vote {A : Argsort} (train_vecs : list (list R)) (train_labels : list nat)
    (k : nat) (tv : list R) : result nat :=
  match knn_similarities train_vecs tv with
  | Raise e => Raise e
  | Ok sims =>
      let top_k := last_k k (argsort sims) in
      match take_rows train_labels top_k with
      | Raise e => Raise e
      | Ok votes =>
          match py_index (most_common_1 (Counter votes)) 0 with
          | Raise e => Raise e
          | Ok entry => Ok entry.1
          end
      end
  end.

(** [knn_predict(train_vecs, train_labels, test_vecs, k)] *)
Definition knn_predict {A : Argsort} (train_vecs : list (list R)) (train_labels : list nat)
    (test_vecs : list (list R)) (k : nat) : result (list nat) :=
  result_all (map (knn_vote train_vecs train_labels k) test_vecs).

(** [np.argsort] by a stable merge sort, for the worked examples. *)
Definition stable_argsort : Argsort.
Proof.
  refine {| argsort := λ l, @merge_sort nat (λ a b, nth a l 0 <= nth b l 0)
                                        (λ a b, Rle_dec (nth a l 0) (nth b l 0))
                                        (seq 0 (length l)) |}.
  - intros l. apply merge_sort_Permutation.
  - intros l. apply StronglySorted_merge_sort.
    + intros a b c. apply Rle_trans.
    + intros a b. destruct (Rle_dec (nth a l 0) (nth b l 0)); [by left | right; lra].
Defined.

(** The number of votes for a label. *)
Definition count_label (y : nat) (votes : list nat) : nat :=
  length (filter (λ v, v = y) votes).

(** [counter[y]]: the count recorded for a label, 0 when it has no entry. *)
Definition counter_get (y : nat) (counter : list (nat * nat)) : nat :=
  foldr (λ p acc, if bool_decide (p.1 = y) then (p.2 + acc)%nat else acc) O counter.

(** What no method of the model writes after construction: the
    configuration and the vocabulary; and what fine-tuning in particular
    leaves alone, the [is_pretrained] flag. *)
Definition same_vocabulary {rs : RandomSource} (s s' : Model) : Prop :=
  config s' = config s ∧ kmers s' = kmers s ∧ kmer_to_idx s' = kmer_to_idx s
  ∧ is_pretrained s' = is_pretrained s.

(** ** The bookkeeping of the early-stopping loop

    What the loop of [finetune] keeps true of its variables after [n] epochs
    with validation: both histories have [n] entries, [patience_counter]
    counts the epochs since [best_epoch], [best_val_acc] is the accuracy
    recorded at [best_epoch] (0 when there was no improving epoch), and no
    recorded accuracy exceeds it by more than [min_delta]. *)
Definition run_consistent (min_delta : R) (n : nat) (run : TrainingRun) : Prop :=
  length (train_loss run) = n ∧ length (val_acc run) = n
  ∧ (best_epoch run ≤ n)%nat
  ∧ patience_counter run = (n - best_epoch run)%nat
  ∧ (best_epoch run = O → best_val_acc run = 0)
  ∧ (∀ e, best_epoch run = S e → val_acc run !! e = Some (best_val_acc run))
  ∧ Forall (λ a, a <= best_val_acc run + min_delta) (val_acc run).

(** ** Cross-validation of the baseline ([validate_real_data.py])

    [evaluate_baseline] draws one permutation of the sample positions from
    numpy's global generator, cuts it into [n_folds] consecutive folds, and
    scores [knn_predict] on each fold with the encodings of one
    [BaselineHDC] object. *)

#[export] Instance result_ret : MRet result := λ A a, Ok a.
#[export] Instance result_bind : MBind result :=
  λ A B f r, match r with Ok a => f a | Raise e => Raise e end.

(** [l[a:b]] for [a, b >= 0] *)
Definition py_slice {A : Type} (a b : nat) (l : list A) : list A :=
  take (b - a) (drop a l).

(** The positions validated on and trained on in one pass of
    [for fold in range(n_folds)]. *)
Definition fold_split (indices : list nat) (n n_folds fold_size fold : nat)
  : list nat * list nat :=
  let val_start := (fold * fold_size)%nat in
  let val_end :=
    if bool_decide (fold < n_folds - 1)%nat then (val_start + fold_size)%nat else n in
  let val_idx := py_slice val_start val_end indices in
  let train_idx := take val_start indices ++ drop val_end indices in
  (val_idx, train_idx).

(** [np.mean] and [np.std] of a list of numbers *)
Definition np_mean (a : list R) : R := vsum a / INR (length a).
Definition np_std (a : list R) : R :=
  sqrt (np_mean (map (λ x, Rabs (x - np_mean a) ^ 2) a)).

Record CVResult : Type := {
  fold_accs : list R;
  mean_acc : R;
  std_acc : R
}.

(** The body of the loop of [evaluate_baseline]. *)
Definition evaluate_baseline_fold {A : Argsort} (baseline : Baseline.BaselineHDC)
    (sequences : list string) (labels : list nat) (indices : list nat)
    (n n_folds fold_size fold : nat) : result R :=
  let '(val_idx, train_idx) := fold_split indices n n_folds fold_size fold in
  train_seqs ← take_rows sequences train_idx;
  train_labels ← take_rows labels train_idx;
  val_seqs ← take_rows sequences val_idx;
  val_labels ← take_rows labels val_idx;
  train_vecs ← Baseline.encode_batch baseline train_seqs;
  val_vecs ← Baseline.encode_batch baseline val_seqs;
  preds ← knn_predict train_vecs train_labels val_vecs 5;
  Ok (accuracy preds val_labels).

(** [evaluate_baseline(dim, kmer_length, sequences, labels, n_folds, seed)] *)
Definition evaluate_baseline {rs : RandomSource} {bits : BitSource rs} {A : Argsort}
    (dim0 kmer_length0 : nat) (sequences : list string) (labels : list nat)
    (n_folds seed : nat) : result CVResult :=
  g ← random_state seed;
  let n := length sequences in
  let indices := (rng_permutation n g).1 in
  if bool_decide (n_folds = O) then Raise ZeroDivisionError else
  let fold_size := (n / n_folds)%nat in
  baseline ← Baseline.init dim0 kmer_length0 seed;
  accs ← result_all (map (evaluate_baseline_fold baseline sequences labels indices
                                                 n n_folds fold_size)
                         (seq 0 n_folds));
  Ok {| fold_accs := accs; mean_acc := np_mean accs; std_acc := np_std accs |}.

(** ** Cross-validation of the hybrid model ([validate_real_data.py])

    [cross_validate] is called with [model_class = HybridHDCModel]. *)

(** [int(x)] for [x >= 0] *)
Definition py_int (x : R) : nat := Z.to_nat (Int_part x).

(** The body of the loop of [cross_validate] from the pre-training on, run
    on the freshly constructed model. *)
Definition cross_validate_model {rs : RandomSource}
    (train_seqs : list string) (train_labels : list nat)
    (val_seqs : list string) (val_labels : list nat) : M Model R :=
  let all_seqs := train_seqs ++ val_seqs in
  _ ← contrastive_pretrain all_seqs;
  let split := py_int (0.8 * INR (length train_seqs)) in
  _ ← finetune (take split train_seqs) (take split train_labels)
               (drop split train_seqs) (drop split train_labels);
  preds ← predict val_seqs;
  ret (accuracy preds val_labels).

Definition cross_validate_fold {rs : RandomSource} (config0 : HybridConfig)
    (sequences : list string) (labels : list nat) (indices : list nat)
    (n n_folds fold_size seed fold : nat) : result R :=
  let '(val_idx, train_idx) := fold_split indices n n_folds fold_size fold in
  train_seqs ← take_rows sequences train_idx;
  train_labels ← take_rows labels train_idx;
  val_seqs ← take_rows sequences val_idx;
  val_labels ← take_rows labels val_idx;
  model ← init config0 (seed + fold);
  (cross_validate_model train_seqs train_labels val_seqs val_labels model).1.

(** [cross_validate(HybridHDCModel, config, sequences, labels, n_folds, seed)] *)
Definition cross_validate {rs : RandomSource} (config0 : HybridConfig)
    (sequences : list string) (labels : list nat) (n_folds seed : nat)
  : result CVResult :=
  g ← random_state seed;
  let n := length sequences in
  let indices := (rng_permutation n g).1 in
  if bool_decide (n_folds = O) then Raise ZeroDivisionError else
  let fold_size := (n / n_folds)%nat in
  accs ← result_all (map (cross_validate_fold config0 sequences labels indices
                                              n n_folds fold_size seed)
                         (seq 0 n_folds));
  Ok {| fold_accs := accs; mean_acc := np_mean accs; std_acc := np_std accs |}.

(** ** Export of the learned table ([export_learned_embeddings.py])

    [train_and_export] trains a model and writes the table as a JSON
    document, keyed by k-mer.  The document is modelled as a value; writing
    it to [output_path], the second file with the classifier weights and
    the file sizes reported in the return value are outside the model. *)

(** The loop
    [for kmer, idx in model.kmer_to_idx.items():
       embeddings[kmer] = model.embeddings[idx].tolist()].
    The keys of a dictionary are distinct, so the dictionary built does not
    depend on the order in which the items are visited. *)
Definition export_embeddings {rs : RandomSource} (s : Model) : result (gmap string vec) :=
  fold_left (λ (acc : result (gmap string vec)) (item : string * nat),
               exported ← acc;
               embedding ← py_index (embeddings s) item.2;
               Ok (<[item.1 := embedding]> exported))
            (map_to_list (kmer_to_idx s)) (Ok ∅).

(** [export_data], and [num_kmers = len(embeddings)] of the return value *)
Record ExportData : Type := {
  export_kmer_length : nat;
  export_dimension : nat;
  exported_embeddings : gmap string vec;
  num_kmers : nat
}.

(** The configuration used when [config is None]. *)
Definition export_default_config : HybridConfig :=
  {| dim := 1000; kmer_length := 6; num_classes := 2;
     contrastive_lr := contrastive_lr default_config;
     contrastive_epochs := 15;
     temperature := temperature default_config;
     num_negatives := num_negatives default_config;
     finetune_lr := finetune_lr default_config;
     finetune_epochs := 40;
     l2_reg := l2_reg default_config;
     mlp_hidden := mlp_hidden default_config;
     patience := 5;
     min_delta := min_delta default_config |}.

(** The body of [train_and_export] from the pre-training on, run on the
    freshly constructed model. *)
Definition train_and_export_model {rs : RandomSource} (sequences : list string)
    (labels : list nat) (config1 : HybridConfig) : M Model ExportData :=
  _ ← contrastive_pretrain sequences;
  let split := py_int (0.8 * INR (length sequences)) in
  _ ← finetune (take split sequences) (take split labels)
               (drop split sequences) (drop split labels);
  trained ← gets (λ model : Model, model);
  exported ← lift (export_embeddings trained);
  ret {| export_kmer_length := kmer_length config1;
         export_dimension := dim config1;
         exported_embeddings := exported;
         num_kmers := size exported |}.

(** [train_and_export(sequences, labels, output_path, config, seed)] *)
Definition train_and_export {rs : RandomSource} (sequences : list string)
    (labels : list nat) (config0 : option HybridConfig) (seed : nat) : result ExportData :=
  let config1 := default export_default_config config0 in
  model ← init config1 seed;
  (train_and_export_model sequences labels config1 model).1.

(** ** The synthetic promoter data ([generate_promoter_dataset])

    The generator draws whole arrays of bases and bounded integers; numpy
    documents that [choice(a, n)] returns [n] elements of [a] and that
    [randint(low, high)] lies in [[low, high)]. *)

Class DrawSource (rs : RandomSource) : Type := {
  rng_choice_n : list ascii → nat → RandomState → list ascii * RandomState;
  rng_randint : nat → nat → RandomState → nat * RandomState;
  rng_choice_n_spec : ∀ a n g,
    a ≠ [] → length (rng_choice_n a n g).1 = n ∧ Forall (λ c, c ∈ a) (rng_choice_n a n g).1;
  rng_randint_spec : ∀ low high g,
    (low < high)%nat → (low ≤ (rng_randint low high g).1 < high)%nat
}.

(** A source of draws for the worked examples: the first base, the lower
    bound. *)
Definition fixed_draws : DrawSource fixed_rng.
Proof.
  refine {| rng_choice_n := λ a n (g : @RandomState fixed_rng),
                              (replicate n (hd "A"%char a), S g);
            rng_randint := λ low high (g : @RandomState fixed_rng), (low, S g) |}.
  - intros a n g Ha. split; [apply length_replicate|].
    apply Forall_replicate. destruct a; [done | by left].
  - intros low high g Hlt. cbn. lia.
Defined.

(** [seq[i] = c] on a Python list *)
Definition py_setitem {A : Type} (l : list A) (i : nat) (x : A) : result (list A) :=
  if bool_decide (i < length l)%nat then Ok (<[i := x]> l) else Raise IndexError.

(** [for j, c in enumerate(box): if pos + j < seq_length: seq[pos + j] = c],
    from the [j]-th character of the box on. *)
Fixpoint insert_box (box : list ascii) (pos j seq_length : nat) (seq : list ascii)
  : result (list ascii) :=
  match box with
  | [] => Ok seq
  | c :: box' =>
      if bool_decide (pos + j < seq_length)%nat then
        seq' ← py_setitem seq (pos + j) c;
        insert_box box' pos (S j) seq_length seq'
      else insert_box box' pos (S j) seq_length seq
  end.

Definition tata_box : list ascii := list_ascii_of_string "TATAAA".
Definition caat_box : list ascii := list_ascii_of_string "CCAAT".
Definition gc_box : list ascii := list_ascii_of_string "GGGCGG".

(** A call on the local generator [rng]. *)
Definition draw {rs : RandomSource} {A : Type} (f : RandomState → A * RandomState)
  : M RandomState A :=
  λ g, let (a, g') := f g in (Ok a, g').

(** The body of [for i in range(n_samples)]: the sequence and the label
    appended in pass [i]. *)
Definition generate_sample {rs : RandomSource} {draws : DrawSource rs}
    (n_samples seq_length i : nat) : M RandomState (string * nat) :=
  seq0 ← draw (rng_choice_n base_chars seq_length);
  if bool_decide (i < n_samples / 2)%nat then
    pos ← draw (rng_randint 20 30);
    seq1 ← lift (insert_box tata_box pos 0 seq_length seq0);
    u ← draw rng_random;
    seq2 ← (if Rlt_dec u 0.6 then
              caat_pos ← draw (rng_randint 45 55);
              lift (insert_box caat_box caat_pos 0 seq_length seq1)
            else ret seq1);
    u' ← draw rng_random;
    seq3 ← (if Rlt_dec u' 0.3 then
              gc_pos ← draw (rng_randint 60 70);
              lift (insert_box gc_box gc_pos 0 seq_length seq2)
            else ret seq2);
    ret (string_of_list_ascii seq3, 1%nat)
  else ret (string_of_list_ascii seq0, O).

(** [generate_promoter_dataset(n_samples, seq_length, seed)] *)
Definition generate_promoter_dataset {rs : RandomSource} {draws : DrawSource rs}
    (n_samples seq_length seed : nat) : result (list string * list nat) :=
  rng ← random_state seed;
  ((samples ← mapM (generate_sample n_samples seq_length) (seq 0 n_samples);
    let sequences := samples.*1 in
    let labels := samples.*2 in
    idx ← draw (rng_permutation (length sequences));
    shuffled_sequences ← lift (take_rows sequences idx);
    shuffled_labels ← lift (take_rows labels idx);
    ret (shuffled_sequences, shuffled_labels)) rng).1.

(** * Part II: properties *)

(** ** The k-mer vocabulary *)

Example generate_kmers_2 :
  Kmer.generate_kmers 2 =
  Ok ["AA"; "AC"; "AG"; "AT"; "CA"; "CC"; "CG"; "CT";
      "GA"; "GC"; "GG"; "GT"; "TA"; "TC"; "TG"; "TT"]%string.
Proof. reflexivity. Qed.

Example kmer_to_idx_GT :
  ∃ kmers, Kmer.generate_kmers 2 = Ok kmers
           ∧ Kmer.build_kmer_to_idx kmers !! "GT"%string = Some 11%nat
           ∧ Kmer.build_kmer_to_idx kmers !! "GN"%string = None.
Proof. eexists. split; [reflexivity|]. split; vm_compute; reflexivity. Qed.

Example kmer_indices_mixed_case :
  kmer_indices 2 (Kmer.build_kmer_to_idx
                    ["AA"; "AC"; "AG"; "AT"; "CA"; "CC"; "CG"; "CT";
                     "GA"; "GC"; "GG"; "GT"; "TA"; "TC"; "TG"; "TT"]%string)
               "acNgT" = [1; 11]%nat.
Proof. vm_compute. reflexivity. Qed.

Section KmerFacts.

Import Kmer.

Lemma prepend_bases_unfold (smaller : list string) :
  prepend_bases smaller =
  map (String "A") smaller ++ map (String "C") smaller ++
  map (String "G") smaller ++ map (String "T") smaller.
Proof.
  unfold prepend_bases, bases. simpl. rewrite app_nil_r. reflexivity.
Qed.

Lemma kmer_rank_bound (s : string) :
  all_bases s = true → (kmer_rank s < 4 ^ String.length s)%nat.
Proof.
  induction s as [|c s IH]; simpl; intros H.
  - lia.
  - apply andb_prop in H as [Hc Hs]. specialize (IH Hs).
    assert (base_digit c ≤ 3)%nat.
    { unfold base_digit. repeat case_bool_decide; lia. }
    nia.
Qed.

Lemma is_base_cases (c : ascii) :
  is_base c = true →
  (c = "A" ∨ c = "C" ∨ c = "G" ∨ c = "T")%char.
Proof. unfold is_base. intros H. apply bool_decide_eq_true in H. exact H. Qed.


Lemma valid_kmer_cons (k : nat) (c : ascii) (s : string) :
  valid_kmer (S k) (String c s) ↔ is_base c = true ∧ valid_kmer k s.
Proof.
  unfold valid_kmer. simpl. rewrite andb_true_iff. split.
  - intros [Hl [Hc Hs]]. split; [done|]. split; [lia | done].
  - intros [Hc [Hl Hs]]. split; [lia | done].
Qed.

Lemma valid_kmer_0 (s : string) : valid_kmer 0 s ↔ s = EmptyString.
Proof.
  unfold valid_kmer. split.
  - intros [Hl _]. destruct s; [done | simpl in Hl; lia].
  - intros ->. done.
Qed.

Lemma elem_of_prepend_bases (smaller : list string) (s : string) :
  s ∈ prepend_bases smaller ↔
  ∃ c s', s = String c s' ∧ is_base c = true ∧ s' ∈ smaller.
Proof.
  rewrite prepend_bases_unfold. rewrite !elem_of_app.
  rewrite !list_elem_of_In. rewrite !in_map_iff. split.
  - intros [H | [H | [H | H]]]; destruct H as (s' & <- & Hin);
      eexists _, s'; (split; [reflexivity|]); split;
      try (apply list_elem_of_In; exact Hin); reflexivity.
  - intros (c & s' & -> & Hc & Hin). apply list_elem_of_In in Hin.
    apply is_base_cases in Hc as [-> | [-> | [-> | ->]]]; eauto 10.
Qed.

Lemma NoDup_map_String (c : ascii) (l : list string) :
  NoDup l → NoDup (map (String c) l).
Proof.
  intros H.
  assert (Hinj : Inj (=) (=) (String c)) by (intros x y Heq; congruence).
  exact (NoDup_fmap_2 (String c) l H).
Qed.

Lemma NoDup_prepend_bases (smaller : list string) :
  NoDup smaller → NoDup (prepend_bases smaller).
Proof.
  intros H. rewrite prepend_bases_unfold.
  repeat (apply NoDup_app; split; [by apply NoDup_map_String | split]);
    try by apply NoDup_map_String.
  all: intros x Hx; rewrite ?elem_of_app; rewrite !list_elem_of_In;
    rewrite list_elem_of_In in Hx; rewrite !in_map_iff;
    apply in_map_iff in Hx as (s' & <- & _);
    intros Hc; repeat destruct Hc as [Hc | Hc]; destruct Hc as (? & Hc & _);
    discriminate Hc.
Qed.

Lemma lookup_prepend_bases (smaller : list string) (c : ascii) (j : nat) (s : string) :
  is_base c = true → smaller !! j = Some s →
  prepend_bases smaller !! (base_digit c * length smaller + j)%nat = Some (String c s).
Proof.
  intros Hc Hj. rewrite prepend_bases_unfold.
  pose proof (lookup_lt_Some _ _ _ Hj) as Hlt.
  assert (Hm : ∀ b, map (String b) smaller !! j = Some (String b s)).
  { intros b. change (map (String b) smaller) with (String b <$> smaller).
    rewrite list_lookup_fmap, Hj. reflexivity. }
  assert (Hlen : ∀ b, length (map (String b) smaller) = length smaller).
  { intros b. apply length_map. }
  apply is_base_cases in Hc as [-> | [-> | [-> | ->]]].
  all: match goal with
       | |- context [base_digit ?c] =>
           let d := eval vm_compute in (base_digit c) in
           change (base_digit c) with d
       end.
  - rewrite lookup_app_l by (rewrite Hlen; lia).
    replace (0 * length smaller + j)%nat with j by lia. apply Hm.
  - rewrite lookup_app_r by (rewrite Hlen; lia). rewrite Hlen.
    replace (1 * length smaller + j - length smaller)%nat with j by lia.
    rewrite lookup_app_l by (rewrite Hlen; lia). apply Hm.
  - rewrite lookup_app_r by (rewrite Hlen; lia). rewrite Hlen.
    rewrite lookup_app_r by (rewrite Hlen; lia). rewrite Hlen.
    replace (2 * length smaller + j - length smaller - length smaller)%nat with j by lia.
    rewrite lookup_app_l by (rewrite Hlen; lia). apply Hm.
  - rewrite lookup_app_r by (rewrite Hlen; lia). rewrite Hlen.
    rewrite lookup_app_r by (rewrite Hlen; lia). rewrite Hlen.
    rewrite lookup_app_r by (rewrite Hlen; lia). rewrite Hlen.
    replace (3 * length smaller + j - length smaller - length smaller - length smaller)%nat
      with j by lia.
    apply Hm.
Qed.


Lemma generate_kmers_S (k : nat) :
  generate_kmers (S (S k)) =
  match generate_kmers (S k) with
  | Ok smaller => Ok (prepend_bases smaller)
  | Raise e => Raise e
  end.
Proof. reflexivity. Qed.

(** The list [generate_kmers] returns, by rank. *)
Lemma generate_kmers_ok (k : nat) :
  ∃ l, generate_kmers (S k) = Ok l
     ∧ length l = (4 ^ S k)%nat
     ∧ NoDup l
     ∧ (∀ s, valid_kmer (S k) s → l !! kmer_rank s = Some s)
     ∧ (∀ s, s ∈ l → valid_kmer (S k) s).
Proof.
  induction k as [|k (l & Hgen & Hlen & Hnd & Hlook & Hval)].
  - exists bases. split; [reflexivity|]. split; [reflexivity|]. split.
    { apply (bool_decide_unpack _). vm_compute. exact I. }
    split.
    + intros [|c s] Hs; [destruct Hs as [Hs _]; discriminate Hs|].
      apply valid_kmer_cons in Hs as [Hc Hs]. apply valid_kmer_0 in Hs as ->.
      apply is_base_cases in Hc as [-> | [-> | [-> | ->]]]; reflexivity.
    + intros s Hs. unfold bases in Hs.
      repeat (apply elem_of_cons in Hs as [-> | Hs]; [by split|]).
      by apply elem_of_nil in Hs.
  - exists (prepend_bases l). split; [by rewrite generate_kmers_S, Hgen|].
    split.
    { rewrite prepend_bases_unfold, !length_app, !length_map, Hlen.
      change (4 ^ S (S k))%nat with (4 * 4 ^ S k)%nat. lia. }
    split; [by apply NoDup_prepend_bases|]. split.
    + intros [|c s] Hs; [destruct Hs as [Hs _]; discriminate Hs|].
      apply valid_kmer_cons in Hs as [Hc Hs].
      cbn [kmer_rank]. destruct Hs as [Hsl Hsb].
      rewrite Hsl, <- Hlen. apply lookup_prepend_bases; [done|].
      apply Hlook. by split.
    + intros s Hs. apply elem_of_prepend_bases in Hs as (c & s' & -> & Hc & Hin).
      apply valid_kmer_cons. split; [done|]. by apply Hval.
Qed.

(** The dictionary comprehension over [enumerate]: a key that is not in the
    list is left alone, and with distinct keys each key maps to its
    position. *)
Lemma fold_enumerate_notin (l : list string) (n : nat) (d : gmap string nat) (s : string) :
  s ∉ l →
  fold_left (λ d p, <[p.2 := p.1]> d) (enumerate_from n l) d !! s = d !! s.
Proof.
  revert n d. induction l as [|x l IH]; intros n d Hs; [reflexivity|].
  apply not_elem_of_cons in Hs as [Hne Hs]. cbn [enumerate_from fold_left].
  rewrite IH by done. cbn. by rewrite lookup_insert_ne.
Qed.

Lemma fold_enumerate_lookup (l : list string) (n j : nat) (d : gmap string nat) (s : string) :
  NoDup l → l !! j = Some s →
  fold_left (λ d p, <[p.2 := p.1]> d) (enumerate_from n l) d !! s = Some (n + j)%nat.
Proof.
  revert n j d. induction l as [|x l IH]; intros n j d Hnd Hj; [done|].
  apply NoDup_cons in Hnd as [Hx Hnd]. cbn [enumerate_from fold_left].
  destruct j as [|j]; cbn in Hj.
  - injection Hj as ->. rewrite fold_enumerate_notin by done. cbn.
    rewrite lookup_insert_eq. f_equal. lia.
  - rewrite (IH (S n) j) by done. f_equal. lia.
Qed.

Lemma build_kmer_to_idx_lookup (l : list string) (s : string) (i : nat) :
  NoDup l → (build_kmer_to_idx l !! s = Some i ↔ l !! i = Some s).
Proof.
  intros Hnd. unfold build_kmer_to_idx. split.
  - intros H. destruct (decide (s ∈ l)) as [Hin | Hin].
    + apply list_elem_of_lookup in Hin as [j Hj].
      rewrite (fold_enumerate_lookup l 0 j) in H by done.
      injection H as <-. exact Hj.
    + rewrite fold_enumerate_notin in H by done. by rewrite lookup_empty in H.
  - intros H. by rewrite (fold_enumerate_lookup l 0 i).
Qed.

Lemma build_kmer_to_idx_None (l : list string) (s : string) :
  s ∉ l → build_kmer_to_idx l !! s = None.
Proof.
  intros H. unfold build_kmer_to_idx. rewrite fold_enumerate_notin by done.
  apply lookup_empty.
Qed.

(** C8. For every [k >= 1], [generate_kmers k] returns [4^k] pairwise
    distinct strings, exactly the valid k-mers over A, C, G, T; and in the
    dictionary built from it every valid k-mer [s] has an index [i] below
    [4^k] (its base-4 rank) with [kmers[i] = s], which no other k-mer
    shares. *)
Theorem kmer_vocabulary_roundtrip (k : nat) :
  (1 ≤ k)%nat →
  ∃ kmers,
    generate_kmers k = Ok kmers
    ∧ length kmers = (4 ^ k)%nat
    ∧ NoDup kmers
    ∧ (∀ s, s ∈ kmers ↔ valid_kmer k s)
    ∧ ∀ s, valid_kmer k s →
        ∃ i, build_kmer_to_idx kmers !! s = Some i
           ∧ (i < 4 ^ k)%nat
           ∧ i = kmer_rank s
           ∧ kmers !! i = Some s
           ∧ ∀ s', build_kmer_to_idx kmers !! s' = Some i → s' = s.
Proof.
  intros Hk. destruct k as [|k]; [lia|].
  destruct (generate_kmers_ok k) as (l & Hgen & Hlen & Hnd & Hlook & Hval).
  exists l. split; [done|]. split; [done|]. split; [done|]. split.
  - intros s. split; [apply Hval|].
    intros Hs. apply list_elem_of_lookup. eauto.
  - intros s Hs. exists (kmer_rank s). split.
    { apply build_kmer_to_idx_lookup; [done|]. by apply Hlook. }
    split.
    { rewrite <- Hlen. eapply lookup_lt_Some. by apply Hlook. }
    split; [done|]. split; [by apply Hlook|].
    intros s' Hs'. apply build_kmer_to_idx_lookup in Hs'; [|done].
    rewrite (Hlook s Hs) in Hs'. congruence.
Qed.

Lemma kmer_vocabulary_roundtrip_witness :
  (1 ≤ 2)%nat ∧
  ∃ kmers,
    generate_kmers 2 = Ok kmers
    ∧ length kmers = (4 ^ 2)%nat
    ∧ NoDup kmers
    ∧ (∀ s, s ∈ kmers ↔ valid_kmer 2 s)
    ∧ ∀ s, valid_kmer 2 s →
        ∃ i, build_kmer_to_idx kmers !! s = Some i
           ∧ (i < 4 ^ 2)%nat
           ∧ i = kmer_rank s
           ∧ kmers !! i = Some s
           ∧ ∀ s', build_kmer_to_idx kmers !! s' = Some i → s' = s.
Proof. split; [lia | apply (kmer_vocabulary_roundtrip 2); lia]. Defined.

End KmerFacts.

(** ** AdamOptimizer *)

Section AdamFacts.

Lemma adam_first_step_elem (b1 b2 lr0 eps0 p g : R) :
  b1 ≠ 1 → b2 ≠ 1 →
  p - lr0 * ((b1 * 0 + (1 - b1) * g) / (1 - b1 ^ 1))
        / (sqrt ((b2 * 0 + (1 - b2) * g ^ 2) / (1 - b2 ^ 1)) + eps0)
  = p - lr0 * g / (Rabs g + eps0).
Proof.
  intros H1 H2.
  replace ((b1 * 0 + (1 - b1) * g) / (1 - b1 ^ 1)) with g by (field; lra).
  replace ((b2 * 0 + (1 - b2) * g ^ 2) / (1 - b2 ^ 1)) with (Rsqr g)
    by (unfold Rsqr; field; lra).
  by rewrite sqrt_Rsqr_abs.
Qed.

(** C2. [update] is the stated rule, element by element: the counter goes up
    by one, the moments are the exponential averages of the gradient and of
    its square, and the parameter moves by [lr * m_hat / (sqrt v_hat + eps)]
    with the bias-corrected moments.  From the all-zero state ([t = 0],
    [m = 0], [v = 0]) one update with gradient [g] therefore subtracts
    exactly [lr * g / (|g| + eps)] from every element. *)
Theorem adam_update_rule (o : Adam.AdamOptimizer vec) (param grad : vec) :
  (Adam.beta1 o ≠ 1 ∧ Adam.beta2 o ≠ 1) →
  let o' := (Adam.update o param grad).1 in
  let param' := (Adam.update o param grad).2 in
  (Adam.t o' = S (Adam.t o)
   ∧ Adam.lr o' = Adam.lr o ∧ Adam.beta1 o' = Adam.beta1 o
   ∧ Adam.beta2 o' = Adam.beta2 o ∧ Adam.eps o' = Adam.eps o
   ∧ ∀ i p g mi vi,
       param !! i = Some p → grad !! i = Some g →
       Adam.m o !! i = Some mi → Adam.v o !! i = Some vi →
       let m_new := Adam.beta1 o * mi + (1 - Adam.beta1 o) * g in
       let v_new := Adam.beta2 o * vi + (1 - Adam.beta2 o) * g ^ 2 in
       let m_hat := m_new / (1 - Adam.beta1 o ^ S (Adam.t o)) in
       let v_hat := v_new / (1 - Adam.beta2 o ^ S (Adam.t o)) in
       Adam.m o' !! i = Some m_new
       ∧ Adam.v o' !! i = Some v_new
       ∧ param' !! i = Some (p - Adam.lr o * m_hat / (sqrt v_hat + Adam.eps o)))
  ∧ (Adam.t o = O → Adam.m o = zeros (length grad) → Adam.v o = zeros (length grad) →
     length param = length grad →
     param' = zip_with (λ p g, p - Adam.lr o * g / (Rabs g + Adam.eps o)) param grad).
Proof.
  intros [Hb1 Hb2]. cbn zeta. split.
  - repeat (split; [reflexivity|]).
    intros i p g mi vi Hp Hg Hm Hv. unfold Adam.update.
    cbn [fst snd Adam.m Adam.v Adam.t ew_map ew_map2 vec_elementwise].
    rewrite !lookup_zip_with.
    change (map ?f ?l) with (f <$> l). rewrite !list_lookup_fmap, !lookup_zip_with.
    rewrite Hp, Hg, Hm, Hv. cbn. done.
  - intros Ht Hm Hv Hlen. unfold Adam.update. cbn. rewrite Ht, Hm, Hv.
    clear Ht Hm Hv. revert param Hlen.
    induction grad as [|g grad IH]; intros [|p param] Hlen; try done.
    cbn in Hlen. cbn. f_equal.
    + apply adam_first_step_elem; done.
    + apply IH. lia.
Qed.

Lemma adam_update_rule_witness :
  let o := Adam.init [0; 0] 0.001 in
  (Adam.update o [0.5; 0.5] [1; -2]).2
  = zip_with (λ p g, p - Adam.lr o * g / (Rabs g + Adam.eps o)) [0.5; 0.5] [1; -2].
Proof.
  cbn zeta.
  refine (proj2 (adam_update_rule (Adam.init [0; 0] 0.001) [0.5; 0.5] [1; -2] _) _ _ _ _).
  - cbn. split; lra.
  - reflexivity.
  - reflexivity.
  - reflexivity.
  - reflexivity.
Defined.

End AdamFacts.

(** ** Running monadic code *)

Ltac run_step :=
  unfold mbind, M_bind, mret, M_ret, bind, ret, gets, lift, raise, modify,
    require, with_rng.

Lemma bind_ok {S A B : Type} (c : M S A) (f : A → M S B) (s s' : S) (a : A) :
  c s = (Ok a, s') → (a ← c; f a) s = f a s'.
Proof. intros H. run_step. by rewrite H. Qed.

Lemma bind_ret_ok {S A B : Type} (c : M S A) (f : A → B) (s s' : S) (a : A) :
  c s = (Ok a, s') → (x ← c; ret (f x)) s = (Ok (f a), s').
Proof. intros H. run_step. by rewrite H. Qed.

Lemma bind_raise {S A B : Type} (c : M S A) (f : A → M S B) (s s' : S) (e : PyError) :
  c s = (Raise e, s') → (a ← c; f a) s = (Raise e, s').
Proof. intros H. run_step. by rewrite H. Qed.

(** Frame rules: a relation that is reflexive and transitive is preserved
    by sequencing and by the loops. *)
Section Frames.

Context {S : Type} (P : S → S → Prop) `{!Reflexive P} `{!Transitive P}.

Lemma preserves_ret {A : Type} (a : A) : preserves P (ret (S := S) a).
Proof. intros s. cbn. reflexivity. Qed.

Lemma preserves_mret {A : Type} (a : A) : preserves P (mret (M := M S) a).
Proof. intros s. cbn. reflexivity. Qed.

Lemma preserves_raise {A : Type} (e : PyError) : preserves P (raise (S := S) (A := A) e).
Proof. intros s. cbn. reflexivity. Qed.

Lemma preserves_gets {A : Type} (f : S → A) : preserves P (gets f).
Proof. intros s. cbn. reflexivity. Qed.

Lemma preserves_lift {A : Type} (r : result A) : preserves P (lift (S := S) r).
Proof. intros s. cbn. reflexivity. Qed.

Lemma preserves_modify (f : S → S) : (∀ s, P s (f s)) → preserves P (modify f).
Proof. intros H s. cbn. apply H. Qed.

Lemma preserves_bind {A B : Type} (c : M S A) (f : A → M S B) :
  preserves P c → (∀ a, preserves P (f a)) → preserves P (a ← c; f a).
Proof.
  intros Hc Hf s. run_step. specialize (Hc s).
  destruct (c s) as [[a|e] s1]; cbn in *; [|done].
  etransitivity; [exact Hc | apply Hf].
Qed.

Lemma preserves_if {A : Type} (b : bool) (c1 c2 : M S A) :
  preserves P c1 → preserves P c2 → preserves P (if b then c1 else c2).
Proof. by destruct b. Qed.

Lemma preserves_mapM {A B : Type} (f : A → M S B) (xs : list A) :
  (∀ x, preserves P (f x)) → preserves P (mapM f xs).
Proof.
  intros Hf. induction xs as [|x xs IH]; cbn [mapM].
  - apply preserves_ret.
  - apply preserves_bind; [apply Hf|]. intros y.
    apply preserves_bind; [apply IH|]. intros ys. apply preserves_ret.
Qed.

Lemma preserves_forM_ {A : Type} (xs : list A) (body : A → M S unit) :
  (∀ x, preserves P (body x)) → preserves P (forM_ xs body).
Proof.
  intros Hf. induction xs as [|x xs IH]; cbn [forM_].
  - apply preserves_ret.
  - apply preserves_bind; [apply Hf | intros _; apply IH].
Qed.

Lemma preserves_foldM {A B : Type} (body : B → A → M S B) (acc : B) (xs : list A) :
  (∀ b x, preserves P (body b x)) → preserves P (foldM body acc xs).
Proof.
  intros Hf. revert acc. induction xs as [|x xs IH]; intros acc; cbn [foldM].
  - apply preserves_ret.
  - apply preserves_bind; [apply Hf | intros b; apply IH].
Qed.

End Frames.

(** ** Lists of reals *)

Section VectorFacts.

Lemma nth_zip_with_R (f : R → R → R) (a b : list R) (j : nat) :
  (j < length a)%nat → (j < length b)%nat →
  nth j (zip_with f a b) 0 = f (nth j a 0) (nth j b 0).
Proof.
  revert b j. induction a as [|x a IH]; intros [|y b] [|j]; cbn; try lia; try done.
  intros Ha Hb. apply IH; lia.
Qed.

Lemma nth_map_R {A : Type} (f : A → R) (l : list A) (d : A) (j : nat) :
  (j < length l)%nat → nth j (map f l) 0 = f (nth j l d).
Proof.
  revert j. induction l as [|x l IH]; intros [|j]; cbn; try lia; try done.
  intros H. apply IH. lia.
Qed.

Lemma length_vadd (a b : list R) :
  length a = length b → length (vadd a b) = length a.
Proof. intros H. unfold vadd. rewrite length_zip_with. lia. Qed.

Lemma fold_vadd_shape (d : nat) (rs : list (list R)) (r : list R) :
  length r = d → Forall (λ row, length row = d) rs →
  length (fold_left vadd rs r) = d
  ∧ ∀ j, (j < d)%nat →
      nth j (fold_left vadd rs r) 0 = nth j r 0 + vsum (map (λ row, nth j row 0) rs).
Proof.
  revert r. induction rs as [|x rs IH]; intros r Hr Hrs.
  - split; [done|]. intros j Hj. cbn. lra.
  - apply Forall_cons in Hrs as [Hx Hrs]. cbn beta in Hx. cbn [fold_left].
    destruct (IH (vadd r x)) as [Hlen Hnth]; [|done|].
    { rewrite length_vadd; lia. }
    split; [done|]. intros j Hj. rewrite Hnth by done.
    unfold vadd. rewrite (nth_zip_with_R Rplus r x) by lia.
    unfold vsum. cbn. lra.
Qed.

(** numpy's [mean(axis=0)] is the arithmetic mean of the rows. *)
Lemma mean_axis0_arithmetic (d : nat) (rows : list (list R)) :
  rows ≠ [] → Forall (λ row, length row = d) rows →
  mean_axis0 rows = arithmetic_mean d rows.
Proof.
  intros Hne Hrows. destruct rows as [|r rs]; [done|].
  apply Forall_cons in Hrows as [Hr Hrs]. cbn beta in Hr.
  destruct (fold_vadd_shape d rs r Hr Hrs) as [Hlen Hnth].
  unfold mean_axis0, arithmetic_mean, vdiv. cbn [sum_axis0].
  apply (nth_ext _ _ 0 0).
  - rewrite !length_map, length_seq. done.
  - intros j Hj. rewrite length_map, Hlen in Hj.
    rewrite (nth_map_R _ _ 0) by lia.
    rewrite (nth_map_R _ _ O) by (rewrite length_seq; lia).
    rewrite seq_nth by done. rewrite Hnth by done. cbn. done.
Qed.

End VectorFacts.

(** ** The encoder *)

Section EncoderFacts.

Context {rs : RandomSource}.

Lemma is_valid_kmer_spec (k : nat) (w : string) :
  is_valid_kmer k w = true ↔ Kmer.valid_kmer k w.
Proof.
  unfold is_valid_kmer, Kmer.valid_kmer.
  rewrite andb_true_iff, bool_decide_eq_true. done.
Qed.

(** The dictionary finds exactly the valid k-mers, at their rank. *)
Lemma kmer_to_idx_lookup (s : Model) (w : string) :
  vocabulary_ok s →
  kmer_to_idx s !! w =
  if is_valid_kmer (kmer_length (config s)) w then Some (Kmer.kmer_rank w) else None.
Proof.
  intros (Hk & Hgen & Hidx). rewrite Hidx.
  destruct (kmer_length (config s)) as [|k] eqn:Ek; [lia|].
  destruct (generate_kmers_ok k) as (l & Hgen' & Hlen & Hnd & Hlook & Hval).
  rewrite Hgen' in Hgen. injection Hgen as <-.
  destruct (is_valid_kmer (S k) w) eqn:Ev.
  - apply is_valid_kmer_spec in Ev.
    apply build_kmer_to_idx_lookup; [done|]. by apply Hlook.
  - apply build_kmer_to_idx_None. intros Hin. apply Hval in Hin.
    apply is_valid_kmer_spec in Hin. congruence.
Qed.

Lemma kmer_rank_in_table (s : Model) (w : string) :
  table_shaped s → is_valid_kmer (kmer_length (config s)) w = true →
  is_Some (embeddings s !! Kmer.kmer_rank w).
Proof.
  intros [Hlen _] Hv. apply is_valid_kmer_spec in Hv as [Hl Hb].
  apply lookup_lt_is_Some. rewrite Hlen, <- Hl. by apply kmer_rank_bound.
Qed.

(** Fancy indexing with the collected indices selects the rows of the valid
    windows. *)
Lemma take_rows_windows (s : Model) (sequence : string) :
  vocabulary_ok s → table_shaped s →
  take_rows (embeddings s)
            (kmer_indices (kmer_length (config s)) (kmer_to_idx s) sequence)
  = Ok (valid_window_rows s sequence)
  ∧ length (kmer_indices (kmer_length (config s)) (kmer_to_idx s) sequence)
    = length (valid_window_rows s sequence).
Proof.
  intros Hvoc Htab. unfold kmer_indices, valid_window_rows, take_rows. cbn zeta.
  induction (seq 0 (String.length sequence + 1 - kmer_length (config s))) as [|i l [IH1 IH2]];
    [done|].
  cbn [omap list_omap]. rewrite kmer_to_idx_lookup by done.
  destruct (is_valid_kmer _ _) eqn:Ev; [|done].
  destruct (kmer_rank_in_table s _ Htab Ev) as [row Hrow]. rewrite Hrow.
  cbn [map result_all]. unfold py_index at 1. rewrite Hrow.
  fold (omap (λ i, kmer_to_idx s !! upper (substring i (kmer_length (config s)) sequence)) l).
  rewrite IH1. cbn. by rewrite IH2.
Qed.

Lemma valid_window_rows_shaped (s : Model) (sequence : string) :
  table_shaped s →
  Forall (λ row, length row = dim (config s)) (valid_window_rows s sequence).
Proof.
  intros [_ Hrows]. unfold valid_window_rows. cbn zeta.
  apply Forall_forall. intros row Hin.
  apply list_elem_of_omap in Hin as (i & _ & Hi).
  destruct (is_valid_kmer _ _); [|done].
  rewrite Forall_forall in Hrows. apply Hrows.
  by eapply list_elem_of_lookup_2.
Qed.

Lemma valid_window_rows_short (s : Model) (sequence : string) :
  (String.length sequence < kmer_length (config s))%nat →
  valid_window_rows s sequence = [].
Proof.
  intros H. unfold valid_window_rows. cbn zeta.
  replace (String.length sequence + 1 - kmer_length (config s))%nat with O by lia.
  done.
Qed.

Lemma encode_run (s : Model) (sequence : string) (normalize : bool) :
  vocabulary_ok s → table_shaped s →
  encode sequence normalize s
  = (Ok (encode_spec (dim (config s)) (valid_window_rows s sequence) normalize), s).
Proof.
  intros Hvoc Htab. unfold encode. run_step. cbn.
  case_bool_decide as Hshort.
  { by rewrite valid_window_rows_short. }
  destruct (take_rows_windows s sequence Hvoc Htab) as [Hrows Hlen].
  pose proof (valid_window_rows_shaped s sequence Htab) as Hshape.
  case_bool_decide as Hnil.
  { rewrite Hnil in Hlen. cbn in Hlen.
    destruct (valid_window_rows s sequence); [done | cbn in Hlen; lia]. }
  rewrite Hrows.
  destruct (valid_window_rows s sequence) as [|r rows] eqn:Erows.
  { destruct (kmer_indices _ _ _); [done | cbn in Hlen; lia]. }
  unfold encode_spec.
  rewrite (mean_axis0_arithmetic (dim (config s))) by done.
  destruct normalize; [|done]. by destruct (Rlt_dec _ _).
Qed.

End EncoderFacts.

(** ** Construction *)

Section InitFacts.

Context {rs : RandomSource}.

Lemma random_state_ok (seed : nat) :
  (Z.of_nat seed < 2 ^ 32)%Z → random_state seed = Ok (rng_seed seed).
Proof. intros H. unfold random_state. by rewrite bool_decide_eq_true_2. Qed.

Lemma random_state_overflow (seed : nat) :
  (2 ^ 32 ≤ Z.of_nat seed)%Z → random_state seed = Raise ValueError.
Proof. intros H. unfold random_state. rewrite bool_decide_eq_false_2; [done | lia]. Qed.

Lemma random_state_inv (seed : nat) (g : RandomState) :
  random_state seed = Ok g → g = rng_seed seed ∧ (Z.of_nat seed < 2 ^ 32)%Z.
Proof. unfold random_state. case_bool_decide; [|done]. by intros [= <-]. Qed.

(** The constructor establishes the vocabulary and the shape of the table,
    with no classifier, zero moments and a zero step counter. *)
Lemma init_ok (cfg : HybridConfig) (seed : nat) (s : Model) :
  init cfg seed = Ok s →
  config s = cfg ∧ vocabulary_ok s ∧ table_shaped s
  ∧ W1 s = None ∧ embed_t s = O ∧ is_pretrained s = false.
Proof.
  unfold init. destruct (random_state seed) as [g0|e] eqn:Eseed; [|done].
  apply random_state_inv in Eseed as [-> _].
  case_bool_decide as Hdim; [done|].
  destruct (rng_randn (4 ^ kmer_length cfg) (dim cfg) (rng_seed seed)) as [E0 g1] eqn:Er.
  destruct (Kmer.generate_kmers (kmer_length cfg)) as [ks|e] eqn:Eg; [|done].
  intros [= <-]. unfold vocabulary_ok, table_shaped. cbn.
  split; [done|]. split; [|split].
  - split; [|done]. revert Eg. destruct (kmer_length cfg); [done | intros _; lia].
  - pose proof (rng_randn_shape (4 ^ kmer_length cfg) (dim cfg) (rng_seed seed)) as [Hl Hr].
    rewrite Er in Hl, Hr. cbn in Hl, Hr. split.
    + by rewrite length_map.
    + apply Forall_forall. intros row Hin.
      change (map ?f ?l) with (f <$> l) in Hin.
      apply list_elem_of_fmap in Hin as (r0 & -> & Hin).
      rewrite Forall_forall in Hr. unfold vscale. rewrite length_map. by apply Hr.
  - done.
Qed.

End InitFacts.

Lemma tiny_model_init : init (rs := fixed_rng) tiny_config 0 = Ok tiny_model.
Proof. reflexivity. Qed.

Lemma tiny_model_ok : vocabulary_ok tiny_model ∧ table_shaped tiny_model.
Proof.
  destruct (init_ok (rs := fixed_rng) tiny_config 0 tiny_model tiny_model_init)
    as (_ & Hv & Ht & _).
  done.
Qed.

(** ** C1: the encoder *)

Section EncodeClaim.

Context {rs : RandomSource}.

(** C1. For every sequence, [encode] returns (and leaves the model as it
    was) the arithmetic mean of the embedding rows of the valid k-mer windows
    of the upper-cased sequence; when the sequence is shorter than [k] or no
    window is valid it returns the zero vector of length [dim]; and with
    normalisation the mean is divided by its Euclidean norm exactly when that
    norm is positive, and returned unchanged otherwise. *)
Theorem encode_is_pooled_mean (s : Model) (sequence : string) (normalize : bool) :
  vocabulary_ok s → table_shaped s →
  let d := dim (config s) in
  let rows := valid_window_rows s sequence in
  let pooled := arithmetic_mean d rows in
  ∃ out,
    encode sequence normalize s = (Ok out, s)
    ∧ out = encode_spec d rows normalize
    ∧ ((String.length sequence < kmer_length (config s))%nat → out = zeros d)
    ∧ (rows = [] → out = zeros d)
    ∧ length (zeros d) = d
    ∧ (rows ≠ [] → normalize = false → out = pooled)
    ∧ (rows ≠ [] → normalize = true → 0 < norm pooled → out = vdiv pooled (norm pooled))
    ∧ (rows ≠ [] → normalize = true → ¬ 0 < norm pooled → out = pooled).
Proof.
  intros Hvoc Htab d rows pooled.
  exists (encode_spec d rows normalize).
  split; [by apply encode_run|]. split; [done|].
  split; [|split; [|split; [|split; [|split]]]].
  - intros Hshort. subst rows. by rewrite valid_window_rows_short.
  - intros ->. done.
  - apply length_replicate.
  - intros Hne ->. unfold encode_spec. by destruct rows.
  - intros Hne -> Hpos. unfold encode_spec. destruct rows; [done|].
    fold pooled. by destruct (Rlt_dec 0 (norm pooled)).
  - intros Hne -> Hpos. unfold encode_spec. destruct rows; [done|].
    fold pooled. by destruct (Rlt_dec 0 (norm pooled)).
Qed.

End EncodeClaim.

Lemma encode_is_pooled_mean_witness :
  ∃ out,
    encode "aNgT" true tiny_model = (Ok out, tiny_model)
    ∧ out = encode_spec 2 (valid_window_rows tiny_model "aNgT") true.
Proof.
  destruct (encode_is_pooled_mean tiny_model "aNgT" true)
    as (out & Hrun & Hout & _).
  - split; [cbn; lia | split; reflexivity].
  - split; [reflexivity | repeat constructor].
  - exists out. split; [exact Hrun | exact Hout].
Defined.

(** ** C9: the InfoNCE loss *)

Section InfoNCE.

Lemma clip_mono (x y lo hi : R) : x <= y → clip x lo hi <= clip y lo hi.
Proof.
  intros H. unfold clip, Rmin, Rmax.
  repeat destruct (Rle_dec _ _); lra.
Qed.

Lemma clip_inside (x lo hi : R) : lo <= x <= hi → clip x lo hi = x.
Proof.
  intros H. unfold clip, Rmin, Rmax.
  repeat destruct (Rle_dec _ _); lra.
Qed.

Lemma clip_above (x lo hi : R) : lo <= hi → hi <= x → clip x lo hi = hi.
Proof.
  intros Hlh H. unfold clip, Rmin, Rmax.
  repeat destruct (Rle_dec _ _); lra.
Qed.

Lemma vsum_exp_nonneg (f : R → R) (l : list R) : 0 <= vsum (map (λ x, exp (f x)) l).
Proof.
  induction l as [|x l IH]; cbn; [lra|].
  pose proof (exp_pos (f x)). unfold vsum in IH. lra.
Qed.

(** The loss as a function of the exponentiated positive similarity. *)
Lemma info_nce_unfold (sim_pos : R) (sim_negs : list R) :
  info_nce sim_pos sim_negs =
  - ln (exp (clip sim_pos (-20) 20)
        / (exp (clip sim_pos (-20) 20)
           + vsum (map (λ x, exp (clip x (-20) 20)) sim_negs) + 1e-10)).
Proof. reflexivity. Qed.

Lemma ratio_increasing (e1 e2 c : R) :
  0 < e1 → 0 < c → e1 < e2 → e1 / (e1 + c) < e2 / (e2 + c).
Proof.
  intros H1 Hc H12.
  assert (e2 / (e2 + c) - e1 / (e1 + c) = (e2 - e1) * c / ((e2 + c) * (e1 + c)))
    as Heq by (field; lra).
  assert (0 < (e2 - e1) * c / ((e2 + c) * (e1 + c))).
  { apply Rdiv_lt_0_compat; apply Rmult_lt_0_compat; lra. }
  lra.
Qed.

Lemma info_nce_pos (sim_pos : R) (sim_negs : list R) : 0 < info_nce sim_pos sim_negs.
Proof.
  rewrite info_nce_unfold.
  pose proof (exp_pos (clip sim_pos (-20) 20)) as He.
  pose proof (vsum_exp_nonneg (λ x, clip x (-20) 20) sim_negs) as Hd.
  set (e := exp (clip sim_pos (-20) 20)) in *.
  set (d := vsum _) in *.
  assert (0 < e / (e + d + 1e-10) < 1) as [Hlo Hhi].
  { split.
    - apply Rdiv_lt_0_compat; lra.
    - assert (e / (e + d + 1e-10) = 1 - (d + 1e-10) / (e + d + 1e-10)) as ->
        by (field; lra).
      assert (0 < (d + 1e-10) / (e + d + 1e-10)) by (apply Rdiv_lt_0_compat; lra).
      lra. }
  pose proof (ln_increasing _ _ Hlo Hhi) as Hln. rewrite ln_1 in Hln. lra.
Qed.

Lemma info_nce_strict (x y : R) (sim_negs : list R) :
  clip x (-20) 20 < clip y (-20) 20 →
  info_nce y sim_negs < info_nce x sim_negs.
Proof.
  intros Hxy. rewrite !info_nce_unfold.
  pose proof (exp_pos (clip x (-20) 20)) as Hx.
  pose proof (exp_increasing _ _ Hxy) as Hinc.
  pose proof (vsum_exp_nonneg (λ x, clip x (-20) 20) sim_negs) as Hd.
  set (ex := exp (clip x (-20) 20)) in *.
  set (ey := exp (clip y (-20) 20)) in *.
  set (d := vsum _) in *.
  assert (ex / (ex + d + 1e-10) < ey / (ey + d + 1e-10)) as Hr.
  { rewrite !Rplus_assoc. apply ratio_increasing; lra. }
  assert (0 < ex / (ex + d + 1e-10)) as Hpos by (apply Rdiv_lt_0_compat; lra).
  pose proof (ln_increasing _ _ Hpos Hr). lra.
Qed.

Lemma info_nce_mono (x y : R) (sim_negs : list R) :
  x <= y → info_nce y sim_negs <= info_nce x sim_negs.
Proof.
  intros Hxy. pose proof (clip_mono x y (-20) 20 Hxy) as [Hlt | Heq].
  - left. by apply info_nce_strict.
  - right. rewrite !info_nce_unfold, Heq. done.
Qed.

End InfoNCE.

Section InfoNCEClaim.

Lemma clip_strict (x y lo hi : R) :
  lo < hi → x < y → x < hi → lo < y → clip x lo hi < clip y lo hi.
Proof.
  intros Hlh Hxy Hx Hy. unfold clip, Rmin, Rmax.
  repeat destruct (Rle_dec _ _); lra.
Qed.

Lemma div_lt_scaled (c b tau : R) : 0 < tau → c < b * tau → c / tau < b.
Proof.
  intros Ht H. apply (Rmult_lt_reg_r tau); [done|].
  unfold Rdiv. rewrite Rmult_assoc, Rinv_l by lra. lra.
Qed.

Lemma div_gt_scaled (c b tau : R) : 0 < tau → b * tau < c → b < c / tau.
Proof.
  intros Ht H. apply (Rmult_lt_reg_r tau); [done|].
  unfold Rdiv. rewrite Rmult_assoc, Rinv_l by lra. lra.
Qed.

Lemma div_ge_scaled (c b tau : R) : 0 < tau → b * tau <= c → b <= c / tau.
Proof.
  intros Ht H. apply (Rmult_le_reg_r tau); [done|].
  unfold Rdiv. rewrite Rmult_assoc, Rinv_l by lra. lra.
Qed.

Lemma scaled_similarity_run (tau : R) (a b : list R) :
  tau ≠ 0 → scaled_similarity tau a b = Ok (cosine_similarity a b / tau).
Proof. intros Ht. unfold scaled_similarity. by destruct (Req_dec_T tau 0). Qed.

Lemma scaled_similarities_run (tau : R) (a : list R) (negatives : list (list R)) :
  tau ≠ 0 →
  result_all (map (scaled_similarity tau a) negatives)
  = Ok (map (λ neg, cosine_similarity a neg / tau) negatives).
Proof.
  intros Ht. induction negatives as [|neg negatives IH]; [done|].
  cbn [map result_all]. by rewrite (scaled_similarity_run tau a neg Ht), IH.
Qed.

(** With a non-zero temperature no division raises, and the loss is the
    InfoNCE loss of the scaled cosine similarities. *)
Lemma anchor_loss_run (tau : R) (a p : list R) (negatives : list (list R)) :
  tau ≠ 0 →
  anchor_loss tau a p negatives
  = Ok (info_nce (cosine_similarity a p / tau)
                 (map (λ neg, cosine_similarity a neg / tau) negatives)).
Proof.
  intros Ht. unfold anchor_loss.
  by rewrite (scaled_similarity_run tau a p Ht), (scaled_similarities_run tau a negatives Ht).
Qed.

(** C9, as the code has it.  With a zero temperature and an anchor or a
    positive of norm zero the division raises [ZeroDivisionError] and there
    is no loss.  With a non-zero temperature there is one and it is never
    negative.  For a positive temperature it never increases when the
    anchor-positive cosine similarity increases with the negatives fixed,
    and it decreases strictly whenever the clipping to [-20, 20] does not
    merge the two scaled similarities, that is when the smaller one is below
    [20 * tau] and the larger one above [-20 * tau]; once the smaller one
    has reached [20 * tau] the loss is constant. *)
Theorem info_nce_nonneg_and_decreasing
    (tau : R) (a p p' : list R) (negatives : list (list R)) :
  (tau = 0 → norm a = 0 ∨ norm p = 0 →
   anchor_loss tau a p negatives = Raise ZeroDivisionError)
  ∧ (tau ≠ 0 → ∃ loss, anchor_loss tau a p negatives = Ok loss ∧ 0 <= loss)
  ∧ (0 < tau → cosine_similarity a p < cosine_similarity a p' →
     ∃ loss loss',
       anchor_loss tau a p negatives = Ok loss
       ∧ anchor_loss tau a p' negatives = Ok loss'
       ∧ loss' <= loss
       ∧ (cosine_similarity a p < 20 * tau → -20 * tau < cosine_similarity a p' →
          loss' < loss)
       ∧ (20 * tau <= cosine_similarity a p → loss' = loss)).
Proof.
  split; [|split].
  { intros Ht Hnorm. unfold anchor_loss, scaled_similarity.
    destruct (Req_dec_T tau 0); [|done].
    destruct (Req_dec_T (norm a) 0); [done|].
    destruct (Req_dec_T (norm p) 0); [done|]. lra. }
  { intros Ht. eexists. split; [by apply anchor_loss_run|]. left. apply info_nce_pos. }
  intros Ht Hc. eexists _, _.
  split; [apply anchor_loss_run; lra|]. split; [apply anchor_loss_run; lra|].
  assert (cosine_similarity a p / tau < cosine_similarity a p' / tau) as Hs.
  { apply Rmult_lt_compat_r; [|done]. by apply Rinv_0_lt_compat. }
  split; [|split].
  - apply info_nce_mono. lra.
  - intros Hlo Hhi. apply info_nce_strict. apply clip_strict; [lra | done | |].
    + by apply div_lt_scaled.
    + by apply div_gt_scaled.
  - intros Hsat. rewrite !info_nce_unfold.
    pose proof (div_ge_scaled _ _ _ Ht Hsat).
    rewrite !(clip_above (_ / tau)) by lra. done.
Qed.

Lemma norm_e1 : norm [1; 0] = 1.
Proof.
  unfold norm, vsum. cbn. replace (1 * 1 + (0 * 0 + 0)) with 1 by lra. apply sqrt_1.
Qed.

Lemma norm_e2 : norm [0; 1] = 1.
Proof.
  unfold norm, vsum. cbn. replace (0 * 0 + (1 * 1 + 0)) with 1 by lra. apply sqrt_1.
Qed.

Lemma norm_3_4 : norm [3; 4] = 5.
Proof.
  unfold norm, vsum. cbn. replace (3 * 3 + (4 * 4 + 0)) with (5 * 5) by lra.
  apply sqrt_square. lra.
Qed.

Lemma cosine_e1_e1 : cosine_similarity [1; 0] [1; 0] = 1.
Proof.
  unfold cosine_similarity. rewrite norm_e1.
  destruct (Req_dec_T 1 0); [lra|]. unfold dot, vmul, vsum. cbn. field.
Qed.

Lemma cosine_e1_3_4 : cosine_similarity [1; 0] [3; 4] = 3 / 5.
Proof.
  unfold cosine_similarity. rewrite norm_e1, norm_3_4.
  destruct (Req_dec_T 1 0); [lra|]. destruct (Req_dec_T 5 0); [lra|].
  unfold dot, vmul, vsum. cbn. field.
Qed.

Lemma cosine_e1_e2 : cosine_similarity [1; 0] [0; 1] = 0.
Proof.
  unfold cosine_similarity. rewrite norm_e1, norm_e2.
  destruct (Req_dec_T 1 0); [lra|]. unfold dot, vmul, vsum. cbn. field.
Qed.

Lemma info_nce_nonneg_and_decreasing_witness :
  ∃ loss loss',
    anchor_loss 0.1 [1; 0] [3; 4] [[0; 1]] = Ok loss
    ∧ anchor_loss 0.1 [1; 0] [1; 0] [[0; 1]] = Ok loss'
    ∧ loss' < loss.
Proof.
  destruct (proj2 (proj2 (info_nce_nonneg_and_decreasing
              0.1 [1; 0] [3; 4] [1; 0] [[0; 1]])))
    as (loss & loss' & Hloss & Hloss' & _ & Hstrict & _).
  - lra.
  - rewrite cosine_e1_e1, cosine_e1_3_4. lra.
  - exists loss, loss'. split; [exact Hloss|]. split; [exact Hloss'|].
    apply Hstrict.
    + rewrite cosine_e1_3_4. lra.
    + rewrite cosine_e1_e1. lra.
Defined.

(** With temperature [0.01] the scaled similarities [60] and [100] are both
    clipped to [20]: a larger anchor-positive similarity, the same loss. *)
Lemma info_nce_not_strict_when_clipped :
  cosine_similarity [1; 0] [3; 4] < cosine_similarity [1; 0] [1; 0]
  ∧ ∃ loss loss',
      anchor_loss 0.01 [1; 0] [3; 4] [[0; 1]] = Ok loss
      ∧ anchor_loss 0.01 [1; 0] [1; 0] [[0; 1]] = Ok loss'
      ∧ ¬ (loss' < loss).
Proof.
  split.
  - rewrite cosine_e1_e1, cosine_e1_3_4. lra.
  - eexists _, _. split; [apply anchor_loss_run; lra|].
    split; [apply anchor_loss_run; lra|].
    rewrite cosine_e1_e1, cosine_e1_3_4.
    rewrite !info_nce_unfold.
    rewrite (clip_above (1 / 0.01)), (clip_above (3 / 5 / 0.01)) by lra. lra.
Qed.

End InfoNCEClaim.

(** ** Frames of the methods *)

Section MethodFrameRules.

Context {rs : RandomSource}.
Context (P : Model → Model → Prop) `{!Reflexive P} `{!Transitive P}.

Lemma preserves_require {A : Type} (f : Model → option A) (e : PyError) :
  preserves P (require f e).
Proof. intros s. unfold require. destruct (f s); cbn; reflexivity. Qed.

Lemma preserves_with_rng {A : Type} (f : RandomState → A * RandomState) :
  (∀ s g, P s (set_rng g s)) → preserves P (with_rng f).
Proof. intros H s. unfold with_rng. destruct (f (rng s)). cbn. apply H. Qed.

End MethodFrameRules.

Ltac frame_step :=
  lazymatch goal with
  | |- preserves _ (mbind _ _) =>
      apply preserves_bind; try exact _; [try done | intros ?]
  | |- preserves _ (ret _) => apply preserves_ret; exact _
  | |- preserves _ (mret _) => apply preserves_mret; exact _
  | |- preserves _ (gets _) => apply preserves_gets; exact _
  | |- preserves _ (lift _) => apply preserves_lift; exact _
  | |- preserves _ (raise _) => apply preserves_raise; exact _
  | |- preserves _ (require _ _) => apply preserves_require; exact _
  | |- preserves _ (with_rng _) => apply preserves_with_rng; intros ? ?
  | |- preserves _ (modify _) => apply preserves_modify; intros ?
  | |- preserves _ (mapM _ _) => apply preserves_mapM; try exact _; intros ?
  | |- preserves _ (forM_ _ _) => apply preserves_forM_; try exact _; intros ?
  | |- preserves _ (foldM _ _ _) => apply preserves_foldM; try exact _; intros ? ?
  | |- preserves _ (if ?b then _ else _) => destruct b
  | |- preserves _ (match ?x with _ => _ end) => destruct x
  end.

Section MethodFrames.

Context {rs : RandomSource}.
Context (P : Model → Model → Prop) `{!Reflexive P} `{!Transitive P}.

Lemma preserves_encode (sequence : string) (normalize : bool) :
  preserves P (encode sequence normalize).
Proof. unfold encode. repeat frame_step. Qed.

Lemma preserves_encode_batch (sequences : list string) (normalize : bool) :
  preserves P (encode_batch sequences normalize).
Proof.
  unfold encode_batch. repeat frame_step. apply preserves_encode.
Qed.

Lemma preserves_predict (sequences : list string) : preserves P (predict sequences).
Proof.
  unfold predict. repeat frame_step. apply preserves_encode_batch.
Qed.

Lemma preserves_predict_proba (sequences : list string) :
  preserves P (predict_proba sequences).
Proof.
  unfold predict_proba. repeat frame_step. apply preserves_encode_batch.
Qed.

End MethodFrames.

Lemma tiny_fitted_init : finetune_init tiny_model = (Ok tt, tiny_fitted).
Proof. reflexivity. Qed.

(** ** Prediction *)

Section ArgmaxFacts.

Lemma argmax_from_spec (xs pre : list R) (best : R) (besti : nat) :
  (besti < length pre)%nat → nth besti pre 0 = best →
  (∀ j, (j < length pre)%nat → nth j pre 0 <= best) →
  (∀ j, (j < besti)%nat → nth j pre 0 < best) →
  is_first_argmax (pre ++ xs) (argmax_from best besti (length pre) xs).
Proof.
  revert pre best besti.
  induction xs as [|x xs IH]; intros pre best besti Hlt Hbest Hmax Hfirst.
  - cbn. rewrite app_nil_r. unfold is_first_argmax. rewrite Hbest. done.
  - cbn [argmax_from].
    replace (pre ++ x :: xs) with ((pre ++ [x]) ++ xs) by (by rewrite <- app_assoc).
    replace (S (length pre)) with (length (pre ++ [x])) by (rewrite length_app; cbn; lia).
    assert (nth (length pre) (pre ++ [x]) 0 = x) as Hx.
    { rewrite app_nth2 by lia. by rewrite Nat.sub_diag. }
    destruct (Rlt_dec best x) as [Hbx | Hbx].
    + apply IH.
      * rewrite length_app. cbn. lia.
      * done.
      * intros j Hj. rewrite length_app in Hj. cbn in Hj.
        destruct (decide (j = length pre)) as [-> | Hne]; [rewrite Hx; lra|].
        rewrite app_nth1 by lia. specialize (Hmax j ltac:(lia)). lra.
      * intros j Hj. rewrite app_nth1 by lia. specialize (Hmax j ltac:(lia)). lra.
    + apply IH.
      * rewrite length_app. cbn. lia.
      * by rewrite app_nth1.
      * intros j Hj. rewrite length_app in Hj. cbn in Hj.
        destruct (decide (j = length pre)) as [-> | Hne]; [rewrite Hx; lra|].
        rewrite app_nth1 by lia. apply Hmax. lia.
      * intros j Hj. rewrite app_nth1 by lia. by apply Hfirst.
Qed.

Lemma np_argmax_spec (row : list R) :
  row ≠ [] → ∃ i, np_argmax row = Ok i ∧ is_first_argmax row i.
Proof.
  destruct row as [|x xs]; [done|]. intros _. eexists. split; [reflexivity|].
  apply (argmax_from_spec xs [x] x 0); cbn.
  - lia.
  - done.
  - intros [|j] Hj; [lra | lia].
  - intros j Hj. lia.
Qed.

Lemma np_argmax_error (row : list R) (e : PyError) :
  np_argmax row = Raise e → e = ValueError.
Proof. destruct row; cbn; congruence. Qed.

Lemma softmax_row_ok (row : list R) : row ≠ [] → ∃ p, softmax_row row = Ok p.
Proof. destruct row; [done|]. intros _. eexists. reflexivity. Qed.

Lemma softmax_row_error (row : list R) (e : PyError) :
  softmax_row row = Raise e → e = ValueError.
Proof. destruct row; cbn; congruence. Qed.

Lemma result_all_ok {A B : Type} (f : A → result B) (l : list A) :
  (∀ x, x ∈ l → ∃ y, f x = Ok y) →
  ∃ ys, result_all (map f l) = Ok ys ∧ Forall2 (λ x y, f x = Ok y) l ys.
Proof.
  induction l as [|x l IH]; intros H.
  - exists []. split; [done | constructor].
  - destruct (H x) as [y Hy]; [set_solver|].
    destruct IH as (ys & Hys & Hall); [intros; apply H; set_solver|].
    exists (y :: ys). cbn. rewrite Hy, Hys. split; [done|]. by constructor.
Qed.

Lemma result_all_error {A B : Type} (f : A → result B) (l : list A) (e : PyError) :
  result_all (map f l) = Raise e → ∃ x, x ∈ l ∧ f x = Raise e.
Proof.
  induction l as [|x l IH]; cbn; [done|].
  destruct (f x) as [y|e'] eqn:Ex.
  - destruct (result_all (map f l)); [done|]. intros [= ->].
    destruct IH as (x' & Hin & Hx'); [done|]. exists x'. split; [set_solver | done].
  - intros [= ->]. exists x. split; [set_solver | done].
Qed.

End ArgmaxFacts.

Section PredictFacts.

Context {rs : RandomSource}.

Lemma mapM_encode_run (s : Model) (sequences : list string) (normalize : bool) :
  vocabulary_ok s → table_shaped s →
  mapM (λ seq, encode seq normalize) sequences s
  = (Ok (map (λ seq, encode_spec (dim (config s)) (valid_window_rows s seq) normalize)
             sequences), s).
Proof.
  intros Hvoc Htab. induction sequences as [|seq l IH]; [done|].
  cbn [mapM map].
  erewrite bind_ok; [|by apply encode_run].
  erewrite bind_ok; [|exact IH]. done.
Qed.

Lemma encode_batch_run (s : Model) (sequences : list string) (normalize : bool) :
  vocabulary_ok s → table_shaped s →
  encode_batch sequences normalize s
  = (np_stack (map (λ seq, encode_spec (dim (config s)) (valid_window_rows s seq) normalize)
                   sequences), s).
Proof.
  intros Hvoc Htab. unfold encode_batch.
  erewrite bind_ok; [|by apply mapM_encode_run]. done.
Qed.

Lemma require_some {A : Type} (f : Model → option A) (e : PyError) (s : Model) (x : A) :
  f s = Some x → require f e s = (Ok x, s).
Proof. intros H. unfold require. by rewrite H. Qed.

Lemma require_none {A : Type} (f : Model → option A) (e : PyError) (s : Model) :
  f s = None → require f e s = (Raise e, s).
Proof. intros H. unfold require. by rewrite H. Qed.

Lemma length_vecmat (x : list R) (B : list (list R)) (c : nat) :
  B ≠ [] → Forall (λ row, length row = c) B → length (vecmat x B) = c.
Proof.
  intros Hne HB. unfold vecmat.
  apply (fold_vadd_shape c).
  - destruct B as [|r B]; [done|]. apply Forall_cons in HB as [Hr _].
    cbn. rewrite length_replicate. done.
  - clear Hne. revert x. induction B as [|r B IH]; intros [|xi x]; cbn; try constructor.
    + apply Forall_cons in HB as [Hr _]. unfold vscale. by rewrite length_map.
    + apply Forall_cons in HB as [_ HB]. by apply IH.
Qed.

Lemma forward_logits_rows (X w1 : list (list R)) (bb1 : list R)
    (w2 : list (list R)) (bb2 : list R) :
  w2 ≠ [] → Forall (λ row, length row = length bb2) w2 →
  Forall (λ row, length row = length bb2) (forward_logits X w1 bb1 w2 bb2).
Proof.
  intros Hne Hw2. unfold forward_logits, add_bias, matmul.
  apply Forall_forall. intros row Hin.
  change (map ?f ?l) with (f <$> l) in Hin.
  apply list_elem_of_fmap in Hin as (r1 & -> & Hin).
  apply list_elem_of_fmap in Hin as (h & -> & _).
  rewrite length_vadd; by apply length_vecmat.
Qed.

End PredictFacts.

Section PredictClaim.

Context {rs : RandomSource}.

Lemma classifier_pipeline_no_runtime_error {A : Type}
    (s : Model) (sequences : list string) (w1 : list (list R))
    (final : list (list R) → result A) :
  vocabulary_ok s → table_shaped s → W1 s = Some w1 →
  (∀ logits e, final logits = Raise e → e = ValueError) →
  ((W1v ← require W1 RuntimeError;
    encodings ← encode_batch sequences true;
    b1v ← require b1 TypeError;
    W2v ← require W2 TypeError;
    b2v ← require b2 TypeError;
    lift (final (forward_logits encodings W1v b1v W2v b2v))) s).1
  ≠ Raise RuntimeError.
Proof.
  intros Hvoc Htab EW1 Hfinal.
  rewrite (bind_ok _ _ _ _ _ (require_some W1 RuntimeError s w1 EW1)).
  destruct (np_stack (map (λ seq, encode_spec (dim (config s))
                                    (valid_window_rows s seq) true) sequences))
    as [X|e] eqn:EX.
  2:{ erewrite bind_raise; [|rewrite encode_batch_run by done; by rewrite EX].
      destruct sequences; cbn in EX; [|done]. injection EX as <-. cbn. discriminate. }
  erewrite bind_ok; [|rewrite encode_batch_run by done; by rewrite EX].
  destruct (b1 s) as [bb1|] eqn:Eb1.
  2:{ rewrite (bind_raise _ _ _ _ _ (require_none b1 TypeError s Eb1)).
      cbn. discriminate. }
  rewrite (bind_ok _ _ _ _ _ (require_some b1 TypeError s bb1 Eb1)).
  destruct (W2 s) as [w2|] eqn:EW2.
  2:{ rewrite (bind_raise _ _ _ _ _ (require_none W2 TypeError s EW2)).
      cbn. discriminate. }
  rewrite (bind_ok _ _ _ _ _ (require_some W2 TypeError s w2 EW2)).
  destruct (b2 s) as [bb2|] eqn:Eb2.
  2:{ rewrite (bind_raise _ _ _ _ _ (require_none b2 TypeError s Eb2)).
      cbn. discriminate. }
  rewrite (bind_ok _ _ _ _ _ (require_some b2 TypeError s bb2 Eb2)).
  unfold lift. cbn [fst].
  destruct (final _) as [?|e] eqn:Er; [done|].
  apply Hfinal in Er as ->. discriminate.
Qed.

Lemma predict_fitted_no_runtime_error (s : Model) (sequences : list string) :
  vocabulary_ok s → table_shaped s → W1 s ≠ None →
  (predict sequences s).1 ≠ Raise RuntimeError
  ∧ (predict_proba sequences s).1 ≠ Raise RuntimeError.
Proof.
  intros Hvoc Htab HW1. destruct (W1 s) as [w1|] eqn:EW1; [|done].
  split.
  - apply (classifier_pipeline_no_runtime_error s sequences w1
             (λ logits, result_all (map np_argmax logits))); try done.
    intros logits e Er. apply result_all_error in Er as (row & _ & Hrow).
    by apply np_argmax_error in Hrow.
  - apply (classifier_pipeline_no_runtime_error s sequences w1 softmax); try done.
    intros logits e Er. apply result_all_error in Er as (row & _ & Hrow).
    by apply softmax_row_error in Hrow.
Qed.

(** C6, as the code has it.  On a constructed model, [predict] and
    [predict_proba] raise the not-fitted [RuntimeError] exactly when [W1] is
    [None].  When the classifier exists and the batch is not empty, neither
    raises: [predict] returns for every row of the logits of the encoded
    batch the first position of its maximum, and [predict_proba] the
    program's [softmax] of those logits.  On an empty batch with a
    classifier, both fail in [np.stack] with [ValueError].  In every case the
    model is left as it was. *)
Theorem predict_not_fitted_iff (s : Model) (sequences : list string) :
  vocabulary_ok s → table_shaped s →
  ((predict sequences s).1 = Raise RuntimeError ↔ W1 s = None)
  ∧ ((predict_proba sequences s).1 = Raise RuntimeError ↔ W1 s = None)
  ∧ (classifier_shaped s → sequences ≠ [] →
     ∃ encodings w1 bb1 w2 bb2 preds probs,
       W1 s = Some w1 ∧ b1 s = Some bb1 ∧ W2 s = Some w2 ∧ b2 s = Some bb2
       ∧ encode_batch sequences true s = (Ok encodings, s)
       ∧ predict sequences s = (Ok preds, s)
       ∧ Forall2 is_first_argmax (forward_logits encodings w1 bb1 w2 bb2) preds
       ∧ predict_proba sequences s = (Ok probs, s)
       ∧ softmax (forward_logits encodings w1 bb1 w2 bb2) = Ok probs)
  ∧ (W1 s ≠ None → sequences = [] →
     predict sequences s = (Raise ValueError, s)
     ∧ predict_proba sequences s = (Raise ValueError, s)).
Proof.
  intros Hvoc Htab.
  assert (W1 s = None →
          predict sequences s = (Raise RuntimeError, s)
          ∧ predict_proba sequences s = (Raise RuntimeError, s)) as Hnone.
  { intros HW1. unfold predict, predict_proba.
    rewrite !(bind_raise _ _ _ _ _ (require_none W1 RuntimeError s HW1)). done. }
  split; [|split; [|split]].
  - split.
    + intros Hr. destruct (W1 s) eqn:E; [|done].
      by destruct (predict_fitted_no_runtime_error s sequences Hvoc Htab) as [H _];
        [rewrite E|].
    + intros HW1. destruct (Hnone HW1) as [-> _]. done.
  - split.
    + intros Hr. destruct (W1 s) eqn:E; [|done].
      by destruct (predict_fitted_no_runtime_error s sequences Hvoc Htab) as [_ H];
        [rewrite E|].
    + intros HW1. destruct (Hnone HW1) as [_ ->]. done.
  - intros (w1 & bb1 & w2 & bb2 & EW1 & Eb1 & EW2 & Eb2 & Hc & Hne & Hw2) Hseq.
    set (X := map (λ seq, encode_spec (dim (config s)) (valid_window_rows s seq) true)
                  sequences).
    assert (encode_batch sequences true s = (Ok X, s)) as HX.
    { rewrite encode_batch_run by done. fold X.
      destruct sequences; [done|]. done. }
    pose proof (forward_logits_rows X w1 bb1 w2 bb2 Hne Hw2) as Hrows.
    rewrite Forall_forall in Hrows.
    destruct (result_all_ok np_argmax (forward_logits X w1 bb1 w2 bb2))
      as (preds & Hpreds & Hall).
    { intros row Hin. destruct (np_argmax_spec row) as (i & Hi & _); [|by eauto].
      specialize (Hrows row Hin). destruct row; [cbn in Hrows; lia | done]. }
    destruct (result_all_ok softmax_row (forward_logits X w1 bb1 w2 bb2))
      as (probs & Hprobs & _).
    { intros row Hin. apply softmax_row_ok.
      specialize (Hrows row Hin). destruct row; [cbn in Hrows; lia | done]. }
    exists X, w1, bb1, w2, bb2, preds, probs.
    repeat (split; [done|]). split; [|split; [|split]].
    + unfold predict.
      rewrite (bind_ok _ _ _ _ _ (require_some W1 RuntimeError s w1 EW1)).
      rewrite (bind_ok _ _ _ _ _ HX).
      rewrite (bind_ok _ _ _ _ _ (require_some b1 TypeError s bb1 Eb1)).
      rewrite (bind_ok _ _ _ _ _ (require_some W2 TypeError s w2 EW2)).
      rewrite (bind_ok _ _ _ _ _ (require_some b2 TypeError s bb2 Eb2)).
      unfold lift. by rewrite Hpreds.
    + eapply Forall2_impl; [exact Hall|]. intros row i Hi. cbn in Hi.
      destruct (np_argmax_spec row) as (i' & Hi' & Hspec).
      { intros ->. done. }
      congruence.
    + unfold predict_proba.
      rewrite (bind_ok _ _ _ _ _ (require_some W1 RuntimeError s w1 EW1)).
      rewrite (bind_ok _ _ _ _ _ HX).
      rewrite (bind_ok _ _ _ _ _ (require_some b1 TypeError s bb1 Eb1)).
      rewrite (bind_ok _ _ _ _ _ (require_some W2 TypeError s w2 EW2)).
      rewrite (bind_ok _ _ _ _ _ (require_some b2 TypeError s bb2 Eb2)).
      unfold lift, softmax. by rewrite Hprobs.
    + exact Hprobs.
  - intros HW1 ->. destruct (W1 s) as [w1|] eqn:EW1; [|done].
    assert (encode_batch [] true s = (Raise ValueError, s)) as HX
      by (by rewrite encode_batch_run).
    unfold predict, predict_proba.
    rewrite !(bind_ok _ _ _ _ _ (require_some W1 RuntimeError s w1 EW1)).
    rewrite !(bind_raise _ _ _ _ _ HX). done.
Qed.

End PredictClaim.

Lemma tiny_fitted_ok :
  vocabulary_ok tiny_fitted ∧ table_shaped tiny_fitted ∧ classifier_shaped tiny_fitted.
Proof.
  split; [|split].
  - split; [cbn; lia | split; reflexivity].
  - split; [reflexivity | repeat constructor].
  - exists tiny_fitted_W1, (zeros 2), tiny_fitted_W1, (zeros 2).
    repeat (split; [reflexivity|]). split; [cbn; lia|]. split; [done|].
    repeat constructor.
Qed.

Lemma predict_not_fitted_iff_witness :
  ((predict ["ACGT"; "ttga"] tiny_model).1 = Raise RuntimeError ↔ W1 tiny_model = None)
  ∧ ∃ preds, predict ["ACGT"; "ttga"] tiny_fitted = (Ok preds, tiny_fitted).
Proof.
  split.
  - refine (proj1 (predict_not_fitted_iff tiny_model ["ACGT"; "ttga"] _ _)).
    + split; [cbn; lia | split; reflexivity].
    + split; [reflexivity | repeat constructor].
  - destruct (proj1 (proj2 (proj2
        (predict_not_fitted_iff tiny_fitted ["ACGT"; "ttga"]
           (proj1 tiny_fitted_ok) (proj1 (proj2 tiny_fitted_ok)))))
        (proj2 (proj2 tiny_fitted_ok)))
      as (X & w1 & bb1 & w2 & bb2 & preds & probs & _ & _ & _ & _ & _ & Hp & _).
    + done.
    + exists preds. exact Hp.
Defined.

(** With a classifier but nothing to predict, [np.stack] raises. *)
Lemma predict_empty_batch_raises :
  W1 tiny_fitted ≠ None
  ∧ predict [] tiny_fitted = (Raise ValueError, tiny_fitted)
  ∧ predict_proba [] tiny_fitted = (Raise ValueError, tiny_fitted).
Proof. split; [done|]. split; reflexivity. Qed.

(** ** C7: what pre-training and prediction touch *)

Section PretrainFrame.

Context {rs : RandomSource}.

#[local] Instance same_classifier_refl : Reflexive same_classifier.
Proof. intros s. unfold same_classifier. done. Qed.

#[local] Instance same_classifier_trans : Transitive same_classifier.
Proof.
  intros s1 s2 s3 H12 H23. unfold same_classifier in *.
  destruct H12 as (?&?&?&?&?&?&?&?&?&?&?&?).
  destruct H23 as (?&?&?&?&?&?&?&?&?&?&?&?).
  repeat split; congruence.
Qed.

Lemma sparse_adam_row_frame (lr : R) (grad : list R) (idx : nat) :
  preserves same_classifier (sparse_adam_row lr grad idx).
Proof. unfold sparse_adam_row. repeat frame_step; done. Qed.

Lemma sparse_adam_sample_frame (lr : R) (d : list R) (indices : list nat) :
  preserves same_classifier (sparse_adam_sample lr d indices).
Proof.
  unfold sparse_adam_sample. repeat frame_step. apply sparse_adam_row_frame.
Qed.

Lemma contrastive_anchor_frame (anchors positives : list (list R))
    (anchor_indices : list (list nat)) (batch_size i : nat) :
  preserves same_classifier
    (contrastive_anchor anchors positives anchor_indices batch_size i).
Proof.
  unfold contrastive_anchor. repeat frame_step; try done.
  apply sparse_adam_sample_frame.
Qed.

Lemma contrastive_step_frame (sequences : list string) :
  preserves same_classifier (_contrastive_step sequences).
Proof.
  unfold _contrastive_step. repeat frame_step; try done.
  - apply preserves_encode; exact _.
  - apply preserves_encode; exact _.
  - apply contrastive_anchor_frame.
Qed.

Lemma contrastive_epoch_frame (sequences : list string) :
  preserves same_classifier (contrastive_epoch sequences).
Proof.
  unfold contrastive_epoch. repeat frame_step; try done.
  apply contrastive_step_frame.
Qed.

Lemma contrastive_pretrain_frame (sequences : list string) :
  preserves same_classifier (contrastive_pretrain sequences).
Proof.
  unfold contrastive_pretrain. repeat frame_step; try done.
  apply contrastive_epoch_frame.
Qed.

Lemma contrastive_pretrain_sets_flag (sequences : list string) (s : Model) (losses : list R) :
  (contrastive_pretrain sequences s).1 = Ok losses →
  is_pretrained (contrastive_pretrain sequences s).2 = true.
Proof.
  unfold contrastive_pretrain. run_step. cbn.
  destruct (foldM _ _ _ s) as [[l|e] s1]; cbn; [done | discriminate].
Qed.

(** C7, as the code has it.  [contrastive_pretrain] leaves the configuration,
    the vocabulary, the classifier weights [W1], [b1], [W2], [b2], their four
    optimizers and the [is_finetuned] flag as they were (so the classifier
    is still absent if it was); what it may change is the embedding table,
    [embed_m], [embed_v], [embed_t], the random source, and the
    [is_pretrained] flag, which it sets when it returns.  [predict] and
    [predict_proba] leave the whole model unchanged. *)
Theorem pretrain_and_predict_frame (s : Model) (sequences : list string) :
  same_classifier s (contrastive_pretrain sequences s).2
  ∧ (W1 s = None → W1 (contrastive_pretrain sequences s).2 = None)
  ∧ (∀ losses, (contrastive_pretrain sequences s).1 = Ok losses →
       is_pretrained (contrastive_pretrain sequences s).2 = true)
  ∧ (predict sequences s).2 = s
  ∧ (predict_proba sequences s).2 = s.
Proof.
  pose proof (contrastive_pretrain_frame sequences s) as Hframe.
  split; [done|]. split; [|split; [|split]].
  - intros HW1. destruct Hframe as (_ & _ & _ & -> & _). done.
  - intros losses. apply contrastive_pretrain_sets_flag.
  - symmetry. apply (preserves_predict eq).
  - symmetry. apply (preserves_predict_proba eq).
Qed.

End PretrainFrame.


(** ** C10: fine-tuning starts from a fresh classifier *)

Section FinetuneInit.

Context {rs : RandomSource}.

(** The initialisation block, run. *)
Lemma finetune_init_run (s : Model) :
  (0 < dim (config s))%nat → (0 < mlp_hidden (config s))%nat →
  let cfg := config s in
  let r1 := rng_randn (dim cfg) (mlp_hidden cfg) (rng s) in
  let r2 := rng_randn (mlp_hidden cfg) (num_classes cfg) r1.2 in
  let W1v := map (vscale (sqrt (2 / INR (dim cfg)))) r1.1 in
  let W2v := map (vscale (sqrt (2 / INR (mlp_hidden cfg)))) r2.1 in
  finetune_init s =
  (Ok tt,
   {| config := cfg; rng := r2.2; embeddings := embeddings s;
      kmers := kmers s; kmer_to_idx := kmer_to_idx s;
      W1 := Some W1v; b1 := Some (zeros (mlp_hidden cfg));
      W2 := Some W2v; b2 := Some (zeros (num_classes cfg));
      opt_W1 := Some (Adam.init W1v (finetune_lr cfg));
      opt_b1 := Some (Adam.init (zeros (mlp_hidden cfg)) (finetune_lr cfg));
      opt_W2 := Some (Adam.init W2v (finetune_lr cfg));
      opt_b2 := Some (Adam.init (zeros (num_classes cfg)) (finetune_lr cfg));
      embed_m := embed_m s; embed_v := embed_v s; embed_t := embed_t s;
      is_pretrained := is_pretrained s; is_finetuned := is_finetuned s |}).
Proof.
  intros Hd Hh. cbn zeta. unfold finetune_init. run_step. cbn.
  destruct (rng_randn (dim (config s)) (mlp_hidden (config s)) (rng s)) as [W1r g1].
  cbn. rewrite bool_decide_eq_false_2 by lia. cbn.
  destruct (rng_randn (mlp_hidden (config s)) (num_classes (config s)) g1) as [W2r g2].
  cbn. rewrite bool_decide_eq_false_2 by lia. cbn. reflexivity.
Qed.

(** Whether or not it raises, the initialisation block leaves the
    configuration and the embedding side of the model alone. *)
Lemma finetune_init_frame (s : Model) :
  config (finetune_init s).2 = config s
  ∧ embeddings (finetune_init s).2 = embeddings s
  ∧ embed_m (finetune_init s).2 = embed_m s
  ∧ embed_v (finetune_init s).2 = embed_v s
  ∧ embed_t (finetune_init s).2 = embed_t s.
Proof.
  unfold finetune_init. run_step. cbn.
  destruct (rng_randn _ _ (rng s)) as [W1r g1]. cbn.
  case_bool_decide; cbn; [done|].
  destruct (rng_randn _ _ g1) as [W2r g2]. cbn.
  case_bool_decide; cbn; done.
Qed.

Lemma finetune_split (train_seqs : list string) (train_labels : list nat)
    (val_seqs : list string) (val_labels : list nat) (s : Model) :
  finetune train_seqs train_labels val_seqs val_labels s =
  (finetune_init;; finetune_epochs_part train_seqs train_labels val_seqs val_labels) s.
Proof.
  unfold finetune, finetune_epochs_part. run_step. cbn.
  destruct (finetune_init_frame s) as [Hcfg _].
  destruct (finetune_init s) as [[[]|e] s1]; cbn in *; [|done].
  by rewrite Hcfg.
Qed.

End FinetuneInit.

Section FinetuneFrames.

Context {rs : RandomSource}.
Context (P : Model → Model → Prop) `{!Reflexive P} `{!Transitive P}.

Lemma preserves_epoch_loop (train_epoch : M Model R) (validate : option (M Model R))
    (pat : nat) (delta : R) (remaining epoch : nat) (run : TrainingRun) :
  preserves P train_epoch →
  (∀ val, validate = Some val → preserves P val) →
  preserves P (epoch_loop train_epoch validate pat delta remaining epoch run).
Proof.
  intros Ht Hv. revert epoch run.
  induction remaining as [|remaining IH]; intros epoch run; cbn [epoch_loop].
  - apply preserves_ret; exact _.
  - apply preserves_bind; [exact _ | exact Ht |]. intros avg_loss.
    destruct validate as [val|]; [|apply IH].
    apply preserves_bind; [exact _ | by apply Hv |]. intros acc.
    destruct (bool_decide _); [apply preserves_ret; exact _ | apply IH].
Qed.

(** A relation that every attribute write of fine-tuning respects is
    preserved by the epoch loop of [finetune]. *)
Lemma finetune_epochs_part_frame (train_seqs : list string) (train_labels : list nat)
    (val_seqs : list string) (val_labels : list nat) :
  (∀ s x, P s (set_rng x s)) → (∀ s x, P s (set_embeddings x s)) →
  (∀ s x, P s (set_embed_m x s)) → (∀ s x, P s (set_embed_v x s)) →
  (∀ s, P s (set_embed_t (S (embed_t s)) s)) →
  (∀ s x, P s (set_W1 x s)) → (∀ s x, P s (set_b1 x s)) →
  (∀ s x, P s (set_W2 x s)) → (∀ s x, P s (set_b2 x s)) →
  (∀ s x, P s (set_opt_W1 x s)) → (∀ s x, P s (set_opt_b1 x s)) →
  (∀ s x, P s (set_opt_W2 x s)) → (∀ s x, P s (set_opt_b2 x s)) →
  (∀ s x, P s (set_is_finetuned x s)) →
  preserves P (finetune_epochs_part train_seqs train_labels val_seqs val_labels).
Proof.
  intros Hrng HE Hm Hv Ht HW1 Hb1 HW2 Hb2 HoW1 Hob1 HoW2 Hob2 Hfin.
  assert (∀ lr g i, preserves P (sparse_adam_row lr g i)) as Hrow.
  { intros. unfold sparse_adam_row. repeat frame_step; done. }
  assert (∀ lr d l, preserves P (sparse_adam_sample lr d l)) as Hsample.
  { intros. unfold sparse_adam_sample. repeat frame_step. apply Hrow. }
  assert (∀ seqs labels, preserves P (_finetune_step seqs labels)) as Hstep.
  { intros. unfold _finetune_step, step_W1, step_b1, step_W2, step_b2, finetune_encode.
    repeat frame_step; done. }
  assert (preserves P (finetune_train_epoch train_seqs train_labels)) as Htrain.
  { unfold finetune_train_epoch. repeat frame_step; done. }
  unfold finetune_epochs_part. repeat frame_step; try done.
  apply preserves_epoch_loop; try exact _; try done.
  intros val Hval. destruct val_seqs; [done|]. injection Hval as <-.
  unfold finetune_validate. repeat frame_step.
  apply preserves_predict; exact _.
Qed.

End FinetuneFrames.

Section FinetuneInitClaim.

Context {rs : RandomSource}.

#[local] Instance embed_t_le_refl : Reflexive (λ s s' : Model, (embed_t s ≤ embed_t s')%nat).
Proof. intros s. lia. Qed.

#[local] Instance embed_t_le_trans : Transitive (λ s s' : Model, (embed_t s ≤ embed_t s')%nat).
Proof. intros s1 s2 s3. lia. Qed.

Lemma finetune_init_forget (s : Model) :
  (0 < dim (config s))%nat → (0 < mlp_hidden (config s))%nat →
  finetune_init (forget_classifier s) = finetune_init s.
Proof.
  intros Hd Hh. rewrite (finetune_init_run s) by done.
  rewrite (finetune_init_run (forget_classifier s)) by done. reflexivity.
Qed.

(** C10. For a configuration with positive [dim] and [mlp_hidden], every
    call to [finetune] first replaces [W1], [b1], [W2], [b2] by weights drawn
    afresh from the model's random source (biases zero) and the four
    optimizers by new ones in the zero state, whatever classifier was there
    before: the call behaves exactly as on the model with its classifier
    removed.  The embedding table, [embed_m], [embed_v] and [embed_t] go
    through that initialisation unchanged, the epochs start from them, and
    [embed_t] is never set back. *)
Theorem finetune_reinitialises_classifier
    (s : Model) (train_seqs : list string) (train_labels : list nat)
    (val_seqs : list string) (val_labels : list nat) :
  (0 < dim (config s))%nat → (0 < mlp_hidden (config s))%nat →
  let cfg := config s in
  let r1 := rng_randn (dim cfg) (mlp_hidden cfg) (rng s) in
  let r2 := rng_randn (mlp_hidden cfg) (num_classes cfg) r1.2 in
  let W1v := map (vscale (sqrt (2 / INR (dim cfg)))) r1.1 in
  let W2v := map (vscale (sqrt (2 / INR (mlp_hidden cfg)))) r2.1 in
  let s1 := (finetune_init s).2 in
  (finetune_init s).1 = Ok tt
  ∧ finetune train_seqs train_labels val_seqs val_labels s
    = finetune_epochs_part train_seqs train_labels val_seqs val_labels s1
  ∧ (W1 s1 = Some W1v ∧ b1 s1 = Some (zeros (mlp_hidden cfg))
     ∧ W2 s1 = Some W2v ∧ b2 s1 = Some (zeros (num_classes cfg)))
  ∧ (opt_W1 s1 = Some (Adam.init W1v (finetune_lr cfg))
     ∧ opt_b1 s1 = Some (Adam.init (zeros (mlp_hidden cfg)) (finetune_lr cfg))
     ∧ opt_W2 s1 = Some (Adam.init W2v (finetune_lr cfg))
     ∧ opt_b2 s1 = Some (Adam.init (zeros (num_classes cfg)) (finetune_lr cfg)))
  ∧ (∀ (like : list R) lr0,
        Adam.t (Adam.init like lr0) = O
        ∧ Adam.m (Adam.init like lr0) = zeros (length like)
        ∧ Adam.v (Adam.init like lr0) = zeros (length like))
  ∧ (embeddings s1 = embeddings s ∧ embed_m s1 = embed_m s
     ∧ embed_v s1 = embed_v s ∧ embed_t s1 = embed_t s)
  ∧ finetune train_seqs train_labels val_seqs val_labels (forget_classifier s)
    = finetune train_seqs train_labels val_seqs val_labels s
  ∧ (embed_t s ≤ embed_t (finetune train_seqs train_labels val_seqs val_labels s).2)%nat.
Proof.
  intros Hd Hh. cbn zeta.
  pose proof (finetune_init_run s Hd Hh) as Hrun. cbn zeta in Hrun.
  split; [by rewrite Hrun|].
  split.
  { rewrite finetune_split. run_step. by rewrite Hrun. }
  split; [by rewrite Hrun|]. split; [by rewrite Hrun|].
  split.
  { intros like lr0. split; [done|]. cbn.
    assert (map (λ _ : R, 0) like = zeros (length like)) as ->; [|done].
    induction like as [|x like IH]; cbn; [done|]. unfold zeros in IH. by rewrite IH. }
  split; [by rewrite Hrun|].
  split.
  { rewrite !finetune_split. run_step. by rewrite finetune_init_forget. }
  rewrite finetune_split.
  assert (preserves (λ s s' : Model, (embed_t s ≤ embed_t s')%nat)
            (finetune_init;;
             finetune_epochs_part train_seqs train_labels val_seqs val_labels)) as Hmono.
  { apply preserves_bind; try exact _.
    - intros s0. cbn beta.
      destruct (finetune_init_frame s0) as (_ & _ & _ & _ & ->). lia.
    - intros _. apply finetune_epochs_part_frame; try exact _; intros; cbn; lia. }
  apply Hmono.
Qed.

End FinetuneInitClaim.

Lemma finetune_reinitialises_classifier_witness :
  finetune ["ACGT"; "TTGA"] [0; 1]%nat [] [] (forget_classifier tiny_fitted)
  = finetune ["ACGT"; "TTGA"] [0; 1]%nat [] [] tiny_fitted.
Proof.
  refine (proj1 (proj2 (proj2 (proj2 (proj2 (proj2 (proj2
    (finetune_reinitialises_classifier tiny_fitted
       ["ACGT"; "TTGA"] [0; 1]%nat [] [] _ _))))))));
    cbn; lia.
Defined.

(** ** C5: early stopping *)

Section EarlyStopping.

Context {S : Type}.
Variable train : M S R.
Variable val : M S R.
Variable pat : nat.
Variable delta : R.

Lemma early_stopping_improved (epoch : nat) (acc : R) (run : TrainingRun) :
  best_val_acc run + delta < acc →
  early_stopping delta epoch acc run =
  {| best_val_acc := acc; best_epoch := Datatypes.S epoch; patience_counter := O;
     train_loss := train_loss run; val_acc := val_acc run ++ [acc] |}.
Proof. intros H. unfold early_stopping. by destruct (Rlt_dec _ _). Qed.

Lemma early_stopping_stale (epoch : nat) (acc : R) (run : TrainingRun) :
  ¬ best_val_acc run + delta < acc →
  early_stopping delta epoch acc run =
  {| best_val_acc := best_val_acc run; best_epoch := best_epoch run;
     patience_counter := Datatypes.S (patience_counter run);
     train_loss := train_loss run; val_acc := val_acc run ++ [acc] |}.
Proof. intros H. unfold early_stopping. by destruct (Rlt_dec _ _). Qed.

(** One pass of the loop body when neither part raises. *)
Lemma epoch_loop_step (remaining epoch : nat) (run : TrainingRun)
    (s s1 s2 : S) (l acc : R) :
  train s = (Ok l, s1) → val s1 = (Ok acc, s2) →
  epoch_loop train (Some val) pat delta (Datatypes.S remaining) epoch run s =
  let run' := early_stopping delta epoch acc (record_train_loss l run) in
  if bool_decide (pat ≤ patience_counter run')%nat then (Ok run', s2)
  else epoch_loop train (Some val) pat delta remaining (Datatypes.S epoch) run' s2.
Proof.
  intros Ht Hv. cbn [epoch_loop].
  rewrite (bind_ok _ _ _ _ _ Ht), (bind_ok _ _ _ _ _ Hv). cbn zeta.
  by destruct (bool_decide _).
Qed.

(** The number of recorded accuracies grows by one per epoch, whatever the
    branch. *)
Lemma early_stopping_val_acc (epoch : nat) (acc : R) (run : TrainingRun) :
  val_acc (early_stopping delta epoch acc run) = val_acc run ++ [acc]
  ∧ train_loss (early_stopping delta epoch acc run) = train_loss run.
Proof. unfold early_stopping. by destruct (Rlt_dec _ _). Qed.

(** A loop that ran all of its [n] epochs without reaching the patience
    limit continues, under a larger budget, from where it ended. *)
Lemma epoch_loop_extend (n m epoch : nat) (run run' : TrainingRun) (s s' : S) :
  epoch_loop train (Some val) pat delta n epoch run s = (Ok run', s') →
  length (val_acc run') = (length (val_acc run) + n)%nat →
  (patience_counter run' < pat)%nat →
  epoch_loop train (Some val) pat delta (n + m) epoch run s =
  epoch_loop train (Some val) pat delta m (epoch + n) run' s'.
Proof.
  revert epoch run s. induction n as [|n IH]; intros epoch run s Hrun Hlen Hcnt.
  - cbn in Hrun. injection Hrun as <- <-. cbn. by rewrite Nat.add_0_r.
  - cbn [epoch_loop Nat.add] in *. unfold mbind, M_bind, bind in *.
    destruct (train s) as [[l|e] s1]; [|done].
    destruct (val s1) as [[acc|e] s2]; [|done].
    cbn zeta in *.
    set (run2 := early_stopping delta epoch acc (record_train_loss l run)) in *.
    assert (length (val_acc run2) = Datatypes.S (length (val_acc run))) as Hl2.
    { subst run2. destruct (early_stopping_val_acc epoch acc (record_train_loss l run))
        as [-> _]. rewrite length_app. cbn. lia. }
    case_bool_decide as Hstop.
    + unfold ret in Hrun. injection Hrun as <- <-. lia.
    + replace (epoch + Datatypes.S n)%nat with (Datatypes.S epoch + n)%nat by lia.
      apply IH; [done | lia | done].
Qed.

End EarlyStopping.

Section EarlyStoppingClaim.

Context {S : Type}.
Variable train : M S R.
Variable val : M S R.
Variable delta : R.

(** C5. In an epoch with a validation set the patience counter is reset to
    zero when the validation accuracy exceeds [best_val_acc + min_delta] and
    goes up by one otherwise, and the loop ends after the first epoch at
    whose end the counter has reached [patience].  In particular, with
    [patience = 2] and a budget of at least 5 epochs: if the run gets
    through three epochs of which the third is the last improvement (counter
    back to zero), and the accuracies of epochs 4 and 5 do not exceed the
    best by more than [min_delta], the loop ends exactly after epoch 5
    (3 + [patience]), with [best_epoch] unchanged. *)
Theorem early_stopping_stops_at_patience :
  (∀ (pat epoch : nat) (acc : R) (run : TrainingRun),
      let run' := early_stopping delta epoch acc run in
      (best_val_acc run + delta < acc →
       patience_counter run' = O ∧ best_val_acc run' = acc
       ∧ best_epoch run' = Datatypes.S epoch)
      ∧ (¬ best_val_acc run + delta < acc →
         patience_counter run' = Datatypes.S (patience_counter run)
         ∧ best_val_acc run' = best_val_acc run ∧ best_epoch run' = best_epoch run))
  ∧ (∀ (pat remaining epoch : nat) (run : TrainingRun) (s s1 s2 : S) (l acc : R),
      train s = (Ok l, s1) → val s1 = (Ok acc, s2) →
      let run' := early_stopping delta epoch acc (record_train_loss l run) in
      ((pat ≤ patience_counter run')%nat →
       epoch_loop train (Some val) pat delta (Datatypes.S remaining) epoch run s
       = (Ok run', s2))
      ∧ ((patience_counter run' < pat)%nat →
         epoch_loop train (Some val) pat delta (Datatypes.S remaining) epoch run s
         = epoch_loop train (Some val) pat delta remaining (Datatypes.S epoch) run' s2))
  ∧ (∀ (budget : nat) (s0 s3 s4 s4' s5 s5' : S) (run3 : TrainingRun) (l4 a4 l5 a5 : R),
      (5 ≤ budget)%nat →
      epoch_loop train (Some val) 2 delta 3 0 initial_run s0 = (Ok run3, s3) →
      length (val_acc run3) = 3%nat → patience_counter run3 = O →
      train s3 = (Ok l4, s4) → val s4 = (Ok a4, s4') →
      ¬ best_val_acc run3 + delta < a4 →
      train s4' = (Ok l5, s5) → val s5 = (Ok a5, s5') →
      ¬ best_val_acc run3 + delta < a5 →
      ∃ run5,
        epoch_loop train (Some val) 2 delta budget 0 initial_run s0 = (Ok run5, s5')
        ∧ val_acc run5 = val_acc run3 ++ [a4; a5]
        ∧ length (val_acc run5) = 5%nat
        ∧ length (train_loss run5) = (length (train_loss run3) + 2)%nat
        ∧ patience_counter run5 = 2%nat
        ∧ best_epoch run5 = best_epoch run3
        ∧ best_val_acc run5 = best_val_acc run3).
Proof.
  split; [|split].
  - intros pat epoch acc run. cbn zeta. split; intros H.
    + by rewrite early_stopping_improved.
    + by rewrite early_stopping_stale.
  - intros pat remaining epoch run s s1 s2 l acc Ht Hv. cbn zeta.
    rewrite (epoch_loop_step train val pat delta remaining epoch run s s1 s2 l acc Ht Hv).
    cbn zeta. split; intros H.
    + by rewrite bool_decide_eq_true_2.
    + by rewrite bool_decide_eq_false_2 by lia.
  - intros budget s0 s3 s4 s4' s5 s5' run3 l4 a4 l5 a5
      Hb Hrun3 Hlen3 Hcnt3 Ht4 Hv4 Ha4 Ht5 Hv5 Ha5.
    replace budget with (3 + Datatypes.S (Datatypes.S (budget - 5)))%nat by lia.
    rewrite (epoch_loop_extend train val 2 delta 3 _ 0 initial_run run3 s0 s3 Hrun3)
      by (cbn; lia).
    rewrite (epoch_loop_step train val 2 delta _ _ run3 s3 s4 s4' l4 a4 Ht4 Hv4).
    cbn zeta. rewrite early_stopping_stale by (cbn; done).
    cbn [patience_counter record_train_loss].
    rewrite Hcnt3. rewrite bool_decide_eq_false_2 by lia.
    rewrite (epoch_loop_step train val 2 delta _ _ _ s4' s5 s5' l5 a5 Ht5 Hv5).
    cbn zeta. rewrite early_stopping_stale by (cbn; done). cbn.
    eexists. split; [reflexivity|]. cbn.
    rewrite <- !app_assoc. cbn. rewrite !length_app, Hlen3. cbn.
    repeat split; lia.
Qed.

End EarlyStoppingClaim.

(** The scripted run with accuracies 0.5, 0.6, 0.7, 0.7, 0.7, ...: three
    improving epochs, then none. *)
Lemma scripted_three_epochs :
  epoch_loop scripted_train (Some (scripted_validate [0.5; 0.6; 0.7; 0.7; 0.7]))
             2 0.001 3 0 initial_run O
  = (Ok {| best_val_acc := 0.7; best_epoch := 3; patience_counter := 0;
           train_loss := [0; 0; 0]; val_acc := [0.5; 0.6; 0.7] |}, 3%nat).
Proof.
  rewrite (epoch_loop_step _ _ _ _ _ _ _ O O 1%nat 0 0.5) by reflexivity.
  cbn zeta. rewrite early_stopping_improved by (cbn; lra).
  cbn [patience_counter]. rewrite bool_decide_eq_false_2 by lia.
  rewrite (epoch_loop_step _ _ _ _ _ _ _ 1%nat 1%nat 2%nat 0 0.6) by reflexivity.
  cbn zeta. rewrite early_stopping_improved by (cbn; lra).
  cbn [patience_counter]. rewrite bool_decide_eq_false_2 by lia.
  rewrite (epoch_loop_step _ _ _ _ _ _ _ 2%nat 2%nat 3%nat 0 0.7) by reflexivity.
  cbn zeta. rewrite early_stopping_improved by (cbn; lra).
  cbn [patience_counter]. rewrite bool_decide_eq_false_2 by lia.
  reflexivity.
Qed.

Lemma early_stopping_stops_at_patience_witness :
  ∃ run5,
    epoch_loop scripted_train (Some (scripted_validate [0.5; 0.6; 0.7; 0.7; 0.7]))
               2 0.001 50 0 initial_run O = (Ok run5, 5%nat)
    ∧ length (val_acc run5) = 5%nat.
Proof.
  destruct (proj2 (proj2 (early_stopping_stops_at_patience
              scripted_train (scripted_validate [0.5; 0.6; 0.7; 0.7; 0.7]) 0.001))
              50%nat O 3%nat 3%nat 4%nat 4%nat 5%nat
              {| best_val_acc := 0.7; best_epoch := 3; patience_counter := 0;
                 train_loss := [0; 0; 0]; val_acc := [0.5; 0.6; 0.7] |}
              0 0.7 0 0.7)
    as (run5 & Hrun & _ & Hlen & _).
  - lia.
  - exact scripted_three_epochs.
  - reflexivity.
  - reflexivity.
  - reflexivity.
  - reflexivity.
  - cbn. lra.
  - reflexivity.
  - reflexivity.
  - cbn. lra.
  - exists run5. split; [exact Hrun | exact Hlen].
Defined.

(** A validation accuracy that is 0.5 in every epoch improves only in
    epoch 1, and with [patience = 2] and a budget of 50 epochs the loop ends
    after epoch 3, [patience] epochs after the last improvement. *)
Lemma early_stopping_constant_accuracy :
  epoch_loop scripted_train (Some (scripted_validate [0.5; 0.5; 0.5; 0.5; 0.5; 0.5]))
             2 0.001 50 0 initial_run O
  = (Ok {| best_val_acc := 0.5; best_epoch := 1; patience_counter := 2;
           train_loss := [0; 0; 0]; val_acc := [0.5; 0.5; 0.5] |}, 3%nat).
Proof.
  rewrite (epoch_loop_step _ _ _ _ _ _ _ O O 1%nat 0 0.5) by reflexivity.
  cbn zeta. rewrite early_stopping_improved by (cbn; lra).
  cbn [patience_counter record_train_loss]. rewrite bool_decide_eq_false_2 by lia.
  rewrite (epoch_loop_step _ _ _ _ _ _ _ 1%nat 1%nat 2%nat 0 0.5) by reflexivity.
  cbn zeta. rewrite early_stopping_stale by (cbn; intros Hlt; lra).
  cbn [patience_counter record_train_loss]. rewrite bool_decide_eq_false_2 by lia.
  rewrite (epoch_loop_step _ _ _ _ _ _ _ 2%nat 2%nat 3%nat 0 0.5) by reflexivity.
  cbn zeta. rewrite early_stopping_stale by (cbn; intros Hlt; lra).
  cbn [patience_counter record_train_loss]. rewrite bool_decide_eq_true_2 by lia.
  reflexivity.
Qed.

(** ** C4: the sparse embedding updates *)

Section SparseUpdates.

Context {rs : RandomSource}.

Lemma py_index_lookup {A : Type} (l : list A) (i : nat) (x : A) :
  l !! i = Some x → py_index l i = Ok x.
Proof. intros H. unfold py_index. by rewrite H. Qed.

(** The loop body is the specification's row update. *)
Lemma sparse_adam_row_run (lr : R) (grad : list R) (idx : nat) (s : Model) :
  in_tables s idx →
  sparse_adam_row lr grad idx s = (Ok tt, row_update lr grad s idx).
Proof.
  intros (Hm & Hv & He).
  apply lookup_lt_is_Some in Hm as [m_row Hm].
  apply lookup_lt_is_Some in Hv as [v_row Hv].
  apply lookup_lt_is_Some in He as [e_row He].
  unfold sparse_adam_row, row_update. rewrite Hm, Hv, He.
  run_step. cbn. unfold py_index. rewrite Hm. cbn. rewrite Hv. cbn. rewrite He.
  reflexivity.
Qed.

Lemma row_update_frame (lr : R) (grad : list R) (s : Model) (idx : nat) :
  embed_t (row_update lr grad s idx) = embed_t s
  ∧ rng (row_update lr grad s idx) = rng s
  ∧ length (embed_m (row_update lr grad s idx)) = length (embed_m s)
  ∧ length (embed_v (row_update lr grad s idx)) = length (embed_v s)
  ∧ length (embeddings (row_update lr grad s idx)) = length (embeddings s).
Proof.
  unfold row_update.
  destruct (embed_m s !! idx), (embed_v s !! idx), (embeddings s !! idx); cbn;
    rewrite ?length_insert; done.
Qed.

Lemma row_update_in_tables (lr : R) (grad : list R) (s : Model) (idx j : nat) :
  in_tables s j → in_tables (row_update lr grad s idx) j.
Proof.
  unfold in_tables. destruct (row_update_frame lr grad s idx) as (_ & _ & -> & -> & ->).
  done.
Qed.

Lemma fold_row_update_in_tables (lr : R) (grad : list R) (indices : list nat)
    (s : Model) (j : nat) :
  in_tables s j → in_tables (fold_left (row_update lr grad) indices s) j.
Proof.
  revert s. induction indices as [|i l IH]; intros s H; [done|].
  cbn. apply IH. by apply row_update_in_tables.
Qed.

Lemma forM_rows_run (lr : R) (grad : list R) (indices : list nat) (s : Model) :
  Forall (in_tables s) indices →
  forM_ indices (sparse_adam_row lr grad) s
  = (Ok tt, fold_left (row_update lr grad) indices s).
Proof.
  revert s. induction indices as [|i l IH]; intros s H; [done|].
  apply Forall_cons in H as [Hi Hl]. cbn [forM_ fold_left].
  rewrite (bind_ok _ _ _ _ _ (sparse_adam_row_run lr grad i s Hi)).
  apply IH. eapply Forall_impl; [exact Hl|]. intros j. apply row_update_in_tables.
Qed.

Lemma sparse_adam_sample_run (lr : R) (d : list R) (indices : list nat) (s : Model) :
  Forall (in_tables s) indices →
  sparse_adam_sample lr d indices s = (Ok tt, sample_update lr s (d, indices)).
Proof.
  intros H. unfold sparse_adam_sample, sample_update.
  destruct indices as [|i l]; [done|]. by apply forM_rows_run.
Qed.

Lemma sample_update_in_tables (lr : R) (s : Model) (sample : list R * list nat) (j : nat) :
  in_tables s j → in_tables (sample_update lr s sample) j.
Proof. apply fold_row_update_in_tables. Qed.

Lemma forM_samples_run (lr : R) (samples : list (list R * list nat)) (s : Model) :
  Forall (λ sample, Forall (in_tables s) sample.2) samples →
  forM_ samples (λ di, sparse_adam_sample lr di.1 di.2) s
  = (Ok tt, batch_update lr samples s).
Proof.
  unfold batch_update. revert s.
  induction samples as [|[d idxs] l IH]; intros s H; [done|].
  apply Forall_cons in H as [Hi Hl]. cbn [forM_ fold_left].
  rewrite (bind_ok _ _ _ _ _ (sparse_adam_sample_run lr d idxs s Hi)).
  apply IH. eapply Forall_impl; [exact Hl|]. intros sample Hs.
  eapply Forall_impl; [exact Hs|]. intros j. apply sample_update_in_tables.
Qed.

End SparseUpdates.

(** Normal returns: a computation that preserves [P] may be put before or
    after one whose returns satisfy [Q], when [Q] absorbs [P]. *)
Section Returns.

Context {S : Type} (P Q : S → S → Prop).

Lemma returns_bind_l {A B : Type} (c : M S A) (f : A → M S B) :
  (∀ s s1 s2, P s s1 → Q s1 s2 → Q s s2) →
  preserves P c → (∀ a, returns (f a) Q) → returns (a ← c; f a) Q.
Proof.
  intros Habs Hc Hf s b s'. run_step. specialize (Hc s).
  destruct (c s) as [[a|e] s1]; cbn in *; [|done].
  intros Hrun. eapply Habs; [exact Hc|]. by eapply Hf.
Qed.

Lemma returns_bind_r {A B : Type} (c : M S A) (f : A → M S B) :
  (∀ s s1 s2, Q s s1 → P s1 s2 → Q s s2) →
  returns c Q → (∀ a, preserves P (f a)) → returns (a ← c; f a) Q.
Proof.
  intros Habs Hc Hf s b s'. run_step.
  destruct (c s) as [[a|e] s1] eqn:Ec; cbn in *; [|done].
  intros Hrun. eapply Habs; [by eapply Hc|].
  specialize (Hf a s1). by rewrite Hrun in Hf.
Qed.

Lemma returns_modify (f : S → S) : (∀ s, Q s (f s)) → returns (modify f) Q.
Proof. intros H s a s'. unfold modify. intros [= _ <-]. apply H. Qed.

End Returns.

(** Frames of the training steps for a relation that every attribute write
    other than the step counter's and the flags' respects. *)
Section TableWrites.

Context {rs : RandomSource}.
Context (P : Model → Model → Prop) `{!Reflexive P} `{!Transitive P}.
Hypothesis Hrng : ∀ s x, P s (set_rng x s).
Hypothesis HE : ∀ s x, P s (set_embeddings x s).
Hypothesis Hm : ∀ s x, P s (set_embed_m x s).
Hypothesis Hv : ∀ s x, P s (set_embed_v x s).
Hypothesis HW1 : ∀ s x, P s (set_W1 x s).
Hypothesis Hb1 : ∀ s x, P s (set_b1 x s).
Hypothesis HW2 : ∀ s x, P s (set_W2 x s).
Hypothesis Hb2 : ∀ s x, P s (set_b2 x s).
Hypothesis HoW1 : ∀ s x, P s (set_opt_W1 x s).
Hypothesis Hob1 : ∀ s x, P s (set_opt_b1 x s).
Hypothesis HoW2 : ∀ s x, P s (set_opt_W2 x s).
Hypothesis Hob2 : ∀ s x, P s (set_opt_b2 x s).

Lemma writes_sparse_adam_row (lr : R) (g : list R) (i : nat) :
  preserves P (sparse_adam_row lr g i).
Proof. unfold sparse_adam_row. repeat frame_step; done. Qed.

Lemma writes_sparse_adam_sample (lr : R) (d : list R) (l : list nat) :
  preserves P (sparse_adam_sample lr d l).
Proof.
  unfold sparse_adam_sample. repeat frame_step. apply writes_sparse_adam_row.
Qed.

Lemma writes_contrastive_anchor (anchors positives : list (list R))
    (anchor_indices : list (list nat)) (batch_size i : nat) :
  preserves P (contrastive_anchor anchors positives anchor_indices batch_size i).
Proof.
  unfold contrastive_anchor. repeat frame_step; try done.
  apply writes_sparse_adam_sample.
Qed.

Lemma writes_finetune_encode (seq : string) : preserves P (finetune_encode seq).
Proof. unfold finetune_encode. repeat frame_step. Qed.

Lemma writes_classifier_steps (dW2 : list (list R)) (db2 : list R)
    (dW1 : list (list R)) (db1 : list R) :
  preserves P (step_W2 dW2) ∧ preserves P (step_b2 db2)
  ∧ preserves P (step_W1 dW1) ∧ preserves P (step_b1 db1).
Proof.
  unfold step_W2, step_b2, step_W1, step_b1.
  repeat split; repeat frame_step; done.
Qed.

End TableWrites.

Section StepCounter.

Context {rs : RandomSource}.

#[local] Instance same_embed_t_refl : Reflexive same_embed_t.
Proof. intros s. reflexivity. Qed.

#[local] Instance same_embed_t_trans : Transitive same_embed_t.
Proof. intros s1 s2 s3. unfold same_embed_t. congruence. Qed.

Lemma incremented_absorbs_l (s s1 s2 : Model) :
  same_embed_t s s1 → embed_t_incremented s1 s2 → embed_t_incremented s s2.
Proof. unfold same_embed_t, embed_t_incremented. congruence. Qed.

Lemma incremented_absorbs_r (s s1 s2 : Model) :
  embed_t_incremented s s1 → same_embed_t s1 s2 → embed_t_incremented s s2.
Proof. unfold same_embed_t, embed_t_incremented. congruence. Qed.

Ltac before_increment :=
  apply (returns_bind_l same_embed_t embed_t_incremented);
  [exact incremented_absorbs_l | | intros ?].

Lemma contrastive_step_counter (sequences : list string) :
  returns (_contrastive_step sequences) embed_t_incremented.
Proof.
  unfold _contrastive_step.
  before_increment; [repeat frame_step|].
  before_increment; [repeat frame_step; done|].
  before_increment; [repeat frame_step; apply preserves_encode; exact _|].
  before_increment; [repeat frame_step; apply preserves_encode; exact _|].
  before_increment; [repeat frame_step|].
  apply (returns_bind_r same_embed_t embed_t_incremented);
    [exact incremented_absorbs_r | by apply returns_modify | intros _].
  repeat frame_step.
  apply writes_contrastive_anchor; try exact _; done.
Qed.

Lemma finetune_step_counter (sequences : list string) (labels : list nat) :
  returns (_finetune_step sequences labels) embed_t_incremented.
Proof.
  unfold _finetune_step.
  before_increment; [repeat frame_step|].
  before_increment; [repeat frame_step; apply writes_finetune_encode; exact _|].
  do 7 (before_increment; [repeat frame_step|]).
  before_increment.
  { apply (writes_classifier_steps same_embed_t); done. }
  before_increment.
  { apply (writes_classifier_steps same_embed_t); done. }
  before_increment.
  { apply (writes_classifier_steps same_embed_t); done. }
  before_increment.
  { apply (writes_classifier_steps same_embed_t); done. }
  apply (returns_bind_r same_embed_t embed_t_incremented);
    [exact incremented_absorbs_r | by apply returns_modify | intros _].
  repeat frame_step.
  apply writes_sparse_adam_sample; try exact _; done.
Qed.

End StepCounter.

Section SparseUpdateInversion.

Context {rs : RandomSource}.

Lemma bind_ok_inv {S A B : Type} (c : M S A) (f : A → M S B) (s s' : S) (b : B) :
  (a ← c; f a) s = (Ok b, s') → ∃ a s1, c s = (Ok a, s1) ∧ f a s1 = (Ok b, s').
Proof.
  run_step. destruct (c s) as [[a|e] s1]; [|done]. intros H. by exists a, s1.
Qed.

Lemma py_index_ok_inv {A : Type} (l : list A) (i : nat) (x : A) :
  py_index l i = Ok x → l !! i = Some x.
Proof. unfold py_index. destruct (l !! i); congruence. Qed.

(** A row update that returns normally found its row in the three tables and
    is the specification's update. *)
Lemma sparse_adam_row_inv (lr : R) (grad : list R) (idx : nat) (s s' : Model) (u : unit) :
  sparse_adam_row lr grad idx s = (Ok u, s') →
  in_tables s idx ∧ s' = row_update lr grad s idx.
Proof.
  intros Hrun.
  assert (in_tables s idx) as Hin.
  { revert Hrun. unfold sparse_adam_row, in_tables. run_step. cbn. unfold py_index.
    destruct (embed_m s !! idx) eqn:Em; [|done]. cbn.
    destruct (embed_v s !! idx) eqn:Ev; [|done]. cbn.
    destruct (embeddings s !! idx) eqn:Ee; [|done]. intros _.
    repeat split; by eapply lookup_lt_Some. }
  split; [done|]. rewrite sparse_adam_row_run in Hrun by done. congruence.
Qed.

Lemma forM_rows_inv (lr : R) (grad : list R) (indices : list nat) (s s' : Model) (u : unit) :
  forM_ indices (sparse_adam_row lr grad) s = (Ok u, s') →
  Forall (in_tables s) indices ∧ s' = fold_left (row_update lr grad) indices s.
Proof.
  revert s. induction indices as [|i l IH]; intros s Hrun.
  - cbn in Hrun. injection Hrun as _ <-. done.
  - cbn [forM_] in Hrun. apply bind_ok_inv in Hrun as (u1 & s1 & H1 & Hrun).
    apply sparse_adam_row_inv in H1 as [Hi ->].
    apply IH in Hrun as [Hl ->]. split; [|done]. constructor; [done|].
    eapply Forall_impl; [exact Hl|]. intros j (Hm & Hv & He).
    destruct (row_update_frame lr grad s i) as (_ & _ & Em & Ev & Ee).
    unfold in_tables. rewrite <- Em, <- Ev, <- Ee. done.
Qed.

Lemma sparse_adam_sample_inv (lr : R) (d : list R) (indices : list nat)
    (s s' : Model) (u : unit) :
  sparse_adam_sample lr d indices s = (Ok u, s') →
  Forall (in_tables s) indices ∧ s' = sample_update lr s (d, indices).
Proof.
  unfold sparse_adam_sample, sample_update. destruct indices as [|i l].
  - intros [= _ <-]. done.
  - apply forM_rows_inv.
Qed.

Lemma forM_samples_inv (lr : R) (samples : list (list R * list nat))
    (s s' : Model) (u : unit) :
  forM_ samples (λ di, sparse_adam_sample lr di.1 di.2) s = (Ok u, s') →
  s' = batch_update lr samples s.
Proof.
  unfold batch_update. revert s. induction samples as [|[d idxs] l IH]; intros s Hrun.
  - cbn in Hrun. by injection Hrun as _ <-.
  - cbn [forM_] in Hrun. apply bind_ok_inv in Hrun as (u1 & s1 & H1 & Hrun).
    apply sparse_adam_sample_inv in H1 as [_ ->]. cbn in Hrun.
    apply IH in Hrun as ->. done.
Qed.

End SparseUpdateInversion.

Section StepInversion.

Context {rs : RandomSource}.

#[local] Instance same_tables_refl : Reflexive same_tables.
Proof. intros s. unfold same_tables. done. Qed.

#[local] Instance same_tables_trans : Transitive same_tables.
Proof.
  intros s1 s2 s3 (?&?&?&?&?&?) (?&?&?&?&?&?). unfold same_tables.
  repeat split; congruence.
Qed.

Lemma preserves_run {A : Type} (P : Model → Model → Prop) (c : M Model A)
    (s s1 : Model) (r : result A) :
  preserves P c → c s = (r, s1) → P s s1.
Proof. intros Hp Hrun. specialize (Hp s). by rewrite Hrun in Hp. Qed.

Lemma finetune_encode_inv (seq : string) (s s1 : Model) (x : list R * list nat) :
  finetune_encode seq s = (Ok x, s1) →
  s1 = s ∧ x.2 = kmer_indices (kmer_length (config s)) (kmer_to_idx s) seq.
Proof.
  unfold finetune_encode. run_step. cbn.
  destruct (kmer_indices _ _ seq) as [|i l] eqn:Ek.
  - intros [= <- <-]. done.
  - destruct (take_rows _ _) as [vecs|e]; [|done]. cbn.
    destruct (Rlt_dec _ _); intros [= <- <-]; done.
Qed.

Lemma mapM_finetune_encode_inv (seqs : list string) (s s1 : Model)
    (xs : list (list R * list nat)) :
  mapM finetune_encode seqs s = (Ok xs, s1) →
  s1 = s ∧ map snd xs = map (kmer_indices (kmer_length (config s)) (kmer_to_idx s)) seqs.
Proof.
  revert xs s1. induction seqs as [|seq l IH]; intros xs s1 Hrun.
  - cbn in Hrun. injection Hrun as <- <-. done.
  - cbn [mapM] in Hrun. apply bind_ok_inv in Hrun as (x & s2 & Hx & Hrun).
    apply finetune_encode_inv in Hx as [-> Hx].
    apply bind_ok_inv in Hrun as (xs' & s3 & Hxs & Hrun).
    apply IH in Hxs as [-> Hxs]. injection Hrun as <- <-.
    cbn. by rewrite Hx, Hxs.
Qed.

Lemma result_all_length {A : Type} (l : list (result A)) (ys : list A) :
  result_all l = Ok ys → length ys = length l.
Proof.
  revert ys. induction l as [|[a|e] l IH]; intros ys; cbn; [by intros [= <-] | | done].
  destruct (result_all l) as [r|e]; [|done]. intros [= <-]. cbn. by rewrite (IH r).
Qed.

Lemma fill_onehot_length (labels : list nat) (i : nat) (O O' : list (list R)) :
  fill_onehot i labels O = Ok O' → length O' = length O.
Proof.
  revert i O. induction labels as [|l ls IH]; intros i O; cbn; [by intros [= <-]|].
  destruct (O !! i) as [row|]; [|done]. case_bool_decide; [|done].
  intros Hfill. apply IH in Hfill. by rewrite length_insert in Hfill.
Qed.

(** Effect of [_finetune_step] on the embedding side: the classifier update
    leaves it alone, the step counter goes up once, and then the samples of
    the batch are applied in order, each with its own list of k-mer indices. *)
Lemma finetune_step_tables (sequences : list string) (labels : list nat)
    (s s' : Model) (loss : R) :
  _finetune_step sequences labels s = (Ok loss, s') →
  ∃ samples s_mid,
    map snd samples
    = map (kmer_indices (kmer_length (config s)) (kmer_to_idx s)) sequences
    ∧ embeddings s_mid = embeddings s ∧ embed_m s_mid = embed_m s
    ∧ embed_v s_mid = embed_v s ∧ embed_t s_mid = S (embed_t s)
    ∧ s' = batch_update (finetune_lr (config s) * 0.1) samples s_mid.
Proof.
  unfold _finetune_step. intros Hrun.
  apply bind_ok_inv in Hrun as (cfg & s0 & [= <- <-] & Hrun).
  apply bind_ok_inv in Hrun as (enc_idx & s1 & Henc & Hrun).
  apply mapM_finetune_encode_inv in Henc as [-> Hidx].
  apply bind_ok_inv in Hrun as (encodings & s1 & Hs & Hrun).
  unfold lift in Hs. injection Hs as Hstack <-.
  assert (length encodings = length enc_idx) as Hlen.
  { destruct (map fst enc_idx) as [|e l] eqn:E; [done|]. cbn in Hstack.
    injection Hstack as <-. rewrite <- E. by rewrite length_map. }
  apply bind_ok_inv in Hrun as (W1v & s1 & Hq & Hrun).
  pose proof (preserves_run eq _ _ _ _ (preserves_require eq W1 TypeError) Hq) as <-.
  clear Hq.
  apply bind_ok_inv in Hrun as (b1v & s1 & Hq & Hrun).
  pose proof (preserves_run eq _ _ _ _ (preserves_require eq b1 TypeError) Hq) as <-.
  clear Hq.
  apply bind_ok_inv in Hrun as (W2v & s1 & Hq & Hrun).
  pose proof (preserves_run eq _ _ _ _ (preserves_require eq W2 TypeError) Hq) as <-.
  clear Hq.
  apply bind_ok_inv in Hrun as (b2v & s1 & Hq & Hrun).
  pose proof (preserves_run eq _ _ _ _ (preserves_require eq b2 TypeError) Hq) as <-.
  clear Hq.
  apply bind_ok_inv in Hrun as (probs & s1 & [= Hprobs <-] & Hrun).
  apply result_all_length in Hprobs. rewrite length_map in Hprobs.
  apply bind_ok_inv in Hrun as (onehot & s1 & [= Honehot <-] & Hrun).
  apply fill_onehot_length in Honehot.
  cbn zeta in Hrun.
  apply bind_ok_inv in Hrun as (u1 & s1 & Hq1 & Hrun).
  apply bind_ok_inv in Hrun as (u2 & s2 & Hq2 & Hrun).
  apply bind_ok_inv in Hrun as (u3 & s3 & Hq3 & Hrun).
  apply bind_ok_inv in Hrun as (u4 & s4 & Hq4 & Hrun).
  assert (same_tables s s4) as (HE & Hm & Hv & Ht & Hcfg & Hidx4).
  { etransitivity; [eapply preserves_run; [|exact Hq1]|].
    { apply (writes_classifier_steps same_tables); done. }
    etransitivity; [eapply preserves_run; [|exact Hq2]|].
    { apply (writes_classifier_steps same_tables); done. }
    etransitivity; [eapply preserves_run; [|exact Hq3]|].
    { apply (writes_classifier_steps same_tables); done. }
    eapply preserves_run; [|exact Hq4].
    apply (writes_classifier_steps same_tables); done. }
  apply bind_ok_inv in Hrun as (u5 & s5 & [= _ <-] & Hrun).
  apply bind_ok_inv in Hrun as (u6 & s6 & Hloop & [= _ <-]).
  apply forM_samples_inv in Hloop as ->.
  eexists _, _. split; [|split; [|split; [|split; [|split; [|reflexivity]]]]]; cbn; try done.
  - rewrite <- Hidx at 1. rewrite snd_zip; [done|].
    unfold matmul, add_bias, zeros2 in *.
    repeat (rewrite length_zip_with in Hprobs || rewrite length_map in Hprobs).
    rewrite length_replicate in Honehot.
    repeat (rewrite length_zip_with || rewrite length_map).
    apply (f_equal length) in Hidx. rewrite !length_map in Hidx.
    lia.
  - by rewrite Ht.
Qed.

End StepInversion.

Section ContrastiveInversion.

Context {rs : RandomSource}.

#[local] Instance same_tables_refl' : Reflexive same_tables.
Proof. intros s. unfold same_tables. done. Qed.

#[local] Instance same_tables_trans' : Transitive same_tables.
Proof.
  intros s1 s2 s3 (?&?&?&?&?&?) (?&?&?&?&?&?). unfold same_tables.
  repeat split; congruence.
Qed.

Lemma row_update_config (lr : R) (grad : list R) (s : Model) (idx : nat) :
  config (row_update lr grad s idx) = config s.
Proof.
  unfold row_update.
  by destruct (embed_m s !! idx), (embed_v s !! idx), (embeddings s !! idx).
Qed.

Lemma sample_update_config (lr : R) (s : Model) (sample : list R * list nat) :
  config (sample_update lr s sample) = config s.
Proof.
  unfold sample_update. generalize (vdiv sample.1 (INR (length sample.2))). intros g.
  revert s. induction sample.2 as [|i l IH]; intros s; [done|].
  cbn. rewrite IH. apply row_update_config.
Qed.

(** One anchor: a draw from the random source, then the sample update with
    the anchor's index list. *)
Lemma contrastive_anchor_inv (anchors positives : list (list R))
    (anchor_indices : list (list nat)) (batch_size i : nat)
    (s s' : Model) (loss : R) :
  contrastive_anchor anchors positives anchor_indices batch_size i s = (Ok loss, s') →
  ∃ g d indices,
    anchor_indices !! i = Some indices
    ∧ s' = sample_update (contrastive_lr (config s)) (set_rng g s) (d, indices).
Proof.
  unfold contrastive_anchor. intros Hrun.
  apply bind_ok_inv in Hrun as (cfg & s0 & [= <- <-] & Hrun).
  apply bind_ok_inv in Hrun as (neg1 & s1 & Hshuffle & Hrun).
  unfold with_rng in Hshuffle.
  destruct (rng_shuffle _ (rng s)) as [neg1' g]. injection Hshuffle as -> <-.
  apply bind_ok_inv in Hrun as (negatives & s1 & [= _ <-] & Hrun).
  apply bind_ok_inv in Hrun as (a_i & s1 & [= _ <-] & Hrun).
  apply bind_ok_inv in Hrun as (p_i & s1 & [= _ <-] & Hrun).
  apply bind_ok_inv in Hrun as (sim_pos & s1 & [= _ <-] & Hrun).
  apply bind_ok_inv in Hrun as (sim_negs & s1 & [= _ <-] & Hrun).
  cbn zeta in Hrun.
  apply bind_ok_inv in Hrun as (indices & s1 & [= Hidx <-] & Hrun).
  apply py_index_ok_inv in Hidx.
  apply bind_ok_inv in Hrun as (u & s1 & Hupd & [= _ <-]).
  apply sparse_adam_sample_inv in Hupd as [_ ->].
  eexists g, _, indices. split; [done|]. reflexivity.
Qed.

(** The loss an anchor returns is [anchor_loss] of its encoding, its
    positive and the negatives it drew. *)
Lemma contrastive_anchor_loss (anchors positives : list (list R))
    (anchor_indices : list (list nat)) (batch_size i : nat)
    (s s' : Model) (loss : R) :
  contrastive_anchor anchors positives anchor_indices batch_size i s = (Ok loss, s') →
  ∃ a_i p_i negatives,
    anchors !! i = Some a_i ∧ positives !! i = Some p_i
    ∧ Forall (λ neg, neg ∈ anchors) negatives
    ∧ anchor_loss (temperature (config s)) a_i p_i negatives = Ok loss.
Proof.
  unfold contrastive_anchor. intros Hrun.
  apply bind_ok_inv in Hrun as (cfg & s0 & [= <- <-] & Hrun).
  apply bind_ok_inv in Hrun as (neg1 & s1 & _ & Hrun).
  apply bind_ok_inv in Hrun as (negatives & s2 & [= Hneg <-] & Hrun).
  apply bind_ok_inv in Hrun as (a_i & s2 & [= Ha <-] & Hrun).
  apply bind_ok_inv in Hrun as (p_i & s2 & [= Hp <-] & Hrun).
  apply bind_ok_inv in Hrun as (sim_pos & s2 & [= Hsim <-] & Hrun).
  apply bind_ok_inv in Hrun as (sim_negs & s2 & [= Hsims <-] & Hrun).
  cbn zeta in Hrun.
  apply bind_ok_inv in Hrun as (indices & s2 & _ & Hrun).
  apply bind_ok_inv in Hrun as (u & s3 & _ & [= <- _]).
  exists a_i, p_i, negatives.
  split; [by apply py_index_ok_inv|]. split; [by apply py_index_ok_inv|].
  split; [|by unfold anchor_loss; rewrite Hsim, Hsims].
  unfold take_rows in Hneg. clear -Hneg.
  revert negatives Hneg.
  induction (take (num_negatives (config s)) neg1) as [|j l IH]; intros negatives Hneg.
  - cbn in Hneg. injection Hneg as <-. constructor.
  - cbn in Hneg. destruct (py_index anchors j) as [row|] eqn:Ej; [|done].
    destruct (result_all (map (py_index anchors) l)) as [rows|]; [|done].
    injection Hneg as <-. constructor; [|by apply IH].
    apply py_index_ok_inv in Ej. by eapply list_elem_of_lookup_2.
Qed.

Lemma foldM_anchors_inv (anchors positives : list (list R))
    (anchor_indices : list (list nat)) (batch_size : nat) (order : list nat)
    (acc total : R) (s s' : Model) :
  foldM (λ total i,
           loss ← contrastive_anchor anchors positives anchor_indices batch_size i;
           ret (total + loss)) acc order s = (Ok total, s') →
  anchors_applied (contrastive_lr (config s)) anchor_indices order s s'.
Proof.
  revert acc s. induction order as [|i rest IH]; intros acc s Hrun.
  - cbn in Hrun. injection Hrun as _ <-. constructor.
  - cbn [foldM] in Hrun. apply bind_ok_inv in Hrun as (acc' & s1 & Hone & Hrun).
    apply bind_ok_inv in Hone as (loss & s2 & Hanchor & [= _ <-]).
    apply contrastive_anchor_inv in Hanchor as (g & d & indices & Hidx & ->).
    apply IH in Hrun. rewrite sample_update_config in Hrun. cbn in Hrun.
    by econstructor.
Qed.

(** Effect of [_contrastive_step] on the embedding side: the step counter
    goes up once, before any anchor is processed; the anchors are then
    applied in order. *)
Lemma contrastive_step_tables (sequences : list string) (s s' : Model) (loss : R) :
  _contrastive_step sequences s = (Ok loss, s') →
  ∃ s_mid,
    embeddings s_mid = embeddings s ∧ embed_m s_mid = embed_m s
    ∧ embed_v s_mid = embed_v s ∧ embed_t s_mid = S (embed_t s)
    ∧ anchors_applied (contrastive_lr (config s))
        (map (kmer_indices (kmer_length (config s)) (kmer_to_idx s)) sequences)
        (seq 0 (length sequences)) s_mid s'.
Proof.
  unfold _contrastive_step. intros Hrun.
  apply bind_ok_inv in Hrun as (cfg & s0 & [= <- <-] & Hrun).
  apply bind_ok_inv in Hrun as (augmented & s1 & Haug & Hrun).
  assert (same_tables s s1) as (HE & Hm & Hv & Ht & Hcfg & Htab).
  { eapply preserves_run; [|exact Haug]. repeat frame_step; done. }
  apply bind_ok_inv in Hrun as (anchors & s2 & Hanc & Hrun).
  assert (s2 = s1) as ->.
  { symmetry. eapply (preserves_run eq); [|exact Hanc].
    repeat frame_step. apply preserves_encode; exact _. }
  apply bind_ok_inv in Hrun as (positives & s2 & Hpos & Hrun).
  assert (s2 = s1) as ->.
  { symmetry. eapply (preserves_run eq); [|exact Hpos].
    repeat frame_step. apply preserves_encode; exact _. }
  apply bind_ok_inv in Hrun as (table & s2 & [= <- <-] & Hrun).
  cbn zeta in Hrun.
  apply bind_ok_inv in Hrun as (u & s_mid & [= _ <-] & Hrun).
  apply bind_ok_inv in Hrun as (total & s3 & Hfold & Hrun).
  assert (s3 = s') as ->.
  { destruct (bool_decide _); [done|]. by injection Hrun as _ <-. }
  apply foldM_anchors_inv in Hfold. cbn in Hfold.
  exists (set_embed_t (S (embed_t s1)) s1). cbn.
  rewrite Hcfg, Htab in Hfold.
  repeat (split; [done|]). split; [by rewrite Ht | done].
Qed.

End ContrastiveInversion.

(** ** C3: the loss recorded for an epoch of pre-training *)

Section ZeroEncodings.

Context {rs : RandomSource}.

Lemma vsum_replicate (n : nat) (x : R) : vsum (replicate n x) = INR n * x.
Proof.
  induction n as [|n IH]; [cbn; lra|].
  rewrite S_INR. cbn [replicate]. unfold vsum in *. cbn. rewrite IH. lra.
Qed.

Lemma norm_zeros (d : nat) : norm (zeros d) = 0.
Proof.
  unfold norm, zeros.
  assert (map (λ x, x * x) (replicate d 0) = replicate d 0) as ->.
  { induction d as [|d IH]; cbn; [done|]. rewrite IH. f_equal. lra. }
  rewrite vsum_replicate, Rmult_0_r. apply sqrt_0.
Qed.

Lemma cosine_zeros (d : nat) (x : list R) : cosine_similarity (zeros d) x = 0.
Proof.
  unfold cosine_similarity. rewrite norm_zeros. by destruct (Req_dec_T 0 0).
Qed.

(** The loss of an anchor all of whose similarities are zero, against [n]
    negatives. *)
Lemma info_nce_zero (n : nat) :
  info_nce 0 (replicate n 0) = - ln (1 / (1 + INR n + 1e-10)).
Proof.
  rewrite info_nce_unfold. rewrite (clip_inside 0) by lra. rewrite exp_0.
  assert (map (λ x, exp (clip x (-20) 20)) (replicate n 0) = replicate n 1) as ->.
  { induction n as [|n IH]; cbn; [done|]. rewrite IH. f_equal.
    rewrite (clip_inside 0) by lra. apply exp_0. }
  rewrite vsum_replicate. by rewrite Rmult_1_r.
Qed.

Lemma info_nce_zero_decreasing (n m : nat) :
  (n < m)%nat → info_nce 0 (replicate n 0) < info_nce 0 (replicate m 0).
Proof.
  intros Hnm. rewrite !info_nce_zero.
  apply lt_INR in Hnm. pose proof (pos_INR n) as Hn.
  assert (0 < 1 / (1 + INR m + 1e-10)) as Hpos by (apply Rdiv_lt_0_compat; lra).
  assert (1 / (1 + INR m + 1e-10) < 1 / (1 + INR n + 1e-10)) as Hlt.
  { unfold Rdiv. rewrite !Rmult_1_l. apply Rinv_lt_contravar; [|lra].
    apply Rmult_lt_0_compat; lra. }
  pose proof (ln_increasing _ _ Hpos Hlt). lra.
Qed.

Lemma take_rows_replicate {A : Type} (n : nat) (x : A) (indices : list nat) :
  Forall (λ j, (j < n)%nat) indices →
  take_rows (replicate n x) indices = Ok (replicate (length indices) x).
Proof.
  unfold take_rows. induction indices as [|j l IH]; intros H; [done|].
  apply Forall_cons in H as [Hj Hl]. cbn.
  unfold py_index at 1. rewrite lookup_replicate_2 by done.
  by rewrite IH.
Qed.

Lemma map_const_replicate {A B : Type} (f : A → B) (l : list A) (y : B) :
  Forall (λ x, f x = y) l → map f l = replicate (length l) y.
Proof.
  induction l as [|x l IH]; intros H; [done|].
  apply Forall_cons in H as [Hx Hl]. cbn. by rewrite Hx, IH.
Qed.

(** A sequence without a valid window is encoded as the zero vector. *)
Lemma valid_window_rows_none (s : Model) (sequence : string) :
  vocabulary_ok s → table_shaped s → no_valid_window s sequence →
  valid_window_rows s sequence = [].
Proof.
  intros Hvoc Htab Hno. destruct (take_rows_windows s sequence Hvoc Htab) as [_ Hlen].
  unfold no_valid_window in Hno. rewrite Hno in Hlen.
  by destruct (valid_window_rows s sequence).
Qed.

Lemma mapM_encode_zero (s : Model) (batch : list string) :
  vocabulary_ok s → table_shaped s → Forall (no_valid_window s) batch →
  mapM (λ seq, encode seq true) batch s
  = (Ok (replicate (length batch) (zeros (dim (config s)))), s).
Proof.
  intros Hvoc Htab Hno. rewrite mapM_encode_run by done. do 2 f_equal.
  apply map_const_replicate. eapply Forall_impl; [exact Hno|].
  intros seq Hseq. cbn beta. by rewrite valid_window_rows_none.
Qed.

Lemma mapM_encode_length (s : Model) (batch : list string) :
  vocabulary_ok s → table_shaped s →
  ∃ rows, mapM (λ seq, encode seq true) batch s = (Ok rows, s)
          ∧ length rows = length batch.
Proof.
  intros Hvoc Htab. eexists. split; [by apply mapM_encode_run|]. by rewrite length_map.
Qed.

End ZeroEncodings.

Section ZeroBatch.

Context {rs : RandomSource}.

Lemma filter_ne_notin (l : list nat) (i : nat) :
  i ∉ l → filter (λ j, j ≠ i) l = l.
Proof.
  induction l as [|x l IH]; intros Hi; [done|].
  apply not_elem_of_cons in Hi as [Hne Hi].
  rewrite filter_cons_True by done. by rewrite IH.
Qed.

Lemma filter_ne_length (l : list nat) (i : nat) :
  NoDup l → i ∈ l → S (length (filter (λ j, j ≠ i) l)) = length l.
Proof.
  induction l as [|x l IH]; intros Hnd Hi; [by apply elem_of_nil in Hi|].
  apply NoDup_cons in Hnd as [Hx Hnd].
  destruct (decide (x = i)) as [-> | Hne].
  - rewrite filter_cons_False by (intros H; by apply H).
    by rewrite filter_ne_notin.
  - rewrite filter_cons_True by done. cbn. f_equal. apply IH; [done|].
    apply elem_of_cons in Hi as [-> | Hi]; done.
Qed.

Lemma negatives_candidates (batch_size i : nat) :
  (i < batch_size)%nat →
  length (filter (λ j, j ≠ i) (seq 0 batch_size)) = (batch_size - 1)%nat
  ∧ Forall (λ j, (j < batch_size)%nat) (filter (λ j, j ≠ i) (seq 0 batch_size)).
Proof.
  intros Hi. split.
  - pose proof (filter_ne_length (seq 0 batch_size) i (NoDup_seq 0 batch_size)) as H.
    rewrite length_seq in H. rewrite elem_of_seq in H. lia.
  - apply Forall_forall. intros j Hj.
    apply list_elem_of_filter in Hj as [_ Hj]. apply elem_of_seq in Hj. lia.
Qed.

(** An anchor encoded as the zero vector: every similarity is [0], no row is
    updated, and the loss only depends on the number of negatives. *)
Lemma contrastive_anchor_zero (s : Model) (positives : list (list R))
    (batch_size i d : nat) :
  temperature (config s) ≠ 0 →
  (i < batch_size)%nat → length positives = batch_size →
  ∃ g,
    contrastive_anchor (replicate batch_size (zeros d)) positives
                       (replicate batch_size []) batch_size i s
    = (Ok (info_nce 0 (replicate (Nat.min (num_negatives (config s)) (batch_size - 1)) 0)),
       set_rng g s).
Proof.
  intros Htau Hi Hlen. destruct (negatives_candidates batch_size i Hi) as [Hcl Hcb].
  unfold contrastive_anchor.
  rewrite (bind_ok _ _ s s (config s)) by reflexivity.
  set (cand := filter (λ j, j ≠ i) (seq 0 batch_size)) in *.
  pose proof (rng_shuffle_perm cand (rng s)) as Hperm.
  destruct (rng_shuffle cand (rng s)) as [neg1 g] eqn:Esh. cbn in Hperm.
  exists g.
  rewrite (bind_ok _ _ s (set_rng g s) neg1) by (unfold with_rng; by rewrite Esh).
  set (neg_idx := take (num_negatives (config s)) neg1).
  assert (length neg_idx = Nat.min (num_negatives (config s)) (batch_size - 1)) as Hnl.
  { subst neg_idx. rewrite length_take. by rewrite (Permutation_length Hperm), Hcl. }
  assert (Forall (λ j, (j < batch_size)%nat) neg_idx) as Hnb.
  { subst neg_idx. apply Forall_take. by rewrite Hperm. }
  rewrite (bind_ok _ _ _ (set_rng g s) (replicate (length neg_idx) (zeros d)))
    by (unfold lift; by rewrite take_rows_replicate).
  rewrite (bind_ok _ _ _ (set_rng g s) (zeros d))
    by (unfold lift, py_index; by rewrite lookup_replicate_2).
  destruct (lookup_lt_is_Some_2 positives i) as [p_i Hp]; [lia|].
  rewrite (bind_ok _ _ _ (set_rng g s) p_i)
    by (unfold lift, py_index; by rewrite Hp).
  rewrite (bind_ok _ _ _ (set_rng g s)
             (cosine_similarity (zeros d) p_i / temperature (config s)))
    by (unfold lift; by rewrite scaled_similarity_run).
  rewrite (bind_ok _ _ _ (set_rng g s)
             (map (λ neg, cosine_similarity (zeros d) neg / temperature (config s))
                  (replicate (length neg_idx) (zeros d))))
    by (unfold lift; by rewrite scaled_similarities_run).
  cbn zeta.
  rewrite (bind_ok _ _ _ (set_rng g s) [])
    by (unfold lift, py_index; by rewrite lookup_replicate_2).
  cbn [sparse_adam_sample].
  rewrite (bind_ok _ _ _ (set_rng g s) tt) by reflexivity.
  unfold ret. f_equal. f_equal.
  rewrite cosine_zeros. unfold Rdiv at 1. rewrite Rmult_0_l. f_equal.
  rewrite <- Hnl.
  change (map ?f ?l) with (f <$> l). rewrite fmap_replicate. f_equal.
  rewrite cosine_zeros. unfold Rdiv. by rewrite Rmult_0_l.
Qed.

End ZeroBatch.

Section ZeroStep.

Context {rs : RandomSource}.

Lemma set_rng_same (s : Model) : set_rng (rng s) s = s.
Proof. by destruct s. Qed.

Lemma same_encoder_ok (s s' : Model) :
  same_encoder s s' → vocabulary_ok s → table_shaped s →
  vocabulary_ok s' ∧ table_shaped s'
  ∧ ∀ seq, no_valid_window s seq → no_valid_window s' seq.
Proof.
  intros (Hc & Hk & Hi & He) Hvoc Htab.
  unfold vocabulary_ok, table_shaped, no_valid_window in *.
  rewrite Hc, Hk, Hi, He. done.
Qed.

Lemma mapM_with_rng {A B : Type} (f : A → RandomState → B * RandomState)
    (xs : list A) (s : Model) :
  ∃ ys g, mapM (λ x, with_rng (f x)) xs s = (Ok ys, set_rng g s)
          ∧ length ys = length xs.
Proof.
  revert s. induction xs as [|x xs IH]; intros s.
  - exists [], (rng s). by rewrite set_rng_same.
  - cbn [mapM]. destruct (f x (rng s)) as [y g1] eqn:Ef.
    destruct (IH (set_rng g1 s)) as (ys & g & Hrun & Hlen).
    exists (y :: ys), g.
    rewrite (bind_ok _ _ s (set_rng g1 s) y) by (unfold with_rng; by rewrite Ef).
    rewrite (bind_ok _ _ _ _ _ Hrun). cbn. by rewrite Hlen.
Qed.

Lemma foldM_anchors_zero (positives : list (list R)) (batch_size d : nat)
    (order : list nat) (acc : R) (s : Model) :
  temperature (config s) ≠ 0 →
  Forall (λ i, (i < batch_size)%nat) order → length positives = batch_size →
  ∃ total g,
    foldM (λ total i,
             loss ← contrastive_anchor (replicate batch_size (zeros d)) positives
                                       (replicate batch_size []) batch_size i;
             ret (total + loss)) acc order s
    = (Ok total, set_rng g s)
    ∧ total = acc + INR (length order)
                    * info_nce 0 (replicate (Nat.min (num_negatives (config s))
                                                     (batch_size - 1)) 0).
Proof.
  intros Htau Horder Hlen. revert acc s Htau.
  induction order as [|i rest IH]; intros acc s Htau.
  - exists acc, (rng s). rewrite set_rng_same. split; [done|]. cbn. lra.
  - apply Forall_cons in Horder as [Hi Hrest].
    destruct (contrastive_anchor_zero s positives batch_size i d Htau Hi Hlen)
      as (g1 & Hone).
    destruct (IH Hrest
                (acc + info_nce 0 (replicate (Nat.min (num_negatives (config s))
                                                      (batch_size - 1)) 0))
                (set_rng g1 s) Htau) as (total & g & Hrun & Htotal).
    exists total, g. cbn [foldM].
    erewrite bind_ok; [|erewrite bind_ok; [|exact Hone]; reflexivity].
    split; [exact Hrun|].
    rewrite Htotal. cbn [length]. rewrite S_INR. cbn. lra.
Qed.

(** A batch of sequences without valid windows: the step returns the common
    loss of its anchors and leaves every table as it was. *)
Lemma contrastive_step_zero (batch : list string) (s : Model) :
  temperature (config s) ≠ 0 →
  vocabulary_ok s → table_shaped s → Forall (no_valid_window s) batch →
  batch ≠ [] →
  ∃ loss g,
    _contrastive_step batch s = (Ok loss, advance g s)
    ∧ loss = info_nce 0 (replicate (Nat.min (num_negatives (config s))
                                            (length batch - 1)) 0).
Proof.
  intros Htau Hvoc Htab Hno Hne. unfold _contrastive_step.
  rewrite (bind_ok _ _ s s (config s)) by reflexivity.
  destruct (mapM_with_rng (λ seq, augment_sequence seq 0.1) batch s)
    as (augmented & g0 & Haug & Hlaug).
  rewrite (bind_ok _ _ _ _ _ Haug).
  destruct (same_encoder_ok s (set_rng g0 s)) as (Hvoc0 & Htab0 & Hno0); try done.
  rewrite (bind_ok _ _ _ _ _ (mapM_encode_zero (set_rng g0 s) batch Hvoc0 Htab0
             ltac:(eapply Forall_impl; [exact Hno | exact Hno0]))).
  destruct (mapM_encode_length (set_rng g0 s) augmented Hvoc0 Htab0)
    as (positives & Hpos & Hlpos).
  rewrite (bind_ok _ _ _ _ _ Hpos).
  rewrite (bind_ok _ _ _ (set_rng g0 s) (kmer_to_idx s)) by reflexivity.
  cbn zeta.
  rewrite (bind_ok _ _ _ (set_embed_t (S (embed_t s)) (set_rng g0 s)) tt) by reflexivity.
  assert (map (kmer_indices (kmer_length (config s)) (kmer_to_idx s)) batch
          = replicate (length batch) []) as ->.
  { apply map_const_replicate. exact Hno. }
  cbn [config set_rng].
  destruct (foldM_anchors_zero positives (length batch) (dim (config s))
              (seq 0 (length batch)) 0 (set_embed_t (S (embed_t s)) (set_rng g0 s)))
    as (total & g & Hfold & Htotal).
  { exact Htau. }
  { apply Forall_forall. intros i Hi. apply elem_of_seq in Hi. lia. }
  { lia. }
  rewrite (bind_ok _ _ _ _ _ Hfold).
  rewrite bool_decide_eq_false_2 by (by destruct batch).
  eexists _, g. split; [reflexivity|].
  rewrite Htotal. rewrite length_seq. cbn [config set_embed_t set_rng].
  assert (INR (length batch) ≠ 0) as Hb.
  { apply not_0_INR. by destruct batch. }
  field. exact Hb.
Qed.

End ZeroStep.

Section ZeroEpoch.

Context {rs : RandomSource}.

Lemma take_rows_permutation {A : Type} (P : A → Prop) (l : list A) (idx : list nat) :
  idx ≡ₚ seq 0 (length l) → Forall P l →
  ∃ ys, take_rows l idx = Ok ys ∧ length ys = length l ∧ Forall P ys.
Proof.
  intros Hperm HP. unfold take_rows.
  destruct (result_all_ok (py_index l) idx) as (ys & Hys & Hall).
  { intros i Hi. rewrite Hperm in Hi. apply elem_of_seq in Hi.
    destruct (lookup_lt_is_Some_2 l i) as [y Hy]; [lia|].
    exists y. by apply py_index_lookup. }
  exists ys. split; [done|]. split.
  - rewrite <- (Forall2_length _ _ _ Hall), (Permutation_length Hperm).
    apply length_seq.
  - rewrite Forall_forall in HP. clear Hys Hperm.
    induction Hall as [|i y idx' ys' Hiy _ IH]; constructor; [|done].
    apply py_index_ok_inv in Hiy. apply HP. by eapply list_elem_of_lookup_2.
Qed.

(** Between 33 and 64 sequences make two batches: 32 and the rest. *)
Lemma batches_two {A : Type} (l : list A) :
  (32 < length l ≤ 64)%nat → batches 32 l = [take 32 l; drop 32 l].
Proof.
  intros Hl. unfold batches.
  destruct (length l) as [|[|fuel]] eqn:El; [lia | lia |].
  destruct l as [|x l'] eqn:Exl; [cbn in El; lia|]. rewrite <- Exl in *.
  assert (batches_aux (S (S fuel)) 32 l
          = take 32 l :: batches_aux (S fuel) 32 (drop 32 l)) as ->.
  { rewrite Exl. reflexivity. }
  assert (length (drop 32 l) = (length l - 32)%nat) as Hd by apply length_drop.
  destruct (drop 32 l) as [|y l2] eqn:Ed; [cbn in Hd; lia|]. rewrite <- Ed in *.
  assert (batches_aux (S fuel) 32 (drop 32 l)
          = take 32 (drop 32 l) :: batches_aux fuel 32 (drop 32 (drop 32 l))) as ->.
  { rewrite Ed. reflexivity. }
  rewrite (take_ge (drop 32 l)) by lia.
  rewrite (drop_ge (drop 32 l)) by lia.
  by destruct fuel.
Qed.

#[local] Instance same_encoder_trans : Transitive same_encoder.
Proof.
  intros s1 s2 s3 (?&?&?&?) (?&?&?&?). unfold same_encoder. repeat split; congruence.
Qed.

Lemma same_encoder_advance (g : RandomState) (s : Model) : same_encoder s (advance g s).
Proof. by unfold same_encoder. Qed.

Lemma same_encoder_set_rng (g : RandomState) (s : Model) : same_encoder s (set_rng g s).
Proof. by unfold same_encoder. Qed.

(** One epoch over 33 to 64 sequences none of which has a valid window: the
    recorded loss is the mean of the two batch means. *)
Lemma contrastive_epoch_zero (sequences : list string) (s : Model) :
  temperature (config s) ≠ 0 →
  vocabulary_ok s → table_shaped s → Forall (no_valid_window s) sequences →
  (33 < length sequences ≤ 64)%nat →
  let nn := num_negatives (config s) in
  ∃ s',
    contrastive_epoch sequences s
    = (Ok ((info_nce 0 (replicate (Nat.min nn 31) 0)
            + info_nce 0 (replicate (Nat.min nn (length sequences - 33)) 0)) / 2), s')
    ∧ same_encoder s s'.
Proof.
  intros Htau Hvoc Htab Hno Hlen nn. unfold contrastive_epoch.
  pose proof (rng_permutation_perm (length sequences) (rng s)) as Hperm.
  destruct (rng_permutation (length sequences) (rng s)) as [idx g0] eqn:Eperm.
  cbn in Hperm.
  rewrite (bind_ok _ _ s (set_rng g0 s) idx) by (unfold with_rng; by rewrite Eperm).
  destruct (take_rows_permutation (no_valid_window s) sequences idx Hperm Hno)
    as (shuf & Hshuf & Hlshuf & Hnoshuf).
  rewrite (bind_ok _ _ _ (set_rng g0 s) shuf) by (unfold lift; by rewrite Hshuf).
  rewrite batches_two by lia.
  destruct (same_encoder_ok s (set_rng g0 s) (same_encoder_set_rng g0 s) Hvoc Htab)
    as (Hvoc0 & Htab0 & Hno0).
  destruct (contrastive_step_zero (take 32 shuf) (set_rng g0 s) Htau Hvoc0 Htab0)
    as (l1 & g1 & Hstep1 & Hl1).
  { apply Forall_take. eapply Forall_impl; [exact Hnoshuf | exact Hno0]. }
  { destruct shuf; [cbn in Hlshuf; lia | done]. }
  rewrite length_take in Hl1. cbn [config set_rng] in Hl1.
  rewrite (Nat.min_l 32 (length shuf)) in Hl1 by lia. cbn [Nat.sub] in Hl1.
  set (s1 := advance g1 (set_rng g0 s)) in *.
  assert (same_encoder s s1) as Hsame1.
  { etransitivity; [apply (same_encoder_set_rng g0)|apply same_encoder_advance]. }
  destruct (same_encoder_ok s s1 Hsame1 Hvoc Htab) as (Hvoc1 & Htab1 & Hno1).
  destruct (contrastive_step_zero (drop 32 shuf) s1 Htau Hvoc1 Htab1)
    as (l2 & g2 & Hstep2 & Hl2).
  { apply Forall_drop. eapply Forall_impl; [exact Hnoshuf | exact Hno1]. }
  { intros Hnil. apply (f_equal length) in Hnil. rewrite length_drop in Hnil.
    cbn in Hnil. lia. }
  rewrite length_drop in Hl2.
  replace (config s1) with (config s) in Hl2 by reflexivity.
  replace (length shuf - 32 - 1)%nat with (length sequences - 33)%nat in Hl2 by lia.
  assert (foldM (λ (acc : R * nat) batch,
                   if bool_decide (length batch < 2)%nat then ret acc
                   else loss ← _contrastive_step batch;
                        ret (acc.1 + loss, S acc.2))
                (0, O) [take 32 shuf; drop 32 shuf] (set_rng g0 s)
          = (Ok (0 + l1 + l2, 2%nat), advance g2 s1)) as Hfold.
  { cbn [foldM].
    rewrite length_take, (Nat.min_l 32 (length shuf)) by lia.
    rewrite (bool_decide_eq_false_2 (32 < 2)%nat) by lia.
    rewrite (bind_ok _ _ _ _ _ (bind_ret_ok _ _ _ _ _ Hstep1)).
    rewrite length_drop.
    rewrite (bool_decide_eq_false_2 (length shuf - 32 < 2)%nat) by lia.
    rewrite (bind_ok _ _ _ _ _ (bind_ret_ok _ _ _ _ _ Hstep2)).
    reflexivity. }
  rewrite (bind_ok _ _ _ _ _ Hfold).
  exists (advance g2 s1). split.
  - unfold ret. cbn. f_equal. f_equal. subst l1 l2 nn. lra.
  - etransitivity; [exact Hsame1 | apply same_encoder_advance].
Qed.

(** Pre-training on such sequences records that value for every epoch. *)
Lemma contrastive_pretrain_zero (sequences : list string) (s : Model) :
  temperature (config s) ≠ 0 →
  vocabulary_ok s → table_shaped s → Forall (no_valid_window s) sequences →
  (33 < length sequences ≤ 64)%nat →
  let nn := num_negatives (config s) in
  ∃ s',
    contrastive_pretrain sequences s
    = (Ok (replicate (contrastive_epochs (config s))
             ((info_nce 0 (replicate (Nat.min nn 31) 0)
               + info_nce 0 (replicate (Nat.min nn (length sequences - 33)) 0)) / 2)),
       s').
Proof.
  intros Htau Hvoc Htab Hno Hlen nn. unfold contrastive_pretrain.
  rewrite (bind_ok _ _ s s (config s)) by reflexivity.
  set (avg := (info_nce 0 (replicate (Nat.min nn 31) 0)
               + info_nce 0 (replicate (Nat.min nn (length sequences - 33)) 0)) / 2).
  assert (∀ (epochs : list nat) (acc : list R) (s0 : Model),
            same_encoder s s0 →
            ∃ s1, foldM (λ losses _, avg_loss ← contrastive_epoch sequences;
                                     ret (losses ++ [avg_loss])) acc epochs s0
                  = (Ok (acc ++ replicate (length epochs) avg), s1)) as Hloop.
  { induction epochs as [|e epochs IH]; intros acc s0 Hs0.
    - exists s0. cbn. by rewrite app_nil_r.
    - destruct (same_encoder_ok s s0 Hs0 Hvoc Htab) as (Hvoc0 & Htab0 & Hno0).
      assert (temperature (config s0) ≠ 0) as Htau0
        by (destruct Hs0 as [Hc0 _]; by rewrite Hc0).
      destruct (contrastive_epoch_zero sequences s0 Htau0 Hvoc0 Htab0) as (s1 & Hep & Hs1).
      { eapply Forall_impl; [exact Hno | exact Hno0]. }
      { done. }
      cbn zeta in Hep.
      replace (num_negatives (config s0)) with nn in Hep
        by (destruct Hs0 as [-> _]; done).
      fold avg in Hep.
      destruct (IH (acc ++ [avg]) s1) as (s2 & Hrest).
      { etransitivity; [exact Hs0 | exact Hs1]. }
      exists s2. cbn [foldM].
      erewrite bind_ok; [|erewrite bind_ok; [|exact Hep]; reflexivity].
      rewrite Hrest. by rewrite <- app_assoc. }
  destruct (Hloop (seq 0 (contrastive_epochs (config s))) [] s) as (s1 & Hrun).
  { by unfold same_encoder. }
  rewrite (bind_ok _ _ _ _ _ Hrun). rewrite length_seq.
  eexists. reflexivity.
Qed.

End ZeroEpoch.

Lemma tiny_no_valid_window : no_valid_window tiny_model "NNNN".
Proof. unfold no_valid_window. vm_compute. reflexivity. Qed.

Lemma tiny_temperature : temperature (config tiny_model) ≠ 0.
Proof. cbn. lra. Qed.

(** C3: what the code records.  On 34 sequences (two batches, of 32 and of 2)
    none of which has a valid k-mer window, every anchor of the first batch
    has loss [L8 = info_nce 0 [0; ...; 0]] (eight negatives) and every anchor
    of the second has loss [L1 = info_nce 0 [0]] (one negative); the step
    returns [L8] for the first batch and [L1] for the second, and each of the
    20 epochs records [(L8 + L1) / 2], the mean of the two batch means, which
    is not the mean [(32 * L8 + 2 * L1) / 34] over the 34 anchors. *)
Theorem pretrain_records_mean_of_batch_means :
  let L8 := info_nce 0 (replicate 8 0) in
  let L1 := info_nce 0 (replicate 1 0) in
  (contrastive_pretrain (replicate 34 "NNNN"%string) tiny_model).1
  = Ok (replicate 20 ((L8 + L1) / 2))
  ∧ (_contrastive_step (replicate 32 "NNNN"%string) tiny_model).1 = Ok L8
  ∧ (_contrastive_step (replicate 2 "NNNN"%string) tiny_model).1 = Ok L1
  ∧ (L8 + L1) / 2 ≠ (32 * L8 + 2 * L1) / 34.
Proof.
  cbn zeta. destruct tiny_model_ok as [Hvoc Htab].
  assert (∀ n, Forall (no_valid_window tiny_model) (replicate n "NNNN"%string)) as Hno.
  { intros n. apply Forall_replicate, tiny_no_valid_window. }
  split; [|split; [|split]].
  - destruct (contrastive_pretrain_zero (replicate 34 "NNNN"%string) tiny_model
                tiny_temperature Hvoc Htab (Hno 34%nat)) as (s' & Hrun).
    { rewrite length_replicate. lia. }
    rewrite Hrun. reflexivity.
  - destruct (contrastive_step_zero (replicate 32 "NNNN"%string) tiny_model
                tiny_temperature Hvoc Htab (Hno 32%nat)) as (loss & g & Hrun & ->); [done|].
    rewrite Hrun. reflexivity.
  - destruct (contrastive_step_zero (replicate 2 "NNNN"%string) tiny_model
                tiny_temperature Hvoc Htab (Hno 2%nat)) as (loss & g & Hrun & ->); [done|].
    rewrite Hrun. reflexivity.
  - pose proof (info_nce_zero_decreasing 1 8 ltac:(lia)). lra.
Qed.

Lemma pretrain_and_predict_frame_witness :
  W1 (contrastive_pretrain ["ACGT"; "TTGA"] tiny_model).2 = None.
Proof.
  refine (proj1 (proj2 (pretrain_and_predict_frame tiny_model ["ACGT"; "TTGA"])) _).
  reflexivity.
Defined.

(** Pre-training writes the [is_pretrained] flag, which is neither the
    embedding table nor its optimizer state nor the random source. *)
Lemma pretrain_sets_is_pretrained :
  is_pretrained tiny_model = false
  ∧ is_pretrained (contrastive_pretrain [] tiny_model).2 = true
  ∧ is_pretrained (contrastive_pretrain (replicate 34 "NNNN"%string) tiny_model).2 = true.
Proof.
  split; [reflexivity|]. split; [reflexivity|].
  destruct tiny_model_ok as [Hvoc Htab].
  destruct (contrastive_pretrain_zero (replicate 34 "NNNN"%string) tiny_model
              tiny_temperature Hvoc Htab)
    as (s' & Hrun).
  { apply Forall_replicate, tiny_no_valid_window. }
  { rewrite length_replicate. lia. }
  eapply contrastive_pretrain_sets_flag. by rewrite Hrun.
Qed.

(** ** The shape invariant and progress of the contrastive step

    On a constructed model a contrastive step over a non-empty batch does not
    raise, and it keeps the shape of the three tables. *)

Section ShapeInvariant.

Context {rs : RandomSource}.

Lemma length_zip_with_same {A B C : Type} (f : A → B → C) (a : list A) (b : list B) (n : nat) :
  length a = n → length b = n → length (zip_with f a b) = n.
Proof. intros Ha Hb. rewrite length_zip_with. lia. Qed.

Lemma Forall_insert_row (d : nat) (A : list (list R)) (i : nat) (row : list R) :
  Forall (λ r, length r = d) A → length row = d →
  Forall (λ r, length r = d) (<[i := row]> A).
Proof. intros HA Hrow. by apply Forall_insert. Qed.

Lemma row_update_shaped (lr : R) (grad : list R) (s : Model) (idx : nat) :
  length grad = dim (config s) → model_shaped s →
  model_shaped (row_update lr grad s idx).
Proof.
  intros Hg ((Hk & Hgen & Hidx) & [Hel Her] & Hml & Hmr & Hvl & Hvr). unfold row_update.
  destruct (embed_m s !! idx) as [m_row|] eqn:Em; [|done].
  destruct (embed_v s !! idx) as [v_row|] eqn:Ev; [|done].
  destruct (embeddings s !! idx) as [e_row|] eqn:Ee; [|done].
  pose proof (Forall_lookup_1 _ _ _ _ Hmr Em) as Hm. cbn beta in Hm.
  pose proof (Forall_lookup_1 _ _ _ _ Hvr Ev) as Hv. cbn beta in Hv.
  pose proof (Forall_lookup_1 _ _ _ _ Her Ee) as He. cbn beta in He.
  unfold model_shaped, vocabulary_ok, table_shaped, moments_shaped. cbn.
  rewrite !length_insert.
  assert (length (zip_with (λ mi g, 0.9 * mi + (1 - 0.9) * g) m_row grad) = dim (config s))
    as Hm' by (by apply length_zip_with_same).
  assert (length (zip_with (λ vi g, 0.999 * vi + (1 - 0.999) * (g * (g * 1))) v_row grad)
          = dim (config s)) as Hv' by (by apply length_zip_with_same).
  repeat split; try done; apply Forall_insert_row; try done.
  unfold vsub. apply length_zip_with_same; [done|].
  apply length_zip_with_same; by rewrite length_map.
Qed.

Lemma sample_update_shaped (lr : R) (s : Model) (d : list R) (indices : list nat) :
  length d = dim (config s) → model_shaped s →
  model_shaped (sample_update lr s (d, indices)).
Proof.
  intros Hd Hs. unfold sample_update. cbn [fst snd].
  assert (length (vdiv d (INR (length indices))) = dim (config s)) as Hg
    by (unfold vdiv; by rewrite length_map).
  revert Hg. generalize (vdiv d (INR (length indices))). intros g Hg.
  clear Hd. revert s Hs Hg. induction indices as [|i l IH]; intros s Hs Hg; [done|].
  cbn. apply IH.
  - by apply row_update_shaped.
  - by rewrite row_update_config.
Qed.

(** Every index the dictionary returns is a row of the three tables. *)
Lemma kmer_indices_in_tables (s : Model) (sequence : string) :
  model_shaped s →
  Forall (in_tables s) (kmer_indices (kmer_length (config s)) (kmer_to_idx s) sequence).
Proof.
  intros (Hvoc & [Hel Her] & Hml & Hmr & Hvl & Hvr).
  apply Forall_forall. intros i Hi. unfold kmer_indices in Hi.
  apply list_elem_of_omap in Hi as (pos & _ & Hi).
  rewrite kmer_to_idx_lookup in Hi by done.
  destruct (is_valid_kmer _ _) eqn:Ev; [|done]. injection Hi as <-.
  apply is_valid_kmer_spec in Ev as [Hl Hb].
  pose proof (kmer_rank_bound _ Hb) as Hlt. rewrite Hl in Hlt.
  unfold in_tables. rewrite Hml, Hvl, Hel. done.
Qed.

Lemma arithmetic_mean_length (d : nat) (rows : list (list R)) :
  length (arithmetic_mean d rows) = d.
Proof. unfold arithmetic_mean. by rewrite length_map, length_seq. Qed.

Lemma encode_spec_length (d : nat) (rows : list (list R)) (normalize : bool) :
  length (encode_spec d rows normalize) = d.
Proof.
  unfold encode_spec. destruct rows; [apply length_replicate|].
  destruct normalize; [destruct (Rlt_dec _ _)|];
    unfold vdiv; rewrite ?length_map; apply arithmetic_mean_length.
Qed.

(** The constructor returns for a seed below [2**32] and a positive
    dimension and k-mer length, and what it returns has the shape
    invariant. *)
Lemma init_returns (cfg : HybridConfig) (seed : nat) :
  (Z.of_nat seed < 2 ^ 32)%Z → (0 < dim cfg)%nat → (1 ≤ kmer_length cfg)%nat →
  ∃ s, init cfg seed = Ok s.
Proof.
  intros Hseed Hd Hk. unfold init. rewrite (random_state_ok seed Hseed).
  rewrite bool_decide_eq_false_2 by lia.
  destruct (rng_randn _ _ _) as [E0 g1].
  destruct (kmer_length cfg) as [|k]; [lia|].
  destruct (generate_kmers_ok k) as (l & -> & _). by eexists.
Qed.

Lemma init_shaped (cfg : HybridConfig) (seed : nat) (s : Model) :
  init cfg seed = Ok s → model_shaped s.
Proof.
  intros Hinit. destruct (init_ok cfg seed s Hinit) as (_ & Hvoc & Htab & _).
  split; [done|]. split; [done|].
  revert Hinit. unfold init. destruct (random_state seed) as [g0|e]; [|done].
  case_bool_decide; [done|].
  destruct (rng_randn _ _ _) as [E0 g1].
  destruct (Kmer.generate_kmers _); [|done].
  intros [= <-]. unfold moments_shaped. cbn. rewrite !length_map.
  assert (Forall (λ row : list R, length row = dim cfg)
            (map (map (λ _ : R, 0)) (map (vscale (sqrt (2 / INR (dim cfg)))) E0))) as Hz.
  { destruct Htab as [_ Hrows]. cbn in Hrows.
    apply Forall_forall. intros row Hin.
    change (map ?f ?l) with (f <$> l) in Hin.
    apply list_elem_of_fmap in Hin as (r0 & -> & Hin).
    rewrite length_map. rewrite Forall_forall in Hrows. by apply Hrows. }
  done.
Qed.

Lemma set_rng_shaped (g : RandomState) (s : Model) :
  model_shaped s → model_shaped (set_rng g s).
Proof. intros H. exact H. Qed.

Lemma set_embed_t_shaped (t : nat) (s : Model) :
  model_shaped s → model_shaped (set_embed_t t s).
Proof. intros H. exact H. Qed.

Lemma in_tables_of_shaped (s : Model) (j : nat) :
  model_shaped s → (j < 4 ^ kmer_length (config s))%nat → in_tables s j.
Proof.
  intros (_ & [Hel _] & Hml & _ & Hvl & _) Hj. unfold in_tables.
  rewrite Hml, Hvl, Hel. done.
Qed.

Lemma kmer_indices_bound (s : Model) (sequence : string) :
  model_shaped s →
  Forall (λ j, (j < 4 ^ kmer_length (config s))%nat)
         (kmer_indices (kmer_length (config s)) (kmer_to_idx s) sequence).
Proof.
  intros Hs. pose proof Hs as (_ & [Hel _] & _).
  eapply Forall_impl; [by apply kmer_indices_in_tables|].
  intros j (_ & _ & Hj). by rewrite <- Hel.
Qed.

Lemma take_rows_in_range {A : Type} (P : A → Prop) (l : list A) (idx : list nat) :
  Forall (λ j, (j < length l)%nat) idx → Forall P l →
  ∃ ys, take_rows l idx = Ok ys ∧ length ys = length idx ∧ Forall P ys.
Proof.
  intros Hidx HP. unfold take_rows.
  destruct (result_all_ok (py_index l) idx) as (ys & Hys & Hall).
  { intros i Hi. rewrite Forall_forall in Hidx.
    destruct (lookup_lt_is_Some_2 l i) as [y Hy]; [by apply Hidx|].
    exists y. by apply py_index_lookup. }
  exists ys. split; [done|]. split.
  - by rewrite <- (Forall2_length _ _ _ Hall).
  - rewrite Forall_forall in HP. clear Hys Hidx.
    induction Hall as [|i y idx' ys' Hiy _ IH]; constructor; [|done].
    apply py_index_ok_inv in Hiy. apply HP. by eapply list_elem_of_lookup_2.
Qed.

Lemma fold_weighted_length (d : nat) (l : list (R * list R)) (ws : list R) :
  length ws = d → Forall (λ pn, length pn.2 = d) l →
  length (fold_left (λ ws pn, vadd ws (vscale pn.1 pn.2)) l ws) = d.
Proof.
  revert ws. induction l as [|pn l IH]; intros ws Hws Hl; [done|].
  apply Forall_cons in Hl as [Hpn Hl]. cbn [fold_left]. apply IH; [|done].
  cbn beta in Hpn.
  rewrite length_vadd; [done|]. unfold vscale. rewrite length_map. congruence.
Qed.

(** One anchor of a contrastive batch on a well-shaped model: the body
    returns, and what it does to the model is one [sample_update] with a
    gradient of the model's dimension. *)
Lemma contrastive_anchor_progress (s : Model) (anchors positives : list (list R))
    (anchor_indices : list (list nat)) (i : nat) :
  model_shaped s → temperature (config s) ≠ 0 →
  (i < length anchors)%nat → length positives = length anchors →
  length anchor_indices = length anchors →
  Forall (λ r, length r = dim (config s)) anchors →
  Forall (λ r, length r = dim (config s)) positives →
  Forall (Forall (λ j, (j < 4 ^ kmer_length (config s))%nat)) anchor_indices →
  ∃ loss g d indices,
    contrastive_anchor anchors positives anchor_indices (length anchors) i s
    = (Ok loss, sample_update (contrastive_lr (config s)) (set_rng g s) (d, indices))
    ∧ length d = dim (config s).
Proof.
  intros Hs Htau Hi Hlp Hli Ha Hp Hidx.
  destruct (negatives_candidates (length anchors) i Hi) as [Hcl Hcb].
  unfold contrastive_anchor.
  rewrite (bind_ok _ _ s s (config s)) by reflexivity.
  set (cand := filter (λ j, j ≠ i) (seq 0 (length anchors))) in *.
  pose proof (rng_shuffle_perm cand (rng s)) as Hperm.
  destruct (rng_shuffle cand (rng s)) as [neg1 g] eqn:Esh. cbn in Hperm.
  rewrite (bind_ok _ _ s (set_rng g s) neg1) by (unfold with_rng; by rewrite Esh).
  set (neg_idx := take (num_negatives (config s)) neg1).
  assert (Forall (λ j, (j < length anchors)%nat) neg_idx) as Hnb.
  { subst neg_idx. apply Forall_take. by rewrite Hperm. }
  destruct (take_rows_in_range _ anchors neg_idx Hnb Ha) as (negatives & Hneg & _ & Hnegs).
  rewrite (bind_ok _ _ _ (set_rng g s) negatives) by (unfold lift; by rewrite Hneg).
  destruct (lookup_lt_is_Some_2 anchors i) as [a_i Hai]; [lia|].
  rewrite (bind_ok _ _ _ (set_rng g s) a_i) by (unfold lift, py_index; by rewrite Hai).
  destruct (lookup_lt_is_Some_2 positives i) as [p_i Hpi]; [lia|].
  rewrite (bind_ok _ _ _ (set_rng g s) p_i) by (unfold lift, py_index; by rewrite Hpi).
  rewrite (bind_ok _ _ _ (set_rng g s)
             (cosine_similarity a_i p_i / temperature (config s)))
    by (unfold lift; by rewrite scaled_similarity_run).
  rewrite (bind_ok _ _ _ (set_rng g s)
             (map (λ neg, cosine_similarity a_i neg / temperature (config s)) negatives))
    by (unfold lift; by rewrite scaled_similarities_run).
  destruct (lookup_lt_is_Some_2 anchor_indices i) as [indices Hii]; [lia|].
  cbn zeta.
  rewrite (bind_ok _ _ _ (set_rng g s) indices) by (unfold lift, py_index; by rewrite Hii).
  pose proof (Forall_lookup_1 _ _ _ _ Hp Hpi) as Hpl. cbn beta in Hpl.
  pose proof (Forall_lookup_1 _ _ _ _ Hidx Hii) as Hib. cbn beta in Hib.
  erewrite bind_ok; cycle 1.
  { apply sparse_adam_sample_run. eapply Forall_impl; [exact Hib|].
    intros j Hj. apply in_tables_of_shaped; [by apply set_rng_shaped | exact Hj]. }
  eexists _, g, _, indices. split; [reflexivity|].
  unfold vdiv, vsub. rewrite length_map. apply length_zip_with_same; [|done].
  apply fold_weighted_length.
  - unfold vscale. by rewrite length_map.
  - apply Forall_forall. intros [pr neg] Hin. cbn.
    apply elem_of_zip_r in Hin. rewrite Forall_forall in Hnegs. by apply Hnegs.
Qed.

Lemma foldM_anchors_progress (anchors positives : list (list R))
    (anchor_indices : list (list nat)) (cfg : HybridConfig)
    (order : list nat) (acc : R) (s : Model) :
  config s = cfg → model_shaped s → temperature cfg ≠ 0 →
  Forall (λ i, (i < length anchors)%nat) order →
  length positives = length anchors → length anchor_indices = length anchors →
  Forall (λ r, length r = dim cfg) anchors →
  Forall (λ r, length r = dim cfg) positives →
  Forall (Forall (λ j, (j < 4 ^ kmer_length cfg)%nat)) anchor_indices →
  ∃ total s',
    foldM (λ total i,
             loss ← contrastive_anchor anchors positives anchor_indices (length anchors) i;
             ret (total + loss)) acc order s
    = (Ok total, s')
    ∧ model_shaped s' ∧ config s' = cfg.
Proof.
  intros Hcfg Hs Htau Horder Hlp Hli Ha Hp Hidx. revert acc s Hcfg Hs.
  induction order as [|i rest IH]; intros acc s Hcfg Hs.
  - by exists acc, s.
  - apply Forall_cons in Horder as [Hi Hrest]. subst cfg.
    destruct (contrastive_anchor_progress s anchors positives anchor_indices i)
      as (loss & g & d & indices & Hone & Hd); try done.
    set (s1 := sample_update (contrastive_lr (config s)) (set_rng g s) (d, indices)) in *.
    assert (config s1 = config s) as Hc1 by (subst s1; by rewrite sample_update_config).
    destruct (IH Hrest (acc + loss) s1 Hc1) as (total & s' & Hrun & Hs' & Hc').
    { subst s1. apply sample_update_shaped; [done|]. by apply set_rng_shaped. }
    exists total, s'. cbn [foldM].
    erewrite bind_ok; [|erewrite bind_ok; [|exact Hone]; reflexivity].
    done.
Qed.

(** A contrastive step over a non-empty batch returns and keeps the shape of
    the model. *)
Lemma contrastive_step_progress (batch : list string) (s : Model) :
  model_shaped s → temperature (config s) ≠ 0 → batch ≠ [] →
  ∃ loss s', _contrastive_step batch s = (Ok loss, s')
             ∧ model_shaped s' ∧ config s' = config s.
Proof.
  intros Hs Htau Hne. unfold _contrastive_step.
  rewrite (bind_ok _ _ s s (config s)) by reflexivity.
  destruct (mapM_with_rng (λ seq, augment_sequence seq 0.1) batch s)
    as (augmented & g0 & Haug & Hlaug).
  rewrite (bind_ok _ _ _ _ _ Haug).
  pose proof (set_rng_shaped g0 s Hs) as Hs0.
  pose proof Hs0 as (Hvoc0 & Htab0 & _).
  rewrite (bind_ok _ _ _ _ _ (mapM_encode_run (set_rng g0 s) batch true Hvoc0 Htab0)).
  rewrite (bind_ok _ _ _ _ _ (mapM_encode_run (set_rng g0 s) augmented true Hvoc0 Htab0)).
  rewrite (bind_ok _ _ _ (set_rng g0 s) (kmer_to_idx s)) by reflexivity.
  cbn zeta.
  rewrite (bind_ok _ _ _ (set_embed_t (S (embed_t s)) (set_rng g0 s)) tt) by reflexivity.
  cbn [config set_rng].
  set (anchors := map _ batch). set (positives := map _ augmented).
  set (anchor_indices := map _ batch).
  assert (length anchors = length batch) as Hla by (subst anchors; apply length_map).
  rewrite <- Hla.
  destruct (foldM_anchors_progress anchors positives anchor_indices (config s)
              (seq 0 (length anchors)) 0
              (set_embed_t (S (embed_t s)) (set_rng g0 s)))
    as (total & s' & Hfold & Hs' & Hc'); try done.
  - apply Forall_forall. intros i Hi. apply elem_of_seq in Hi. lia.
  - subst positives. rewrite length_map. lia.
  - subst anchor_indices. rewrite length_map. lia.
  - subst anchors. apply Forall_forall. intros r Hr.
    change (map ?f ?l) with (f <$> l) in Hr.
    apply list_elem_of_fmap in Hr as (x & -> & _). apply encode_spec_length.
  - subst positives. apply Forall_forall. intros r Hr.
    change (map ?f ?l) with (f <$> l) in Hr.
    apply list_elem_of_fmap in Hr as (x & -> & _). apply encode_spec_length.
  - subst anchor_indices. apply Forall_forall. intros l Hl.
    change (map ?f ?l) with (f <$> l) in Hl.
    apply list_elem_of_fmap in Hl as (x & -> & _). by apply kmer_indices_bound.
  - rewrite (bind_ok _ _ _ _ _ Hfold).
    rewrite bool_decide_eq_false_2 by (rewrite Hla; by destruct batch).
    by eexists _, s'.
Qed.

Lemma foldM_batches_progress (batch_list : list (list string)) (acc : R * nat) (s : Model) :
  model_shaped s → temperature (config s) ≠ 0 →
  ∃ r s',
    foldM (λ (acc : R * nat) batch,
             if bool_decide (length batch < 2)%nat then ret acc
             else loss ← _contrastive_step batch;
                  ret (acc.1 + loss, S acc.2))
          acc batch_list s
    = (Ok r, s')
    ∧ model_shaped s' ∧ config s' = config s.
Proof.
  revert acc s. induction batch_list as [|batch rest IH]; intros acc s Hs Htau.
  - by exists acc, s.
  - cbn [foldM]. case_bool_decide as Hlen.
    + destruct (IH acc s Hs Htau) as (r & s' & Hrun & Hs' & Hc').
      exists r, s'. by rewrite (bind_ok _ _ s s acc) by reflexivity.
    + destruct (contrastive_step_progress batch s Hs Htau)
        as (loss & s1 & Hstep & Hs1 & Hc1).
      { destruct batch; [cbn in Hlen; lia | done]. }
      destruct (IH (acc.1 + loss, S acc.2) s1 Hs1 ltac:(by rewrite Hc1))
        as (r & s' & Hrun & Hs' & Hc').
      exists r, s'.
      erewrite bind_ok; [|erewrite bind_ok; [|exact Hstep]; reflexivity].
      split; [done|]. split; [done|]. congruence.
Qed.

Lemma contrastive_epoch_progress (sequences : list string) (s : Model) :
  model_shaped s → temperature (config s) ≠ 0 →
  ∃ loss s', contrastive_epoch sequences s = (Ok loss, s')
             ∧ model_shaped s' ∧ config s' = config s.
Proof.
  intros Hs Htau. unfold contrastive_epoch.
  pose proof (rng_permutation_perm (length sequences) (rng s)) as Hperm.
  destruct (rng_permutation (length sequences) (rng s)) as [idx g] eqn:Ep. cbn in Hperm.
  rewrite (bind_ok _ _ s (set_rng g s) idx) by (unfold with_rng; by rewrite Ep).
  destruct (take_rows_permutation (λ _, True) sequences idx Hperm) as (shuf & Hshuf & _).
  { by apply Forall_forall. }
  rewrite (bind_ok _ _ _ (set_rng g s) shuf) by (unfold lift; by rewrite Hshuf).
  destruct (foldM_batches_progress (batches 32 shuf) (0, O) (set_rng g s))
    as ([epoch_loss n] & s' & Hrun & Hs' & Hc'); [by apply set_rng_shaped | exact Htau |].
  rewrite (bind_ok _ _ _ _ _ Hrun).
  by eexists _, s'.
Qed.

Lemma foldM_epochs_progress (sequences : list string) (epochs : list nat)
    (acc : list R) (s : Model) :
  model_shaped s → temperature (config s) ≠ 0 →
  ∃ losses s',
    foldM (λ losses _, avg_loss ← contrastive_epoch sequences;
                       ret (losses ++ [avg_loss])) acc epochs s
    = (Ok losses, s')
    ∧ model_shaped s' ∧ config s' = config s
    ∧ length losses = (length acc + length epochs)%nat.
Proof.
  revert acc s. induction epochs as [|e rest IH]; intros acc s Hs Htau.
  - exists acc, s. split; [done|]. split; [done|]. split; [done|]. cbn. lia.
  - destruct (contrastive_epoch_progress sequences s Hs Htau)
      as (loss & s1 & Hone & Hs1 & Hc1).
    destruct (IH (acc ++ [loss]) s1 Hs1 ltac:(by rewrite Hc1))
      as (losses & s' & Hrun & Hs' & Hc' & Hlen).
    exists losses, s'. cbn [foldM].
    erewrite bind_ok; [|erewrite bind_ok; [|exact Hone]; reflexivity].
    split; [done|]. split; [done|]. split; [congruence|].
    rewrite Hlen, length_app. cbn. lia.
Qed.

(** On a constructed model with a non-zero temperature
    [contrastive_pretrain] returns: one loss per epoch, and a model of the
    same shape, so that [encode] can be used on it afterwards. *)
Theorem contrastive_pretrain_returns (sequences : list string) (s : Model) :
  model_shaped s → temperature (config s) ≠ 0 →
  ∃ losses s',
    contrastive_pretrain sequences s = (Ok losses, s')
    ∧ model_shaped s' ∧ config s' = config s
    ∧ length losses = contrastive_epochs (config s).
Proof.
  intros Hs Htau. unfold contrastive_pretrain.
  rewrite (bind_ok _ _ s s (config s)) by reflexivity.
  destruct (foldM_epochs_progress sequences (seq 0 (contrastive_epochs (config s))) []
              s Hs Htau)
    as (losses & s' & Hrun & Hs' & Hc' & Hlen).
  rewrite (bind_ok _ _ _ _ _ Hrun).
  rewrite (bind_ok _ _ _ (set_is_pretrained true s') tt) by reflexivity.
  exists losses, (set_is_pretrained true s').
  split; [done|]. split; [exact Hs'|]. split; [exact Hc'|].
  rewrite Hlen, length_seq. done.
Qed.

End ShapeInvariant.

(** ** Shapes of the classifier's arrays *)

Section MatrixShapes.

Lemma matrix_shaped_zip_with (f : R → R → R) (r c : nat) (A B : list (list R)) :
  matrix_shaped r c A → matrix_shaped r c B →
  matrix_shaped r c (zip_with (zip_with f) A B).
Proof.
  intros [HlA HA] [HlB HB]. split.
  - by apply length_zip_with_same.
  - apply Forall_lookup. intros i row Hrow.
    apply lookup_zip_with_Some in Hrow as (a & b & -> & Ha & Hb).
    pose proof (Forall_lookup_1 _ _ _ _ HA Ha) as Hal.
    pose proof (Forall_lookup_1 _ _ _ _ HB Hb) as Hbl.
    by apply length_zip_with_same.
Qed.

Lemma matrix_shaped_map (f : R → R) (r c : nat) (A : list (list R)) :
  matrix_shaped r c A → matrix_shaped r c (map (map f) A).
Proof.
  intros [Hl HA]. split; [by rewrite length_map|].
  apply Forall_forall. intros row Hin.
  change (map ?g ?l) with (g <$> l) in Hin.
  apply list_elem_of_fmap in Hin as (r0 & -> & Hin).
  rewrite length_fmap. rewrite Forall_forall in HA. by apply HA.
Qed.

Lemma matrix_shaped_rows (g : list R → list R) (r c c' : nat) (A : list (list R)) :
  (∀ row, length row = c → length (g row) = c') →
  matrix_shaped r c A → matrix_shaped r c' (map g A).
Proof.
  intros Hg [Hl HA]. split; [by rewrite length_map|].
  apply Forall_forall. intros row Hin.
  change (map ?g ?l) with (g <$> l) in Hin.
  apply list_elem_of_fmap in Hin as (r0 & -> & Hin).
  apply Hg. rewrite Forall_forall in HA. by apply HA.
Qed.

Lemma matrix_shaped_matmul (A B : list (list R)) (r n c : nat) :
  length A = r → (0 < n)%nat → matrix_shaped n c B → matrix_shaped r c (matmul A B).
Proof.
  intros Hr Hn [Hl HB]. unfold matmul. split; [by rewrite length_map|].
  apply Forall_forall. intros row Hin.
  change (map ?g ?l) with (g <$> l) in Hin.
  apply list_elem_of_fmap in Hin as (x & -> & _).
  apply length_vecmat; [|done]. destruct B; [cbn in Hl; lia | done].
Qed.

Lemma matrix_shaped_add_bias (A : list (list R)) (b : list R) (r c : nat) :
  matrix_shaped r c A → length b = c → matrix_shaped r c (add_bias A b).
Proof.
  intros HA Hb. unfold add_bias. eapply matrix_shaped_rows; [|exact HA].
  intros row Hrow. rewrite length_vadd; congruence.
Qed.

Lemma transpose_w_shaped (w : nat) (A : list (list R)) :
  matrix_shaped w (length A) (transpose_w w A).
Proof.
  induction w as [|w [IHl IHr]]; [by split|]. cbn [transpose_w]. split.
  - rewrite length_app, IHl. cbn. lia.
  - apply Forall_app. split; [done|]. constructor; [|constructor].
    by rewrite length_map.
Qed.

Lemma matrix_shaped_transpose (A : list (list R)) (r c : nat) :
  (0 < r)%nat → matrix_shaped r c A → matrix_shaped c r (transpose A).
Proof.
  intros Hr [Hl HA]. unfold transpose.
  assert (ncols A = c) as ->.
  { destruct A as [|row A]; [cbn in Hl; lia|]. by apply Forall_cons in HA as [? _]. }
  rewrite <- Hl. apply transpose_w_shaped.
Qed.

Lemma length_sum_axis0 (A : list (list R)) (r c : nat) :
  (0 < r)%nat → matrix_shaped r c A → length (sum_axis0 A) = c.
Proof.
  intros Hr [Hl HA]. destruct A as [|row A]; [cbn in Hl; lia|].
  apply Forall_cons in HA as [Hrow HA]. cbn [sum_axis0].
  by apply (fold_vadd_shape c).
Qed.

Lemma softmax_row_length (row p : list R) : softmax_row row = Ok p → length p = length row.
Proof.
  unfold softmax_row. destruct (np_max row); [|done].
  intros [= <-]. by rewrite !length_map.
Qed.

Lemma softmax_shaped (X : list (list R)) (r c : nat) :
  (0 < c)%nat → matrix_shaped r c X →
  ∃ P, softmax X = Ok P ∧ matrix_shaped r c P.
Proof.
  intros Hc [Hl HX]. unfold softmax.
  destruct (result_all_ok softmax_row X) as (P & HP & Hall).
  { intros row Hin. apply softmax_row_ok. rewrite Forall_forall in HX.
    specialize (HX row Hin). destruct row; [cbn in HX; lia | done]. }
  exists P. split; [done|]. split.
  - by rewrite <- (Forall2_length _ _ _ Hall).
  - clear HP Hl. induction Hall as [|row p X' P' Hp _ IH]; [constructor|].
    apply Forall_cons in HX as [Hrow HX]. constructor; [|by apply IH].
    rewrite (softmax_row_length _ _ Hp). exact Hrow.
Qed.

Lemma fill_onehot_shaped (labels : list nat) (i r c : nat) (O : list (list R)) :
  matrix_shaped r c O → (i + length labels ≤ r)%nat →
  Forall (λ l, (l < c)%nat) labels →
  ∃ O', fill_onehot i labels O = Ok O' ∧ matrix_shaped r c O'.
Proof.
  revert i O. induction labels as [|l ls IH]; intros i O HO Hi Hls.
  - by exists O.
  - apply Forall_cons in Hls as [Hl Hls]. cbn [length] in Hi. cbn [fill_onehot].
    destruct HO as [HlO HO].
    destruct (lookup_lt_is_Some_2 O i) as [row Hrow]; [lia|]. rewrite Hrow.
    pose proof (Forall_lookup_1 _ _ _ _ HO Hrow) as Hrl. cbn beta in Hrl.
    rewrite bool_decide_eq_true_2 by lia.
    apply IH; [|lia|done]. split; [by rewrite length_insert|].
    apply Forall_insert; [done|]. by rewrite length_insert.
Qed.

Lemma zeros2_shaped (r c : nat) : matrix_shaped r c (zeros2 r c).
Proof.
  unfold zeros2, zeros. split; [apply length_replicate|].
  apply Forall_replicate. apply length_replicate.
Qed.

End MatrixShapes.

(** ** Progress of the fine-tuning step

    On a well-shaped model with a classifier, [_finetune_step] over a
    non-empty batch with labels in range does not raise and keeps the shape
    of the model and of the classifier. *)

Section FinetuneProgress.

Context {rs : RandomSource}.

Lemma adam_update_matrix_shaped (r c : nat) (o : Adam.AdamOptimizer (list (list R)))
    (w d : list (list R)) :
  matrix_shaped r c (Adam.m o) → matrix_shaped r c (Adam.v o) →
  matrix_shaped r c w → matrix_shaped r c d →
  matrix_shaped r c (Adam.update (H := matrix_elementwise) o w d).2
  ∧ matrix_shaped r c (Adam.m (Adam.update (H := matrix_elementwise) o w d).1)
  ∧ matrix_shaped r c (Adam.v (Adam.update (H := matrix_elementwise) o w d).1).
Proof.
  intros Hm Hv Hw Hd. unfold Adam.update. cbn.
  split; [|split];
    repeat first [apply matrix_shaped_zip_with | apply matrix_shaped_map]; done.
Qed.

Lemma adam_update_vec_shaped (c : nat) (o : Adam.AdamOptimizer (list R)) (w d : list R) :
  length (Adam.m o) = c → length (Adam.v o) = c → length w = c → length d = c →
  length (Adam.update (H := vec_elementwise) o w d).2 = c
  ∧ length (Adam.m (Adam.update (H := vec_elementwise) o w d).1) = c
  ∧ length (Adam.v (Adam.update (H := vec_elementwise) o w d).1) = c.
Proof.
  intros Hm Hv Hw Hd. unfold Adam.update. cbn.
  split; [|split];
    repeat first [apply length_zip_with_same | rewrite length_map]; done.
Qed.

Lemma finetune_encode_run (seq : string) (s : Model) :
  model_shaped s →
  ∃ enc, finetune_encode seq s
         = (Ok (enc, kmer_indices (kmer_length (config s)) (kmer_to_idx s) seq), s)
         ∧ length enc = dim (config s).
Proof.
  intros Hs. pose proof (kmer_indices_bound s seq Hs) as Hb.
  destruct Hs as (_ & [Hel Her] & _).
  unfold finetune_encode.
  rewrite (bind_ok _ _ s s (config s)) by reflexivity.
  rewrite (bind_ok _ _ s s (kmer_to_idx s)) by reflexivity.
  cbn zeta.
  destruct (kmer_indices _ _ seq) as [|i l] eqn:Ei.
  - eexists. split; [reflexivity|]. apply length_replicate.
  - rewrite (bind_ok _ _ s s (embeddings s)) by reflexivity.
    destruct (take_rows_in_range (λ r, length r = dim (config s)) (embeddings s) (i :: l))
      as (vecs & Hvecs & Hlv & Hrows); [by rewrite Hel | done |].
    rewrite (bind_ok _ _ s s vecs) by (unfold lift; by rewrite Hvecs).
    assert (length (mean_axis0 vecs) = dim (config s)) as Hmean.
    { unfold mean_axis0, vdiv. rewrite length_map.
      apply (length_sum_axis0 vecs (length vecs)); [rewrite Hlv; cbn; lia | by split]. }
    destruct (Rlt_dec 0 (norm (mean_axis0 vecs))).
    + eexists. split; [reflexivity|]. unfold vdiv. by rewrite length_map.
    + eexists. split; [reflexivity|]. done.
Qed.

Lemma mapM_finetune_encode_run (seqs : list string) (s : Model) :
  model_shaped s →
  ∃ enc_idx,
    mapM finetune_encode seqs s = (Ok enc_idx, s)
    ∧ length enc_idx = length seqs
    ∧ Forall (λ x, length x.1 = dim (config s)
                   ∧ Forall (λ j, (j < 4 ^ kmer_length (config s))%nat) x.2) enc_idx.
Proof.
  intros Hs. induction seqs as [|seq l (rest & Hrest & Hlen & Hall)].
  - exists []. by repeat split.
  - destruct (finetune_encode_run seq s Hs) as (enc & Hone & Hl).
    eexists (_ :: rest). cbn [mapM].
    rewrite (bind_ok _ _ _ _ _ Hone). rewrite (bind_ok _ _ _ _ _ Hrest).
    split; [reflexivity|]. split; [cbn; by rewrite Hlen|].
    constructor; [|done]. split; [done|]. by apply kmer_indices_bound.
Qed.

Lemma step_W2_run (d : list (list R)) (s : Model) (o : Adam.AdamOptimizer (list (list R)))
    (w : list (list R)) :
  opt_W2 s = Some o → W2 s = Some w →
  step_W2 d s = (Ok tt, set_W2 (Some (Adam.update o w d).2)
                          (set_opt_W2 (Some (Adam.update o w d).1) s)).
Proof.
  intros Ho Hw. unfold step_W2.
  rewrite (bind_ok _ _ _ _ _ (require_some _ _ _ _ Ho)).
  rewrite (bind_ok _ _ _ _ _ (require_some _ _ _ _ Hw)).
  by destruct (Adam.update o w d).
Qed.

Lemma step_b2_run (d : list R) (s : Model) (o : Adam.AdamOptimizer (list R)) (w : list R) :
  opt_b2 s = Some o → b2 s = Some w →
  step_b2 d s = (Ok tt, set_b2 (Some (Adam.update o w d).2)
                          (set_opt_b2 (Some (Adam.update o w d).1) s)).
Proof.
  intros Ho Hw. unfold step_b2.
  rewrite (bind_ok _ _ _ _ _ (require_some _ _ _ _ Ho)).
  rewrite (bind_ok _ _ _ _ _ (require_some _ _ _ _ Hw)).
  by destruct (Adam.update o w d).
Qed.

Lemma step_W1_run (d : list (list R)) (s : Model) (o : Adam.AdamOptimizer (list (list R)))
    (w : list (list R)) :
  opt_W1 s = Some o → W1 s = Some w →
  step_W1 d s = (Ok tt, set_W1 (Some (Adam.update o w d).2)
                          (set_opt_W1 (Some (Adam.update o w d).1) s)).
Proof.
  intros Ho Hw. unfold step_W1.
  rewrite (bind_ok _ _ _ _ _ (require_some _ _ _ _ Ho)).
  rewrite (bind_ok _ _ _ _ _ (require_some _ _ _ _ Hw)).
  by destruct (Adam.update o w d).
Qed.

Lemma step_b1_run (d : list R) (s : Model) (o : Adam.AdamOptimizer (list R)) (w : list R) :
  opt_b1 s = Some o → b1 s = Some w →
  step_b1 d s = (Ok tt, set_b1 (Some (Adam.update o w d).2)
                          (set_opt_b1 (Some (Adam.update o w d).1) s)).
Proof.
  intros Ho Hw. unfold step_b1.
  rewrite (bind_ok _ _ _ _ _ (require_some _ _ _ _ Ho)).
  rewrite (bind_ok _ _ _ _ _ (require_some _ _ _ _ Hw)).
  by destruct (Adam.update o w d).
Qed.

Lemma batch_update_shaped (lr : R) (samples : list (list R * list nat)) (s : Model) :
  Forall (λ sample, length sample.1 = dim (config s)) samples →
  model_shaped s →
  model_shaped (batch_update lr samples s)
  ∧ config (batch_update lr samples s) = config s.
Proof.
  unfold batch_update. revert s.
  induction samples as [|[d idxs] l IH]; intros s Hall Hs; [done|].
  apply Forall_cons in Hall as [Hd Hl]. cbn [fold_left].
  pose proof (sample_update_config lr s (d, idxs)) as Hc.
  destruct (IH (sample_update lr s (d, idxs))) as [Hs' Hc'].
  - by rewrite Hc.
  - by apply sample_update_shaped.
  - split; [done | congruence].
Qed.

Lemma row_update_same_classifier (lr : R) (grad : list R) (s : Model) (idx : nat) :
  same_classifier s (row_update lr grad s idx).
Proof.
  unfold row_update, same_classifier.
  by destruct (embed_m s !! idx), (embed_v s !! idx), (embeddings s !! idx).
Qed.

Lemma sample_update_same_classifier (lr : R) (s : Model) (sample : list R * list nat) :
  same_classifier s (sample_update lr s sample).
Proof.
  unfold sample_update. generalize (vdiv sample.1 (INR (length sample.2))). intros g.
  generalize sample.2. intros l. revert s.
  induction l as [|i l IH]; intros s; [apply same_classifier_refl|].
  cbn [fold_left]. eapply same_classifier_trans; [|apply IH].
  apply row_update_same_classifier.
Qed.

Lemma batch_update_same_classifier (lr : R) (samples : list (list R * list nat)) (s : Model) :
  same_classifier s (batch_update lr samples s).
Proof.
  unfold batch_update. revert s.
  induction samples as [|x l IH]; intros s; [apply same_classifier_refl|].
  cbn [fold_left]. eapply same_classifier_trans; [|apply IH].
  apply sample_update_same_classifier.
Qed.

Lemma classifier_ready_same_classifier (s s' : Model) :
  same_classifier s s' → classifier_ready s → classifier_ready s'.
Proof.
  intros (Hc & _ & _ & HW1 & Hb1 & HW2 & Hb2 & Ho1 & Hob1 & Ho2 & Hob2 & _).
  unfold classifier_ready. rewrite Hc, HW1, Hb1, HW2, Hb2, Ho1, Hob1, Ho2, Hob2. done.
Qed.

(** [_finetune_step] returns on a well-shaped model with a classifier, and
    what it leaves is again such a model. *)
Theorem finetune_step_progress (batch : list string) (labels : list nat) (s : Model) :
  model_shaped s → classifier_ready s → batch ≠ [] →
  (length labels ≤ length batch)%nat →
  Forall (λ l, (l < num_classes (config s))%nat) labels →
  ∃ loss s', _finetune_step batch labels s = (Ok loss, s')
             ∧ model_shaped s' ∧ classifier_ready s' ∧ config s' = config s.
Proof.
  intros Hs Hc Hne Hll Hlab.
  destruct Hc as (Hd & Hh & Hnc & w1 & bb1 & w2 & bb2 & o1 & ob1 & o2 & ob2
                  & HW1 & Hb1 & HW2 & Hb2 & Ho1 & Hob1 & Ho2 & Hob2
                  & Sw1 & Sm1 & Sv1 & Lb1 & Lmb1 & Lvb1
                  & Sw2 & Sm2 & Sv2 & Lb2 & Lmb2 & Lvb2).
  assert (0 < length batch)%nat as HB by (destruct batch; [done | cbn; lia]).
  unfold _finetune_step.
  rewrite (bind_ok _ _ s s (config s)) by reflexivity.
  destruct (mapM_finetune_encode_run batch s Hs) as (enc_idx & Henc & Hlen & Hall).
  rewrite (bind_ok _ _ _ _ _ Henc).
  set (encodings := map fst enc_idx).
  assert (matrix_shaped (length batch) (dim (config s)) encodings) as Senc.
  { subst encodings. split; [by rewrite length_map|].
    apply Forall_forall. intros r Hr. change (map ?f ?l) with (f <$> l) in Hr.
    apply list_elem_of_fmap in Hr as (x & -> & Hx).
    rewrite Forall_forall in Hall. by destruct (Hall x Hx). }
  rewrite (bind_ok _ _ _ s encodings); cycle 1.
  { unfold lift, np_stack. destruct encodings eqn:E; [|done].
    destruct Senc as [Hl _]. cbn in Hl. lia. }
  rewrite (bind_ok _ _ _ _ _ (require_some _ _ _ _ HW1)).
  rewrite (bind_ok _ _ _ _ _ (require_some _ _ _ _ Hb1)).
  rewrite (bind_ok _ _ _ _ _ (require_some _ _ _ _ HW2)).
  rewrite (bind_ok _ _ _ _ _ (require_some _ _ _ _ Hb2)).
  cbn zeta.
  set (h1 := add_bias (matmul encodings w1) bb1).
  set (a1 := map (map relu) h1).
  set (logits := add_bias (matmul a1 w2) bb2).
  assert (matrix_shaped (length batch) (mlp_hidden (config s)) h1) as Sh1.
  { subst h1. apply matrix_shaped_add_bias; [|done].
    apply (matrix_shaped_matmul _ _ _ (dim (config s))); [apply Senc | done | done]. }
  assert (matrix_shaped (length batch) (mlp_hidden (config s)) a1) as Sa1
    by (by apply matrix_shaped_map).
  assert (matrix_shaped (length batch) (num_classes (config s)) logits) as Slog.
  { subst logits. apply matrix_shaped_add_bias; [|done].
    apply (matrix_shaped_matmul _ _ _ (mlp_hidden (config s))); [apply Sa1 | done | done]. }
  destruct (softmax_shaped logits _ _ Hnc Slog) as (probs & Hprobs & Sprobs).
  rewrite (bind_ok _ _ _ s probs) by (unfold lift; by rewrite Hprobs).
  destruct (fill_onehot_shaped labels O (length batch) (num_classes (config s))
              (zeros2 (length batch) (num_classes (config s))))
    as (onehot & Hone & Sone); [apply zeros2_shaped | lia | done |].
  rewrite (bind_ok _ _ _ s onehot) by (unfold lift; by rewrite Hone).
  cbn zeta.
  set (d_logits := map (λ row, vdiv row (INR (length batch))) (zip_with vsub probs onehot)).
  set (d_W2 := madd (matmul (transpose a1) d_logits) (mscale (l2_reg (config s)) w2)).
  set (d_b2 := sum_axis0 d_logits).
  set (d_a1 := matmul d_logits (transpose w2)).
  set (d_h1 := zip_with (zip_with (λ d h, if Rlt_dec 0 h then d else 0)) d_a1 h1).
  set (d_W1 := madd (matmul (transpose encodings) d_h1) (mscale (l2_reg (config s)) w1)).
  set (d_b1 := sum_axis0 d_h1).
  set (d_encodings := matmul d_h1 (transpose w1)).
  assert (matrix_shaped (length batch) (num_classes (config s)) d_logits) as Sdl.
  { subst d_logits. eapply matrix_shaped_rows;
      [|apply (matrix_shaped_zip_with Rminus); eassumption].
    intros row Hrow. unfold vdiv. by rewrite length_map. }
  assert (matrix_shaped (mlp_hidden (config s)) (num_classes (config s)) d_W2) as SdW2.
  { subst d_W2. apply (matrix_shaped_zip_with Rplus); [|by apply matrix_shaped_map].
    apply (matrix_shaped_matmul _ _ _ (length batch)); [|done|done].
    by apply (matrix_shaped_transpose a1 (length batch)). }
  assert (length d_b2 = num_classes (config s)) as Sdb2
    by (by apply (length_sum_axis0 _ (length batch))).
  assert (matrix_shaped (length batch) (mlp_hidden (config s)) d_a1) as Sda1.
  { subst d_a1. apply (matrix_shaped_matmul _ _ _ (num_classes (config s)));
      [apply Sdl | done | by apply matrix_shaped_transpose]. }
  assert (matrix_shaped (length batch) (mlp_hidden (config s)) d_h1) as Sdh1
    by (by apply matrix_shaped_zip_with).
  assert (matrix_shaped (dim (config s)) (mlp_hidden (config s)) d_W1) as SdW1.
  { subst d_W1. apply (matrix_shaped_zip_with Rplus); [|by apply matrix_shaped_map].
    apply (matrix_shaped_matmul _ _ _ (length batch)); [|done|done].
    by apply (matrix_shaped_transpose encodings (length batch)). }
  assert (length d_b1 = mlp_hidden (config s)) as Sdb1
    by (by apply (length_sum_axis0 _ (length batch))).
  assert (matrix_shaped (length batch) (dim (config s)) d_encodings) as Sdenc.
  { subst d_encodings. apply (matrix_shaped_matmul _ _ _ (mlp_hidden (config s)));
      [apply Sdh1 | done | by apply matrix_shaped_transpose]. }
  rewrite (bind_ok _ _ _ _ _ (step_W2_run d_W2 s o2 w2 Ho2 HW2)).
  set (s1 := set_W2 _ (set_opt_W2 _ s)).
  rewrite (bind_ok _ _ _ _ _ (step_b2_run d_b2 s1 ob2 bb2 Hob2 Hb2)).
  set (s2 := set_b2 _ (set_opt_b2 _ s1)).
  rewrite (bind_ok _ _ _ _ _ (step_W1_run d_W1 s2 o1 w1 Ho1 HW1)).
  set (s3 := set_W1 _ (set_opt_W1 _ s2)).
  rewrite (bind_ok _ _ _ _ _ (step_b1_run d_b1 s3 ob1 bb1 Hob1 Hb1)).
  set (s4 := set_b1 _ (set_opt_b1 _ s3)).
  rewrite (bind_ok _ _ _ (set_embed_t (S (embed_t s4)) s4) tt) by reflexivity.
  set (s5 := set_embed_t _ s4).
  assert (model_shaped s5) as Hs5 by exact Hs.
  set (samples := zip d_encodings (map snd enc_idx)).
  assert (Forall (λ sample, length sample.1 = dim (config s)
                            ∧ Forall (λ j, (j < 4 ^ kmer_length (config s))%nat) sample.2)
                 samples) as Hsamples.
  { subst samples. apply Forall_forall. intros [d idxs] Hin. cbn [fst snd]. split.
    - apply elem_of_zip_l in Hin. destruct Sdenc as [_ Hrows].
      rewrite Forall_forall in Hrows. by apply Hrows.
    - apply elem_of_zip_r in Hin. change (map ?f ?l) with (f <$> l) in Hin.
      apply list_elem_of_fmap in Hin as (x & -> & Hx).
      rewrite Forall_forall in Hall. by destruct (Hall x Hx). }
  rewrite (bind_ok _ _ _ (batch_update (finetune_lr (config s) * 0.1) samples s5) tt);
    cycle 1.
  { apply forM_samples_run. eapply Forall_impl; [exact Hsamples|].
    intros sample [_ Hidx]. eapply Forall_impl; [exact Hidx|].
    intros j Hj. by apply in_tables_of_shaped. }
  destruct (batch_update_shaped (finetune_lr (config s) * 0.1) samples s5) as [Hs' Hc'].
  { eapply Forall_impl; [exact Hsamples|]. by intros sample [Hl _]. }
  { exact Hs5. }
  eexists _, _. split; [reflexivity|]. split; [exact Hs'|]. split; [|exact Hc'].
  apply (classifier_ready_same_classifier s5); [apply batch_update_same_classifier|].
  destruct (adam_update_matrix_shaped _ _ o2 w2 d_W2 Sm2 Sv2 Sw2 SdW2) as (? & ? & ?).
  destruct (adam_update_vec_shaped _ ob2 bb2 d_b2 Lmb2 Lvb2 Lb2 Sdb2) as (? & ? & ?).
  destruct (adam_update_matrix_shaped _ _ o1 w1 d_W1 Sm1 Sv1 Sw1 SdW1) as (? & ? & ?).
  destruct (adam_update_vec_shaped _ ob1 bb1 d_b1 Lmb1 Lvb1 Lb1 Sdb1) as (? & ? & ?).
  split; [exact Hd|]. split; [exact Hh|]. split; [exact Hnc|].
  eexists _, _, _, _, _, _, _, _.
  repeat (split; [reflexivity|]).
  repeat (split; [eassumption|]). eassumption.
Qed.

End FinetuneProgress.

(** ** [finetune] returns *)

Section EpochLoopProgress.

Context {S : Type} (I : S → Prop).
Variable train : M S R.
Variable validate : option (M S R).
Variable pat : nat.
Variable delta : R.
Hypothesis Htrain : ∀ s, I s → ∃ loss s', train s = (Ok loss, s') ∧ I s'.
Hypothesis Hval : ∀ val, validate = Some val →
                  ∀ s, I s → ∃ acc s', val s = (Ok acc, s') ∧ I s'.

(** The epoch loop returns when its two parts do. *)
Lemma epoch_loop_progress (remaining epoch : nat) (run : TrainingRun) (s : S) :
  I s →
  ∃ run' s', epoch_loop train validate pat delta remaining epoch run s = (Ok run', s')
             ∧ I s'.
Proof.
  revert epoch run s. induction remaining as [|remaining IH]; intros epoch run s Hs.
  - by exists run, s.
  - cbn [epoch_loop].
    destruct (Htrain s Hs) as (loss & s1 & Hrun1 & Hs1).
    rewrite (bind_ok _ _ _ _ _ Hrun1).
    destruct validate as [val|] eqn:Ev; [|by apply IH].
    destruct (Hval val eq_refl s1 Hs1) as (acc & s2 & Hrun2 & Hs2).
    rewrite (bind_ok _ _ _ _ _ Hrun2).
    case_bool_decide; [by eexists _, s2 | by apply IH].
Qed.

End EpochLoopProgress.

Section FinetuneReturns.

Context {rs : RandomSource}.

Lemma classifier_ready_shaped (s : Model) : classifier_ready s → classifier_shaped s.
Proof.
  intros (Hd & Hh & Hnc & w1 & bb1 & w2 & bb2 & o1 & ob1 & o2 & ob2
          & HW1 & Hb1 & HW2 & Hb2 & _ & _ & _ & _
          & _ & _ & _ & _ & _ & _ & [Hl2 Hr2] & _ & _ & Lb2 & _).
  exists w1, bb1, w2, bb2. repeat (split; [done|]).
  split; [lia|]. split; [destruct w2; [cbn in Hl2; lia | done]|]. by rewrite Lb2.
Qed.

Lemma finetune_init_ready (s : Model) :
  (0 < dim (config s))%nat → (0 < mlp_hidden (config s))%nat →
  (0 < num_classes (config s))%nat → model_shaped s →
  ∃ s', finetune_init s = (Ok tt, s')
        ∧ model_shaped s' ∧ classifier_ready s' ∧ config s' = config s.
Proof.
  intros Hd Hh Hnc Hs. pose proof (finetune_init_run s Hd Hh) as Hrun. cbn zeta in Hrun.
  eexists. split; [exact Hrun|]. split; [exact Hs|]. split; [|done].
  pose proof (rng_randn_shape (dim (config s)) (mlp_hidden (config s)) (rng s)) as S1.
  pose proof (rng_randn_shape (mlp_hidden (config s)) (num_classes (config s))
                (rng_randn (dim (config s)) (mlp_hidden (config s)) (rng s)).2) as S2.
  unfold classifier_ready. cbn.
  split; [done|]. split; [done|]. split; [done|].
  eexists _, _, _, _, _, _, _, _. repeat (split; [reflexivity|]).
  cbn. unfold zeros. rewrite ?length_map, ?length_replicate.
  assert (∀ c, matrix_shaped (dim (config s)) (mlp_hidden (config s))
                 (map (vscale c) (rng_randn (dim (config s)) (mlp_hidden (config s))
                                            (rng s)).1)) as Sw1.
  { intros c. by apply (matrix_shaped_map (Rmult c)). }
  assert (∀ c, matrix_shaped (mlp_hidden (config s)) (num_classes (config s))
                 (map (vscale c)
                    (rng_randn (mlp_hidden (config s)) (num_classes (config s))
                       (rng_randn (dim (config s)) (mlp_hidden (config s)) (rng s)).2).1))
    as Sw2.
  { intros c. by apply (matrix_shaped_map (Rmult c)). }
  split_and!; try done; try apply Sw1; try apply Sw2;
    apply (matrix_shaped_map (λ _, 0)); first [apply Sw1 | apply Sw2].
Qed.

Lemma predict_returns (seqs : list string) (s : Model) :
  model_shaped s → classifier_ready s → seqs ≠ [] →
  ∃ preds, predict seqs s = (Ok preds, s).
Proof.
  intros (Hvoc & Htab & _) Hready Hne.
  destruct (classifier_ready_shaped s Hready)
    as (w1 & bb1 & w2 & bb2 & HW1 & Hb1 & HW2 & Hb2 & Hpos & Hw2 & Hrows).
  unfold predict.
  rewrite (bind_ok _ _ _ _ _ (require_some _ _ _ _ HW1)).
  rewrite (bind_ok _ _ s s
             (map (λ seq, encode_spec (dim (config s)) (valid_window_rows s seq) true) seqs)).
  2:{ rewrite encode_batch_run by done. by destruct seqs. }
  rewrite (bind_ok _ _ _ _ _ (require_some _ _ _ _ Hb1)).
  rewrite (bind_ok _ _ _ _ _ (require_some _ _ _ _ HW2)).
  rewrite (bind_ok _ _ _ _ _ (require_some _ _ _ _ Hb2)).
  cbn zeta.
  destruct (result_all_ok np_argmax
              (forward_logits
                 (map (λ seq, encode_spec (dim (config s)) (valid_window_rows s seq) true) seqs)
                 w1 bb1 w2 bb2)) as (preds & Hpreds & _).
  { intros row Hin.
    pose proof (forward_logits_rows
                  (map (λ seq, encode_spec (dim (config s)) (valid_window_rows s seq) true)
                       seqs) w1 bb1 w2 bb2 Hw2 Hrows) as Hlr.
    rewrite Forall_forall in Hlr. specialize (Hlr row Hin).
    destruct (np_argmax_spec row) as (i & Hi & _); [|by exists i].
    destruct row; [cbn in Hlr; lia | done]. }
  exists preds. unfold lift. by rewrite Hpreds.
Qed.

Lemma batches_aux_zip {A B : Type} (P : B → Prop) (fuel n : nat) (a : list A) (b : list B) :
  (0 < n)%nat → length b = length a → Forall P b →
  Forall (λ p, p.1 ≠ [] ∧ length p.2 = length p.1 ∧ Forall P p.2)
         (zip (batches_aux fuel n a) (batches_aux fuel n b)).
Proof.
  intros Hn. revert a b. induction fuel as [|fuel IH]; intros a b Hlen HP; [constructor|].
  destruct a as [|x a], b as [|y b]; try (cbn in Hlen; lia); [constructor|].
  cbn [batches_aux zip zip_with]. constructor.
  - cbn [fst snd]. split; [destruct n; [lia | done]|]. split.
    + rewrite !length_take. lia.
    + by apply Forall_take.
  - apply IH.
    + rewrite !length_drop. lia.
    + by apply Forall_drop.
Qed.

Lemma foldM_finetune_batches (cfg : HybridConfig)
    (pairs : list (list string * list nat)) (acc : R) (s : Model) :
  config s = cfg → model_shaped s → classifier_ready s →
  Forall (λ p, p.1 ≠ [] ∧ length p.2 = length p.1
               ∧ Forall (λ l, (l < num_classes cfg)%nat) p.2) pairs →
  ∃ total s',
    foldM (λ epoch_loss (b : list string * list nat),
             loss ← _finetune_step b.1 b.2;
             ret (epoch_loss + loss * INR (length b.2))) acc pairs s
    = (Ok total, s')
    ∧ config s' = cfg ∧ model_shaped s' ∧ classifier_ready s'.
Proof.
  intros Hc Hs Hr Hall. revert acc s Hc Hs Hr.
  induction pairs as [|[seqs labels] rest IH]; intros acc s Hc Hs Hr.
  - by exists acc, s.
  - apply Forall_cons in Hall as [(Hne & Hlen & Hlab) Hrest]. cbn [fst snd] in *.
    destruct (finetune_step_progress seqs labels s Hs Hr Hne)
      as (loss & s1 & Hstep & Hs1 & Hr1 & Hc1); [lia | by rewrite Hc |].
    destruct (IH Hrest (acc + loss * INR (length labels)) s1) as (total & s' & Hrun & H');
      [congruence | done | done |].
    exists total, s'. cbn [foldM].
    erewrite bind_ok; [|erewrite bind_ok; [|exact Hstep]; reflexivity].
    done.
Qed.

Lemma finetune_train_epoch_progress (train_seqs : list string) (train_labels : list nat)
    (s : Model) :
  model_shaped s → classifier_ready s →
  train_seqs ≠ [] → length train_labels = length train_seqs →
  Forall (λ l, (l < num_classes (config s))%nat) train_labels →
  ∃ loss s', finetune_train_epoch train_seqs train_labels s = (Ok loss, s')
             ∧ config s' = config s ∧ model_shaped s' ∧ classifier_ready s'.
Proof.
  intros Hs Hr Hne Hlen Hlab. unfold finetune_train_epoch.
  pose proof (rng_permutation_perm (length train_seqs) (rng s)) as Hperm.
  destruct (rng_permutation (length train_seqs) (rng s)) as [idx g] eqn:Ep. cbn in Hperm.
  rewrite (bind_ok _ _ s (set_rng g s) idx) by (unfold with_rng; by rewrite Ep).
  destruct (take_rows_permutation (λ _, True) train_seqs idx Hperm)
    as (seqs_shuf & Hshuf & Hls & _); [by apply Forall_forall|].
  rewrite (bind_ok _ _ _ (set_rng g s) seqs_shuf) by (unfold lift; by rewrite Hshuf).
  destruct (take_rows_permutation (λ l, (l < num_classes (config s))%nat)
              train_labels idx) as (labels_shuf & Hlshuf & Hll & Hlabs);
    [by rewrite Hlen | done |].
  rewrite (bind_ok _ _ _ (set_rng g s) labels_shuf) by (unfold lift; by rewrite Hlshuf).
  destruct (foldM_finetune_batches (config s)
              (zip (batches 32 seqs_shuf) (batches 32 labels_shuf)) 0 (set_rng g s))
    as (total & s' & Hrun & Hc' & Hs' & Hr'); [done | done | done | |].
  { unfold batches. rewrite Hll, Hlen, <- Hls.
    apply batches_aux_zip; [lia | lia | done]. }
  rewrite (bind_ok _ _ _ _ _ Hrun).
  rewrite bool_decide_eq_false_2 by (by destruct train_seqs).
  by eexists _, s'.
Qed.

(** On a constructed model with positive sizes, a non-empty training set
    and labels in range, [finetune] returns, with a classifier in place and
    the flag set. *)
Theorem finetune_returns (train_seqs : list string) (train_labels : list nat)
    (val_seqs : list string) (val_labels : list nat) (s : Model) :
  model_shaped s →
  (0 < dim (config s))%nat → (0 < mlp_hidden (config s))%nat →
  (0 < num_classes (config s))%nat →
  train_seqs ≠ [] → length train_labels = length train_seqs →
  Forall (λ l, (l < num_classes (config s))%nat) train_labels →
  ∃ run s', finetune train_seqs train_labels val_seqs val_labels s = (Ok run, s')
            ∧ model_shaped s' ∧ classifier_ready s' ∧ is_finetuned s' = true.
Proof.
  intros Hs Hd Hh Hnc Hne Hlen Hlab. unfold finetune.
  rewrite (bind_ok _ _ s s (config s)) by reflexivity.
  destruct (finetune_init_ready s Hd Hh Hnc Hs) as (s0 & Hinit & Hs0 & Hr0 & Hc0).
  rewrite (bind_ok _ _ _ _ _ Hinit).
  destruct (epoch_loop_progress
              (λ σ, config σ = config s ∧ model_shaped σ ∧ classifier_ready σ)
              (finetune_train_epoch train_seqs train_labels)
              (match val_seqs with
               | [] => None
               | _ :: _ => Some (finetune_validate val_seqs val_labels)
               end)
              (patience (config s)) (min_delta (config s))) with
    (remaining := finetune_epochs (config s)) (epoch := O) (run := initial_run) (s := s0)
    as (run & s' & Hrun & Hc' & Hs' & Hr').
  - intros σ (Hcσ & Hsσ & Hrσ).
    destruct (finetune_train_epoch_progress train_seqs train_labels σ)
      as (loss & σ' & Hstep & Hcσ' & Hsσ' & Hrσ'); try done.
    { by rewrite Hcσ. }
    exists loss, σ'. split; [done|]. split; [congruence | done].
  - intros val Hval σ (Hcσ & Hsσ & Hrσ).
    destruct val_seqs as [|v vs]; [done|]. injection Hval as <-.
    destruct (predict_returns (v :: vs) σ Hsσ Hrσ) as (preds & Hp); [done|].
    unfold finetune_validate. rewrite (bind_ok _ _ _ _ _ Hp). by eexists _, σ.
  - done.
  - rewrite (bind_ok _ _ _ _ _ Hrun).
    rewrite (bind_ok _ _ _ (set_is_finetuned true s') tt) by reflexivity.
    exists run, (set_is_finetuned true s'). split; [done|]. split; [exact Hs'|].
    split; [exact Hr' | done].
Qed.

End FinetuneReturns.

(** ** A run of [finetune] whose validation accuracy is constant *)

Section ConstantAccuracy.

Context {S : Type} (I : S → Prop).
Variable train : M S R.
Variable val : M S R.
Variable delta : R.
Hypothesis Htrain : ∀ s, I s → ∃ loss s', train s = (Ok loss, s') ∧ I s'.
Hypothesis Hval : ∀ s, I s → ∃ s', val s = (Ok 1, s') ∧ I s'.
Hypothesis Hdelta : 0 <= delta < 1.

(** With accuracy 1 in every epoch and [patience = 2], the first epoch is the
    only improvement and the loop ends after the third. *)
Lemma epoch_loop_constant_accuracy (n : nat) (s : S) :
  I s →
  ∃ run s', epoch_loop train (Some val) 2 delta (3 + n) 0 initial_run s = (Ok run, s')
            ∧ val_acc run = [1; 1; 1] ∧ length (train_loss run) = 3%nat
            ∧ best_epoch run = 1%nat ∧ I s'.
Proof.
  intros Hs.
  destruct (Htrain s Hs) as (l1 & s1 & Ht1 & Hs1).
  destruct (Hval s1 Hs1) as (s2 & Hv1 & Hs2).
  destruct (Htrain s2 Hs2) as (l2 & s3 & Ht2 & Hs3).
  destruct (Hval s3 Hs3) as (s4 & Hv2 & Hs4).
  destruct (Htrain s4 Hs4) as (l3 & s5 & Ht3 & Hs5).
  destruct (Hval s5 Hs5) as (s6 & Hv3 & Hs6).
  change (3 + n)%nat with (Datatypes.S (Datatypes.S (Datatypes.S n))).
  rewrite (epoch_loop_step _ _ _ _ _ _ _ s s1 s2 l1 1 Ht1 Hv1).
  cbn zeta. rewrite early_stopping_improved by (cbn; lra).
  cbn [patience_counter record_train_loss]. rewrite bool_decide_eq_false_2 by lia.
  rewrite (epoch_loop_step _ _ _ _ _ _ _ s2 s3 s4 l2 1 Ht2 Hv2).
  cbn zeta. rewrite early_stopping_stale by (cbn; lra).
  cbn [patience_counter record_train_loss]. rewrite bool_decide_eq_false_2 by lia.
  rewrite (epoch_loop_step _ _ _ _ _ _ _ s4 s5 s6 l3 1 Ht3 Hv3).
  cbn zeta. rewrite early_stopping_stale by (cbn; lra).
  cbn [patience_counter record_train_loss]. rewrite bool_decide_eq_true_2 by lia.
  eexists _, s6. split; [reflexivity|]. cbn. done.
Qed.

End ConstantAccuracy.

Section SingleClass.

Context {rs : RandomSource}.

Lemma np_argmax_singleton (row : list R) : length row = 1%nat → np_argmax row = Ok O.
Proof. destruct row as [|x [|y l]]; try done. Qed.

Lemma result_all_const {A B : Type} (f : A → result B) (l : list A) (y : B) :
  Forall (λ x, f x = Ok y) l → result_all (map f l) = Ok (replicate (length l) y).
Proof.
  induction l as [|x l IH]; intros H; [done|].
  apply Forall_cons in H as [Hx Hl]. cbn. by rewrite Hx, (IH Hl).
Qed.

(** With one class every prediction is class 0. *)
Lemma predict_single_class (seqs : list string) (s : Model) :
  model_shaped s → classifier_ready s → num_classes (config s) = 1%nat → seqs ≠ [] →
  predict seqs s = (Ok (replicate (length seqs) O), s).
Proof.
  intros (Hvoc & Htab & _) Hready Hone Hne.
  pose proof Hready as (_ & _ & _ & w1' & bb1' & w2' & bb2' & _ & _ & _ & _
                        & HW1' & Hb1' & HW2' & Hb2' & _ & _ & _ & _
                        & _ & _ & _ & _ & _ & _ & _ & _ & _ & Lb2 & _).
  destruct (classifier_ready_shaped s Hready)
    as (w1 & bb1 & w2 & bb2 & HW1 & Hb1 & HW2 & Hb2 & Hpos & Hw2 & Hrows).
  assert (length bb2 = 1%nat) as Hl2 by congruence.
  unfold predict.
  rewrite (bind_ok _ _ _ _ _ (require_some _ _ _ _ HW1)).
  rewrite (bind_ok _ _ s s
             (map (λ seq, encode_spec (dim (config s)) (valid_window_rows s seq) true) seqs)).
  2:{ rewrite encode_batch_run by done. by destruct seqs. }
  rewrite (bind_ok _ _ _ _ _ (require_some _ _ _ _ Hb1)).
  rewrite (bind_ok _ _ _ _ _ (require_some _ _ _ _ HW2)).
  rewrite (bind_ok _ _ _ _ _ (require_some _ _ _ _ Hb2)).
  cbn zeta. unfold lift. rewrite (result_all_const np_argmax _ O).
  - unfold forward_logits, add_bias, matmul. by rewrite !length_map.
  - pose proof (forward_logits_rows
                  (map (λ seq, encode_spec (dim (config s)) (valid_window_rows s seq) true)
                       seqs) w1 bb1 w2 bb2 Hw2 Hrows) as Hlr.
    eapply Forall_impl; [exact Hlr|]. intros row Hrow. apply np_argmax_singleton.
    cbn beta in Hrow. congruence.
Qed.

(** [finetune] on a single-class model with validation labels 0: the
    validation accuracy is 1 in every epoch, so with [patience = 2] the run
    ends after three epochs, whatever the budget above that. *)
Lemma finetune_single_class (train_seqs : list string) (train_labels : list nat)
    (v : string) (s : Model) :
  model_shaped s →
  (0 < dim (config s))%nat → (0 < mlp_hidden (config s))%nat →
  num_classes (config s) = 1%nat → patience (config s) = 2%nat →
  0 <= min_delta (config s) < 1 → (3 ≤ finetune_epochs (config s))%nat →
  train_seqs ≠ [] → length train_labels = length train_seqs →
  Forall (λ l, (l < 1)%nat) train_labels →
  ∃ run s', finetune train_seqs train_labels [v] [O] s = (Ok run, s')
            ∧ val_acc run = [1; 1; 1] ∧ length (train_loss run) = 3%nat
            ∧ best_epoch run = 1%nat.
Proof.
  intros Hs Hd Hh Hone Hpat Hdelta Hep Hne Hlen Hlab. unfold finetune.
  rewrite (bind_ok _ _ s s (config s)) by reflexivity.
  destruct (finetune_init_ready s Hd Hh ltac:(lia) Hs) as (s0 & Hinit & Hs0 & Hr0 & Hc0).
  rewrite (bind_ok _ _ _ _ _ Hinit).
  rewrite Hpat.
  replace (finetune_epochs (config s)) with (3 + (finetune_epochs (config s) - 3))%nat by lia.
  destruct (epoch_loop_constant_accuracy
              (λ σ, config σ = config s ∧ model_shaped σ ∧ classifier_ready σ)
              (finetune_train_epoch train_seqs train_labels)
              (finetune_validate [v] [O]) (min_delta (config s)))
    with (n := (finetune_epochs (config s) - 3)%nat) (s := s0)
    as (run & s' & Hrun & Hacc & Hloss & Hbest & _).
  - intros σ (Hcσ & Hsσ & Hrσ).
    destruct (finetune_train_epoch_progress train_seqs train_labels σ)
      as (loss & σ' & Hstep & Hcσ' & Hsσ' & Hrσ'); try done.
    { rewrite Hcσ, Hone. exact Hlab. }
    exists loss, σ'. split; [done|]. split; [congruence | done].
  - intros σ (Hcσ & Hsσ & Hrσ).
    exists σ. split; [|done]. unfold finetune_validate.
    rewrite (bind_ok _ _ _ _ _ (predict_single_class [v] σ Hsσ Hrσ
                                  ltac:(congruence) ltac:(done))).
    unfold ret, accuracy. cbn. rewrite bool_decide_eq_true_2 by done.
    f_equal. f_equal. lra.
  - exact Hdelta.
  - done.
  - rewrite (bind_ok _ _ _ _ _ Hrun).
    rewrite (bind_ok _ _ _ (set_is_finetuned true s') tt) by reflexivity.
    by exists run, (set_is_finetuned true s').
Qed.

End SingleClass.

(** [HybridHDCModel(HybridConfig(dim=2, kmer_length=1, num_classes=1,
    mlp_hidden=2, patience=2), seed=0).finetune(["ACGT"], [0], ["ACGT"], [0])]
    with a budget of 50 epochs: the validation accuracy is 1 in each epoch,
    the only improving epoch is the first, and the run ends after epoch 3,
    [patience] epochs after the last improvement. *)
Lemma finetune_constant_accuracy_stops_at_3 :
  finetune_epochs single_class_config = 50%nat
  ∧ patience single_class_config = 2%nat
  ∧ ∃ s run s',
      init (rs := fixed_rng) single_class_config 0 = Ok s
      ∧ finetune ["ACGT"%string] [O] ["ACGT"%string] [O] s = (Ok run, s')
      ∧ val_acc run = [1; 1; 1]
      ∧ length (train_loss run) = 3%nat
      ∧ best_epoch run = 1%nat.
Proof.
  split; [reflexivity|]. split; [reflexivity|].
  destruct (init_returns (rs := fixed_rng) single_class_config 0) as [s Hs];
    [lia | cbn; lia | cbn; lia |].
  destruct (init_ok _ _ _ Hs) as (Hcfg & _).
  destruct (finetune_single_class (rs := fixed_rng) ["ACGT"%string] [O] "ACGT"%string s)
    as (run & s' & Hrun & Hacc & Hloss & Hbest); rewrite ?Hcfg; cbn; try lia; try lra;
    try done.
  - by apply (init_shaped single_class_config 0).
  - repeat constructor.
  - by exists s, run, s'.
Qed.

(** ** C4: the sparse updates, one after the other *)

Section SparseUpdateClaim.

Context {rs : RandomSource}.

(** One row update reads the rows and the counter of the state it is
    applied to. *)
Lemma row_update_rows (lr : R) (grad : list R) (s : Model) (idx : nat)
    (m_row v_row e_row : list R) :
  embed_m s !! idx = Some m_row → embed_v s !! idx = Some v_row →
  embeddings s !! idx = Some e_row →
  let m_new := zip_with (λ mi g, 0.9 * mi + (1 - 0.9) * g) m_row grad in
  let v_new := zip_with (λ vi g, 0.999 * vi + (1 - 0.999) * g ^ 2) v_row grad in
  let m_hat := map (λ mi, mi / (1 - 0.9 ^ embed_t s)) m_new in
  let v_hat := map (λ vi, vi / (1 - 0.999 ^ embed_t s)) v_new in
  embed_m (row_update lr grad s idx) !! idx = Some m_new
  ∧ embed_v (row_update lr grad s idx) !! idx = Some v_new
  ∧ embeddings (row_update lr grad s idx) !! idx
    = Some (vsub e_row (zip_with (λ mh vh, lr * mh / (sqrt vh + 1e-8)) m_hat v_hat))
  ∧ embed_t (row_update lr grad s idx) = embed_t s.
Proof.
  intros Hm Hv He. cbn zeta. unfold row_update. rewrite Hm, Hv, He. cbn.
  rewrite !list_lookup_insert_eq; [done | | |]; by eapply lookup_lt_Some.
Qed.

(** C4. Within a batch step the sparse updates are applied one after the
    other, sample by sample and, inside a sample, row occurrence by row
    occurrence: every occurrence is one [row_update], which reads the
    moments, the embedding row and the counter of the state left by all the
    earlier occurrences, so a row met twice is updated twice and the second
    update starts from the moments the first one wrote.  [_finetune_step]
    and [_contrastive_step] each raise [embed_t] by exactly one, before any
    row is touched and whatever the number of rows and samples; both work on
    the same [embed_t], [embed_m] and [embed_v], so one step of each raises
    the counter by two.  The last two parts say that the steps do return: on
    a constructed model whose temperature is not zero a contrastive step
    over a non-empty batch does (a zero temperature can make the division
    of a similarity raise [ZeroDivisionError]), and so does a fine-tuning
    step once the classifier is in place and the labels are in range. *)
Theorem sparse_updates_are_sequential (s : Model) :
  (∀ lr grad idx s',
      sparse_adam_row lr grad idx s = (Ok tt, s') → s' = row_update lr grad s idx)
  ∧ (∀ lr d indices s',
      sparse_adam_sample lr d indices s = (Ok tt, s') →
      s' = fold_left (row_update lr (vdiv d (INR (length indices)))) indices s)
  ∧ (∀ lr g1 g2 idx m_row,
      in_tables s idx → embed_m s !! idx = Some m_row →
      embed_m (fold_left (row_update lr g1) [idx] s) !! idx
      = Some (zip_with (λ mi g, 0.9 * mi + (1 - 0.9) * g) m_row g1)
      ∧ embed_m (row_update lr g2 (row_update lr g1 s idx) idx) !! idx
        = Some (zip_with (λ mi g, 0.9 * mi + (1 - 0.9) * g)
                  (zip_with (λ mi g, 0.9 * mi + (1 - 0.9) * g) m_row g1) g2)
      ∧ embed_t (row_update lr g2 (row_update lr g1 s idx) idx) = embed_t s)
  ∧ (∀ sequences labels loss s',
      _finetune_step sequences labels s = (Ok loss, s') →
      embed_t s' = S (embed_t s)
      ∧ ∃ samples s_mid,
          map snd samples
          = map (kmer_indices (kmer_length (config s)) (kmer_to_idx s)) sequences
          ∧ embeddings s_mid = embeddings s ∧ embed_m s_mid = embed_m s
          ∧ embed_v s_mid = embed_v s ∧ embed_t s_mid = S (embed_t s)
          ∧ s' = fold_left (sample_update (finetune_lr (config s) * 0.1)) samples s_mid)
  ∧ (∀ sequences loss s',
      _contrastive_step sequences s = (Ok loss, s') →
      embed_t s' = S (embed_t s)
      ∧ ∃ s_mid,
          embeddings s_mid = embeddings s ∧ embed_m s_mid = embed_m s
          ∧ embed_v s_mid = embed_v s ∧ embed_t s_mid = S (embed_t s)
          ∧ anchors_applied (contrastive_lr (config s))
              (map (kmer_indices (kmer_length (config s)) (kmer_to_idx s)) sequences)
              (seq 0 (length sequences)) s_mid s')
  ∧ (∀ batch1 batch2 labels loss s',
      (_contrastive_step batch1;; _finetune_step batch2 labels) s = (Ok loss, s') →
      embed_t s' = S (S (embed_t s)))
  ∧ (model_shaped s → temperature (config s) ≠ 0 → ∀ sequences, sequences ≠ [] →
      ∃ loss s', _contrastive_step sequences s = (Ok loss, s'))
  ∧ (model_shaped s → classifier_ready s →
      ∀ sequences labels,
        sequences ≠ [] → (length labels ≤ length sequences)%nat →
        Forall (λ l, (l < num_classes (config s))%nat) labels →
        ∃ loss s', _finetune_step sequences labels s = (Ok loss, s')).
Proof.
  split; [|split; [|split; [|split; [|split; [|split; [|split]]]]]].
  - intros lr grad idx s' Hrun. by apply sparse_adam_row_inv in Hrun as [_ ->].
  - intros lr d indices s' Hrun. by apply sparse_adam_sample_inv in Hrun as [_ ->].
  - intros lr g1 g2 idx m_row (Hm & Hv & He) Hrow.
    apply lookup_lt_is_Some in Hv as [v_row Hv].
    apply lookup_lt_is_Some in He as [e_row He].
    destruct (row_update_rows lr g1 s idx m_row v_row e_row Hrow Hv He)
      as (Hm1 & Hv1 & He1 & Ht1).
    destruct (row_update_rows lr g2 (row_update lr g1 s idx) idx _ _ _ Hm1 Hv1 He1)
      as (Hm2 & _ & _ & Ht2).
    split; [exact Hm1|]. split; [exact Hm2|]. by rewrite Ht2, Ht1.
  - intros sequences labels loss s' Hrun. split.
    + by apply (finetune_step_counter sequences labels s loss s').
    + by apply (finetune_step_tables sequences labels s s' loss).
  - intros sequences loss s' Hrun. split.
    + by apply (contrastive_step_counter sequences s loss s').
    + by apply (contrastive_step_tables sequences s s' loss).
  - intros batch1 batch2 labels loss s' Hrun.
    apply bind_ok_inv in Hrun as (l1 & s1 & H1 & H2).
    apply contrastive_step_counter in H1. apply finetune_step_counter in H2.
    unfold embed_t_incremented in *. congruence.
  - intros Hs Htau sequences Hne.
    destruct (contrastive_step_progress sequences s Hs Htau Hne) as (loss & s' & Hrun & _).
    by exists loss, s'.
  - intros Hs Hr sequences labels Hne Hlen Hlab.
    destruct (finetune_step_progress sequences labels s Hs Hr Hne Hlen Hlab)
      as (loss & s' & Hrun & _).
    by exists loss, s'.
Qed.

End SparseUpdateClaim.

Lemma tiny_model_shaped : model_shaped tiny_model.
Proof. exact (init_shaped (rs := fixed_rng) tiny_config 0 tiny_model tiny_model_init). Qed.

Lemma tiny_fitted_ready : model_shaped tiny_fitted ∧ classifier_ready tiny_fitted.
Proof.
  destruct (finetune_init_ready (rs := fixed_rng) tiny_model)
    as (s' & Hrun & Hs' & Hr' & _); [cbn; lia | cbn; lia | cbn; lia | |].
  - exact tiny_model_shaped.
  - rewrite tiny_fitted_init in Hrun. by injection Hrun as <-.
Qed.

(** Row 0 ([A]) updated twice with the same gradient, and a fine-tuning step
    on the sequence [ACGA], whose first and last windows are both row 0. *)
Lemma sparse_updates_are_sequential_witness :
  embed_m (row_update 0.01 [1; 1] (row_update 0.01 [1; 1] tiny_model 0) 0) !! 0%nat
  = Some (zip_with (λ mi g, 0.9 * mi + (1 - 0.9) * g)
            (zip_with (λ mi g, 0.9 * mi + (1 - 0.9) * g) [0; 0] [1; 1]) [1; 1])
  ∧ ∃ loss s', _finetune_step ["ACGA"%string] [1%nat] tiny_fitted = (Ok loss, s')
               ∧ embed_t s' = 1%nat.
Proof.
  split.
  - refine (proj1 (proj2 (proj1 (proj2 (proj2
      (sparse_updates_are_sequential tiny_model))) 0.01 [1; 1] [1; 1] 0%nat [0; 0] _ _))).
    + repeat split; cbn; lia.
    + reflexivity.
  - destruct (sparse_updates_are_sequential tiny_fitted)
      as (_ & _ & _ & Hstep & _ & _ & _ & Hreturns).
    destruct (Hreturns (proj1 tiny_fitted_ready) (proj2 tiny_fitted_ready)
                ["ACGA"%string] [1%nat]) as (loss & s' & Hrun);
      [done | cbn; lia | repeat constructor; cbn; lia |].
    exists loss, s'. split; [exact Hrun|].
    exact (proj1 (Hstep _ _ _ _ Hrun)).
Defined.

(** * Part III: the rest of the module and its callers

    Properties of the functions around the claims: the numeric helpers, the
    constructor, the encoder, the two training stages as a whole, the
    baseline encoder and the k-NN vote, the data generator, and the
    cross-validation and export functions that drive them. *)

(** ** [cosine_similarity] *)

Section CosineFacts.

Lemma vsum_squares_nonneg (a : list R) : 0 <= vsum (map (λ x, x * x) a).
Proof.
  induction a as [|x a IH]; cbn; [lra|]. unfold vsum in IH. nra.
Qed.

Lemma norm_nonneg (a : list R) : 0 <= norm a.
Proof. unfold norm. apply sqrt_pos. Qed.

Lemma norm_sqr (a : list R) : norm a * norm a = vsum (map (λ x, x * x) a).
Proof. unfold norm. apply sqrt_sqrt, vsum_squares_nonneg. Qed.

Lemma dot_comm (a b : list R) : dot a b = dot b a.
Proof.
  unfold dot, vmul. f_equal. revert b.
  induction a as [|x a IH]; intros [|y b]; cbn; try done.
  by rewrite Rmult_comm, IH.
Qed.

Lemma dot_self (a : list R) : dot a a = vsum (map (λ x, x * x) a).
Proof.
  unfold dot, vmul. f_equal. induction a as [|x a IH]; cbn; [done|]. by rewrite IH.
Qed.

(** Cauchy-Schwarz, for the product over the common prefix. *)
Lemma dot_cauchy_schwarz (a b : list R) :
  dot a b * dot a b <= vsum (map (λ x, x * x) a) * vsum (map (λ x, x * x) b).
Proof.
  revert b. induction a as [|x a IH]; intros b.
  - cbn. lra.
  - destruct b as [|y b].
    + pose proof (vsum_squares_nonneg (x :: a)). unfold dot, vmul. cbn. lra.
    + specialize (IH b).
      pose proof (vsum_squares_nonneg a) as HA. pose proof (vsum_squares_nonneg b) as HB.
      unfold dot, vmul, vsum in *. cbn.
      set (D := foldr Rplus 0 (zip_with Rmult a b)) in *.
      set (A := foldr Rplus 0 (map (λ x, x * x) a)) in *.
      set (B := foldr Rplus 0 (map (λ x, x * x) b)) in *.
      assert (2 * (x * y * D) <= x * x * B + y * y * A) as Hmid.
      { destruct (Rle_dec (x * y * D) 0) as [Hneg|Hpos]; [nra|].
        assert ((x * y * D) * (x * y * D) <= (x * x * B) * (y * y * A)) as Hsq
          by (replace ((x * x * B) * (y * y * A)) with ((x * y) * (x * y) * (A * B)) by ring;
              replace ((x * y * D) * (x * y * D)) with ((x * y) * (x * y) * (D * D)) by ring;
              apply Rmult_le_compat_l; [nra | lra]).
        assert (0 <= x * x * B) as Hu by nra. assert (0 <= y * y * A) as Hv by nra.
        revert Hsq Hpos Hu Hv.
        generalize (x * x * B), (y * y * A), (x * y * D). intros u v w Hsq Hpos Hu Hv.
        destruct (Rle_dec (2 * w) (u + v)) as [Hle|Hgt]; [lra|].
        assert ((u + v) * (u + v) < (2 * w) * (2 * w)) by nra.
        pose proof (Rle_0_sqr (u - v)) as Hs. unfold Rsqr in Hs. nra. }
      nra.
Qed.

Lemma dot_bound (a b : list R) : Rabs (dot a b) <= norm a * norm b.
Proof.
  pose proof (dot_cauchy_schwarz a b) as Hcs.
  rewrite <- (norm_sqr a), <- (norm_sqr b) in Hcs.
  pose proof (norm_nonneg a). pose proof (norm_nonneg b).
  rewrite <- (Rabs_pos_eq (norm a * norm b)) by nra.
  apply Rsqr_le_abs_0. unfold Rsqr. lra.
Qed.

(** X1. For two vectors of the same length, [cosine_similarity] is
    symmetric and lies between -1 and 1; it is 0 as soon as one of the two
    has norm 0 (the guard of the source, instead of a division by zero), and
    it is 1 between a vector of non-zero norm and itself. *)
Theorem cosine_similarity_symmetric_bounded (a b : list R) :
  length a = length b →
  cosine_similarity a b = cosine_similarity b a
  ∧ -1 <= cosine_similarity a b <= 1
  ∧ (norm a = 0 ∨ norm b = 0 → cosine_similarity a b = 0)
  ∧ (norm a ≠ 0 → cosine_similarity a a = 1).
Proof.
  intros _. split; [|split; [|split]].
  - unfold cosine_similarity.
    destruct (Req_dec_T (norm a) 0), (Req_dec_T (norm b) 0); try done.
    by rewrite dot_comm, (Rmult_comm (norm a)).
  - unfold cosine_similarity.
    destruct (Req_dec_T (norm a) 0) as [|Ha]; [lra|].
    destruct (Req_dec_T (norm b) 0) as [|Hb]; [lra|].
    pose proof (norm_nonneg a). pose proof (norm_nonneg b).
    assert (0 < norm a * norm b) as Hpos by nra.
    pose proof (dot_bound a b) as Hd.
    pose proof (Rle_abs (dot a b)) as Hup. pose proof (Rle_abs (- dot a b)) as Hlo.
    rewrite Rabs_Ropp in Hlo.
    split.
    + apply (Rmult_le_reg_r (norm a * norm b)); [done|].
      unfold Rdiv. rewrite Rmult_assoc, Rinv_l by lra. lra.
    + apply (Rmult_le_reg_r (norm a * norm b)); [done|].
      unfold Rdiv. rewrite Rmult_assoc, Rinv_l by lra. lra.
  - unfold cosine_similarity. intros [H0|H0].
    + by destruct (Req_dec_T (norm a) 0).
    + destruct (Req_dec_T (norm a) 0); [done|]. by destruct (Req_dec_T (norm b) 0).
  - intros Ha. unfold cosine_similarity.
    destruct (Req_dec_T (norm a) 0); [done|].
    rewrite dot_self, <- norm_sqr. by field.
Qed.

Lemma cosine_similarity_symmetric_bounded_witness :
  cosine_similarity [1; 0] [3; 4] = cosine_similarity [3; 4] [1; 0]
  ∧ -1 <= cosine_similarity [1; 0] [3; 4] <= 1
  ∧ (norm [1; 0] = 0 ∨ norm [3; 4] = 0 → cosine_similarity [1; 0] [3; 4] = 0)
  ∧ (norm [1; 0] ≠ 0 → cosine_similarity [1; 0] [1; 0] = 1).
Proof. exact (cosine_similarity_symmetric_bounded [1; 0] [3; 4] eq_refl). Defined.

End CosineFacts.

(** ** [softmax] *)

Section SoftmaxFacts.

Lemma fold_left_Rmax_spec (xs : list R) (x : R) :
  (fold_left Rmax xs x = x ∨ fold_left Rmax xs x ∈ xs)
  ∧ x <= fold_left Rmax xs x
  ∧ Forall (λ y, y <= fold_left Rmax xs x) xs.
Proof.
  revert x. induction xs as [|y xs IH]; intros x; cbn [fold_left].
  - split; [by left|]. split; [lra | constructor].
  - destruct (IH (Rmax x y)) as (Hin & Hle & Hall).
    pose proof (Rmax_l x y). pose proof (Rmax_r x y).
    split; [|split].
    + destruct Hin as [Heq|Hin]; [|right; by right].
      rewrite Heq. unfold Rmax. destruct (Rle_dec x y); [right; by left | by left].
    + lra.
    + constructor; [lra | done].
Qed.

Lemma np_max_spec (x : list R) (mx : R) :
  np_max x = Ok mx → mx ∈ x ∧ Forall (λ y, y <= mx) x.
Proof.
  destruct x as [|x0 xs]; [done|]. cbn. intros [= <-].
  destruct (fold_left_Rmax_spec xs x0) as (Hin & Hle & Hall).
  split; [|by constructor].
  destruct Hin as [->|Hin]; [by left | by right].
Qed.

Lemma fold_left_Rmax_shift (xs : list R) (x c : R) :
  fold_left Rmax (map (λ xi, xi + c) xs) (x + c) = fold_left Rmax xs x + c.
Proof.
  revert x. induction xs as [|y xs IH]; intros x; cbn [fold_left map]; [done|].
  rewrite <- IH. f_equal. unfold Rmax.
  destruct (Rle_dec (x + c) (y + c)), (Rle_dec x y); lra.
Qed.

Lemma vsum_nonneg (l : list R) : Forall (λ y, 0 <= y) l → 0 <= vsum l.
Proof.
  induction 1 as [|y l Hy _ IH]; cbn; [lra|]. unfold vsum in IH. lra.
Qed.

Lemma vsum_ge_elem (l : list R) (y : R) : Forall (λ z, 0 <= z) l → y ∈ l → y <= vsum l.
Proof.
  intros Hall Hin. induction Hall as [|z l Hz Hl IH]; [by apply elem_of_nil in Hin|].
  pose proof (vsum_nonneg l Hl) as Hs. unfold vsum in *. cbn.
  apply elem_of_cons in Hin as [->|Hin]; [lra|]. specialize (IH Hin). lra.
Qed.

Lemma vsum_map_div (l : list R) (c : R) : vsum (map (λ e, e / c) l) = vsum l / c.
Proof.
  induction l as [|y l IH]; cbn; [unfold Rdiv; lra|].
  unfold vsum in IH. rewrite IH. unfold Rdiv. lra.
Qed.

(** [np.argmax] commutes with a strictly increasing map. *)
Lemma argmax_from_map (f : R → R) (xs : list R) (best : R) (besti i : nat) :
  (∀ u v, u < v ↔ f u < f v) →
  argmax_from (f best) besti i (map f xs) = argmax_from best besti i xs.
Proof.
  intros Hf. revert best besti i.
  induction xs as [|x xs IH]; intros best besti i; cbn [argmax_from map]; [done|].
  destruct (Rlt_dec (f best) (f x)) as [H1|H1], (Rlt_dec best x) as [H2|H2].
  - apply IH.
  - by apply Hf in H1.
  - by apply Hf in H2.
  - apply IH.
Qed.

Lemma np_argmax_map (f : R → R) (x : list R) :
  (∀ u v, u < v ↔ f u < f v) → np_argmax (map f x) = np_argmax x.
Proof.
  intros Hf. destruct x as [|x0 xs]; [done|]. cbn [np_argmax map].
  by rewrite argmax_from_map.
Qed.

(** The denominator of a row: at least 1, since the maximum contributes
    [exp 0]. *)
Lemma softmax_denominator (x : list R) (mx : R) :
  np_max x = Ok mx → 1 <= vsum (map (λ xi, exp (xi - mx)) x).
Proof.
  intros Hmx. apply np_max_spec in Hmx as [Hin _].
  apply vsum_ge_elem.
  - apply Forall_forall. intros y Hy. change (map ?f ?l) with (f <$> l) in Hy.
    apply list_elem_of_fmap in Hy as (xi & -> & _). left. apply exp_pos.
  - change (map ?f ?l) with (f <$> l). apply list_elem_of_fmap.
    exists mx. split; [|done]. by rewrite Rminus_diag, exp_0.
Qed.

(** What [softmax] returns on a row. *)
Lemma softmax_row_entries (x p : list R) :
  softmax_row x = Ok p →
  length p = length x
  ∧ Forall (λ pi, 0 < pi < 1) p
  ∧ 1 - 1e-10 < vsum p < 1
  ∧ np_argmax p = np_argmax x.
Proof.
  unfold softmax_row. destruct (np_max x) as [mx|e] eqn:Hmx; [|done].
  pose proof (softmax_denominator x mx Hmx) as Hden. cbn zeta.
  set (S := vsum (map (λ xi, exp (xi - mx)) x)) in *.
  intros [= <-]. split; [by rewrite !length_map|].
  split; [|split].
  - apply Forall_forall. intros pi Hpi. change (map ?f ?l) with (f <$> l) in Hpi.
    apply list_elem_of_fmap in Hpi as (e & -> & He).
    assert (0 < e ∧ e <= S) as [He0 HeS].
    { split.
      - apply list_elem_of_fmap in He as (xi & -> & _). apply exp_pos.
      - apply vsum_ge_elem; [|done]. apply Forall_forall. intros y Hy.
        apply list_elem_of_fmap in Hy as (xi & -> & _). left. apply exp_pos. }
    split.
    + apply Rdiv_lt_0_compat; lra.
    + apply (Rmult_lt_reg_r (S + 1e-10)); [lra|].
      unfold Rdiv. rewrite Rmult_assoc, Rinv_l by lra. lra.
  - rewrite vsum_map_div. fold S. split.
    + apply (Rmult_lt_reg_r (S + 1e-10)); [lra|].
      unfold Rdiv. rewrite Rmult_assoc, Rinv_l by lra. nra.
    + apply (Rmult_lt_reg_r (S + 1e-10)); [lra|].
      unfold Rdiv. rewrite Rmult_assoc, Rinv_l by lra. lra.
  - rewrite map_map. apply np_argmax_map. intros u v.
    assert (0 < / (S + 1e-10)) as Hinv by (apply Rinv_0_lt_compat; lra).
    unfold Rdiv. split.
    + intros Huv. apply Rmult_lt_compat_r; [done|]. apply exp_increasing. lra.
    + intros Hlt. apply Rmult_lt_reg_r in Hlt; [|done].
      apply exp_lt_inv in Hlt. lra.
Qed.

(** X2. [softmax] on a row: an empty row raises [ValueError] (from
    [np.max]); on a non-empty row the result has the length of the row, every
    entry lies strictly between 0 and 1, and the entries sum to a value
    strictly below 1 and above [1 - 1e-10] (the [1e-10] of the denominator
    keeps the sum away from 1); the position of the first maximum is that of
    the input row; and adding a constant to every entry of the row does not
    change the result. *)
Theorem softmax_row_probabilities (x : list R) :
  (x = [] → softmax_row x = Raise ValueError)
  ∧ (x ≠ [] →
     ∃ p, softmax_row x = Ok p
          ∧ length p = length x
          ∧ Forall (λ pi, 0 < pi < 1) p
          ∧ 1 - 1e-10 < vsum p < 1
          ∧ np_argmax p = np_argmax x)
  ∧ (∀ c, softmax_row (map (λ xi, xi + c) x) = softmax_row x).
Proof.
  split; [|split].
  - by intros ->.
  - intros Hne. destruct (softmax_row_ok x Hne) as [p Hp].
    exists p. split; [done|]. by apply softmax_row_entries.
  - intros c. unfold softmax_row. destruct x as [|x0 xs]; [done|].
    cbn [np_max map]. rewrite fold_left_Rmax_shift.
    set (mx := fold_left Rmax xs x0).
    assert (∀ l, map (λ xi, exp (xi - (mx + c))) (map (λ xi, xi + c) l)
                 = map (λ xi, exp (xi - mx)) l) as Hshift.
    { intros l. rewrite map_map. apply map_ext. intros xi. f_equal. lra. }
    assert (exp (x0 + c - (mx + c)) = exp (x0 - mx)) as Hx0 by (f_equal; lra).
    cbn [map]. by rewrite !Hshift, !Hx0.
Qed.

End SoftmaxFacts.

(** ** Prediction on a fitted model *)

Section PredictConsistency.

Context {rs : RandomSource}.

Lemma classifier_ready_logits (s : Model) (X : list (list R)) :
  classifier_ready s →
  ∃ w1 bb1 w2 bb2,
    W1 s = Some w1 ∧ b1 s = Some bb1 ∧ W2 s = Some w2 ∧ b2 s = Some bb2
    ∧ matrix_shaped (length X) (num_classes (config s)) (forward_logits X w1 bb1 w2 bb2).
Proof.
  intros (Hd & Hh & Hnc & w1 & bb1 & w2 & bb2 & o1 & ob1 & o2 & ob2
          & HW1 & Hb1 & HW2 & Hb2 & _ & _ & _ & _
          & _ & _ & _ & _ & _ & _ & Sw2 & _ & _ & Lb2 & _).
  exists w1, bb1, w2, bb2. repeat (split; [done|]).
  unfold forward_logits. apply matrix_shaped_add_bias; [|done].
  apply (matrix_shaped_matmul _ _ _ (mlp_hidden (config s))); [|done|done].
  unfold add_bias, matmul. by rewrite !length_map.
Qed.

(** X3. On a constructed model with a classifier and a non-empty batch,
    [predict] and [predict_proba] both return and leave the model as it was:
    one class below [num_classes] per sequence, one row of [num_classes]
    probabilities per sequence, each strictly between 0 and 1 with a row sum
    below 1, and the predicted class is the position of the first maximum of
    the row of probabilities. *)
Theorem predict_is_argmax_of_predict_proba (s : Model) (sequences : list string) :
  model_shaped s → classifier_ready s → sequences ≠ [] →
  ∃ preds probs,
    predict sequences s = (Ok preds, s)
    ∧ predict_proba sequences s = (Ok probs, s)
    ∧ length preds = length sequences
    ∧ Forall (λ c, (c < num_classes (config s))%nat) preds
    ∧ matrix_shaped (length sequences) (num_classes (config s)) probs
    ∧ Forall (λ row, Forall (λ pi, 0 < pi < 1) row ∧ vsum row < 1) probs
    ∧ Forall2 (λ c row, np_argmax row = Ok c) preds probs.
Proof.
  intros Hs Hready Hne. pose proof Hs as (Hvoc & Htab & _).
  pose proof Hready as (_ & _ & Hnc & _).
  set (X := map (λ seq, encode_spec (dim (config s)) (valid_window_rows s seq) true)
                sequences).
  destruct (classifier_ready_logits s X Hready)
    as (w1 & bb1 & w2 & bb2 & HW1 & Hb1 & HW2 & Hb2 & [Hll Hlr]).
  assert (length X = length sequences) as HlX by (subst X; apply length_map).
  assert (encode_batch sequences true s = (Ok X, s)) as Henc.
  { rewrite encode_batch_run by done. fold X. destruct X eqn:E; [|done].
    destruct sequences; [done | cbn in HlX; lia]. }
  set (logits := forward_logits X w1 bb1 w2 bb2) in *.
  assert (Forall (λ row, row ≠ []) logits) as Hrows.
  { eapply Forall_impl; [exact Hlr|]. intros row Hrow ->. cbn in Hrow. lia. }
  destruct (result_all_ok np_argmax logits) as (preds & Hpreds & Hall1).
  { intros row Hin. rewrite Forall_forall in Hrows.
    destruct (np_argmax_spec row (Hrows row Hin)) as (i & Hi & _). by exists i. }
  destruct (result_all_ok softmax_row logits) as (probs & Hprobs & Hall2).
  { intros row Hin. rewrite Forall_forall in Hrows. by apply softmax_row_ok, Hrows. }
  exists preds, probs.
  assert (predict sequences s = (Ok preds, s)) as Hp.
  { unfold predict.
    rewrite (bind_ok _ _ _ _ _ (require_some _ _ _ _ HW1)).
    rewrite (bind_ok _ _ _ _ _ Henc).
    rewrite (bind_ok _ _ _ _ _ (require_some _ _ _ _ Hb1)).
    rewrite (bind_ok _ _ _ _ _ (require_some _ _ _ _ HW2)).
    rewrite (bind_ok _ _ _ _ _ (require_some _ _ _ _ Hb2)).
    cbn zeta. fold logits. unfold lift. by rewrite Hpreds. }
  assert (predict_proba sequences s = (Ok probs, s)) as Hq.
  { unfold predict_proba.
    rewrite (bind_ok _ _ _ _ _ (require_some _ _ _ _ HW1)).
    rewrite (bind_ok _ _ _ _ _ Henc).
    rewrite (bind_ok _ _ _ _ _ (require_some _ _ _ _ Hb1)).
    rewrite (bind_ok _ _ _ _ _ (require_some _ _ _ _ HW2)).
    rewrite (bind_ok _ _ _ _ _ (require_some _ _ _ _ Hb2)).
    cbn zeta. fold logits. unfold lift, softmax. by rewrite Hprobs. }
  split; [done|]. split; [done|].
  split; [by rewrite <- (Forall2_length _ _ _ Hall1), Hll, HlX|].
  clear Hp Hq Hpreds Hprobs Henc. rewrite <- HlX, <- Hll. clear Hll HlX.
  revert preds probs Hall1 Hall2.
  induction logits as [|row logits IH]; intros preds probs Hall1 Hall2.
  - apply Forall2_nil_inv_l in Hall1 as ->. apply Forall2_nil_inv_l in Hall2 as ->.
    repeat split; constructor.
  - apply Forall2_cons_inv_l in Hall1 as (c & preds' & Hc & Hall1 & ->).
    apply Forall2_cons_inv_l in Hall2 as (p & probs' & Hp & Hall2 & ->).
    apply Forall_cons in Hlr as [Hrow Hlr]. apply Forall_cons in Hrows as [Hrne Hrows].
    destruct (IH Hlr Hrows preds' probs' Hall1 Hall2) as (H1 & [H2l H2r] & H3 & H4).
    destruct (softmax_row_entries row p Hp) as (Hlen & Hent & [_ Hsum] & Harg).
    destruct (np_argmax_spec row Hrne) as (i & Hi & Hlt & _).
    assert (i = c) as -> by congruence.
    split; [constructor; [lia | done]|].
    split; [split; [cbn; by rewrite H2l | constructor; [congruence | done]]|].
    split; [by constructor|].
    constructor; [congruence | done].
Qed.

End PredictConsistency.

Lemma predict_is_argmax_of_predict_proba_witness :
  ∃ preds probs,
    predict ["ACGT"; "ttga"]%string tiny_fitted = (Ok preds, tiny_fitted)
    ∧ predict_proba ["ACGT"; "ttga"]%string tiny_fitted = (Ok probs, tiny_fitted)
    ∧ length preds = 2%nat
    ∧ Forall (λ c, (c < 2)%nat) preds
    ∧ matrix_shaped 2 2 probs
    ∧ Forall (λ row, Forall (λ pi, 0 < pi < 1) row ∧ vsum row < 1) probs
    ∧ Forall2 (λ c row, np_argmax row = Ok c) preds probs.
Proof.
  exact (predict_is_argmax_of_predict_proba tiny_fitted ["ACGT"; "ttga"]%string
           (proj1 tiny_fitted_ready) (proj2 tiny_fitted_ready) ltac:(done)).
Defined.

(** ** [augment_sequence] *)

Section AugmentFacts.

Context {rs : RandomSource}.

Lemma augment_chars_positions (chars : list ascii) (rate : R) (g : RandomState) :
  (∀ l g', l ≠ [] → (rng_choice l g').1 ∈ l) →
  Forall2 (λ c c', c' = c ∨ c' ∈ base_chars) chars (augment_chars chars rate g).1.
Proof.
  intros Hchoice. revert g. induction chars as [|c rest IH]; intros g; [constructor|].
  cbn [augment_chars]. destruct (rng_random g) as [u g1].
  destruct (Rlt_dec u rate).
  - pose proof (Hchoice base_chars g1 ltac:(done)) as Hb.
    destruct (rng_choice base_chars g1) as [b g2]. cbn in Hb.
    specialize (IH g2). destruct (augment_chars rest rate g2) as [rest' g3].
    constructor; [by right | done].
  - specialize (IH g1). destruct (augment_chars rest rate g1) as [rest' g3].
    constructor; [by left | done].
Qed.

Lemma augment_chars_unchanged (chars : list ascii) (rate : R) (g : RandomState) :
  (∀ g', rate <= (rng_random g').1) → (augment_chars chars rate g).1 = chars.
Proof.
  intros Hrand. revert g. induction chars as [|c rest IH]; intros g; [done|].
  cbn [augment_chars]. pose proof (Hrand g) as Hu. destruct (rng_random g) as [u g1].
  cbn in Hu. destruct (Rlt_dec u rate); [lra|].
  specialize (IH g1). destruct (augment_chars rest rate g1) as [rest' g3].
  cbn in *. by rewrite IH.
Qed.

Lemma length_list_ascii_of_string (s : string) :
  length (list_ascii_of_string s) = String.length s.
Proof. induction s as [|c s IH]; cbn; [done | by rewrite IH]. Qed.

(** X4. [augment_sequence] keeps the length of the sequence, and at every
    position the result holds either the character of the input or one of
    [A], [C], [G], [T] (given that [rng.choice] returns an element of the list
    it is passed); when no draw of [rng.random()] falls below the mutation
    rate, the sequence is returned as it is. *)
Theorem augment_sequence_keeps_length (sequence : string) (rate : R) (g : RandomState) :
  (∀ l g', l ≠ [] → (rng_choice l g').1 ∈ l) →
  String.length (augment_sequence sequence rate g).1 = String.length sequence
  ∧ Forall2 (λ c c', c' = c ∨ c' ∈ base_chars)
            (list_ascii_of_string sequence)
            (list_ascii_of_string (augment_sequence sequence rate g).1)
  ∧ ((∀ g', rate <= (rng_random g').1) → (augment_sequence sequence rate g).1 = sequence).
Proof.
  intros Hchoice.
  pose proof (augment_chars_positions (list_ascii_of_string sequence) rate g Hchoice) as Hpos.
  pose proof (augment_chars_unchanged (list_ascii_of_string sequence) rate g) as Hsame.
  unfold augment_sequence.
  destruct (augment_chars (list_ascii_of_string sequence) rate g) as [chars g'].
  cbn [fst] in *. rewrite list_ascii_of_string_of_list_ascii.
  split; [|split; [done|]].
  - rewrite <- !length_list_ascii_of_string, list_ascii_of_string_of_list_ascii.
    symmetry. by eapply Forall2_length.
  - intros Hrand. rewrite (Hsame Hrand). apply string_of_list_ascii_of_string.
Qed.

End AugmentFacts.

Lemma augment_sequence_keeps_length_witness :
  String.length (augment_sequence (rs := fixed_rng) "ACGTN" 0.1 0%nat).1
  = String.length "ACGTN"
  ∧ Forall2 (λ c c', c' = c ∨ c' ∈ base_chars)
            (list_ascii_of_string "ACGTN")
            (list_ascii_of_string (augment_sequence (rs := fixed_rng) "ACGTN" 0.1 0%nat).1)
  ∧ ((∀ g', 0.1 <= (rng_random (RandomSource := fixed_rng) g').1) →
     (augment_sequence (rs := fixed_rng) "ACGTN" 0.1 0%nat).1 = "ACGTN"%string).
Proof.
  apply (augment_sequence_keeps_length (rs := fixed_rng) "ACGTN" 0.1 0%nat).
  intros l g' Hl. destruct l as [|c l]; [done|]. cbn. by left.
Defined.

(** ** The constructor *)

Section InitClaim.

Context {rs : RandomSource}.

(** X5. [HybridHDCModel(config, seed)] raises [ValueError] for a seed above
    [2**32 - 1], which the generator refuses before anything else is done.
    For a seed it accepts, the constructor raises [ZeroDivisionError] for
    [dim = 0] (in [2.0 / config.dim]) and [RecursionError] for
    [kmer_length = 0] (the recursion of [generate_kmers] has no base case
    below 1); otherwise it returns a model with the 4^k k-mers, a table and
    two moment tables of 4^k rows of length [dim], all moments zero, no
    classifier, a zero step counter and both flags down. *)
Theorem init_builds_model_or_raises (cfg : HybridConfig) (seed : nat) :
  ((2 ^ 32 ≤ Z.of_nat seed)%Z → init cfg seed = Raise ValueError)
  ∧ ((Z.of_nat seed < 2 ^ 32)%Z →
     (dim cfg = O → init cfg seed = Raise ZeroDivisionError)
     ∧ ((0 < dim cfg)%nat → kmer_length cfg = O → init cfg seed = Raise RecursionError)
     ∧ ((0 < dim cfg)%nat → (1 ≤ kmer_length cfg)%nat →
        ∃ s, init cfg seed = Ok s
             ∧ config s = cfg ∧ model_shaped s
             ∧ length (kmers s) = (4 ^ kmer_length cfg)%nat
             ∧ Forall (Forall (λ x, x = 0)) (embed_m s)
             ∧ Forall (Forall (λ x, x = 0)) (embed_v s)
             ∧ W1 s = None ∧ b1 s = None ∧ W2 s = None ∧ b2 s = None
             ∧ opt_W1 s = None ∧ opt_b1 s = None ∧ opt_W2 s = None ∧ opt_b2 s = None
             ∧ embed_t s = O ∧ is_pretrained s = false ∧ is_finetuned s = false)).
Proof.
  split.
  { intros Hseed. unfold init. by rewrite (random_state_overflow seed Hseed). }
  intros Hseed. split; [|split].
  - intros Hd. unfold init. rewrite (random_state_ok seed Hseed).
    by rewrite bool_decide_eq_true_2.
  - intros Hd Hk. unfold init. rewrite (random_state_ok seed Hseed).
    rewrite bool_decide_eq_false_2 by lia.
    destruct (rng_randn _ _ _) as [E0 g1]. by rewrite Hk.
  - intros Hd Hk. destruct (init_returns cfg seed Hseed Hd Hk) as [s Hs].
    exists s. split; [done|].
    pose proof (init_shaped cfg seed s Hs) as Hshaped.
    split; [by destruct (init_ok cfg seed s Hs)|]. split; [done|].
    revert Hs. unfold init. rewrite (random_state_ok seed Hseed).
    rewrite bool_decide_eq_false_2 by lia.
    destruct (rng_randn _ _ _) as [E0 g1].
    destruct (kmer_length cfg) as [|k] eqn:Ek; [lia|].
    destruct (generate_kmers_ok k) as (l & Hgen & Hlen & _). rewrite Hgen.
    intros [= <-]. cbn.
    assert (∀ E : list (list R), Forall (Forall (λ x, x = 0)) (map (map (λ _ : R, 0)) E))
      as Hzero.
    { intros E. apply Forall_forall. intros row Hrow.
      change (map ?f ?l) with (f <$> l) in Hrow.
      apply list_elem_of_fmap in Hrow as (r0 & -> & _).
      apply Forall_forall. intros x Hx.
      by apply list_elem_of_fmap in Hx as (x0 & -> & _). }
    split; [done|]. split; [apply Hzero|]. split; [apply Hzero|]. done.
Qed.

End InitClaim.

(** ** The encoder *)

Section EncoderCase.

Context {rs : RandomSource}.

Lemma upper_char_idempotent (c : ascii) : upper_char (upper_char c) = upper_char c.
Proof.
  destruct c as [[] [] [] [] [] [] [] []]; apply (bool_decide_unpack _); vm_compute; exact I.
Qed.

Lemma upper_idempotent (s : string) : upper (upper s) = upper s.
Proof.
  induction s as [|c s IH]; cbn; [done|]. by rewrite upper_char_idempotent, IH.
Qed.

Lemma length_upper (s : string) : String.length (upper s) = String.length s.
Proof. induction s as [|c s IH]; cbn; [done | by rewrite IH]. Qed.

Lemma substring_upper (i k : nat) (s : string) :
  substring i k (upper s) = upper (substring i k s).
Proof.
  revert i k. induction s as [|c s IH]; intros i k.
  - by destruct i, k.
  - destruct i as [|i]; cbn.
    + destruct k as [|k]; cbn; [done|]. by rewrite IH.
    + apply IH.
Qed.

Lemma kmer_indices_upper (k : nat) (idx : gmap string nat) (sequence : string) :
  kmer_indices k idx (upper sequence) = kmer_indices k idx sequence.
Proof.
  unfold kmer_indices. rewrite length_upper.
  generalize (seq 0 (String.length sequence + 1 - k)). intros l.
  induction l as [|i l IH]; [done|]. cbn.
  by rewrite substring_upper, upper_idempotent, IH.
Qed.

(** X6. The encoder does not see the case of the letters: a sequence and its
    upper-cased form have the same k-mer indices, and [encode] returns the
    same result on both, in every state of the model. *)
Theorem encode_ignores_case (s : Model) (sequence : string) (normalize : bool) :
  kmer_indices (kmer_length (config s)) (kmer_to_idx s) (upper sequence)
  = kmer_indices (kmer_length (config s)) (kmer_to_idx s) sequence
  ∧ encode (upper sequence) normalize s = encode sequence normalize s.
Proof.
  split; [apply kmer_indices_upper|].
  unfold encode, mbind, M_bind, bind, gets. cbv beta iota.
  rewrite length_upper. case_bool_decide; [done|].
  cbv beta. by rewrite kmer_indices_upper.
Qed.

End EncoderCase.

Section EncoderNorm.

Context {rs : RandomSource}.

Lemma norm_vdiv_self (e : list R) : 0 < norm e → norm (vdiv e (norm e)) = 1.
Proof.
  intros Hpos. unfold vdiv. unfold norm at 1. rewrite map_map.
  assert (vsum (map (λ x, x / norm e * (x / norm e)) e) = 1) as ->; [|apply sqrt_1].
  assert (vsum (map (λ x, x / norm e * (x / norm e)) e)
          = vsum (map (λ x, x * x) e) / (norm e * norm e)) as ->.
  { rewrite <- vsum_map_div, map_map. f_equal. apply map_ext. intros x. by field; lra. }
  rewrite <- norm_sqr. field. lra.
Qed.

Lemma norm_zero_inv (v : list R) : norm v = 0 → v = zeros (length v).
Proof.
  intros Hn. pose proof (norm_sqr v) as Hs. rewrite Hn, Rmult_0_l in Hs. clear Hn.
  induction v as [|x v IH]; [done|].
  pose proof (vsum_squares_nonneg v) as Hv. unfold vsum in *. cbn in Hs.
  assert (x = 0) as -> by nra.
  cbn. unfold zeros in IH. rewrite <- IH; [done | nra].
Qed.

Lemma dot_zeros_l (n : nat) (v : list R) : dot (zeros n) v = 0.
Proof.
  unfold dot, vmul, zeros. revert v.
  induction n as [|n IH]; intros [|x v]; cbn; try done.
  specialize (IH v). unfold vsum in IH. rewrite IH. lra.
Qed.

Lemma encode_spec_unit_or_zero (d : nat) (rows : list (list R)) :
  norm (encode_spec d rows true) = 1 ∨ encode_spec d rows true = zeros d.
Proof.
  unfold encode_spec. destruct rows as [|r rows]; [by right|].
  set (pooled := arithmetic_mean d (r :: rows)).
  destruct (Rlt_dec 0 (norm pooled)) as [Hpos|Hzero].
  - left. by apply norm_vdiv_self.
  - right. pose proof (norm_nonneg pooled).
    rewrite <- (arithmetic_mean_length d (r :: rows)). fold pooled.
    apply norm_zero_inv. lra.
Qed.

Lemma cosine_unit_or_zero (u v : list R) (d : nat) :
  (norm u = 1 ∨ u = zeros d) → (norm v = 1 ∨ v = zeros d) →
  cosine_similarity u v = dot u v.
Proof.
  intros Hu Hv. unfold cosine_similarity.
  destruct (Req_dec_T (norm u) 0) as [Hu0|Hu0].
  { destruct Hu as [Hu | ->]; [lra|]. by rewrite dot_zeros_l. }
  destruct (Req_dec_T (norm v) 0) as [Hv0|Hv0].
  { destruct Hv as [Hv | ->]; [lra|]. by rewrite dot_comm, dot_zeros_l. }
  destruct Hu as [-> | ->]; [|by rewrite norm_zeros in Hu0].
  destruct Hv as [-> | ->]; [|by rewrite norm_zeros in Hv0].
  field.
Qed.

(** X7. On a constructed model [encode] with normalisation returns, without
    changing the model, a vector of length [dim] that either has Euclidean
    norm 1 or is the zero vector; so the cosine similarity of two normalised
    encodings is their dot product. *)
Theorem encode_normalised_is_unit_or_zero (s : Model) (seq1 seq2 : string) :
  model_shaped s →
  ∃ v1 v2,
    encode seq1 true s = (Ok v1, s) ∧ encode seq2 true s = (Ok v2, s)
    ∧ length v1 = dim (config s)
    ∧ (norm v1 = 1 ∨ v1 = zeros (dim (config s)))
    ∧ cosine_similarity v1 v2 = dot v1 v2.
Proof.
  intros (Hvoc & Htab & _).
  exists (encode_spec (dim (config s)) (valid_window_rows s seq1) true),
         (encode_spec (dim (config s)) (valid_window_rows s seq2) true).
  split; [by apply encode_run|]. split; [by apply encode_run|].
  split; [apply encode_spec_length|].
  split; [apply encode_spec_unit_or_zero|].
  apply (cosine_unit_or_zero _ _ (dim (config s))); apply encode_spec_unit_or_zero.
Qed.

End EncoderNorm.

Lemma encode_normalised_is_unit_or_zero_witness :
  ∃ v1 v2,
    encode "ACGT" true tiny_model = (Ok v1, tiny_model)
    ∧ encode "NN" true tiny_model = (Ok v2, tiny_model)
    ∧ length v1 = 2%nat
    ∧ (norm v1 = 1 ∨ v1 = zeros 2)
    ∧ cosine_similarity v1 v2 = dot v1 v2.
Proof.
  exact (encode_normalised_is_unit_or_zero tiny_model "ACGT" "NN" tiny_model_shaped).
Defined.

(** ** Contrastive pre-training as a whole *)

Section PretrainTotal.

Context {rs : RandomSource}.

Lemma contrastive_anchor_loss_pos (anchors positives : list (list R))
    (anchor_indices : list (list nat)) (batch_size i : nat)
    (s s' : Model) (loss : R) :
  contrastive_anchor anchors positives anchor_indices batch_size i s = (Ok loss, s') →
  0 < loss.
Proof.
  intros Hrun.
  apply contrastive_anchor_loss in Hrun as (a_i & p_i & negatives & _ & _ & _ & Hloss).
  unfold anchor_loss in Hloss.
  destruct (scaled_similarity _ a_i p_i) as [sim_pos|e]; [|done].
  destruct (result_all _) as [sim_negs|e]; [|done].
  injection Hloss as <-. apply info_nce_pos.
Qed.

Lemma foldM_anchors_loss (anchors positives : list (list R))
    (anchor_indices : list (list nat)) (batch_size : nat) (order : list nat)
    (acc total : R) (s s' : Model) :
  foldM (λ total i,
           loss ← contrastive_anchor anchors positives anchor_indices batch_size i;
           ret (total + loss)) acc order s = (Ok total, s') →
  acc <= total.
Proof.
  revert acc s. induction order as [|i rest IH]; intros acc s Hrun.
  - cbn in Hrun. injection Hrun as <- _. lra.
  - cbn [foldM] in Hrun. apply bind_ok_inv in Hrun as (acc' & s1 & Hone & Hrun).
    apply bind_ok_inv in Hone as (loss & s2 & Hanchor & [= <- _]).
    apply contrastive_anchor_loss_pos in Hanchor. apply IH in Hrun. lra.
Qed.

Lemma contrastive_step_loss_nonneg (sequences : list string) (s s' : Model) (loss : R) :
  _contrastive_step sequences s = (Ok loss, s') → 0 <= loss.
Proof.
  unfold _contrastive_step. intros Hrun.
  apply bind_ok_inv in Hrun as (cfg & s0 & _ & Hrun).
  apply bind_ok_inv in Hrun as (augmented & s1 & _ & Hrun).
  apply bind_ok_inv in Hrun as (anchors & s2 & _ & Hrun).
  apply bind_ok_inv in Hrun as (positives & s3 & _ & Hrun).
  apply bind_ok_inv in Hrun as (table & s4 & _ & Hrun).
  cbn zeta in Hrun.
  apply bind_ok_inv in Hrun as (u & s5 & _ & Hrun).
  apply bind_ok_inv in Hrun as (total & s6 & Hfold & Hrun).
  apply foldM_anchors_loss in Hfold.
  case_bool_decide as Hb; [done|]. injection Hrun as <- _.
  apply Rmult_le_pos; [done|]. left. apply Rinv_0_lt_compat.
  apply lt_0_INR. lia.
Qed.

Lemma foldM_batches_loss (batch_list : list (list string)) (acc r : R * nat) (s s' : Model) :
  foldM (λ (acc : R * nat) batch,
           if bool_decide (length batch < 2)%nat then ret acc
           else loss ← _contrastive_step batch;
                ret (acc.1 + loss, S acc.2))
        acc batch_list s = (Ok r, s') →
  acc.1 <= r.1.
Proof.
  revert acc s. induction batch_list as [|batch rest IH]; intros acc s Hrun.
  - cbn in Hrun. injection Hrun as <- _. lra.
  - cbn [foldM] in Hrun. apply bind_ok_inv in Hrun as (acc' & s1 & Hone & Hrun).
    apply IH in Hrun. case_bool_decide.
    + injection Hone as <- _. done.
    + apply bind_ok_inv in Hone as (loss & s2 & Hstep & [= <- _]).
      apply contrastive_step_loss_nonneg in Hstep. cbn in Hrun. lra.
Qed.

Lemma contrastive_epoch_loss_nonneg (sequences : list string) (s s' : Model) (loss : R) :
  contrastive_epoch sequences s = (Ok loss, s') → 0 <= loss.
Proof.
  unfold contrastive_epoch. intros Hrun.
  apply bind_ok_inv in Hrun as (idx & s0 & _ & Hrun).
  apply bind_ok_inv in Hrun as (shuf & s1 & _ & Hrun).
  apply bind_ok_inv in Hrun as ([epoch_loss n] & s2 & Hfold & [= <- _]).
  apply foldM_batches_loss in Hfold. cbn in Hfold.
  apply Rmult_le_pos; [done|]. left. apply Rinv_0_lt_compat.
  apply lt_0_INR. lia.
Qed.

Lemma foldM_epochs_loss_nonneg (sequences : list string) (epochs : list nat)
    (acc losses : list R) (s s' : Model) :
  foldM (λ losses _, avg_loss ← contrastive_epoch sequences;
                     ret (losses ++ [avg_loss])) acc epochs s = (Ok losses, s') →
  Forall (λ l, 0 <= l) acc → Forall (λ l, 0 <= l) losses.
Proof.
  revert acc s. induction epochs as [|e rest IH]; intros acc s Hrun Hacc.
  - cbn in Hrun. by injection Hrun as <- _.
  - cbn [foldM] in Hrun. apply bind_ok_inv in Hrun as (acc' & s1 & Hone & Hrun).
    apply bind_ok_inv in Hone as (loss & s2 & Hepoch & [= <- _]).
    apply contrastive_epoch_loss_nonneg in Hepoch.
    apply (IH _ _ Hrun). apply Forall_app. split; [done|]. by constructor.
Qed.

(** X8. On a constructed model whose temperature is not zero
    [contrastive_pretrain] returns for every list of sequences: one loss per
    configured epoch, none of them negative; the model it leaves has the
    same configuration and still satisfies the shape invariant of the
    constructor (so [encode] works on it), and [is_pretrained] is set.  (With
    a zero temperature the division of a similarity can raise
    [ZeroDivisionError].) *)
Theorem contrastive_pretrain_total (sequences : list string) (s : Model) :
  model_shaped s → temperature (config s) ≠ 0 →
  ∃ losses s',
    contrastive_pretrain sequences s = (Ok losses, s')
    ∧ length losses = contrastive_epochs (config s)
    ∧ Forall (λ l, 0 <= l) losses
    ∧ model_shaped s' ∧ config s' = config s
    ∧ is_pretrained s' = true.
Proof.
  intros Hs Htau.
  destruct (contrastive_pretrain_returns sequences s Hs Htau)
    as (losses & s' & Hrun & Hs' & Hc' & Hlen).
  exists losses, s'. split; [done|]. split; [done|]. split; [|split; [done|split; [done|]]].
  - unfold contrastive_pretrain in Hrun.
    apply bind_ok_inv in Hrun as (cfg & s0 & _ & Hrun).
    apply bind_ok_inv in Hrun as (l & s1 & Hfold & Hrun).
    apply bind_ok_inv in Hrun as (u & s2 & _ & [= <- _]).
    apply (foldM_epochs_loss_nonneg _ _ _ _ _ _ Hfold). constructor.
  - pose proof (contrastive_pretrain_sets_flag sequences s losses) as Hflag.
    rewrite Hrun in Hflag. by apply Hflag.
Qed.

End PretrainTotal.

Lemma contrastive_pretrain_total_witness :
  ∃ losses s',
    contrastive_pretrain ["ACGT"; "TTGA"; "ACNA"]%string tiny_model = (Ok losses, s')
    ∧ length losses = 20%nat
    ∧ Forall (λ l, 0 <= l) losses
    ∧ model_shaped s' ∧ config s' = tiny_config
    ∧ is_pretrained s' = true.
Proof.
  exact (contrastive_pretrain_total ["ACGT"; "TTGA"; "ACNA"]%string tiny_model
           tiny_model_shaped tiny_temperature).
Defined.

Section PretrainSmall.

Context {rs : RandomSource}.

Lemma set_rng_set_rng (g g' : RandomState) (s : Model) :
  set_rng g' (set_rng g s) = set_rng g' s.
Proof. done. Qed.

(** An epoch over at most one sequence has no batch of two: nothing is
    trained and the recorded loss is [0 / max(0, 1)]. *)
Lemma contrastive_epoch_few (sequences : list string) (s : Model) :
  (length sequences ≤ 1)%nat →
  ∃ g, contrastive_epoch sequences s = (Ok 0, set_rng g s).
Proof.
  intros Hlen. unfold contrastive_epoch.
  pose proof (rng_permutation_perm (length sequences) (rng s)) as Hperm.
  destruct (rng_permutation (length sequences) (rng s)) as [idx g] eqn:Ep. cbn in Hperm.
  exists g.
  rewrite (bind_ok _ _ s (set_rng g s) idx) by (unfold with_rng; by rewrite Ep).
  destruct (take_rows_permutation (λ _, True) sequences idx Hperm)
    as (shuf & Hshuf & Hls & _); [by apply Forall_forall|].
  rewrite (bind_ok _ _ _ (set_rng g s) shuf) by (unfold lift; by rewrite Hshuf).
  assert (foldM (λ (acc : R * nat) batch,
                   if bool_decide (length batch < 2)%nat then ret acc
                   else loss ← _contrastive_step batch;
                        ret (acc.1 + loss, S acc.2))
                (0, O) (batches 32 shuf) (set_rng g s)
          = (Ok (0, O), set_rng g s)) as Hfold.
  { destruct shuf as [|x [|y shuf]]; [done | | cbn in Hls; lia].
    unfold batches. cbn [length batches_aux take drop foldM].
    rewrite bool_decide_eq_true_2 by (cbn; lia). done. }
  rewrite (bind_ok _ _ _ _ _ Hfold). unfold ret. cbn. f_equal. f_equal. lra.
Qed.

Lemma foldM_epochs_few (sequences : list string) (epochs : list nat)
    (acc : list R) (s : Model) :
  (length sequences ≤ 1)%nat →
  ∃ g,
    foldM (λ losses _, avg_loss ← contrastive_epoch sequences;
                       ret (losses ++ [avg_loss])) acc epochs s
    = (Ok (acc ++ replicate (length epochs) 0), set_rng g s).
Proof.
  intros Hlen. revert acc s. induction epochs as [|e rest IH]; intros acc s.
  - exists (rng s). cbn. by rewrite app_nil_r, set_rng_same.
  - destruct (contrastive_epoch_few sequences s Hlen) as (g1 & Hone).
    destruct (IH (acc ++ [0]) (set_rng g1 s)) as (g & Hrun).
    exists g. cbn [foldM].
    erewrite bind_ok; [|erewrite bind_ok; [|exact Hone]; reflexivity].
    rewrite Hrun, set_rng_set_rng, <- app_assoc. done.
Qed.

(** X9. Batches of fewer than two sequences are skipped: on a list of at
    most one sequence [contrastive_pretrain] trains nothing, records the loss
    0 for every epoch and changes nothing in the model but the random source
    and the [is_pretrained] flag.  [_contrastive_step] itself, called on an
    empty batch, raises [ZeroDivisionError], after it has incremented
    [embed_t]. *)
Theorem contrastive_pretrain_skips_short_input (sequences : list string) (s : Model) :
  ((length sequences ≤ 1)%nat →
   ∃ g, contrastive_pretrain sequences s
        = (Ok (replicate (contrastive_epochs (config s)) 0),
           set_is_pretrained true (set_rng g s)))
  ∧ _contrastive_step [] s = (Raise ZeroDivisionError, set_embed_t (S (embed_t s)) s).
Proof.
  split; [|done].
  intros Hlen. unfold contrastive_pretrain.
  rewrite (bind_ok _ _ s s (config s)) by reflexivity.
  destruct (foldM_epochs_few sequences (seq 0 (contrastive_epochs (config s))) [] s Hlen)
    as (g & Hrun).
  exists g. rewrite (bind_ok _ _ _ _ _ Hrun).
  rewrite (bind_ok _ _ _ (set_is_pretrained true (set_rng g s)) tt) by reflexivity.
  by rewrite length_seq.
Qed.

End PretrainSmall.

(** ** The history that [finetune] returns *)

Section EpochLoopHistory.

Context {S : Type}.
Variable train : M S R.
Variable val : M S R.
Variable pat : nat.
Variable delta : R.
Hypothesis Hdelta : 0 <= delta.

Lemma early_stopping_consistent (n : nat) (l acc : R) (run : TrainingRun) :
  run_consistent delta n run →
  run_consistent delta (Datatypes.S n) (early_stopping delta n acc (record_train_loss l run)).
Proof.
  intros (Hl & Hv & Hbe & Hpc & Hb0 & Hbv & Hall).
  unfold early_stopping, record_train_loss. cbn [best_val_acc best_epoch train_loss val_acc].
  destruct (Rlt_dec (best_val_acc run + delta) acc) as [Himp|Hstale];
    unfold run_consistent; cbn [best_val_acc best_epoch patience_counter train_loss val_acc];
    rewrite !length_app; cbn [length];
    (split; [lia|]); (split; [lia|]); (split; [lia|]); (split; [lia|]).
  - split; [done|]. split.
    + intros e [= <-]. rewrite lookup_app_r by lia. by rewrite Hv, Nat.sub_diag.
    + apply Forall_app. split.
      * eapply Forall_impl; [exact Hall|]. intros a Ha. cbn beta in Ha. lra.
      * constructor; [lra | constructor].
  - split; [done|]. split.
    + intros e He. specialize (Hbv e He). rewrite lookup_app_l; [done|].
      by eapply lookup_lt_Some.
    + apply Forall_app. split; [done|]. constructor; [lra | constructor].
Qed.

(** A normal return of the loop with validation: [n] epochs were run, within
    the budget; the bookkeeping is consistent; the loop stopped before the
    budget only with the patience reached, and then, for a positive
    patience, exactly [patience] epochs after the best one. *)
Lemma epoch_loop_consistent (remaining epoch : nat) (run run' : TrainingRun) (s s' : S) :
  run_consistent delta epoch run →
  (patience_counter run < pat)%nat ∨ pat = O →
  epoch_loop train (Some val) pat delta remaining epoch run s = (Ok run', s') →
  ∃ n, (epoch ≤ n ≤ epoch + remaining)%nat
       ∧ run_consistent delta n run'
       ∧ ((n < epoch + remaining)%nat → (pat ≤ patience_counter run')%nat)
       ∧ ((1 ≤ pat)%nat → (patience_counter run' ≤ pat)%nat)
       ∧ ((1 ≤ pat)%nat → (n < epoch + remaining)%nat →
          n = (best_epoch run' + pat)%nat).
Proof.
  revert epoch run s. induction remaining as [|remaining IH]; intros epoch run s Hc Hpc Hrun.
  - cbn in Hrun. injection Hrun as <- _. exists epoch.
    split; [lia|]. split; [done|]. split; [lia|]. split; [lia|]. lia.
  - cbn [epoch_loop] in Hrun.
    apply bind_ok_inv in Hrun as (l & s1 & _ & Hrun).
    apply bind_ok_inv in Hrun as (acc & s2 & _ & Hrun).
    cbn zeta in Hrun.
    pose proof (early_stopping_consistent epoch l acc run Hc) as Hc2.
    set (run2 := early_stopping delta epoch acc (record_train_loss l run)) in *.
    assert (patience_counter run2 ≤ Datatypes.S (patience_counter run))%nat as Hstep.
    { subst run2. unfold early_stopping. destruct (Rlt_dec _ _); cbn; lia. }
    case_bool_decide as Hstop.
    + injection Hrun as <- _. exists (Datatypes.S epoch).
      split; [lia|]. split; [done|]. split; [done|]. split; [lia|].
      intros Hp _. destruct Hc2 as (_ & _ & Hbe & Hcnt & _). lia.
    + destruct (IH (Datatypes.S epoch) run2 s2 Hc2 ltac:(lia) Hrun)
        as (n & Hn & Hcn & Hearly & Hle & Heq).
      exists n. split; [lia|]. split; [done|].
      split; [intros; apply Hearly; lia|]. split; [done|].
      intros Hp Hlt. apply Heq; [done | lia].
Qed.

(** Without validation the loop runs its whole budget and only records the
    training losses. *)
Lemma epoch_loop_no_validation (remaining epoch : nat) (run run' : TrainingRun) (s s' : S) :
  epoch_loop train None pat delta remaining epoch run s = (Ok run', s') →
  length (train_loss run') = (length (train_loss run) + remaining)%nat
  ∧ val_acc run' = val_acc run
  ∧ best_val_acc run' = best_val_acc run ∧ best_epoch run' = best_epoch run.
Proof.
  revert epoch run s. induction remaining as [|remaining IH]; intros epoch run s Hrun.
  - cbn in Hrun. injection Hrun as <- _. repeat split. lia.
  - cbn [epoch_loop] in Hrun.
    apply bind_ok_inv in Hrun as (l & s1 & _ & Hrun).
    apply IH in Hrun as (Hl & Hv & Hb & He). cbn in *.
    rewrite length_app in Hl. cbn in Hl. repeat split; try done. lia.
Qed.

End EpochLoopHistory.

Lemma initial_run_consistent (delta : R) : 0 <= delta → run_consistent delta 0 initial_run.
Proof.
  intros Hd. unfold run_consistent, initial_run. cbn.
  repeat split; done.
Qed.

Section FinetuneHistory.

Context {rs : RandomSource}.

(** X10. On a constructed model with positive sizes, a non-empty training
    set with labels below [num_classes] and as many validation labels as
    validation sequences, [finetune] returns, with
    [is_finetuned] set and the classifier in place.  Without a validation
    set it runs all [finetune_epochs] epochs and reports no accuracy, best
    accuracy 0 and best epoch 0.  With one (and [min_delta >= 0]) it runs
    [n <= finetune_epochs] epochs; both histories have [n] entries; the
    reported best accuracy is the accuracy recorded at [best_epoch] (0 if
    [best_epoch] is 0); no recorded accuracy exceeds it by more than
    [min_delta]; and when the run ends before the budget, with a positive
    patience, it ends exactly [patience] epochs after [best_epoch]. *)
Theorem finetune_returns_consistent_history
    (train_seqs : list string) (train_labels : list nat)
    (val_seqs : list string) (val_labels : list nat) (s : Model) :
  model_shaped s →
  (0 < dim (config s))%nat → (0 < mlp_hidden (config s))%nat →
  (0 < num_classes (config s))%nat → 0 <= min_delta (config s) →
  train_seqs ≠ [] → length train_labels = length train_seqs →
  Forall (λ l, (l < num_classes (config s))%nat) train_labels →
  length val_labels = length val_seqs →
  ∃ run s',
    finetune train_seqs train_labels val_seqs val_labels s = (Ok run, s')
    ∧ is_finetuned s' = true ∧ model_shaped s' ∧ classifier_ready s'
    ∧ (val_seqs = [] →
       length (train_loss run) = finetune_epochs (config s)
       ∧ val_acc run = [] ∧ best_val_acc run = 0 ∧ best_epoch run = O)
    ∧ (val_seqs ≠ [] →
       ∃ n, (n ≤ finetune_epochs (config s))%nat
            ∧ run_consistent (min_delta (config s)) n run
            ∧ ((1 ≤ patience (config s))%nat → (n < finetune_epochs (config s))%nat →
               n = (best_epoch run + patience (config s))%nat)).
Proof.
  intros Hs Hd Hh Hnc Hdelta Hne Hlen Hlab _.
  destruct (finetune_returns train_seqs train_labels val_seqs val_labels s
              Hs Hd Hh Hnc Hne Hlen Hlab) as (run & s' & Hrun & Hs' & Hr' & Hfin).
  exists run, s'. split; [done|]. split; [done|]. split; [done|]. split; [done|].
  unfold finetune in Hrun.
  apply bind_ok_inv in Hrun as (cfg & s0 & [= <- <-] & Hrun).
  apply bind_ok_inv in Hrun as (u & s1 & _ & Hrun).
  apply bind_ok_inv in Hrun as (run0 & s2 & Hloop & Hrun).
  apply bind_ok_inv in Hrun as (u' & s3 & _ & [= <- _]).
  split.
  - intros ->. by apply epoch_loop_no_validation in Hloop.
  - intros Hval. destruct val_seqs as [|v vs]; [done|].
    destruct (epoch_loop_consistent _ _ (patience (config s)) (min_delta (config s))
                Hdelta _ _ _ _ _ _ (initial_run_consistent _ Hdelta)
                ltac:(cbn; lia) Hloop) as (n & Hn & Hc & _ & _ & Heq).
    exists n. split; [lia|]. split; [done|]. intros Hp Hlt. apply Heq; [done | lia].
Qed.

End FinetuneHistory.

Lemma finetune_returns_consistent_history_witness :
  ∃ run s',
    finetune ["ACGT"; "TTGA"]%string [O; 1%nat] ["ACGA"%string] [O] tiny_model = (Ok run, s')
    ∧ is_finetuned s' = true ∧ model_shaped s' ∧ classifier_ready s'
    ∧ (["ACGA"%string] = [] →
       length (train_loss run) = 50%nat
       ∧ val_acc run = [] ∧ best_val_acc run = 0 ∧ best_epoch run = O)
    ∧ (["ACGA"%string] ≠ [] →
       ∃ n, (n ≤ 50)%nat
            ∧ run_consistent 0.001 n run
            ∧ ((1 ≤ 2)%nat → (n < 50)%nat → n = (best_epoch run + 2)%nat)).
Proof.
  apply (finetune_returns_consistent_history
           ["ACGT"; "TTGA"]%string [O; 1%nat] ["ACGA"%string] [O] tiny_model).
  - exact tiny_model_shaped.
  - cbn. lia.
  - cbn. lia.
  - cbn. lia.
  - cbn. lra.
  - done.
  - reflexivity.
  - repeat constructor.
  - reflexivity.
Defined.

(** ** Inputs that make fine-tuning raise *)

Section FinetuneErrors.

Context {rs : RandomSource}.

Lemma take_rows_out_of_range {A : Type} (l : list A) (idx : list nat) :
  Exists (λ i, (length l ≤ i)%nat) idx → take_rows l idx = Raise IndexError.
Proof.
  unfold take_rows. induction idx as [|i idx IH]; intros Hex.
  - by apply Exists_nil in Hex.
  - cbn. unfold py_index at 1. destruct (l !! i) as [x|] eqn:Ei; [|done].
    apply Exists_cons in Hex as [Hi|Hrest].
    + apply lookup_lt_Some in Ei. lia.
    + by rewrite (IH Hrest).
Qed.

Lemma fill_onehot_fails (labels : list nat) (i r c : nat) (O : list (list R)) :
  matrix_shaped r c O → (i ≤ r)%nat →
  (r < i + length labels)%nat ∨ Exists (λ l, (c ≤ l)%nat) labels →
  fill_onehot i labels O = Raise IndexError.
Proof.
  revert i O. induction labels as [|l ls IH]; intros i O [HlO HO] Hi Hbad.
  - destruct Hbad as [Hbad|Hbad]; [cbn in Hbad; lia | by apply Exists_nil in Hbad].
  - cbn [fill_onehot]. destruct (O !! i) as [row|] eqn:Erow; [|done].
    pose proof (Forall_lookup_1 _ _ _ _ HO Erow) as Hrl. cbn beta in Hrl.
    apply lookup_lt_Some in Erow.
    case_bool_decide as Hl; [|done].
    apply IH; [|lia|].
    + split; [by rewrite length_insert|].
      apply Forall_insert; [done|]. by rewrite length_insert.
    + destruct Hbad as [Hbad|Hbad]; [left; cbn in Hbad; lia|].
      apply Exists_cons in Hbad as [Hbad|Hbad]; [lia | by right].
Qed.

(** X11. [_finetune_step] with a label that is not below [num_classes], or
    with more labels than sequences, raises [IndexError] while the one-hot
    matrix is filled, before any weight or embedding is written: the model
    is exactly as it was. *)
Theorem finetune_step_rejects_bad_labels (batch : list string) (labels : list nat)
    (s : Model) :
  model_shaped s → classifier_ready s → batch ≠ [] →
  (length batch < length labels)%nat
  ∨ Exists (λ l, (num_classes (config s) ≤ l)%nat) labels →
  _finetune_step batch labels s = (Raise IndexError, s).
Proof.
  intros Hs Hc Hne Hbad.
  destruct (classifier_ready_logits s
              (map fst (map (λ seq, (encode_spec (dim (config s))
                                       (valid_window_rows s seq) true,
                                     kmer_indices (kmer_length (config s))
                                       (kmer_to_idx s) seq)) batch)) Hc)
    as (w1 & bb1 & w2 & bb2 & HW1 & Hb1 & HW2 & Hb2 & _).
  pose proof Hc as (_ & _ & Hnc & _).
  unfold _finetune_step.
  rewrite (bind_ok _ _ s s (config s)) by reflexivity.
  destruct (mapM_finetune_encode_run batch s Hs) as (enc_idx & Henc & Hlen & Hall).
  rewrite (bind_ok _ _ _ _ _ Henc).
  assert (length (map fst enc_idx) = length batch) as Hle by (by rewrite length_map).
  rewrite (bind_ok _ _ _ s (map fst enc_idx)); cycle 1.
  { unfold lift, np_stack. destruct (map fst enc_idx) eqn:E; [|done].
    destruct batch; [done | cbn in Hle; lia]. }
  rewrite (bind_ok _ _ _ _ _ (require_some _ _ _ _ HW1)).
  rewrite (bind_ok _ _ _ _ _ (require_some _ _ _ _ Hb1)).
  rewrite (bind_ok _ _ _ _ _ (require_some _ _ _ _ HW2)).
  rewrite (bind_ok _ _ _ _ _ (require_some _ _ _ _ Hb2)).
  cbn zeta.
  destruct (classifier_ready_logits s (map fst enc_idx) Hc)
    as (w1' & bb1' & w2' & bb2' & HW1' & Hb1' & HW2' & Hb2' & Slog).
  assert (w1' = w1 ∧ bb1' = bb1 ∧ w2' = w2 ∧ bb2' = bb2) as (-> & -> & -> & ->)
    by (repeat split; congruence).
  unfold forward_logits in Slog.
  destruct (softmax_shaped _ _ _ Hnc Slog) as (probs & Hprobs & _).
  rewrite (bind_ok _ _ _ s probs) by (unfold lift; by rewrite Hprobs).
  rewrite (bind_raise _ _ _ s IndexError); [done|].
  unfold lift. f_equal.
  apply (fill_onehot_fails labels O (length batch) (num_classes (config s)));
    [apply zeros2_shaped | lia |].
  destruct Hbad as [Hbad|Hbad]; [left; lia | by right].
Qed.

Lemma permutation_of_nothing (n : nat) (g : RandomState) :
  n = O → (rng_permutation n g).1 = [].
Proof.
  intros ->. pose proof (rng_permutation_perm 0 g) as Hperm.
  by apply Permutation_nil_r in Hperm.
Qed.

(** X12. [finetune] on an empty training set, with at least one epoch
    configured, raises [ZeroDivisionError] at the end of the first epoch
    ([epoch_loss / len(train_seqs)]); with fewer labels than training
    sequences it raises [IndexError] when the labels are shuffled.  In both
    cases the classifier has already been re-initialised, [is_finetuned] is
    not set, and the embedding table and its step counter are untouched.
    With [finetune_epochs = 0] it returns at once, with an empty history and
    [is_finetuned] set. *)
Theorem finetune_raises_on_bad_training_set
    (train_seqs : list string) (train_labels : list nat)
    (val_seqs : list string) (val_labels : list nat) (s : Model) :
  (0 < dim (config s))%nat → (0 < mlp_hidden (config s))%nat →
  ((0 < finetune_epochs (config s))%nat →
   (train_seqs = [] ∨ (length train_labels < length train_seqs)%nat) →
   ∃ s', finetune train_seqs train_labels val_seqs val_labels s
         = (Raise (if bool_decide (train_seqs = []) then ZeroDivisionError else IndexError), s')
         ∧ W1 s' ≠ None ∧ is_finetuned s' = is_finetuned s
         ∧ embeddings s' = embeddings s ∧ embed_t s' = embed_t s)
  ∧ (finetune_epochs (config s) = O →
     ∃ s', finetune train_seqs train_labels val_seqs val_labels s = (Ok initial_run, s')
           ∧ W1 s' ≠ None ∧ is_finetuned s' = true).
Proof.
  intros Hd Hh. pose proof (finetune_init_run s Hd Hh) as Hinit. cbn zeta in Hinit.
  set (s0 := {| config := config s |}) in Hinit.
  split.
  - intros Hep Hbad. unfold finetune.
    rewrite (bind_ok _ _ s s (config s)) by reflexivity.
    rewrite (bind_ok _ _ _ _ _ Hinit).
    destruct (finetune_epochs (config s)) as [|n]; [lia|]. cbn [epoch_loop].
    pose proof (rng_permutation_perm (length train_seqs) (rng s0)) as Hperm.
    destruct (rng_permutation (length train_seqs) (rng s0)) as [idx g] eqn:Ep.
    cbn in Hperm.
    exists (set_rng g s0). split; [|done].
    erewrite bind_raise; [done|]. erewrite bind_raise; [done|].
    unfold finetune_train_epoch.
    rewrite (bind_ok _ _ s0 (set_rng g s0) idx) by (unfold with_rng; by rewrite Ep).
    destruct (take_rows_permutation (λ _, True) train_seqs idx Hperm)
      as (shuf & Hshuf & Hls & _); [by apply Forall_forall|].
    rewrite (bind_ok _ _ _ (set_rng g s0) shuf) by (unfold lift; by rewrite Hshuf).
    destruct train_seqs as [|x xs] eqn:Etrain.
    + apply Permutation_nil_r in Hperm. subst idx.
      destruct shuf; [|done].
      rewrite (bind_ok _ _ _ (set_rng g s0) []) by done.
      rewrite (bind_ok _ _ _ (set_rng g s0) 0) by done.
      by rewrite bool_decide_eq_true_2.
    + rewrite <- Etrain in *.
      destruct Hbad as [Hbad|Hbad]; [by rewrite Etrain in Hbad|].
      rewrite (bool_decide_eq_false_2 (train_seqs = [])) by (by rewrite Etrain).
      erewrite bind_raise; [done|]. unfold lift. f_equal.
      apply take_rows_out_of_range. apply Exists_exists.
      exists (length train_seqs - 1)%nat. split; [|lia].
      rewrite Hperm. apply elem_of_seq. rewrite Etrain. cbn. lia.
  - intros Hep. unfold finetune.
    rewrite (bind_ok _ _ s s (config s)) by reflexivity.
    rewrite (bind_ok _ _ _ _ _ Hinit). rewrite Hep. cbn [epoch_loop].
    rewrite (bind_ok _ _ _ s0 initial_run) by done.
    rewrite (bind_ok _ _ _ (set_is_finetuned true s0) tt) by done.
    by exists (set_is_finetuned true s0).
Qed.

End FinetuneErrors.

Lemma finetune_step_rejects_bad_labels_witness :
  _finetune_step ["ACGT"%string] [2%nat] tiny_fitted = (Raise IndexError, tiny_fitted).
Proof.
  apply (finetune_step_rejects_bad_labels ["ACGT"%string] [2%nat] tiny_fitted).
  - exact (proj1 tiny_fitted_ready).
  - exact (proj2 tiny_fitted_ready).
  - done.
  - right. constructor. cbn. lia.
Defined.

Lemma finetune_raises_on_bad_training_set_witness :
  ((0 < 50)%nat → (@nil string = [] ∨ (length [O] < length (@nil string))%nat) →
   ∃ s', finetune [] [O] [] [] tiny_model
         = (Raise (if bool_decide (@nil string = []) then ZeroDivisionError else IndexError), s')
         ∧ W1 s' ≠ None ∧ is_finetuned s' = false
         ∧ embeddings s' = tiny_embeddings ∧ embed_t s' = O)
  ∧ (50%nat = O →
     ∃ s', finetune [] [O] [] [] tiny_model = (Ok initial_run, s')
           ∧ W1 s' ≠ None ∧ is_finetuned s' = true).
Proof.
  apply (finetune_raises_on_bad_training_set [] [O] [] [] tiny_model); cbn; lia.
Defined.

(** ** What fine-tuning never writes *)

Section FinetuneVocabulary.

Context {rs : RandomSource}.

#[local] Instance same_vocabulary_refl : Reflexive same_vocabulary.
Proof. by intros s. Qed.

#[local] Instance same_vocabulary_trans : Transitive same_vocabulary.
Proof.
  intros s1 s2 s3 (?&?&?&?) (?&?&?&?). unfold same_vocabulary. repeat split; congruence.
Qed.

(** X13. Whatever its arguments and whether it returns or raises,
    [finetune] leaves the configuration, the k-mer list, the k-mer
    dictionary and the [is_pretrained] flag as they were, and so does a
    single [_finetune_step]. *)
Theorem finetune_keeps_vocabulary
    (train_seqs : list string) (train_labels : list nat)
    (val_seqs : list string) (val_labels : list nat) (s : Model) :
  same_vocabulary s (finetune train_seqs train_labels val_seqs val_labels s).2
  ∧ same_vocabulary s (_finetune_step train_seqs train_labels s).2.
Proof.
  split.
  - rewrite finetune_split.
    assert (preserves same_vocabulary
              (finetune_init;;
               finetune_epochs_part train_seqs train_labels val_seqs val_labels)) as Hp.
    { apply preserves_bind; try exact _.
      - unfold finetune_init. repeat frame_step; done.
      - intros _. apply finetune_epochs_part_frame; try exact _; by intros. }
    apply Hp.
  - assert (preserves same_vocabulary (_finetune_step train_seqs train_labels)) as Hp.
    { unfold _finetune_step, step_W1, step_b1, step_W2, step_b2, finetune_encode,
        sparse_adam_sample, sparse_adam_row.
      repeat frame_step; done. }
    apply Hp.
Qed.

End FinetuneVocabulary.

(** ** The baseline encoder *)

Section BaselineFacts.

Lemma dictionary_lookup (k : nat) (l : list string) (w : string) :
  (1 ≤ k)%nat → Kmer.generate_kmers k = Ok l →
  Kmer.build_kmer_to_idx l !! w
  = if is_valid_kmer k w then Some (Kmer.kmer_rank w) else None.
Proof.
  intros Hk Hgen. destruct k as [|k]; [lia|].
  destruct (generate_kmers_ok k) as (l' & Hgen' & Hlen & Hnd & Hlook & Hval).
  rewrite Hgen' in Hgen. injection Hgen as <-.
  destruct (is_valid_kmer (S k) w) eqn:Ev.
  - apply is_valid_kmer_spec in Ev.
    apply build_kmer_to_idx_lookup; [done|]. by apply Hlook.
  - apply build_kmer_to_idx_None. intros Hin. apply Hval in Hin.
    apply is_valid_kmer_spec in Hin. congruence.
Qed.

Lemma baseline_rows_shaped (b : Baseline.BaselineHDC) (sequence : string) :
  baseline_ok b →
  Forall (λ row, length row = Baseline.dim b) (baseline_window_rows b sequence).
Proof.
  intros (_ & _ & _ & _ & Hrows). unfold baseline_window_rows. cbn zeta.
  apply Forall_forall. intros row Hin.
  apply list_elem_of_omap in Hin as (i & _ & Hi).
  destruct (is_valid_kmer _ _); [|done].
  rewrite Forall_forall in Hrows. apply Hrows. by eapply list_elem_of_lookup_2.
Qed.

(** The loop adds up the rows of the valid windows and counts them. *)
Lemma baseline_accumulate_run (b : Baseline.BaselineHDC) (sequence : string)
    (windows : list nat) (acc : list R) (count : nat) :
  baseline_ok b →
  let k := Baseline.kmer_length b in
  let rows := omap (λ i, let w := upper (substring i k sequence) in
                         if is_valid_kmer k w
                         then Baseline.embeddings b !! Kmer.kmer_rank w else None) windows in
  Baseline.accumulate b sequence windows acc count
  = Ok (fold_left vadd rows acc, (count + length rows)%nat).
Proof.
  intros (Hk & Hgen & Hidx & Hlen & Hrows). cbn zeta.
  revert acc count. induction windows as [|i rest IH]; intros acc count.
  - cbn. by rewrite Nat.add_0_r.
  - cbn [Baseline.accumulate omap list_omap].
    rewrite Hidx, (dictionary_lookup _ _ _ Hk Hgen).
    destruct (is_valid_kmer _ _) eqn:Ev; [|apply IH].
    apply is_valid_kmer_spec in Ev as [Hl Hb].
    pose proof (kmer_rank_bound _ Hb) as Hlt. rewrite Hl, <- Hlen in Hlt.
    destruct (lookup_lt_is_Some_2 _ _ Hlt) as [row Hrow].
    unfold py_index. rewrite Hrow. cbn [fold_left length].
    rewrite IH. f_equal. f_equal. lia.
Qed.

Lemma baseline_accumulate_upper (b : Baseline.BaselineHDC) (sequence : string)
    (windows : list nat) (acc : list R) (count : nat) :
  Baseline.accumulate b (upper sequence) windows acc count
  = Baseline.accumulate b sequence windows acc count.
Proof.
  revert acc count. induction windows as [|i rest IH]; intros acc count; [done|].
  cbn [Baseline.accumulate]. rewrite substring_upper, upper_idempotent.
  destruct (Baseline.kmer_to_idx b !! _); [|apply IH].
  destruct (py_index _ _); [apply IH | done].
Qed.

Lemma nth_zeros (d j : nat) : nth j (zeros d) 0 = 0.
Proof.
  unfold zeros. revert j. induction d as [|d IH]; intros [|j]; cbn; try done.
Qed.

Lemma nth_binary (row : list R) (j : nat) :
  Forall (λ x, x = 0 ∨ x = 1) row → nth j row 0 = 0 ∨ nth j row 0 = 1.
Proof.
  intros Hrow. revert j. induction Hrow as [|x row Hx _ IH]; intros [|j]; cbn; auto.
Qed.

(** On rows of bits the sum of a column is the number of its ones. *)
Lemma column_sum_ones (rows : list (list R)) (j : nat) :
  Forall (Forall (λ x, x = 0 ∨ x = 1)) rows →
  vsum (map (λ r, nth j r 0) rows) = INR (ones_at rows j).
Proof.
  induction 1 as [|r rows Hr _ IH]; [done|].
  cbn [map ones_at]. rewrite plus_INR. unfold vsum in *. cbn [foldr]. rewrite IH.
  destruct (nth_binary r j Hr) as [H0|H1], (Req_dec_T (nth j r 0) 1); cbn; lra.
Qed.

Lemma majority_bit_counts (rows : list (list R)) (j : nat) :
  Forall (Forall (λ x, x = 0 ∨ x = 1)) rows →
  majority_bit rows j = 1 ↔ (length rows < 2 * ones_at rows j)%nat.
Proof.
  intros Hb. unfold majority_bit. rewrite (column_sum_ones rows j Hb).
  destruct (Rlt_dec _ _) as [Hlt|Hge]; split.
  - intros _. apply INR_lt. rewrite mult_INR. cbn. lra.
  - done.
  - intros H01. lra.
  - intros Hlt. exfalso. apply Hge. apply lt_INR in Hlt. rewrite mult_INR in Hlt.
    cbn in Hlt. lra.
Qed.

Lemma baseline_encode_run (b : Baseline.BaselineHDC) (sequence : string) :
  baseline_ok b →
  Baseline.encode b sequence
  = Ok (match baseline_window_rows b sequence with
        | [] => zeros (Baseline.dim b)
        | rows => map (majority_bit rows) (seq 0 (Baseline.dim b))
        end).
Proof.
  intros Hok. unfold Baseline.encode. cbn zeta. case_bool_decide as Hshort.
  { unfold baseline_window_rows. cbn zeta.
    by replace (String.length sequence + 1 - Baseline.kmer_length b)%nat with O by lia. }
  pose proof (baseline_accumulate_run b sequence
                (seq 0 (String.length sequence + 1 - Baseline.kmer_length b))
                (zeros (Baseline.dim b)) O Hok) as Hacc.
  cbn zeta in Hacc. fold (baseline_window_rows b sequence) in Hacc. rewrite Hacc.
  pose proof (baseline_rows_shaped b sequence Hok) as Hshape.
  destruct (baseline_window_rows b sequence) as [|r rows] eqn:Erows; [done|].
  rewrite bool_decide_eq_false_2 by (cbn; lia). f_equal.
  destruct (fold_vadd_shape (Baseline.dim b) (r :: rows) (zeros (Baseline.dim b)))
    as [Hlen Hnth]; [apply length_replicate | done |].
  apply (nth_ext _ _ 0 0).
  - by rewrite !length_map, length_seq.
  - intros j Hj. rewrite length_map, Hlen in Hj.
    rewrite (nth_map_R _ _ 0) by lia.
    rewrite (nth_map_R _ _ O) by (rewrite length_seq; lia).
    rewrite seq_nth by lia. rewrite Hnth by lia. rewrite nth_zeros.
    unfold majority_bit. cbn [Nat.add]. by rewrite Rplus_0_l.
Qed.

Lemma baseline_encode_is_majority_aux (b : Baseline.BaselineHDC) (sequence : string) :
  baseline_ok b →
  ∃ v, Baseline.encode b sequence = Ok v
       ∧ length v = Baseline.dim b ∧ Forall (λ x, x = 0 ∨ x = 1) v.
Proof.
  intros Hok. eexists. split; [by apply baseline_encode_run|].
  destruct (baseline_window_rows b sequence) as [|r rows].
  - split; [apply length_replicate|]. apply Forall_replicate. by left.
  - split; [by rewrite length_map, length_seq|].
    apply Forall_forall. intros x Hx. change (map ?f ?l) with (f <$> l) in Hx.
    apply list_elem_of_fmap in Hx as (j & -> & _).
    unfold majority_bit. destruct (Rlt_dec _ _); [by right | by left].
Qed.

(** X14. On a baseline object as its constructor builds it,
    [BaselineHDC.encode] returns a vector of [dim] entries, each 0 or 1: the
    zero vector when the sequence is shorter than [k] or has no valid
    window, and otherwise the bitwise majority of the table rows of its
    valid windows, bit [j] being 1 exactly when the rows with a 1 at [j] are
    more than half of them (a tie gives 0).  The case of the letters does
    not matter. *)
Theorem baseline_encode_is_majority (b : Baseline.BaselineHDC) (sequence : string) :
  baseline_ok b →
  Baseline.encode b sequence
  = Ok (match baseline_window_rows b sequence with
        | [] => zeros (Baseline.dim b)
        | rows => map (majority_bit rows) (seq 0 (Baseline.dim b))
        end)
  ∧ (∀ v, Baseline.encode b sequence = Ok v →
          length v = Baseline.dim b ∧ Forall (λ x, x = 0 ∨ x = 1) v)
  ∧ ((String.length sequence < Baseline.kmer_length b)%nat →
     Baseline.encode b sequence = Ok (zeros (Baseline.dim b)))
  ∧ (∀ j, (j < Baseline.dim b)%nat →
          majority_bit (baseline_window_rows b sequence) j = 1
          ↔ (length (baseline_window_rows b sequence)
             < 2 * ones_at (baseline_window_rows b sequence) j)%nat)
  ∧ Baseline.encode b (upper sequence) = Baseline.encode b sequence.
Proof.
  intros Hok. pose proof (baseline_encode_run b sequence Hok) as Hrun.
  split; [exact Hrun|]. split; [|split; [|split]].
  - intros v Hv.
    destruct (baseline_encode_is_majority_aux b sequence Hok) as (v' & Hv' & Hl & Hbits).
    assert (v' = v) as <- by congruence. done.
  - intros Hshort. unfold Baseline.encode. cbn zeta.
    by rewrite bool_decide_eq_true_2.
  - intros j Hj. apply majority_bit_counts.
    destruct Hok as (_ & _ & _ & _ & Hrows). unfold baseline_window_rows. cbn zeta.
    apply Forall_forall. intros row Hin.
    apply list_elem_of_omap in Hin as (i & _ & Hi).
    destruct (is_valid_kmer _ _); [|done].
    rewrite Forall_forall in Hrows. apply (Hrows row). by eapply list_elem_of_lookup_2.
  - unfold Baseline.encode. cbn zeta.
    by rewrite length_upper, baseline_accumulate_upper.
Qed.

Lemma baseline_encode_all (b : Baseline.BaselineHDC) (sequences : list string) :
  baseline_ok b →
  ∃ X, result_all (map (Baseline.encode b) sequences) = Ok X
       ∧ length X = length sequences
       ∧ Forall (λ row, length row = Baseline.dim b ∧ Forall (λ x, x = 0 ∨ x = 1) row) X.
Proof.
  intros Hok. induction sequences as [|seq rest (X & HX & Hlen & Hall)].
  - by exists [].
  - destruct (baseline_encode_is_majority_aux b seq Hok) as (v & Hv & Hlv & Hbits).
    exists (v :: X). cbn. rewrite Hv, HX. split; [done|]. split; [by rewrite Hlen|].
    by constructor.
Qed.

Section BaselineConstruction.

Context {rs : RandomSource} {bits : BitSource rs}.

(** X15. [BaselineHDC(dim, kmer_length, seed)] raises [ValueError] for a
    seed above [2**32 - 1]; for a seed the generator accepts it raises
    [RecursionError] for [kmer_length = 0] and otherwise returns an object
    with the 4^k k-mers, their dictionary and a table of 4^k rows of [dim]
    bits ([dim = 0] is accepted).  On such an object [encode_batch] raises
    [ValueError] on an empty list and otherwise returns one row of [dim]
    bits per sequence. *)
Theorem baseline_init_and_encode_batch (d k seed : nat) :
  ((2 ^ 32 ≤ Z.of_nat seed)%Z → Baseline.init d k seed = Raise ValueError)
  ∧ ((Z.of_nat seed < 2 ^ 32)%Z → k = O → Baseline.init d k seed = Raise RecursionError)
  ∧ ((Z.of_nat seed < 2 ^ 32)%Z → (1 ≤ k)%nat →
     ∃ b, Baseline.init d k seed = Ok b
          ∧ Baseline.dim b = d ∧ Baseline.kmer_length b = k
          ∧ length (Baseline.kmers b) = (4 ^ k)%nat
          ∧ baseline_ok b)
  ∧ (∀ b, baseline_ok b →
          Baseline.encode_batch b [] = Raise ValueError
          ∧ ∀ sequences, sequences ≠ [] →
              ∃ X, Baseline.encode_batch b sequences = Ok X
                   ∧ length X = length sequences
                   ∧ Forall (λ row, length row = Baseline.dim b
                                    ∧ Forall (λ x, x = 0 ∨ x = 1) row) X).
Proof.
  split; [|split; [|split]].
  - intros Hseed. unfold Baseline.init. by rewrite (random_state_overflow seed Hseed).
  - intros Hseed ->. unfold Baseline.init. rewrite (random_state_ok seed Hseed).
    by destruct (rng_randint2 _ _ _).
  - intros Hseed Hk. unfold Baseline.init. rewrite (random_state_ok seed Hseed).
    pose proof (rng_randint2_shape (4 ^ k) d (rng_seed seed)) as [Hlen Hrows].
    destruct (rng_randint2 (4 ^ k) d (rng_seed seed)) as [E g]. cbn in Hlen, Hrows.
    destruct k as [|k]; [lia|].
    destruct (generate_kmers_ok k) as (l & Hgen & Hl & _). rewrite Hgen.
    eexists. split; [reflexivity|]. cbn. split; [done|]. split; [done|]. split; [done|].
    unfold baseline_ok. cbn. split; [lia|]. done.
  - intros b Hok. split; [done|]. intros sequences Hne.
    destruct (baseline_encode_all b sequences Hok) as (X & HX & Hlen & Hall).
    exists X. unfold Baseline.encode_batch. rewrite HX.
    split; [|done]. destruct X; [|done]. destruct sequences; [done | cbn in Hlen; lia].
Qed.

End BaselineConstruction.

End BaselineFacts.

Lemma tiny_baseline_ok : baseline_ok tiny_baseline.
Proof.
  split; [cbn; lia|]. split; [reflexivity|]. split; [reflexivity|].
  split; [reflexivity|].
  repeat (constructor; [split; [reflexivity | repeat constructor; lra]|]). constructor.
Qed.

Lemma baseline_encode_is_majority_witness :
  Baseline.encode tiny_baseline "acgN"
  = Ok (match baseline_window_rows tiny_baseline "acgN" with
        | [] => zeros 2
        | rows => map (majority_bit rows) (seq 0 2)
        end)
  ∧ (∀ v, Baseline.encode tiny_baseline "acgN" = Ok v →
          length v = 2%nat ∧ Forall (λ x, x = 0 ∨ x = 1) v)
  ∧ ((String.length "acgN" < 1)%nat → Baseline.encode tiny_baseline "acgN" = Ok (zeros 2))
  ∧ (∀ j, (j < 2)%nat →
          majority_bit (baseline_window_rows tiny_baseline "acgN") j = 1
          ↔ (length (baseline_window_rows tiny_baseline "acgN")
             < 2 * ones_at (baseline_window_rows tiny_baseline "acgN") j)%nat)
  ∧ Baseline.encode tiny_baseline (upper "acgN") = Baseline.encode tiny_baseline "acgN".
Proof. exact (baseline_encode_is_majority tiny_baseline "acgN" tiny_baseline_ok). Defined.

(** ** [knn_predict] *)

Section CounterFacts.

Lemma count_label_app (y : nat) (l1 l2 : list nat) :
  count_label y (l1 ++ l2) = (count_label y l1 + count_label y l2)%nat.
Proof. unfold count_label. by rewrite filter_app, length_app. Qed.

Lemma count_label_singleton (y x : nat) :
  count_label y [x] = if bool_decide (x = y) then 1%nat else O.
Proof.
  unfold count_label. cbn. destruct (decide (x = y)) as [H|H].
  - by rewrite bool_decide_eq_true_2.
  - by rewrite bool_decide_eq_false_2.
Qed.

Lemma count_label_pos (y : nat) (votes : list nat) :
  (0 < count_label y votes)%nat ↔ y ∈ votes.
Proof.
  unfold count_label. split.
  - intros Hpos. destruct (filter (λ v, v = y) votes) as [|z l] eqn:Ef; [cbn in Hpos; lia|].
    assert (z ∈ filter (λ v, v = y) votes) as Hz by (rewrite Ef; by left).
    apply list_elem_of_filter in Hz as [-> Hz]. done.
  - intros Hin.
    assert (y ∈ filter (λ v, v = y) votes) as Hy by (by apply list_elem_of_filter).
    destruct (filter (λ v, v = y) votes); [by apply elem_of_nil in Hy | cbn; lia].
Qed.

Lemma counter_add_keys (x : nat) (counter : list (nat * nat)) :
  (counter_add x counter).*1
  = if bool_decide (x ∈ counter.*1) then counter.*1 else counter.*1 ++ [x].
Proof.
  induction counter as [|[y c] rest IH]; [done|].
  cbn [counter_add]. destruct (decide (y = x)) as [->|Hy].
  - rewrite (bool_decide_eq_true_2 (x = x)) by done. cbn.
    rewrite bool_decide_eq_true_2; [done | by left].
  - rewrite (bool_decide_eq_false_2 (y = x)) by done.
    cbn [fmap list_fmap fst]. rewrite IH. cbn.
    destruct (decide (x ∈ rest.*1)) as [H1|H1].
    + rewrite (bool_decide_eq_true_2 (x ∈ rest.*1)) by done.
      rewrite bool_decide_eq_true_2; [done | by right].
    + rewrite (bool_decide_eq_false_2 (x ∈ rest.*1)) by done.
      rewrite bool_decide_eq_false_2; [done|].
      intros H2. apply elem_of_cons in H2 as [->|H2]; done.
Qed.

Lemma counter_add_NoDup (x : nat) (counter : list (nat * nat)) :
  NoDup (counter.*1) → NoDup ((counter_add x counter).*1).
Proof.
  intros Hnd. rewrite counter_add_keys. case_bool_decide as Hx; [done|].
  apply NoDup_app. split; [done|]. split; [|apply NoDup_singleton].
  intros y Hy Hyx. apply list_elem_of_singleton in Hyx as ->. done.
Qed.

Lemma counter_get_cons (y : nat) (p : nat * nat) (counter : list (nat * nat)) :
  counter_get y (p :: counter)
  = if bool_decide (p.1 = y) then (p.2 + counter_get y counter)%nat
    else counter_get y counter.
Proof. done. Qed.

Lemma counter_get_add (x y : nat) (counter : list (nat * nat)) :
  counter_get y (counter_add x counter)
  = (counter_get y counter + if bool_decide (x = y) then 1 else 0)%nat.
Proof.
  induction counter as [|[z c] rest IH].
  - cbn. destruct (decide (x = y)) as [H|H].
    + rewrite !bool_decide_eq_true_2 by done. lia.
    + rewrite !bool_decide_eq_false_2 by done. lia.
  - cbn [counter_add]. destruct (decide (z = x)) as [->|Hzx].
    + rewrite (bool_decide_eq_true_2 (x = x)) by done.
      rewrite !counter_get_cons. cbn [fst snd].
      destruct (decide (x = y)) as [H|H].
      * rewrite !bool_decide_eq_true_2 by done. lia.
      * rewrite !bool_decide_eq_false_2 by done. lia.
    + rewrite (bool_decide_eq_false_2 (z = x)) by done.
      rewrite !counter_get_cons, IH. cbn [fst snd].
      destruct (decide (z = y)) as [H|H].
      * rewrite (bool_decide_eq_true_2 (z = y)) by done. lia.
      * rewrite (bool_decide_eq_false_2 (z = y)) by done. done.
Qed.

Lemma counter_get_Counter (y : nat) (votes : list nat) :
  counter_get y (Counter votes) = count_label y votes
  ∧ NoDup ((Counter votes).*1).
Proof.
  unfold Counter.
  assert (∀ pre counter,
            counter_get y counter = count_label y pre → NoDup (counter.*1) →
            counter_get y (fold_left (λ c x, counter_add x c) votes counter)
            = count_label y (pre ++ votes)
            ∧ NoDup ((fold_left (λ c x, counter_add x c) votes counter).*1)) as Hgen.
  { induction votes as [|x votes IH]; intros pre counter Hc Hnd.
    - by rewrite app_nil_r.
    - cbn [fold_left]. replace (pre ++ x :: votes) with ((pre ++ [x]) ++ votes)
        by (by rewrite <- app_assoc).
      apply IH; [|by apply counter_add_NoDup].
      by rewrite counter_get_add, count_label_app, count_label_singleton, Hc. }
  apply (Hgen [] []); [done | constructor].
Qed.

Lemma counter_get_absent (y : nat) (counter : list (nat * nat)) :
  y ∉ counter.*1 → counter_get y counter = O.
Proof.
  induction counter as [|[z c] rest IH]; intros Hy; [done|].
  rewrite counter_get_cons. cbn [fst snd]. rewrite bool_decide_eq_false_2.
  - apply IH. intros Hin. apply Hy. by right.
  - intros ->. apply Hy. by left.
Qed.

Lemma counter_get_entry (y n : nat) (counter : list (nat * nat)) :
  NoDup (counter.*1) → (y, n) ∈ counter → counter_get y counter = n.
Proof.
  induction counter as [|[z c] rest IH]; intros Hnd Hin; [by apply elem_of_nil in Hin|].
  cbn [fmap list_fmap] in Hnd. apply NoDup_cons in Hnd as [Hz Hnd].
  rewrite counter_get_cons. cbn [fst snd] in *.
  apply elem_of_cons in Hin as [Heq|Hin].
  - injection Heq as <- <-. rewrite bool_decide_eq_true_2 by done.
    rewrite counter_get_absent by done. lia.
  - rewrite bool_decide_eq_false_2; [by apply IH|].
    intros ->. apply Hz. apply list_elem_of_fmap. by exists (y, n).
Qed.

Lemma counter_get_pos (y : nat) (counter : list (nat * nat)) :
  (0 < counter_get y counter)%nat → ∃ n, (y, n) ∈ counter.
Proof.
  induction counter as [|[z c] rest IH]; [cbn; lia|].
  rewrite counter_get_cons. cbn [fst snd].
  destruct (decide (z = y)) as [->|Hzy].
  - intros _. exists c. by left.
  - rewrite bool_decide_eq_false_2 by done. intros Hpos.
    destruct (IH Hpos) as [n Hn]. exists n. by right.
Qed.

(** The entry [most_common(1)] returns has the largest count. *)
Lemma most_common_1_max (p : nat * nat) (rest : list (nat * nat)) :
  let w := fold_left (λ best q, if (best.2 <? q.2)%nat then q else best) rest p in
  w ∈ p :: rest ∧ Forall (λ q, (q.2 ≤ w.2)%nat) (p :: rest).
Proof.
  cbn zeta. revert p. induction rest as [|q rest IH]; intros p.
  - cbn. split; [by left|]. by constructor.
  - cbn [fold_left]. destruct (Nat.ltb_spec p.2 q.2) as [Hlt|Hge].
    + destruct (IH q) as [Hin Hall]. split; [by right|].
      apply Forall_cons in Hall as [Hq Hall]. constructor; [lia|]. by constructor.
    + destruct (IH p) as [Hin Hall]. split.
      * apply elem_of_cons in Hin as [->|Hin]; [by left | right; by right].
      * apply Forall_cons in Hall as [Hp Hall]. constructor; [done|].
        constructor; [lia | done].
Qed.

(** The winner of a non-empty vote: a label that occurs among the votes at
    least as often as any other. *)
Lemma most_common_winner (votes : list nat) :
  votes ≠ [] →
  ∃ entry, py_index (most_common_1 (Counter votes)) 0 = Ok entry
           ∧ entry.1 ∈ votes
           ∧ ∀ y, (count_label y votes ≤ count_label entry.1 votes)%nat.
Proof.
  intros Hne.
  assert (∀ y, counter_get y (Counter votes) = count_label y votes) as Hget
    by (intros y; apply counter_get_Counter).
  assert (NoDup ((Counter votes).*1)) as Hnd by apply (counter_get_Counter O).
  destruct (Counter votes) as [|p rest] eqn:Ecounter.
  { exfalso. destruct votes as [|x votes]; [done|].
    assert (0 < count_label x (x :: votes))%nat as Hpos by (apply count_label_pos; by left).
    rewrite <- Hget in Hpos. cbn in Hpos. lia. }
  cbn [most_common_1]. unfold py_index. cbn [lookup list_lookup].
  destruct (most_common_1_max p rest) as [Hin Hall].
  set (w := fold_left _ rest p) in *.
  exists w. split; [done|].
  assert (∀ q, q ∈ p :: rest → q.2 = count_label q.1 votes ) as Hentry.
  { intros [ql qn] Hq. cbn. rewrite <- Hget. symmetry. by apply counter_get_entry. }
  assert (∀ y, (count_label y votes ≤ count_label w.1 votes)%nat) as Hmax.
  { intros y. destruct (count_label y votes) as [|c] eqn:Ey; [lia|].
    destruct (counter_get_pos y (p :: rest)) as [n Hn]; [rewrite Hget; lia|].
    rewrite Forall_forall in Hall. pose proof (Hall _ Hn) as Hle.
    rewrite (Hentry _ Hn), (Hentry _ Hin) in Hle. cbn in Hle. lia. }
  split; [|done].
  apply count_label_pos. destruct votes as [|x votes]; [done|].
  specialize (Hmax x).
  assert (0 < count_label x (x :: votes))%nat by (apply count_label_pos; by left). lia.
Qed.

End CounterFacts.

Section KnnFacts.

Context {A : Argsort}.

Lemma knn_similarities_run (train_vecs : list (list R)) (tv : list R) (d : nat) :
  train_vecs ≠ [] → (0 < d)%nat → Forall (λ r, length r = d) train_vecs →
  ∃ sims, knn_similarities train_vecs tv = Ok sims ∧ length sims = length train_vecs.
Proof.
  intros Hne Hd Hrows. unfold knn_similarities, matrix_max.
  destruct train_vecs as [|r rest]; [done|].
  apply Forall_cons in Hrows as [Hr _].
  destruct r as [|x r]; [cbn in Hr; lia|]. cbn [concat app np_max].
  destruct (Rlt_dec _ _); eexists; (split; [reflexivity|]); by rewrite length_map.
Qed.

Lemma last_k_suffix {B : Type} (k : nat) (l : list B) :
  ∃ pre, l = pre ++ last_k k l.
Proof.
  unfold last_k. case_bool_decide.
  - by exists [].
  - exists (take (length l - k) l). by rewrite take_drop.
Qed.

Lemma length_last_k {B : Type} (k : nat) (l : list B) :
  length (last_k k l) = if bool_decide (k = O) then length l else (k `min` length l)%nat.
Proof.
  unfold last_k. case_bool_decide; [done|]. rewrite length_drop. lia.
Qed.

Lemma argsort_voters (sims : list R) (k : nat) :
  let top_k := last_k k (argsort sims) in
  NoDup top_k
  ∧ Forall (λ j, (j < length sims)%nat) top_k
  ∧ length top_k = (if bool_decide (k = O) then length sims else (k `min` length sims)%nat)
  ∧ ∀ i j, (i < length sims)%nat → i ∉ top_k → j ∈ top_k → nth i sims 0 <= nth j sims 0.
Proof.
  cbn zeta. pose proof (argsort_perm sims) as Hperm.
  pose proof (argsort_sorted sims) as Hsorted.
  destruct (last_k_suffix k (argsort sims)) as [pre Hpre].
  assert (NoDup (argsort sims)) as Hnd by (rewrite Hperm; apply NoDup_seq).
  rewrite Hpre in Hnd, Hsorted. apply NoDup_app in Hnd as (_ & _ & Hnd).
  split; [done|]. split; [|split].
  - apply Forall_forall. intros j Hj.
    assert (j ∈ argsort sims) as Hin by (rewrite Hpre; apply elem_of_app; by right).
    rewrite Hperm in Hin. apply elem_of_seq in Hin. lia.
  - rewrite length_last_k, (Permutation_length Hperm), length_seq. done.
  - intros i j Hi Hni Hj.
    assert (i ∈ argsort sims) as Hin by (rewrite Hperm; apply elem_of_seq; lia).
    rewrite Hpre in Hin. apply elem_of_app in Hin as [Hin|Hin]; [|done].
    by apply (StronglySorted_app_1_elem_of _ _ _ _ _ Hsorted).
Qed.

Lemma take_rows_lookup {B : Type} (l : list B) (idx : list nat) :
  Forall (λ j, (j < length l)%nat) idx →
  ∃ ys, take_rows l idx = Ok ys ∧ Forall2 (λ j y, l !! j = Some y) idx ys.
Proof.
  intros Hidx. unfold take_rows.
  destruct (result_all_ok (py_index l) idx) as (ys & Hys & Hall).
  { intros i Hi. rewrite Forall_forall in Hidx.
    destruct (lookup_lt_is_Some_2 l i) as [y Hy]; [by apply Hidx|].
    exists y. by apply py_index_lookup. }
  exists ys. split; [done|].
  eapply Forall2_impl; [exact Hall|]. intros j y. unfold py_index.
  destruct (l !! j); [by intros [= ->] | done].
Qed.

Lemma knn_vote_run (train_vecs : list (list R)) (train_labels : list nat)
    (k d : nat) (tv : list R) :
  train_vecs ≠ [] → (0 < d)%nat → Forall (λ r, length r = d) train_vecs →
  (length train_vecs ≤ length train_labels)%nat →
  ∃ p sims votes,
    knn_vote train_vecs train_labels k tv = Ok p
    ∧ knn_similarities train_vecs tv = Ok sims
    ∧ length sims = length train_vecs
    ∧ NoDup (last_k k (argsort sims))
    ∧ length (last_k k (argsort sims))
      = (if bool_decide (k = O) then length train_vecs
         else (k `min` length train_vecs)%nat)
    ∧ (∀ i j, (i < length train_vecs)%nat → i ∉ last_k k (argsort sims) →
              j ∈ last_k k (argsort sims) → nth i sims 0 <= nth j sims 0)
    ∧ Forall2 (λ j y, train_labels !! j = Some y) (last_k k (argsort sims)) votes
    ∧ p ∈ votes
    ∧ ∀ y, (count_label y votes ≤ count_label p votes)%nat.
Proof.
  intros Hne Hd Hrows Hlabels.
  destruct (knn_similarities_run train_vecs tv d Hne Hd Hrows) as (sims & Hsims & Hlen).
  destruct (argsort_voters sims k) as (Hnd & Hlt & Hk & Hbest).
  destruct (take_rows_lookup train_labels (last_k k (argsort sims))) as (votes & Hvotes & Hall).
  { eapply Forall_impl; [exact Hlt|]. cbn. intros j Hj. lia. }
  destruct (most_common_winner votes) as (entry & Hentry & Hin & Hmax).
  { intros ->. apply Forall2_length in Hall. rewrite Hk in Hall. cbn in Hall.
    destruct train_vecs; [done|]. rewrite Hlen in Hall. cbn in Hall.
    case_bool_decide; lia. }
  exists entry.1, sims, votes. unfold knn_vote. rewrite Hsims, Hvotes, Hentry.
  rewrite <- Hlen. done.
Qed.

(** X16. With a non-empty training matrix of rows of length [d > 0], test
    rows of that length and at least one label per training row,
    [knn_predict] returns one prediction per test vector.  For each of them
    the voters [argsort(sims)[-k:]] are distinct positions of the training
    set, [min k n] of them (all [n] when [k = 0], since [[-0:]] is the whole
    array), no position left out is more similar to the test vector than a
    voter, and the prediction is the label of some voter that no other label
    beats in number of votes.  This holds for every [argsort] that returns a
    sorting permutation, whatever it does with ties. *)
Theorem knn_predict_majority_of_nearest (train_vecs test_vecs : list (list R))
    (train_labels : list nat) (k d : nat) :
  train_vecs ≠ [] → (0 < d)%nat →
  Forall (λ r, length r = d) train_vecs → Forall (λ tv, length tv = d) test_vecs →
  (length train_vecs ≤ length train_labels)%nat →
  ∃ preds,
    knn_predict train_vecs train_labels test_vecs k = Ok preds
    ∧ Forall2 (λ tv p, ∃ sims votes,
        knn_similarities train_vecs tv = Ok sims
        ∧ length sims = length train_vecs
        ∧ NoDup (last_k k (argsort sims))
        ∧ length (last_k k (argsort sims))
          = (if bool_decide (k = O) then length train_vecs
             else (k `min` length train_vecs)%nat)
        ∧ (∀ i j, (i < length train_vecs)%nat → i ∉ last_k k (argsort sims) →
                  j ∈ last_k k (argsort sims) → nth i sims 0 <= nth j sims 0)
        ∧ Forall2 (λ j y, train_labels !! j = Some y) (last_k k (argsort sims)) votes
        ∧ p ∈ votes
        ∧ ∀ y, (count_label y votes ≤ count_label p votes)%nat) test_vecs preds.
Proof.
  intros Hne Hd Hrows _ Hlabels. unfold knn_predict.
  induction test_vecs as [|tv rest (preds & Hpreds & Hall)].
  - exists []. split; [done | constructor].
  - destruct (knn_vote_run train_vecs train_labels k d tv Hne Hd Hrows Hlabels)
      as (p & sims & votes & Hp & Hrest).
    exists (p :: preds). cbn [map result_all]. rewrite Hp, Hpreds.
    split; [done|]. constructor; [|done]. by exists sims, votes.
Qed.

Lemma entry_le_norm (v : list R) (x : R) : x ∈ v → x <= norm v.
Proof.
  intros Hin. unfold norm.
  assert (x * x <= vsum (map (λ y, y * y) v)) as Hsq.
  { apply vsum_ge_elem.
    - apply Forall_forall. intros y Hy. apply list_elem_of_fmap in Hy as (z & -> & _). nra.
    - apply list_elem_of_fmap. by exists x. }
  apply Rle_trans with (Rabs x); [apply Rle_abs|].
  rewrite <- sqrt_Rsqr_abs. apply sqrt_le_1_alt. unfold Rsqr. done.
Qed.

Lemma elem_of_concat {B : Type} (x : B) (ls : list (list B)) :
  x ∈ concat ls ↔ ∃ l, x ∈ l ∧ l ∈ ls.
Proof.
  induction ls as [|l ls IH]; cbn [concat].
  - split; [by intros ?%elem_of_nil | by intros (l & _ & ?%elem_of_nil)].
  - rewrite elem_of_app, IH. split.
    + intros [Hx | (l' & Hx & Hl')]; [exists l; split; [done | by left]|].
      exists l'. split; [done | by right].
    + intros (l' & Hx & Hl'). apply elem_of_cons in Hl' as [-> | Hl']; [by left|].
      right. by exists l'.
Qed.

Lemma knn_similarities_binary (train_vecs : list (list R)) (tv : list R) :
  concat train_vecs ≠ [] → Forall (Forall (λ x, x <= 1)) train_vecs →
  knn_similarities train_vecs tv = Ok (map (λ row, hamming_similarity row tv) train_vecs).
Proof.
  intros Hne Hle. unfold knn_similarities, matrix_max.
  destruct (np_max (concat train_vecs)) as [mx|e] eqn:Emax.
  - apply np_max_spec in Emax as [Hin _].
    apply elem_of_concat in Hin as (row & Hx & Hrow).
    rewrite Forall_forall in Hle. specialize (Hle row Hrow).
    rewrite Forall_forall in Hle. specialize (Hle mx Hx).
    destruct (Rlt_dec 1 mx); [lra | done].
  - by destruct (concat train_vecs).
Qed.

Lemma knn_similarities_continuous (train_vecs : list (list R)) (tv : list R) :
  Exists (Exists (λ x, 1 < x)) train_vecs →
  knn_similarities train_vecs tv = Ok (map (λ row, cosine_score row tv) train_vecs).
Proof.
  intros Hex. apply Exists_exists in Hex as (row & Hrow & Hex).
  apply Exists_exists in Hex as (x & Hx & Hgt).
  assert (x ∈ concat train_vecs) as Hin by (apply elem_of_concat; by exists row).
  unfold knn_similarities, matrix_max.
  destruct (np_max (concat train_vecs)) as [mx|e] eqn:Emax.
  - apply np_max_spec in Emax as [_ Hall].
    rewrite Forall_forall in Hall. specialize (Hall x Hin).
    destruct (Rlt_dec 1 mx); [done | lra].
  - destruct (concat train_vecs); [by apply elem_of_nil in Hin | done].
Qed.

Lemma concat_nonempty (X : list (list R)) (d : nat) :
  X ≠ [] → (0 < d)%nat → Forall (λ row, length row = d) X → concat X ≠ [].
Proof.
  intros Hne Hd Hrows. destruct X as [|r X]; [done|].
  apply Forall_cons in Hrows as [Hr _]. destruct r; [cbn in Hr; lia | done].
Qed.

End KnnFacts.

Section KnnMeasure.

Context {rs : RandomSource}.

Lemma encode_spec_entries (d : nat) (rows : list (list R)) :
  Forall (λ x, x <= 1) (encode_spec d rows true).
Proof.
  apply Forall_forall. intros x Hx.
  destruct (encode_spec_unit_or_zero d rows) as [Hn | Hz].
  - rewrite <- Hn. by apply entry_le_norm.
  - rewrite Hz in Hx. unfold zeros in Hx. apply elem_of_replicate in Hx as [-> _]. lra.
Qed.

(** X17. Which similarity [knn_predict] uses is decided by the largest
    entry of the training matrix.  An empty matrix makes [max()] raise
    [ValueError] for the first test vector.  If some entry exceeds 1 the
    similarity is the cosine; otherwise it is the fraction of coordinates
    that are exactly equal.  The latter is the case for the bit vectors of
    [BaselineHDC.encode_batch], and also for the normalised real-valued
    encodings of [HybridHDCModel.encode_batch], whose entries never exceed
    1. *)
Theorem knn_similarity_measure (tv : list R) :
  (∀ train_vecs, concat train_vecs = [] →
     knn_similarities train_vecs tv = Raise ValueError
     ∧ ∀ (A : Argsort) labels rest k,
         knn_predict train_vecs labels (tv :: rest) k = Raise ValueError)
  ∧ (∀ train_vecs, concat train_vecs ≠ [] → Forall (Forall (λ x, x <= 1)) train_vecs →
       knn_similarities train_vecs tv
       = Ok (map (λ row, hamming_similarity row tv) train_vecs))
  ∧ (∀ train_vecs, Exists (Exists (λ x, 1 < x)) train_vecs →
       knn_similarities train_vecs tv
       = Ok (map (λ row, cosine_score row tv) train_vecs))
  ∧ (∀ (s : Model) sequences,
       model_shaped s → (0 < dim (config s))%nat → sequences ≠ [] →
       ∃ X, encode_batch sequences true s = (Ok X, s)
            ∧ length X = length sequences
            ∧ knn_similarities X tv = Ok (map (λ row, hamming_similarity row tv) X))
  ∧ (∀ (b : Baseline.BaselineHDC) sequences,
       baseline_ok b → (0 < Baseline.dim b)%nat → sequences ≠ [] →
       ∃ X, Baseline.encode_batch b sequences = Ok X
            ∧ length X = length sequences
            ∧ knn_similarities X tv = Ok (map (λ row, hamming_similarity row tv) X)).
Proof.
  split; [|split; [|split; [|split]]].
  - intros train_vecs Hempty.
    assert (knn_similarities train_vecs tv = Raise ValueError) as Hsims
      by (unfold knn_similarities, matrix_max; by rewrite Hempty).
    split; [done|]. intros A labels rest k.
    unfold knn_predict, knn_vote. cbn [map result_all]. by rewrite Hsims.
  - intros train_vecs. apply knn_similarities_binary.
  - intros train_vecs. apply knn_similarities_continuous.
  - intros s sequences (Hvoc & Htab & _) Hd Hne.
    rewrite (encode_batch_run s sequences true Hvoc Htab).
    set (X := map _ sequences).
    assert (length X = length sequences) as Hlen by apply length_map.
    exists X. split; [|split; [done|]].
    + unfold np_stack. destruct X; [|done]. destruct sequences; [done | cbn in Hlen; lia].
    + apply knn_similarities_binary.
      * apply (concat_nonempty X (dim (config s))); [|done|].
        -- intros HX. rewrite HX in Hlen. destruct sequences; [done | cbn in Hlen; lia].
        -- apply Forall_forall. intros row Hrow.
           apply list_elem_of_fmap in Hrow as (seq & -> & _). apply encode_spec_length.
      * apply Forall_forall. intros row Hrow.
        apply list_elem_of_fmap in Hrow as (seq & -> & _). apply encode_spec_entries.
  - intros b sequences Hok Hd Hne.
    destruct (baseline_encode_all b sequences Hok) as (X & HX & Hlen & Hall).
    assert (X ≠ []) as HXne
      by (intros ->; destruct sequences; [done | cbn in Hlen; lia]).
    exists X. unfold Baseline.encode_batch. rewrite HX. split; [by destruct X|].
    split; [done|]. apply knn_similarities_binary.
    + apply (concat_nonempty X (Baseline.dim b)); [done | done |].
      eapply Forall_impl; [exact Hall|]. by intros row [Hl _].
    + eapply Forall_impl; [exact Hall|]. intros row [_ Hbits].
      eapply Forall_impl; [exact Hbits|]. cbn. intros x [-> | ->]; lra.
Qed.

End KnnMeasure.

Lemma knn_predict_majority_of_nearest_witness :
  ∃ preds,
    @knn_predict stable_argsort [[1; 0]; [0; 1]; [1; 1]] [O; 1; 1]%nat [[1; 1]] 2 = Ok preds
    ∧ Forall2 (λ tv p, ∃ sims votes,
        knn_similarities [[1; 0]; [0; 1]; [1; 1]] tv = Ok sims
        ∧ length sims = 3%nat
        ∧ NoDup (last_k 2 (@argsort stable_argsort sims))
        ∧ length (last_k 2 (@argsort stable_argsort sims)) = 2%nat
        ∧ (∀ i j, (i < 3)%nat → i ∉ last_k 2 (@argsort stable_argsort sims) →
                  j ∈ last_k 2 (@argsort stable_argsort sims) → nth i sims 0 <= nth j sims 0)
        ∧ Forall2 (λ j y, [O; 1; 1]%nat !! j = Some y)
                  (last_k 2 (@argsort stable_argsort sims)) votes
        ∧ p ∈ votes
        ∧ ∀ y, (count_label y votes ≤ count_label p votes)%nat) [[1; 1]] preds.
Proof.
  apply (@knn_predict_majority_of_nearest stable_argsort
           [[1; 0]; [0; 1]; [1; 1]] [[1; 1]] [O; 1; 1]%nat 2 2).
  - done.
  - lia.
  - repeat constructor.
  - repeat constructor.
  - cbn. lia.
Defined.

(** ** Cross-validation ([validate_real_data.py]) *)

Section FoldSplit.

Lemma fold_split_bounds (n n_folds fold : nat) :
  (1 ≤ n_folds)%nat → (fold < n_folds)%nat →
  let fold_size := (n / n_folds)%nat in
  let val_start := (fold * fold_size)%nat in
  let val_end :=
    if bool_decide (fold < n_folds - 1)%nat then (val_start + fold_size)%nat else n in
  (val_start ≤ val_end)%nat ∧ (val_end ≤ n)%nat.
Proof.
  intros Hn Hfold. cbn zeta.
  pose proof (Nat.Div0.mul_div_le n n_folds) as Hdiv.
  case_bool_decide; nia.
Qed.

Lemma fold_split_parts (indices : list nat) (n n_folds fold : nat) :
  length indices = n → (1 ≤ n_folds)%nat → (fold < n_folds)%nat →
  let split := fold_split indices n n_folds (n / n_folds) fold in
  ∃ before after,
    indices = before ++ split.1 ++ after
    ∧ split.2 = before ++ after
    ∧ length before = (fold * (n / n_folds))%nat
    ∧ length split.1
      = (if bool_decide (fold < n_folds - 1)%nat then n / n_folds
         else n - (n_folds - 1) * (n / n_folds))%nat.
Proof.
  intros Hlen Hn Hfold. cbn zeta.
  destruct (fold_split_bounds n n_folds fold Hn Hfold) as [Hle Hend].
  unfold fold_split, py_slice. cbn zeta in *. cbn [fst snd].
  set (val_start := (fold * (n / n_folds))%nat) in *.
  set (val_end := if bool_decide _ then _ else _) in *.
  exists (take val_start indices), (drop val_end indices).
  split; [|split; [done|split]].
  - replace (drop val_end indices)
      with (drop (val_end - val_start) (drop val_start indices))
      by (rewrite drop_drop; f_equal; lia).
    by rewrite take_drop, take_drop.
  - rewrite length_take. lia.
  - rewrite length_take, length_drop. subst val_end val_start.
    case_bool_decide; [lia|]. assert (fold = n_folds - 1)%nat as -> by lia. lia.
Qed.

Lemma fold_split_covers (indices : list nat) (n n_folds : nat) :
  length indices = n → (1 ≤ n_folds)%nat →
  concat (map (λ fold, (fold_split indices n n_folds (n / n_folds) fold).1)
              (seq 0 n_folds)) = indices.
Proof.
  intros Hlen Hn.
  assert (∀ m, (m ≤ n_folds - 1)%nat →
            concat (map (λ fold, (fold_split indices n n_folds (n / n_folds) fold).1)
                        (seq 0 m)) = take (m * (n / n_folds)) indices) as Hprefix.
  { induction m as [|m IH]; intros Hm; [done|].
    rewrite seq_S, map_app, concat_app, IH by lia. cbn [map concat plus].
    rewrite app_nil_r. unfold fold_split, py_slice. cbn zeta. cbn [fst].
    rewrite bool_decide_eq_true_2 by lia.
    replace (m * (n / n_folds) + n / n_folds - m * (n / n_folds))%nat
      with (n / n_folds)%nat by lia.
    rewrite take_take_drop. f_equal. lia. }
  assert (seq 0 n_folds = seq 0 (n_folds - 1) ++ [(n_folds - 1)%nat]) as ->
    by (replace n_folds with (S (n_folds - 1)) at 1 by lia; by rewrite seq_S).
  rewrite map_app, concat_app, Hprefix by lia. cbn [map concat plus].
  rewrite app_nil_r. unfold fold_split, py_slice. cbn zeta. cbn [fst].
  rewrite bool_decide_eq_false_2 by lia.
  rewrite (take_ge (drop _ _)) by (rewrite length_drop; lia).
  apply take_drop.
Qed.

(** X18. The folds of the cross-validation loop, for [n_folds >= 1] and an
    index array of [n] positions: in each fold the validation and the
    training positions together are a rearrangement of the index array (so
    for a permutation no sample is in both or in neither); every fold but
    the last validates on [n // n_folds] positions and the last one on the
    remaining [n - (n_folds - 1) * (n // n_folds)]; the validation parts of
    the folds, in order, are the index array, so each sample is validated in
    exactly one fold.  With a single fold everything is validated and
    nothing is left to train on; with more folds than samples every fold
    but the last validates on nothing. *)
Theorem folds_partition_samples (indices : list nat) (n n_folds : nat) :
  length indices = n → (1 ≤ n_folds)%nat →
  (∀ fold, (fold < n_folds)%nat →
     let split := fold_split indices n n_folds (n / n_folds) fold in
     split.1 ++ split.2 ≡ₚ indices
     ∧ length split.1
       = (if bool_decide (fold < n_folds - 1)%nat then n / n_folds
          else n - (n_folds - 1) * (n / n_folds))%nat)
  ∧ concat (map (λ fold, (fold_split indices n n_folds (n / n_folds) fold).1)
                (seq 0 n_folds)) = indices
  ∧ (n_folds = 1%nat → fold_split indices n n_folds (n / n_folds) 0 = (indices, []))
  ∧ ((n < n_folds)%nat → ∀ fold, (fold < n_folds - 1)%nat →
       fold_split indices n n_folds (n / n_folds) fold = ([], indices)).
Proof.
  intros Hlen Hfolds. split; [|split; [|split]].
  - intros fold Hfold. cbn zeta.
    destruct (fold_split_parts indices n n_folds fold Hlen Hfolds Hfold)
      as (before & after & Hidx & Htrain & _ & Hval).
    split; [|done]. rewrite Htrain.
    transitivity (before ++ (fold_split indices n n_folds (n / n_folds) fold).1 ++ after);
      [|by rewrite <- Hidx].
    rewrite (assoc (++)), (assoc (++)).
    by rewrite (Permutation_app_comm before).
  - by apply fold_split_covers.
  - intros ->. unfold fold_split, py_slice. cbn zeta.
    rewrite bool_decide_eq_false_2 by lia. cbn [Nat.mul].
    rewrite drop_0, take_0, Nat.sub_0_r, take_ge, drop_ge by lia. done.
  - intros Hfew fold Hfold. unfold fold_split, py_slice. cbn zeta.
    rewrite bool_decide_eq_true_2 by lia. rewrite (Nat.div_small n n_folds) by done.
    rewrite Nat.mul_0_r. cbn [Nat.add Nat.sub]. by rewrite !take_0, !drop_0.
Qed.

End FoldSplit.

Lemma folds_partition_samples_witness :
  (∀ fold, (fold < 2)%nat →
     let split := fold_split [2; 0; 4; 1; 3]%nat 5 2 (5 / 2) fold in
     split.1 ++ split.2 ≡ₚ [2; 0; 4; 1; 3]%nat
     ∧ length split.1
       = (if bool_decide (fold < 2 - 1)%nat then 5 / 2 else 5 - (2 - 1) * (5 / 2))%nat)
  ∧ concat (map (λ fold, (fold_split [2; 0; 4; 1; 3]%nat 5 2 (5 / 2) fold).1) (seq 0 2))
    = [2; 0; 4; 1; 3]%nat
  ∧ (2%nat = 1%nat → fold_split [2; 0; 4; 1; 3]%nat 5 2 (5 / 2) 0 = ([2; 0; 4; 1; 3]%nat, []))
  ∧ ((5 < 2)%nat → ∀ fold, (fold < 2 - 1)%nat →
       fold_split [2; 0; 4; 1; 3]%nat 5 2 (5 / 2) fold = ([], [2; 0; 4; 1; 3]%nat)).
Proof.
  apply (folds_partition_samples [2; 0; 4; 1; 3]%nat 5 2); [reflexivity | lia].
Defined.

Section EvaluateBaseline.

Context {rs : RandomSource} {bits : BitSource rs} {A : Argsort}.

Lemma take_rows_total {B : Type} (l : list B) (idx : list nat) :
  Forall (λ j, (j < length l)%nat) idx →
  ∃ ys, take_rows l idx = Ok ys ∧ length ys = length idx.
Proof.
  intros Hidx.
  destruct (take_rows_in_range (λ _, True) l idx Hidx) as (ys & Hys & Hlen & _).
  - by apply Forall_true.
  - by exists ys.
Qed.

Lemma baseline_init_ok (d k seed : nat) :
  (Z.of_nat seed < 2 ^ 32)%Z → (1 ≤ k)%nat →
  ∃ b, Baseline.init d k seed = Ok b ∧ Baseline.dim b = d ∧ baseline_ok b.
Proof.
  intros Hseed Hk. unfold Baseline.init. rewrite (random_state_ok seed Hseed).
  pose proof (rng_randint2_shape (4 ^ k) d (rng_seed seed)) as [Hlen Hrows].
  destruct (rng_randint2 (4 ^ k) d (rng_seed seed)) as [E g]. cbn in Hlen, Hrows.
  destruct k as [|k]; [lia|].
  destruct (generate_kmers_ok k) as (l & Hgen & Hl & _). rewrite Hgen.
  eexists. split; [reflexivity|]. split; [done|].
  unfold baseline_ok. cbn. split; [lia|]. done.
Qed.

Lemma baseline_encode_batch_run (b : Baseline.BaselineHDC) (sequences : list string) :
  baseline_ok b → sequences ≠ [] →
  ∃ X, Baseline.encode_batch b sequences = Ok X
       ∧ length X = length sequences
       ∧ Forall (λ row, length row = Baseline.dim b) X.
Proof.
  intros Hok Hne.
  destruct (baseline_encode_all b sequences Hok) as (X & HX & Hlen & Hall).
  exists X. unfold Baseline.encode_batch. rewrite HX. split; [|split; [done|]].
  - destruct X; [|done]. destruct sequences; [done | cbn in Hlen; lia].
  - eapply Forall_impl; [exact Hall|]. by intros row [Hl _].
Qed.

Lemma knn_predict_run (train_vecs test_vecs : list (list R)) (train_labels : list nat)
    (k d : nat) :
  train_vecs ≠ [] → (0 < d)%nat → Forall (λ r, length r = d) train_vecs →
  (length train_vecs ≤ length train_labels)%nat →
  ∃ preds, knn_predict train_vecs train_labels test_vecs k = Ok preds
           ∧ length preds = length test_vecs.
Proof.
  intros Hne Hd Hrows Hlabels. unfold knn_predict.
  induction test_vecs as [|tv rest (preds & Hpreds & Hlen)]; [by exists []|].
  destruct (knn_vote_run train_vecs train_labels k d tv Hne Hd Hrows Hlabels)
    as (p & sims & votes & Hp & _).
  exists (p :: preds). cbn [map result_all]. rewrite Hp, Hpreds. cbn. by rewrite Hlen.
Qed.

Lemma ratio_bounds (x y : R) : 0 < y → 0 <= x <= y → 0 <= x / y <= 1.
Proof.
  intros Hy Hx. pose proof (Rinv_0_lt_compat y Hy) as Hinv.
  assert (y * / y = 1) as Hone by (field; lra).
  unfold Rdiv. split; nra.
Qed.

Lemma accuracy_bounds (preds labels : list nat) : 0 <= accuracy preds labels <= 1.
Proof.
  unfold accuracy.
  assert (∀ ps ls, 0 <= vsum (zip_with (λ p l : nat, if bool_decide (p = l) then 1 else 0)
                                       ps ls) <= INR (length ps)) as Hsum.
  { induction ps as [|p ps IH]; intros ls; [cbn; lra|].
    destruct ls as [|l ls]; [cbn [zip_with vsum foldr]; pose proof (pos_INR (length (p :: ps))); lra|].
    cbn [zip_with length]. rewrite S_INR. specialize (IH ls).
    unfold vsum in *. cbn [foldr]. case_bool_decide; lra. }
  specialize (Hsum preds labels).
  destruct preds as [|p ps].
  - cbn. rewrite Rdiv_0_l. lra.
  - assert (0 < INR (length (p :: ps))) as Hpos by (apply lt_0_INR; cbn; lia).
    by apply ratio_bounds.
Qed.

Lemma np_mean_bounds (a : list R) :
  Forall (λ x, 0 <= x <= 1) a → 0 <= np_mean a <= 1.
Proof.
  intros Hall. unfold np_mean.
  assert (0 <= vsum a <= INR (length a)) as Hsum.
  { induction Hall as [|x a Hx _ IH]; [cbn; lra|].
    cbn [length]. rewrite S_INR. unfold vsum in *. cbn [foldr]. lra. }
  destruct a as [|x a].
  - cbn. rewrite Rdiv_0_l. lra.
  - assert (0 < INR (length (x :: a))) as Hpos by (apply lt_0_INR; cbn; lia).
    by apply ratio_bounds.
Qed.

Lemma result_bind_ok {B C : Type} (f : B → result C) (b : B) : Ok b ≫= f = f b.
Proof. done. Qed.

Lemma concat_empty_rows (X : list (list R)) :
  Forall (λ row, length row = O) X → concat X = [].
Proof.
  induction 1 as [|row X Hrow _ IH]; [done|].
  cbn. rewrite IH. by destruct row.
Qed.

(** With at least two folds and at least as many samples as folds, every
    fold trains and validates on a non-empty set, and what is left of the
    loop body is the vote. *)
Lemma evaluate_baseline_fold_encodes (b : Baseline.BaselineHDC) (sequences : list string)
    (labels indices : list nat) (n n_folds fold : nat) :
  baseline_ok b → length sequences = n → length labels = n → indices ≡ₚ seq 0 n →
  (2 ≤ n_folds)%nat → (n_folds ≤ n)%nat → (fold < n_folds)%nat →
  ∃ train_labels val_labels train_vecs val_vecs,
    evaluate_baseline_fold b sequences labels indices n n_folds (n / n_folds) fold
    = (preds ← knn_predict train_vecs train_labels val_vecs 5;
       Ok (accuracy preds val_labels))
    ∧ train_vecs ≠ [] ∧ val_vecs ≠ []
    ∧ Forall (λ row, length row = Baseline.dim b) train_vecs
    ∧ length train_labels = length train_vecs.
Proof.
  intros Hok Hseqs Hlabels Hperm Hfolds Hn Hfold.
  assert (length indices = n) as Hlen
    by (by rewrite (Permutation_length Hperm), length_seq).
  assert (Forall (λ j, (j < n)%nat) indices) as Hrange.
  { apply Forall_forall. intros j Hj. rewrite Hperm in Hj.
    apply elem_of_seq in Hj. lia. }
  destruct (fold_split_parts indices n n_folds fold Hlen) as
    (before & after & Hidx & Htrain & Hbefore & Hval); [lia | done |].
  unfold evaluate_baseline_fold.
  destruct (fold_split indices n n_folds (n / n_folds) fold) as [val_idx train_idx].
  cbn [fst snd] in *. subst train_idx.
  rewrite Hidx in Hrange, Hlen.
  apply Forall_app in Hrange as (Hrb & Hrange). apply Forall_app in Hrange as (Hrv & Hra).
  rewrite !length_app in Hlen.
  assert (1 ≤ n / n_folds)%nat as Hsize by (apply Nat.div_le_lower_bound; lia).
  pose proof (Nat.Div0.mul_div_le n n_folds) as Hdiv.
  assert (1 ≤ length val_idx)%nat as Hv by (case_bool_decide; nia).
  assert (1 ≤ length (before ++ after))%nat as Ht.
  { rewrite length_app. case_bool_decide; [nia|].
    assert (fold = n_folds - 1)%nat as -> by lia. nia. }
  destruct (take_rows_total sequences (before ++ after)) as (train_seqs & -> & Hts).
  { rewrite Hseqs. by apply Forall_app. }
  destruct (take_rows_total labels (before ++ after)) as (train_labels & -> & Htl).
  { rewrite Hlabels. by apply Forall_app. }
  destruct (take_rows_total sequences val_idx) as (val_seqs & -> & Hvs).
  { by rewrite Hseqs. }
  destruct (take_rows_total labels val_idx) as (val_labels & -> & Hvl).
  { by rewrite Hlabels. }
  rewrite !result_bind_ok.
  destruct (baseline_encode_batch_run b train_seqs Hok) as (train_vecs & -> & Htv & Htrows).
  { intros ->. cbn in Hts. lia. }
  destruct (baseline_encode_batch_run b val_seqs Hok) as (val_vecs & -> & Hvv & _).
  { intros ->. cbn in Hvs. lia. }
  rewrite !result_bind_ok.
  exists train_labels, val_labels, train_vecs, val_vecs.
  split; [done|]. split; [intros ->; cbn in Htv; lia|].
  split; [intros ->; cbn in Hvv; lia|]. split; [done | lia].
Qed.

Lemma evaluate_baseline_fold_run (b : Baseline.BaselineHDC) (sequences : list string)
    (labels indices : list nat) (n n_folds fold : nat) :
  baseline_ok b → (0 < Baseline.dim b)%nat →
  length sequences = n → length labels = n → indices ≡ₚ seq 0 n →
  (2 ≤ n_folds)%nat → (n_folds ≤ n)%nat → (fold < n_folds)%nat →
  ∃ acc,
    evaluate_baseline_fold b sequences labels indices n n_folds (n / n_folds) fold = Ok acc
    ∧ 0 <= acc <= 1.
Proof.
  intros Hok Hd Hseqs Hlabels Hperm Hfolds Hn Hfold.
  destruct (evaluate_baseline_fold_encodes b sequences labels indices n n_folds fold)
    as (train_labels & val_labels & train_vecs & val_vecs & -> & Hne & _ & Hrows & Hlen);
    try done.
  destruct (knn_predict_run train_vecs val_vecs train_labels 5 (Baseline.dim b))
    as (preds & -> & _); [done | done | done | lia |].
  rewrite result_bind_ok. eexists. split; [done|]. apply accuracy_bounds.
Qed.

Lemma evaluate_baseline_fold_fails (b : Baseline.BaselineHDC) (sequences : list string)
    (labels indices : list nat) (n n_folds : nat) :
  baseline_ok b → length sequences = n → length labels = n → indices ≡ₚ seq 0 n →
  (1 ≤ n_folds)%nat → (n < n_folds)%nat ∨ n_folds = 1%nat ∨ Baseline.dim b = O →
  evaluate_baseline_fold b sequences labels indices n n_folds (n / n_folds) 0
  = Raise ValueError.
Proof.
  intros Hok Hseqs Hlabels Hperm Hfolds Hcase.
  assert (length indices = n) as Hlen
    by (by rewrite (Permutation_length Hperm), length_seq).
  assert (Forall (λ j, (j < n)%nat) indices) as Hrange.
  { apply Forall_forall. intros j Hj. rewrite Hperm in Hj.
    apply elem_of_seq in Hj. lia. }
  destruct (decide (n_folds = 1%nat)) as [-> | Hmany].
  { unfold evaluate_baseline_fold, fold_split, py_slice. cbn zeta.
    rewrite bool_decide_eq_false_2 by lia. cbn [Nat.mul]. rewrite drop_0, take_0.
    rewrite Nat.sub_0_r, (take_ge indices), (drop_ge indices) by lia. cbn [app].
    change (take_rows sequences []) with (Ok (@nil string)).
    change (take_rows labels []) with (Ok (@nil nat)).
    rewrite !result_bind_ok.
    destruct (take_rows_total sequences indices) as (val_seqs & -> & _);
      [by rewrite Hseqs|].
    destruct (take_rows_total labels indices) as (val_labels & -> & _);
      [by rewrite Hlabels|].
    by rewrite !result_bind_ok. }
  destruct (decide (n < n_folds)%nat) as [Hfew | Henough].
  { unfold evaluate_baseline_fold, fold_split, py_slice. cbn zeta.
    rewrite bool_decide_eq_true_2 by lia.
    rewrite (Nat.div_small n n_folds) by done. cbn [Nat.mul Nat.add Nat.sub].
    rewrite !drop_0, !take_0. cbn [app].
    destruct (take_rows_total sequences indices) as (train_seqs & -> & Hts);
      [by rewrite Hseqs|].
    destruct (take_rows_total labels indices) as (train_labels & -> & _);
      [by rewrite Hlabels|].
    change (take_rows sequences []) with (Ok (@nil string)).
    change (take_rows labels []) with (Ok (@nil nat)).
    rewrite !result_bind_ok.
    destruct train_seqs as [|x train_seqs]; [done|].
    destruct (baseline_encode_batch_run b (x :: train_seqs) Hok) as (train_vecs & -> & _);
      [done|].
    by rewrite result_bind_ok. }
  destruct Hcase as [? | [? | Hdim]]; [lia | lia |].
  destruct (evaluate_baseline_fold_encodes b sequences labels indices n n_folds O)
    as (train_labels & val_labels & train_vecs & val_vecs & -> & _ & Hval & Hrows & _);
    try done; try lia.
  rewrite Hdim in Hrows. apply concat_empty_rows in Hrows.
  destruct val_vecs as [|tv rest]; [done|].
  unfold knn_predict, knn_vote, knn_similarities, matrix_max. cbn [map result_all].
  by rewrite Hrows.
Qed.

(** X19. The outcomes of [evaluate_baseline].  A seed above [2**32 - 1] is
    refused by [np.random.seed] with [ValueError] before anything else.  For
    a seed it accepts, the function raises [ZeroDivisionError] for
    [n_folds = 0], and [RecursionError] for [kmer_length = 0].  With one
    label per sequence it raises [ValueError] when there are fewer sequences
    than folds, when [n_folds = 1], or when [dim = 0] (an empty list reaches
    [np.stack], or an empty matrix reaches [max()]).  In the remaining case,
    at least two folds, at least as many sequences as folds,
    [kmer_length >= 1] and [dim > 0], it returns one accuracy per fold, each
    between 0 and 1, with their mean between 0 and 1 and a non-negative
    standard deviation. *)
Theorem evaluate_baseline_outcomes (d k : nat) (sequences : list string)
    (labels : list nat) (n_folds seed : nat) :
  ((2 ^ 32 ≤ Z.of_nat seed)%Z →
     evaluate_baseline d k sequences labels n_folds seed = Raise ValueError)
  ∧ ((Z.of_nat seed < 2 ^ 32)%Z → n_folds = O →
     evaluate_baseline d k sequences labels n_folds seed = Raise ZeroDivisionError)
  ∧ ((Z.of_nat seed < 2 ^ 32)%Z → (1 ≤ n_folds)%nat → k = O →
     evaluate_baseline d k sequences labels n_folds seed = Raise RecursionError)
  ∧ ((Z.of_nat seed < 2 ^ 32)%Z → (1 ≤ n_folds)%nat → (1 ≤ k)%nat →
     length labels = length sequences →
     (length sequences < n_folds)%nat ∨ n_folds = 1%nat ∨ d = O →
     evaluate_baseline d k sequences labels n_folds seed = Raise ValueError)
  ∧ ((Z.of_nat seed < 2 ^ 32)%Z →
     (2 ≤ n_folds)%nat → (n_folds ≤ length sequences)%nat → (1 ≤ k)%nat → (0 < d)%nat →
     length labels = length sequences →
     ∃ r, evaluate_baseline d k sequences labels n_folds seed = Ok r
          ∧ length (fold_accs r) = n_folds
          ∧ Forall (λ acc, 0 <= acc <= 1) (fold_accs r)
          ∧ 0 <= mean_acc r <= 1
          ∧ 0 <= std_acc r).
Proof.
  split; [|split; [|split; [|split]]].
  - intros Hseed. unfold evaluate_baseline.
    by rewrite (random_state_overflow seed Hseed).
  - intros Hseed ->. unfold evaluate_baseline.
    by rewrite (random_state_ok seed Hseed).
  - intros Hseed Hfolds ->. unfold evaluate_baseline.
    rewrite (random_state_ok seed Hseed), result_bind_ok. cbn zeta.
    rewrite bool_decide_eq_false_2 by lia.
    unfold Baseline.init. rewrite (random_state_ok seed Hseed).
    by destruct (rng_randint2 _ _ _).
  - intros Hseed Hfolds Hk Hlabels Hcase. unfold evaluate_baseline.
    rewrite (random_state_ok seed Hseed), result_bind_ok. cbn zeta.
    rewrite bool_decide_eq_false_2 by lia.
    destruct (baseline_init_ok d k seed Hseed Hk) as (b & -> & Hdim & Hok).
    rewrite result_bind_ok.
    destruct n_folds as [|m]; [lia|]. cbn [seq map result_all].
    rewrite (evaluate_baseline_fold_fails b sequences labels _ (length sequences) (S m));
      try done; try lia; try apply rng_permutation_perm; by rewrite Hdim.
  - intros Hseed Hfolds Hn Hk Hd Hlabels. unfold evaluate_baseline.
    rewrite (random_state_ok seed Hseed), result_bind_ok. cbn zeta.
    rewrite bool_decide_eq_false_2 by lia.
    destruct (baseline_init_ok d k seed Hseed Hk) as (b & -> & Hdim & Hok).
    rewrite result_bind_ok.
    destruct (result_all_ok
                (evaluate_baseline_fold b sequences labels
                   (rng_permutation (length sequences) (rng_seed seed)).1
                   (length sequences) n_folds (length sequences / n_folds))
                (seq 0 n_folds)) as (accs & -> & Hall).
    { intros fold Hin. apply elem_of_seq in Hin.
      destruct (evaluate_baseline_fold_run b sequences labels
                  (rng_permutation (length sequences) (rng_seed seed)).1
                  (length sequences) n_folds fold) as (acc & Hacc & _);
        try done; try lia; try apply rng_permutation_perm.
      by exists acc. }
    rewrite result_bind_ok. eexists. split; [reflexivity|]. cbn [fold_accs mean_acc std_acc].
    assert (Forall (λ acc, 0 <= acc <= 1) accs) as Hbounds.
    { apply Forall_forall. intros acc Hacc.
      apply list_elem_of_lookup in Hacc as [i Hi].
      destruct (Forall2_lookup_r _ _ _ _ _ Hall Hi) as (fold & Hfold & Hrun).
      apply list_elem_of_lookup_2, elem_of_seq in Hfold.
      destruct (evaluate_baseline_fold_run b sequences labels
                  (rng_permutation (length sequences) (rng_seed seed)).1
                  (length sequences) n_folds fold) as (acc' & Hacc' & Hb);
        try done; try lia; try apply rng_permutation_perm.
      congruence. }
    split; [by rewrite <- (Forall2_length _ _ _ Hall), length_seq|].
    split; [done|]. split; [by apply np_mean_bounds|].
    unfold np_std. apply sqrt_pos.
Qed.

End EvaluateBaseline.

(** ** Cross-validation of the hybrid model *)

Section CrossValidate.

Context {rs : RandomSource}.

Lemma Int_part_bounds (x : R) : IZR (Int_part x) <= x < IZR (Int_part x) + 1.
Proof.
  unfold Int_part. destruct (archimed x) as [Hup Hlow]. rewrite minus_IZR. lra.
Qed.

Lemma py_int_split (m : nat) :
  (2 ≤ m)%nat → (1 ≤ py_int (0.8 * INR m) ≤ m)%nat.
Proof.
  intros Hm. unfold py_int.
  destruct (Int_part_bounds (0.8 * INR m)) as [Hlo Hhi].
  assert (2 <= INR m) as Hm' by (apply (le_INR 2); lia).
  assert (0 < Int_part (0.8 * INR m))%Z as Hpos by (apply lt_IZR; lra).
  assert (Int_part (0.8 * INR m) ≤ Z.of_nat m)%Z as Hle
    by (apply le_IZR; rewrite <- INR_IZR_INZ; lra).
  lia.
Qed.

Lemma py_int_split_small (m : nat) : (m ≤ 1)%nat → py_int (0.8 * INR m) = O.
Proof.
  intros Hm. unfold py_int.
  destruct (Int_part_bounds (0.8 * INR m)) as [Hlo Hhi].
  assert (INR m <= 1) as Hm' by (apply (le_INR m 1); lia).
  assert (Int_part (0.8 * INR m) < 1)%Z as Hlt by (apply lt_IZR; lra).
  lia.
Qed.

(** The four lists a fold works with. *)
Lemma fold_rows (P : nat → Prop) (sequences : list string) (labels indices : list nat)
    (n n_folds fold : nat) :
  length sequences = n → length labels = n → Forall P labels → indices ≡ₚ seq 0 n →
  (1 ≤ n_folds)%nat → (fold < n_folds)%nat →
  ∃ val_idx train_idx train_seqs train_labels val_seqs val_labels,
    fold_split indices n n_folds (n / n_folds) fold = (val_idx, train_idx)
    ∧ take_rows sequences train_idx = Ok train_seqs
    ∧ take_rows labels train_idx = Ok train_labels
    ∧ take_rows sequences val_idx = Ok val_seqs
    ∧ take_rows labels val_idx = Ok val_labels
    ∧ length train_labels = length train_seqs ∧ length val_labels = length val_seqs
    ∧ Forall P train_labels
    ∧ length val_seqs
      = (if bool_decide (fold < n_folds - 1)%nat then n / n_folds
         else n - (n_folds - 1) * (n / n_folds))%nat
    ∧ (length train_seqs + length val_seqs)%nat = n.
Proof.
  intros Hseqs Hlabels HP Hperm Hfolds Hfold.
  assert (length indices = n) as Hlen
    by (by rewrite (Permutation_length Hperm), length_seq).
  assert (Forall (λ j, (j < n)%nat) indices) as Hrange.
  { apply Forall_forall. intros j Hj. rewrite Hperm in Hj.
    apply elem_of_seq in Hj. lia. }
  destruct (fold_split_parts indices n n_folds fold Hlen) as
    (before & after & Hidx & Htrain & Hbefore & Hval); [lia | done |].
  destruct (fold_split indices n n_folds (n / n_folds) fold) as [val_idx train_idx].
  cbn [fst snd] in *. subst train_idx.
  rewrite Hidx in Hrange, Hlen.
  apply Forall_app in Hrange as (Hrb & Hrange). apply Forall_app in Hrange as (Hrv & Hra).
  rewrite !length_app in Hlen.
  destruct (take_rows_total sequences (before ++ after)) as (train_seqs & Hts & Hlts).
  { rewrite Hseqs. by apply Forall_app. }
  destruct (take_rows_in_range P labels (before ++ after)) as (train_labels & Htl & Hltl & HPl).
  { rewrite Hlabels. by apply Forall_app. }
  { done. }
  destruct (take_rows_total sequences val_idx) as (val_seqs & Hvs & Hlvs).
  { by rewrite Hseqs. }
  destruct (take_rows_total labels val_idx) as (val_labels & Hvl & Hlvl).
  { by rewrite Hlabels. }
  exists val_idx, (before ++ after), train_seqs, train_labels, val_seqs, val_labels.
  rewrite length_app in Hlts, Hltl.
  split_and!; try done; lia.
Qed.

Lemma cross_validate_model_run (train_seqs val_seqs : list string)
    (train_labels val_labels : list nat) (s : Model) :
  model_shaped s → temperature (config s) ≠ 0 →
  (0 < dim (config s))%nat → (0 < mlp_hidden (config s))%nat →
  (0 < num_classes (config s))%nat →
  (2 ≤ length train_seqs)%nat → length train_labels = length train_seqs →
  Forall (λ l, (l < num_classes (config s))%nat) train_labels →
  val_seqs ≠ [] →
  ∃ acc s', cross_validate_model train_seqs train_labels val_seqs val_labels s = (Ok acc, s')
            ∧ 0 <= acc <= 1.
Proof.
  intros Hs Htau Hd Hh Hnc Htrain Hlen Hlab Hval. unfold cross_validate_model. cbn zeta.
  destruct (contrastive_pretrain_returns (train_seqs ++ val_seqs) s Hs Htau)
    as (losses & s1 & Hpre & Hs1 & Hc1 & _).
  rewrite (bind_ok _ _ _ _ _ Hpre).
  destruct (py_int_split (length train_seqs) Htrain) as [Hsplit1 Hsplit2].
  set (split := py_int (0.8 * INR (length train_seqs))) in *.
  destruct (finetune_returns (take split train_seqs) (take split train_labels)
              (drop split train_seqs) (drop split train_labels) s1)
    as (run & s2 & Hfine & Hs2 & Hr2 & _); try (rewrite Hc1; done); try done.
  { intros Hnil. apply (f_equal length) in Hnil. rewrite length_take in Hnil.
    cbn in Hnil. lia. }
  { rewrite !length_take. lia. }
  { rewrite Hc1. by apply Forall_take. }
  rewrite (bind_ok _ _ _ _ _ Hfine).
  destruct (predict_returns val_seqs s2 Hs2 Hr2 Hval) as (preds & Hpred).
  rewrite (bind_ok _ _ _ _ _ Hpred).
  eexists _, _. split; [reflexivity|]. apply accuracy_bounds.
Qed.

Lemma cross_validate_fold_run (cfg : HybridConfig) (sequences : list string)
    (labels indices : list nat) (n n_folds seed fold : nat) :
  (Z.of_nat (seed + fold) < 2 ^ 32)%Z →
  (0 < dim cfg)%nat → (1 ≤ kmer_length cfg)%nat → (0 < mlp_hidden cfg)%nat →
  (0 < num_classes cfg)%nat → temperature cfg ≠ 0 →
  length sequences = n → length labels = n →
  Forall (λ l, (l < num_classes cfg)%nat) labels → indices ≡ₚ seq 0 n →
  (2 ≤ (n_folds - 1) * (n / n_folds))%nat → (fold < n_folds)%nat →
  ∃ acc,
    cross_validate_fold cfg sequences labels indices n n_folds (n / n_folds) seed fold
    = Ok acc ∧ 0 <= acc <= 1.
Proof.
  intros Hseed Hd Hk Hh Hnc Htau Hseqs Hlabels Hlab Hperm Hsize Hfold.
  destruct (fold_rows (λ l, (l < num_classes cfg)%nat) sequences labels indices n n_folds fold)
    as (val_idx & train_idx & train_seqs & train_labels & val_seqs & val_labels
        & Hsplit & Hts & Htl & Hvs & Hvl & Hltl & Hlvl & HP & Hval & Hsum);
    try done; [lia|].
  unfold cross_validate_fold. rewrite Hsplit, Hts, Htl, Hvs, Hvl. rewrite !result_bind_ok.
  destruct (init_returns cfg (seed + fold) Hseed Hd Hk) as (model & Hinit).
  rewrite Hinit, result_bind_ok.
  pose proof (init_shaped _ _ _ Hinit) as Hshaped.
  destruct (init_ok _ _ _ Hinit) as (Hcfg & _).
  pose proof (Nat.Div0.mul_div_le n n_folds) as Hdiv.
  destruct (cross_validate_model_run train_seqs val_seqs train_labels val_labels model)
    as (acc & s' & Hrun & Hacc); try (rewrite Hcfg; done); try done.
  - case_bool_decide; [nia|]. assert (fold = n_folds - 1)%nat as Hlast by lia.
    subst fold. nia.
  - intros ->. cbn in Hval. case_bool_decide; nia.
  - exists acc. by rewrite Hrun.
Qed.

(** A fold whose seed [seed + fold] the generator refuses: the rows are
    taken, then the constructor raises. *)
Lemma cross_validate_fold_overflow (cfg : HybridConfig) (sequences : list string)
    (labels indices : list nat) (n n_folds seed fold : nat) :
  (2 ^ 32 ≤ Z.of_nat (seed + fold))%Z →
  length sequences = n → length labels = n → indices ≡ₚ seq 0 n →
  (fold < n_folds)%nat →
  cross_validate_fold cfg sequences labels indices n n_folds (n / n_folds) seed fold
  = Raise ValueError.
Proof.
  intros Hseed Hseqs Hlabels Hperm Hfold.
  destruct (fold_rows (λ _, True) sequences labels indices n n_folds fold)
    as (val_idx & train_idx & train_seqs & train_labels & val_seqs & val_labels
        & Hsplit & Hts & Htl & Hvs & Hvl & _);
    try done; try lia; try (by apply Forall_true).
  unfold cross_validate_fold. rewrite Hsplit, Hts, Htl, Hvs, Hvl. rewrite !result_bind_ok.
  unfold init. by rewrite (random_state_overflow _ Hseed).
Qed.

Lemma result_all_raise_at {B C : Type} (f : B → result C) (l : list B) (i : nat)
    (x : B) (e : PyError) :
  (∀ j y, (j < i)%nat → l !! j = Some y → ∃ z, f y = Ok z) →
  l !! i = Some x → f x = Raise e →
  result_all (map f l) = Raise e.
Proof.
  revert i. induction l as [|y l IH]; intros i Hbefore Hi Hx; [done|].
  destruct i as [|i].
  - cbn in Hi. injection Hi as ->. cbn [map result_all]. by rewrite Hx.
  - destruct (Hbefore O y) as [z Hz]; [lia | done |].
    cbn [map result_all]. rewrite Hz.
    rewrite (IH i); [done | | done | done].
    intros j y' Hj Hy'. apply (Hbefore (S j)); [lia | done].
Qed.

Lemma finetune_empty_raises (train_labels : list nat) (val_seqs : list string)
    (val_labels : list nat) (s : Model) :
  (0 < dim (config s))%nat → (0 < mlp_hidden (config s))%nat →
  (0 < finetune_epochs (config s))%nat →
  ∃ s', finetune [] train_labels val_seqs val_labels s = (Raise ZeroDivisionError, s').
Proof.
  intros Hd Hh Hep. pose proof (finetune_init_run s Hd Hh) as Hinit. cbn zeta in Hinit.
  set (s0 := {| config := config s |}) in Hinit.
  unfold finetune.
  rewrite (bind_ok _ _ s s (config s)) by reflexivity.
  rewrite (bind_ok _ _ _ _ _ Hinit).
  destruct (finetune_epochs (config s)) as [|n]; [lia|]. cbn [epoch_loop].
  pose proof (rng_permutation_perm (length (@nil string)) (rng s0)) as Hperm.
  destruct (rng_permutation (length (@nil string)) (rng s0)) as [idx g] eqn:Ep.
  cbn in Hperm. apply Permutation_nil_r in Hperm. subst idx.
  exists (set_rng g s0).
  erewrite bind_raise; [done|]. erewrite bind_raise; [done|].
  unfold finetune_train_epoch.
  rewrite (bind_ok _ _ s0 (set_rng g s0) []) by (unfold with_rng; by rewrite Ep).
  rewrite (bind_ok _ _ _ (set_rng g s0) []) by done.
  rewrite (bind_ok _ _ _ (set_rng g s0) []) by done.
  rewrite (bind_ok _ _ _ (set_rng g s0) 0) by done.
  by rewrite bool_decide_eq_true_2.
Qed.

Lemma cross_validate_fold_fails (cfg : HybridConfig) (sequences : list string)
    (labels indices : list nat) (n n_folds seed : nat) :
  (Z.of_nat seed < 2 ^ 32)%Z →
  (0 < dim cfg)%nat → (1 ≤ kmer_length cfg)%nat → (0 < mlp_hidden cfg)%nat →
  temperature cfg ≠ 0 → (0 < finetune_epochs cfg)%nat →
  length sequences = n → length labels = n → indices ≡ₚ seq 0 n →
  (1 ≤ n_folds)%nat → n_folds = 1%nat ∨ (n ≤ 1)%nat →
  cross_validate_fold cfg sequences labels indices n n_folds (n / n_folds) seed 0
  = Raise ZeroDivisionError.
Proof.
  intros Hseed Hd Hk Hh Htau Hep Hseqs Hlabels Hperm Hfolds Hcase.
  destruct (fold_rows (λ _, True) sequences labels indices n n_folds 0)
    as (val_idx & train_idx & train_seqs & train_labels & val_seqs & val_labels
        & Hsplit & Hts & Htl & Hvs & Hvl & Hltl & Hlvl & _ & Hval & Hsum);
    try done; try lia; try (by apply Forall_true).
  unfold cross_validate_fold. rewrite Hsplit, Hts, Htl, Hvs, Hvl. rewrite !result_bind_ok.
  destruct (init_returns cfg (seed + 0)) as (model & Hinit); [lia | done | done |].
  rewrite Hinit, result_bind_ok.
  pose proof (init_shaped _ _ _ Hinit) as Hshaped.
  destruct (init_ok _ _ _ Hinit) as (Hcfg & _).
  assert (length train_seqs ≤ 1)%nat as Hfew.
  { destruct Hcase as [-> | Hn]; [|lia].
    rewrite bool_decide_eq_false_2 in Hval by lia. lia. }
  unfold cross_validate_model. cbn zeta.
  destruct (contrastive_pretrain_returns (train_seqs ++ val_seqs) model Hshaped)
    as (losses & s1 & Hpre & Hs1 & Hc1 & _); [by rewrite Hcfg|].
  rewrite (bind_ok _ _ _ _ _ Hpre).
  rewrite (py_int_split_small _ Hfew), take_0.
  destruct (finetune_empty_raises (take 0 train_labels) (drop 0 train_seqs)
              (drop 0 train_labels) s1) as (s2 & Hfine);
    try (rewrite Hc1, Hcfg; done).
  by rewrite (bind_raise _ _ _ _ _ Hfine).
Qed.

(** X20. The outcomes of [cross_validate] on [HybridHDCModel].  A seed above
    [2**32 - 1] is refused by [np.random.seed] with [ValueError] before
    anything else.  For a seed it accepts, the function raises
    [ZeroDivisionError] for [n_folds = 0] and, with one label per sequence,
    for [dim = 0], and [RecursionError] for [kmer_length = 0].  With a
    constructible model, a non-zero temperature and at least one
    fine-tuning epoch it raises [ZeroDivisionError] when [n_folds = 1] or
    when there is at most one sequence: the first fold then has at most one
    training sequence, the 80% split [int(0.8 * len(train_seqs))] is 0, and
    [finetune] divides by the length of an empty training set.  When the
    configuration has positive sizes and a non-zero temperature, every
    label is below [num_classes] and [(n_folds - 1) * (n // n_folds) >= 2],
    every fold whose seed [seed + fold] is accepted pre-trains, fine-tunes
    and predicts: if [seed + n_folds <= 2**32] the function returns one
    accuracy per fold, each between 0 and 1, with their mean between 0 and
    1; otherwise the fold whose seed reaches [2**32] raises [ValueError]. *)
Theorem cross_validate_outcomes (cfg : HybridConfig) (sequences : list string)
    (labels : list nat) (n_folds seed : nat) :
  ((2 ^ 32 ≤ Z.of_nat seed)%Z →
     cross_validate cfg sequences labels n_folds seed = Raise ValueError)
  ∧ ((Z.of_nat seed < 2 ^ 32)%Z → n_folds = O →
     cross_validate cfg sequences labels n_folds seed = Raise ZeroDivisionError)
  ∧ ((Z.of_nat seed < 2 ^ 32)%Z →
     (1 ≤ n_folds)%nat → length labels = length sequences → dim cfg = O →
     cross_validate cfg sequences labels n_folds seed = Raise ZeroDivisionError)
  ∧ ((Z.of_nat seed < 2 ^ 32)%Z →
     (1 ≤ n_folds)%nat → length labels = length sequences →
     (0 < dim cfg)%nat → kmer_length cfg = O →
     cross_validate cfg sequences labels n_folds seed = Raise RecursionError)
  ∧ ((Z.of_nat seed < 2 ^ 32)%Z →
     (0 < dim cfg)%nat → (1 ≤ kmer_length cfg)%nat → (0 < mlp_hidden cfg)%nat →
     temperature cfg ≠ 0 →
     (0 < finetune_epochs cfg)%nat → length labels = length sequences →
     (1 ≤ n_folds)%nat → n_folds = 1%nat ∨ (length sequences ≤ 1)%nat →
     cross_validate cfg sequences labels n_folds seed = Raise ZeroDivisionError)
  ∧ ((0 < dim cfg)%nat → (1 ≤ kmer_length cfg)%nat → (0 < mlp_hidden cfg)%nat →
     (0 < num_classes cfg)%nat → temperature cfg ≠ 0 →
     length labels = length sequences →
     Forall (λ l, (l < num_classes cfg)%nat) labels →
     (2 ≤ (n_folds - 1) * (length sequences / n_folds))%nat →
     ((Z.of_nat seed + Z.of_nat n_folds ≤ 2 ^ 32)%Z →
      ∃ r, cross_validate cfg sequences labels n_folds seed = Ok r
           ∧ length (fold_accs r) = n_folds
           ∧ Forall (λ acc, 0 <= acc <= 1) (fold_accs r)
           ∧ 0 <= mean_acc r <= 1
           ∧ 0 <= std_acc r)
     ∧ ((Z.of_nat seed < 2 ^ 32 < Z.of_nat seed + Z.of_nat n_folds)%Z →
        cross_validate cfg sequences labels n_folds seed = Raise ValueError)).
Proof.
  split; [|split; [|split; [|split; [|split]]]].
  - intros Hseed. unfold cross_validate. by rewrite (random_state_overflow seed Hseed).
  - intros Hseed ->. unfold cross_validate. by rewrite (random_state_ok seed Hseed).
  - intros Hseed Hfolds Hlabels Hdim. unfold cross_validate.
    rewrite (random_state_ok seed Hseed), result_bind_ok. cbn zeta.
    rewrite bool_decide_eq_false_2 by lia.
    destruct n_folds as [|m]; [lia|]. cbn [seq map result_all].
    destruct (fold_rows (λ _, True) sequences labels
                (rng_permutation (length sequences) (rng_seed seed)).1
                (length sequences) (S m) 0)
      as (val_idx & train_idx & train_seqs & train_labels & val_seqs & val_labels
          & Hsplit & Hts & Htl & Hvs & Hvl & _);
      try done; try lia; try (by apply Forall_true); try apply rng_permutation_perm.
    unfold cross_validate_fold at 1. rewrite Hsplit, Hts, Htl, Hvs, Hvl.
    rewrite !result_bind_ok. unfold init.
    rewrite (random_state_ok (seed + 0)) by lia. by rewrite bool_decide_eq_true_2.
  - intros Hseed Hfolds Hlabels Hdim Hk. unfold cross_validate.
    rewrite (random_state_ok seed Hseed), result_bind_ok. cbn zeta.
    rewrite bool_decide_eq_false_2 by lia.
    destruct n_folds as [|m]; [lia|]. cbn [seq map result_all].
    destruct (fold_rows (λ _, True) sequences labels
                (rng_permutation (length sequences) (rng_seed seed)).1
                (length sequences) (S m) 0)
      as (val_idx & train_idx & train_seqs & train_labels & val_seqs & val_labels
          & Hsplit & Hts & Htl & Hvs & Hvl & _);
      try done; try lia; try (by apply Forall_true); try apply rng_permutation_perm.
    unfold cross_validate_fold at 1. rewrite Hsplit, Hts, Htl, Hvs, Hvl.
    rewrite !result_bind_ok. unfold init.
    rewrite (random_state_ok (seed + 0)) by lia.
    rewrite bool_decide_eq_false_2 by lia.
    destruct (rng_randn _ _ _). by rewrite Hk.
  - intros Hseed Hd Hk Hh Htau Hep Hlabels Hfolds Hcase. unfold cross_validate.
    rewrite (random_state_ok seed Hseed), result_bind_ok. cbn zeta.
    rewrite bool_decide_eq_false_2 by lia.
    destruct n_folds as [|m]; [lia|]. cbn [seq map result_all].
    rewrite (cross_validate_fold_fails cfg sequences labels _ (length sequences) (S m));
      try done; try lia; try apply rng_permutation_perm.
  - intros Hd Hk Hh Hnc Htau Hlabels Hlab Hsize.
    assert (n_folds ≠ O) as Hfolds by (intros ->; cbn in Hsize; lia).
    assert (∀ fold, (fold < n_folds)%nat → (Z.of_nat (seed + fold) < 2 ^ 32)%Z →
              ∃ acc, cross_validate_fold cfg sequences labels
                       (rng_permutation (length sequences) (rng_seed seed)).1
                       (length sequences) n_folds (length sequences / n_folds) seed fold
                     = Ok acc ∧ 0 <= acc <= 1) as Hfold.
    { intros fold Hlt Hseed. apply cross_validate_fold_run; try done.
      apply rng_permutation_perm. }
    split.
    + intros Hseed. unfold cross_validate.
      rewrite (random_state_ok seed) by lia. rewrite result_bind_ok. cbn zeta.
      rewrite bool_decide_eq_false_2 by done.
      destruct (result_all_ok
                  (cross_validate_fold cfg sequences labels
                     (rng_permutation (length sequences) (rng_seed seed)).1
                     (length sequences) n_folds (length sequences / n_folds) seed)
                  (seq 0 n_folds)) as (accs & -> & Hall).
      { intros fold Hin. apply elem_of_seq in Hin.
        destruct (Hfold fold) as (acc & Hacc & _); [lia | lia |]. by exists acc. }
      rewrite result_bind_ok. eexists. split; [reflexivity|].
      cbn [fold_accs mean_acc std_acc].
      assert (Forall (λ acc, 0 <= acc <= 1) accs) as Hbounds.
      { apply Forall_forall. intros acc Hacc.
        apply list_elem_of_lookup in Hacc as [i Hi].
        destruct (Forall2_lookup_r _ _ _ _ _ Hall Hi) as (fold & Hin & Hrun).
        apply list_elem_of_lookup_2, elem_of_seq in Hin.
        destruct (Hfold fold) as (acc' & Hacc' & Hb); [lia | lia |]. congruence. }
      split; [by rewrite <- (Forall2_length _ _ _ Hall), length_seq|].
      split; [done|]. split; [by apply np_mean_bounds|].
      unfold np_std. apply sqrt_pos.
    + intros [Hseed Hlate]. unfold cross_validate.
      rewrite (random_state_ok seed Hseed), result_bind_ok. cbn zeta.
      rewrite bool_decide_eq_false_2 by done.
      set (first := Z.to_nat (2 ^ 32 - Z.of_nat seed)).
      assert (first < n_folds)%nat as Hfirst by (subst first; lia).
      rewrite (result_all_raise_at _ (seq 0 n_folds) first first ValueError); [done | | |].
      * intros j fold Hj Hlook. apply lookup_seq in Hlook as [-> _].
        destruct (Hfold j) as (acc & Hacc & _); [lia | subst first; lia |].
        by exists acc.
      * apply lookup_seq. split; [done | lia].
      * apply cross_validate_fold_overflow; try done; [subst first; lia|].
        apply rng_permutation_perm.
Qed.

End CrossValidate.

(** ** The export of the table ([export_learned_embeddings.py]) *)

Section ExportFacts.

Context {rs : RandomSource}.

Lemma export_fold_run (E : list (list R)) (items : list (string * nat))
    (d0 : gmap string (list R)) :
  NoDup (items.*1) → Forall (λ item, (item.2 < length E)%nat) items →
  ∃ d,
    fold_left (λ (acc : result (gmap string (list R))) (item : string * nat),
                 exported ← acc;
                 embedding ← py_index E item.2;
                 Ok (<[item.1 := embedding]> exported))
              items (Ok d0) = Ok d
    ∧ ∀ w row, d !! w = Some row
               ↔ (∃ idx, (w, idx) ∈ items ∧ E !! idx = Some row)
                 ∨ ((w ∉ items.*1) ∧ d0 !! w = Some row).
Proof.
  revert d0. induction items as [|[key idx] items IH]; intros d0 Hnd Hrange.
  - exists d0. split; [done|]. intros w row. split.
    + intros Hw. right. split; [apply not_elem_of_nil | done].
    + intros [(i & Hin & _) | [_ Hw]]; [by apply elem_of_nil in Hin | done].
  - cbn [fmap list_fmap fst] in Hnd. apply NoDup_cons in Hnd as [Hkey Hnd].
    apply Forall_cons in Hrange as [Hidx Hrange]. cbn [snd] in Hidx.
    destruct (lookup_lt_is_Some_2 E idx Hidx) as [r Hr].
    cbn [fold_left]. rewrite result_bind_ok. cbn [fst snd].
    rewrite (py_index_lookup _ _ _ Hr), result_bind_ok.
    destruct (IH (<[key := r]> d0) Hnd Hrange) as (d & Hd & Hlook).
    exists d. split; [done|]. intros w row. rewrite Hlook. clear Hlook Hd IH.
    cbn [fmap list_fmap fst]. rewrite not_elem_of_cons. split.
    + intros [(i & Hin & Hi) | [Hw Hins]].
      * left. exists i. split; [by right | done].
      * destruct (decide (w = key)) as [-> | Hne].
        -- rewrite lookup_insert_eq in Hins. injection Hins as <-.
           left. exists idx. split; [by left | done].
        -- rewrite lookup_insert_ne in Hins by done. by right.
    + intros [(i & Hin & Hi) | [[Hne Hw] Hd0]].
      * apply elem_of_cons in Hin as [[= -> ->] | Hin].
        -- right. split; [done|]. rewrite lookup_insert_eq. congruence.
        -- left. by exists i.
      * right. split; [done|]. by rewrite lookup_insert_ne.
Qed.

Lemma export_embeddings_run (s : Model) :
  model_shaped s →
  ∃ exported,
    export_embeddings s = Ok exported
    ∧ ∀ w, exported !! w
           = if is_valid_kmer (kmer_length (config s)) w
             then embeddings s !! Kmer.kmer_rank w else None.
Proof.
  intros (Hvoc & Htab & _). unfold export_embeddings.
  destruct (export_fold_run (embeddings s) (map_to_list (kmer_to_idx s)) ∅)
    as (d & Hd & Hlook).
  { apply NoDup_fst_map_to_list. }
  { apply Forall_forall. intros [w idx] Hin. apply elem_of_map_to_list in Hin.
    rewrite (kmer_to_idx_lookup s w Hvoc) in Hin.
    destruct (is_valid_kmer _ w) eqn:Ev; [|done]. injection Hin as <-.
    apply is_valid_kmer_spec in Ev as [Hlen Hbases].
    destruct Htab as [-> _]. rewrite <- Hlen. by apply kmer_rank_bound. }
  exists d. split; [done|]. intros w.
  apply option_eq. intros row. rewrite Hlook. split.
  - intros [(idx & Hin & Hrow) | [_ Hempty]]; [|by rewrite lookup_empty in Hempty].
    apply elem_of_map_to_list in Hin. rewrite (kmer_to_idx_lookup s w Hvoc) in Hin.
    destruct (is_valid_kmer _ w); [|done]. by injection Hin as <-.
  - intros Hrow. left. destruct (is_valid_kmer _ w) eqn:Ev; [|done].
    exists (Kmer.kmer_rank w). split; [|done].
    apply elem_of_map_to_list. by rewrite (kmer_to_idx_lookup s w Hvoc), Ev.
Qed.

Lemma export_embeddings_rows (s : Model) (exported : gmap string (list R)) (w : string) :
  model_shaped s →
  (∀ w, exported !! w
        = if is_valid_kmer (kmer_length (config s)) w
          then embeddings s !! Kmer.kmer_rank w else None) →
  is_valid_kmer (kmer_length (config s)) w = true →
  ∃ row, exported !! w = Some row ∧ length row = dim (config s).
Proof.
  intros (Hvoc & [Hlen Hrows] & _) Hlook Hvalid. rewrite Hlook, Hvalid.
  apply is_valid_kmer_spec in Hvalid as [Hw Hbases].
  destruct (lookup_lt_is_Some_2 (embeddings s) (Kmer.kmer_rank w)) as [row Hrow].
  { rewrite Hlen, <- Hw. by apply kmer_rank_bound. }
  exists row. split; [done|]. rewrite Forall_forall in Hrows.
  apply Hrows. by eapply list_elem_of_lookup_2.
Qed.

Lemma export_embeddings_size (s : Model) (exported : gmap string (list R)) :
  model_shaped s →
  (∀ w, exported !! w
        = if is_valid_kmer (kmer_length (config s)) w
          then embeddings s !! Kmer.kmer_rank w else None) →
  size exported = (4 ^ kmer_length (config s))%nat.
Proof.
  intros Hs Hlook. pose proof Hs as ((Hk & Hgen & _) & _ & _).
  assert (∀ w, is_valid_kmer (kmer_length (config s)) w = true → is_Some (exported !! w))
    as Hsome.
  { intros w Hw. destruct (export_embeddings_rows s exported w Hs Hlook Hw) as (row & Hrow & _).
    by exists row. }
  destruct (kmer_length (config s)) as [|k] eqn:Ek; [lia|].
  destruct (generate_kmers_ok k) as (l & Hgen' & Hlen & Hnd & Hrank & Hval).
  rewrite <- Hlen, <- (size_list_to_set (C := gset string) l Hnd), <- size_dom.
  f_equal. apply set_eq. intros w. rewrite elem_of_dom, elem_of_list_to_set.
  split.
  - intros [row Hrow]. rewrite Hlook in Hrow.
    destruct (is_valid_kmer (S k) w) eqn:Ev; [|done].
    apply is_valid_kmer_spec in Ev. apply list_elem_of_lookup. eauto.
  - intros Hin. apply Hval, is_valid_kmer_spec in Hin. by apply Hsome.
Qed.

(** X21. On a model with the shape the constructor gives it, which
    training keeps, the export loop of [train_and_export] succeeds and
    builds a dictionary with exactly [4^k] entries: one for each valid
    k-mer over A, C, G, T, holding the row of the embedding table at the
    k-mer's base-4 rank, a list of [dim] numbers; no other key is present.
    The dictionary is all a reader needs to reproduce the model's encoder:
    [encode] returns the pooled (and optionally normalised) mean of the
    exported vectors of the upper-cased windows that have an entry. *)
Theorem export_embeddings_is_codebook (s : Model) :
  model_shaped s →
  ∃ exported,
    export_embeddings s = Ok exported
    ∧ size exported = (4 ^ kmer_length (config s))%nat
    ∧ (∀ w, exported !! w
            = if is_valid_kmer (kmer_length (config s)) w
              then embeddings s !! Kmer.kmer_rank w else None)
    ∧ (∀ w, is_valid_kmer (kmer_length (config s)) w = true →
            ∃ row, exported !! w = Some row ∧ length row = dim (config s))
    ∧ ∀ sequence normalize,
        encode sequence normalize s
        = (Ok (encode_spec (dim (config s))
                 (omap (λ i, exported !! upper (substring i (kmer_length (config s)) sequence))
                       (seq 0 (String.length sequence + 1 - kmer_length (config s))))
                 normalize), s).
Proof.
  intros Hs. destruct (export_embeddings_run s Hs) as (exported & Hrun & Hlook).
  exists exported. split; [done|]. split; [by apply export_embeddings_size|].
  split; [done|]. split; [intros w; by apply export_embeddings_rows|].
  intros sequence normalize. destruct Hs as (Hvoc & Htab & _).
  rewrite (encode_run s sequence normalize Hvoc Htab). do 3 f_equal.
  unfold valid_window_rows. cbn zeta. apply list_omap_ext.
  apply Forall2_same_length_lookup. split; [done|].
  intros i x y Hx Hy. assert (x = y) as <- by congruence. by rewrite Hlook.
Qed.

#[local] Instance export_same_vocabulary_refl : Reflexive same_vocabulary.
Proof. by intros s. Qed.

#[local] Instance export_same_vocabulary_trans : Transitive same_vocabulary.
Proof.
  intros s1 s2 s3 (?&?&?&?) (?&?&?&?). unfold same_vocabulary. repeat split; congruence.
Qed.

Lemma finetune_same_config (train_seqs : list string) (train_labels : list nat)
    (val_seqs : list string) (val_labels : list nat) (s : Model) :
  config (finetune train_seqs train_labels val_seqs val_labels s).2 = config s.
Proof.
  rewrite finetune_split.
  assert (preserves same_vocabulary
            (finetune_init;;
             finetune_epochs_part train_seqs train_labels val_seqs val_labels)) as Hp.
  { apply preserves_bind; try exact _.
    - unfold finetune_init. repeat frame_step; done.
    - intros _. apply finetune_epochs_part_frame; try exact _; by intros. }
  apply Hp.
Qed.

Lemma train_and_export_model_run (sequences : list string) (labels : list nat)
    (cfg : HybridConfig) (s : Model) :
  model_shaped s → config s = cfg → temperature cfg ≠ 0 →
  (0 < dim cfg)%nat → (0 < mlp_hidden cfg)%nat → (0 < num_classes cfg)%nat →
  (2 ≤ length sequences)%nat → length labels = length sequences →
  Forall (λ l, (l < num_classes cfg)%nat) labels →
  ∃ data s',
    train_and_export_model sequences labels cfg s = (Ok data, s')
    ∧ export_kmer_length data = kmer_length cfg
    ∧ export_dimension data = dim cfg
    ∧ num_kmers data = (4 ^ kmer_length cfg)%nat
    ∧ size (exported_embeddings data) = num_kmers data
    ∧ (∀ w, is_valid_kmer (kmer_length cfg) w = true →
            ∃ row, exported_embeddings data !! w = Some row ∧ length row = dim cfg)
    ∧ (∀ w, is_valid_kmer (kmer_length cfg) w = false →
            exported_embeddings data !! w = None).
Proof.
  intros Hs Hcfg Htau Hd Hh Hnc Hn Hlen Hlab. subst cfg.
  unfold train_and_export_model. cbn zeta.
  destruct (contrastive_pretrain_returns sequences s Hs Htau)
    as (losses & s1 & Hpre & Hs1 & Hc1 & _).
  rewrite (bind_ok _ _ _ _ _ Hpre).
  destruct (py_int_split (length sequences) Hn) as [Hsplit1 Hsplit2].
  set (split := py_int (0.8 * INR (length sequences))) in *.
  destruct (finetune_returns (take split sequences) (take split labels)
              (drop split sequences) (drop split labels) s1)
    as (run & s2 & Hfine & Hs2 & _); try (rewrite Hc1; done); try done.
  { intros Hnil. apply (f_equal length) in Hnil. rewrite length_take in Hnil.
    cbn in Hnil. lia. }
  { rewrite !length_take. lia. }
  { rewrite Hc1. by apply Forall_take. }
  pose proof (finetune_same_config (take split sequences) (take split labels)
                (drop split sequences) (drop split labels) s1) as Hc2.
  rewrite Hfine in Hc2. cbn [snd] in Hc2. rewrite Hc1 in Hc2.
  rewrite (bind_ok _ _ _ _ _ Hfine).
  rewrite (bind_ok _ _ s2 s2 s2) by reflexivity.
  destruct (export_embeddings_run s2 Hs2) as (exported & Hrun & Hlook).
  rewrite (bind_ok _ _ s2 s2 exported) by (unfold lift; by rewrite Hrun).
  eexists _, s2. split; [reflexivity|]. cbn.
  pose proof (export_embeddings_size s2 exported Hs2 Hlook) as Hsize.
  rewrite Hc2 in Hsize, Hlook.
  split; [done|]. split; [done|]. split; [done|]. split; [done|]. split.
  - intros w Hw. rewrite <- Hc2 in *. by apply export_embeddings_rows.
  - intros w Hw. by rewrite Hlook, Hw.
Qed.

(** X22. The outcomes of [train_and_export], for the configuration passed
    or, when none is passed, the one it builds.  A seed above [2**32 - 1] is
    refused by the model's constructor with [ValueError].  For a seed it
    accepts, the function raises [ZeroDivisionError] for [dim = 0] and
    [RecursionError] for [kmer_length = 0]; with a constructible model, a
    non-zero temperature, a positive [mlp_hidden] and at least one
    fine-tuning epoch it raises [ZeroDivisionError] when it is given at most
    one sequence, because the 80% split leaves nothing to train on.  With
    positive sizes, a non-zero temperature, at least two sequences and one
    label below [num_classes] per sequence, it trains and exports: the
    document records [kmer_length] and [dim], and its dictionary has [4^k]
    entries, one list of [dim] numbers for each valid k-mer and nothing
    else.  With no configuration passed (the temperature is then 0.1) and
    labels 0 or 1 these are 4096 k-mers of length 6 and dimension 1000. *)
Theorem train_and_export_outcomes (sequences : list string) (labels : list nat)
    (config0 : option HybridConfig) (seed : nat) :
  let cfg := default export_default_config config0 in
  ((2 ^ 32 ≤ Z.of_nat seed)%Z →
     train_and_export sequences labels config0 seed = Raise ValueError)
  ∧ ((Z.of_nat seed < 2 ^ 32)%Z → dim cfg = O →
     train_and_export sequences labels config0 seed = Raise ZeroDivisionError)
  ∧ ((Z.of_nat seed < 2 ^ 32)%Z → (0 < dim cfg)%nat → kmer_length cfg = O →
     train_and_export sequences labels config0 seed = Raise RecursionError)
  ∧ ((Z.of_nat seed < 2 ^ 32)%Z →
     (0 < dim cfg)%nat → (1 ≤ kmer_length cfg)%nat → (0 < mlp_hidden cfg)%nat →
     temperature cfg ≠ 0 →
     (0 < finetune_epochs cfg)%nat → (length sequences ≤ 1)%nat →
     train_and_export sequences labels config0 seed = Raise ZeroDivisionError)
  ∧ ((Z.of_nat seed < 2 ^ 32)%Z →
     (0 < dim cfg)%nat → (1 ≤ kmer_length cfg)%nat → (0 < mlp_hidden cfg)%nat →
     (0 < num_classes cfg)%nat → temperature cfg ≠ 0 →
     (2 ≤ length sequences)%nat → length labels = length sequences →
     Forall (λ l, (l < num_classes cfg)%nat) labels →
     ∃ data,
       train_and_export sequences labels config0 seed = Ok data
       ∧ export_kmer_length data = kmer_length cfg
       ∧ export_dimension data = dim cfg
       ∧ num_kmers data = (4 ^ kmer_length cfg)%nat
       ∧ size (exported_embeddings data) = num_kmers data
       ∧ (∀ w, is_valid_kmer (kmer_length cfg) w = true →
               ∃ row, exported_embeddings data !! w = Some row ∧ length row = dim cfg)
       ∧ (∀ w, is_valid_kmer (kmer_length cfg) w = false →
               exported_embeddings data !! w = None))
  ∧ ((Z.of_nat seed < 2 ^ 32)%Z →
     config0 = None → (2 ≤ length sequences)%nat → length labels = length sequences →
     Forall (λ l, (l < 2)%nat) labels →
     ∃ data,
       train_and_export sequences labels config0 seed = Ok data
       ∧ export_kmer_length data = 6%nat ∧ export_dimension data = 1000%nat
       ∧ num_kmers data = 4096%nat).
Proof.
  cbn zeta. set (cfg := default export_default_config config0).
  assert ((Z.of_nat seed < 2 ^ 32)%Z →
          (0 < dim cfg)%nat → (1 ≤ kmer_length cfg)%nat → (0 < mlp_hidden cfg)%nat →
          (0 < num_classes cfg)%nat → temperature cfg ≠ 0 →
          (2 ≤ length sequences)%nat → length labels = length sequences →
          Forall (λ l, (l < num_classes cfg)%nat) labels →
          ∃ data,
            train_and_export sequences labels config0 seed = Ok data
            ∧ export_kmer_length data = kmer_length cfg
            ∧ export_dimension data = dim cfg
            ∧ num_kmers data = (4 ^ kmer_length cfg)%nat
            ∧ size (exported_embeddings data) = num_kmers data
            ∧ (∀ w, is_valid_kmer (kmer_length cfg) w = true →
                    ∃ row, exported_embeddings data !! w = Some row ∧ length row = dim cfg)
            ∧ (∀ w, is_valid_kmer (kmer_length cfg) w = false →
                    exported_embeddings data !! w = None)) as Hmain.
  { intros Hseed Hd Hk Hh Hnc Htau Hn Hlen Hlab. unfold train_and_export. cbn zeta. fold cfg.
    destruct (init_returns cfg seed Hseed Hd Hk) as (model & Hinit).
    rewrite Hinit, result_bind_ok.
    pose proof (init_shaped _ _ _ Hinit) as Hshaped.
    destruct (init_ok _ _ _ Hinit) as (Hcfg & _).
    destruct (train_and_export_model_run sequences labels cfg model)
      as (data & s' & Hrun & Hrest); try done.
    exists data. by rewrite Hrun. }
  split; [|split; [|split; [|split; [|split]]]].
  - intros Hseed. unfold train_and_export. cbn zeta. fold cfg.
    unfold init. by rewrite (random_state_overflow seed Hseed).
  - intros Hseed Hdim. unfold train_and_export. cbn zeta. fold cfg.
    unfold init. rewrite (random_state_ok seed Hseed).
    by rewrite bool_decide_eq_true_2.
  - intros Hseed Hd Hk. unfold train_and_export. cbn zeta. fold cfg.
    unfold init. rewrite (random_state_ok seed Hseed).
    rewrite bool_decide_eq_false_2 by lia.
    destruct (rng_randn _ _ _). by rewrite Hk.
  - intros Hseed Hd Hk Hh Htau Hep Hn. unfold train_and_export. cbn zeta. fold cfg.
    destruct (init_returns cfg seed Hseed Hd Hk) as (model & Hinit).
    rewrite Hinit, result_bind_ok.
    pose proof (init_shaped _ _ _ Hinit) as Hshaped.
    destruct (init_ok _ _ _ Hinit) as (Hcfg & _).
    unfold train_and_export_model. cbn zeta.
    destruct (contrastive_pretrain_returns sequences model Hshaped)
      as (losses & s1 & Hpre & Hs1 & Hc1 & _); [by rewrite Hcfg|].
    rewrite (bind_ok _ _ _ _ _ Hpre).
    rewrite (py_int_split_small _ Hn), take_0.
    destruct (finetune_empty_raises (take 0 labels) (drop 0 sequences)
                (drop 0 labels) s1) as (s2 & Hfine);
      try (rewrite Hc1, Hcfg; done).
    by rewrite (bind_raise _ _ _ _ _ Hfine).
  - exact Hmain.
  - intros Hseed Hnone Hn Hlen Hlab. subst config0. cbn in cfg.
    destruct Hmain as (data & Hrun & Hk & Hd & Hnum & _);
      try done; try (cbn; lia); try (cbn; lra).
    exists data. split; [done|]. split; [done|]. split; [done|].
    rewrite Hnum. reflexivity.
Qed.

End ExportFacts.

Lemma export_embeddings_is_codebook_witness :
  ∃ exported,
    export_embeddings tiny_model = Ok exported
    ∧ size exported = (4 ^ kmer_length (config tiny_model))%nat
    ∧ (∀ w, exported !! w
            = if is_valid_kmer (kmer_length (config tiny_model)) w
              then embeddings tiny_model !! Kmer.kmer_rank w else None)
    ∧ (∀ w, is_valid_kmer (kmer_length (config tiny_model)) w = true →
            ∃ row, exported !! w = Some row ∧ length row = dim (config tiny_model))
    ∧ ∀ sequence normalize,
        encode sequence normalize tiny_model
        = (Ok (encode_spec (dim (config tiny_model))
                 (omap (λ i, exported !! upper (substring i (kmer_length (config tiny_model))
                                                          sequence))
                       (seq 0 (String.length sequence + 1 - kmer_length (config tiny_model))))
                 normalize), tiny_model).
Proof. exact (export_embeddings_is_codebook tiny_model tiny_model_shaped). Defined.

(** ** The synthetic promoter data *)

Section PromoterData.

Context {rs : RandomSource} {draws : DrawSource rs}.

Lemma insert_box_run (box : list ascii) (pos j seq_length : nat) (seq : list ascii) :
  (seq_length ≤ length seq)%nat →
  ∃ seq',
    insert_box box pos j seq_length seq = Ok seq'
    ∧ length seq' = length seq
    ∧ (∀ i, (i < pos + j)%nat → seq' !! i = seq !! i)
    ∧ (∀ m c, box !! m = Some c → (pos + j + m < seq_length)%nat →
              seq' !! (pos + j + m)%nat = Some c)
    ∧ (∀ P : ascii → Prop, Forall P box → Forall P seq → Forall P seq').
Proof.
  revert j seq. induction box as [|c box IH]; intros j seq Hlen.
  - exists seq. split; [done|]. split; [done|]. split; [done|].
    split; [|done]. intros m c Hm. by rewrite lookup_nil in Hm.
  - cbn [insert_box]. case_bool_decide as Hin.
    + unfold py_setitem. rewrite bool_decide_eq_true_2 by lia. rewrite result_bind_ok.
      destruct (IH (S j) (<[(pos + j)%nat := c]> seq)) as (seq' & Hrun & Hl & Hbefore & Hbox & HP).
      { by rewrite length_insert. }
      exists seq'. split; [done|]. rewrite length_insert in Hl. split; [done|].
      split; [|split].
      * intros i Hi. rewrite Hbefore by lia. apply list_lookup_insert_ne. lia.
      * intros m c' Hm Hlt. destruct m as [|m].
        -- cbn in Hm. injection Hm as <-. rewrite Nat.add_0_r.
           rewrite Hbefore by lia. apply list_lookup_insert_eq. lia.
        -- cbn in Hm. replace (pos + j + S m)%nat with (pos + S j + m)%nat by lia.
           apply Hbox; [done | lia].
      * intros P Hb Hs. apply Forall_cons in Hb as [Hc Hb]. apply HP; [done|].
        by apply Forall_insert.
    + destruct (IH (S j) seq Hlen) as (seq' & Hrun & Hl & Hbefore & Hbox & HP).
      exists seq'. split; [done|]. split; [done|]. split; [|split].
      * intros i Hi. apply Hbefore. lia.
      * intros m c' Hm Hlt. lia.
      * intros P Hb Hs. apply Forall_cons in Hb as [_ Hb]. by apply HP.
Qed.

Lemma length_string_of_list_ascii (l : list ascii) :
  String.length (string_of_list_ascii l) = length l.
Proof. induction l as [|c l IH]; cbn; [done | by rewrite IH]. Qed.

Lemma all_bases_string_of_list_ascii (l : list ascii) :
  Forall (λ c, c ∈ base_chars) l → Kmer.all_bases (string_of_list_ascii l) = true.
Proof.
  induction 1 as [|c l Hc _ IH]; [done|]. cbn. rewrite IH, andb_true_r.
  unfold Kmer.is_base. apply bool_decide_eq_true_2. unfold base_chars in Hc.
  repeat (apply elem_of_cons in Hc as [-> | Hc]; [tauto|]).
  by apply elem_of_nil in Hc.
Qed.

Lemma substring_string_of_list_ascii (n m : nat) (l : list ascii) :
  substring n m (string_of_list_ascii l) = string_of_list_ascii (take m (drop n l)).
Proof.
  revert n m. induction l as [|c l IH]; intros n m.
  - destruct n, m; done.
  - destruct n as [|n].
    + destruct m as [|m]; [done|]. cbn. f_equal. apply (IH O m).
    + cbn. apply IH.
Qed.

Lemma box_preserved (box seq : list ascii) (pos : nat) :
  (∀ m c, box !! m = Some c → seq !! (pos + m)%nat = Some c) →
  take (length box) (drop pos seq) = box.
Proof.
  intros Hbox. apply list_eq. intros m.
  destruct (decide (m < length box)%nat) as [Hlt | Hge].
  - rewrite lookup_take_lt by done. rewrite lookup_drop.
    destruct (lookup_lt_is_Some_2 box m Hlt) as [c Hc]. by rewrite Hc, (Hbox m c Hc).
  - rewrite lookup_take_ge by lia. symmetry. apply lookup_ge_None. lia.
Qed.

Lemma draw_run {B : Type} (f : RandomState → B * RandomState) (g : RandomState) :
  draw f g = (Ok (f g).1, (f g).2).
Proof. unfold draw. by destruct (f g). Qed.

Lemma base_chars_box (box : string) :
  Kmer.all_bases box = true → Forall (λ c, c ∈ base_chars) (list_ascii_of_string box).
Proof.
  induction box as [|c box IH]; cbn; [by constructor|].
  intros [Hc Hrest]%andb_true_iff. constructor; [|by apply IH].
  unfold Kmer.is_base in Hc. apply bool_decide_eq_true_1 in Hc. unfold base_chars.
  destruct Hc as [-> | [-> | [-> | ->]]]; set_solver.
Qed.

(** An optional motif: [if rng.random() < p: pos = rng.randint(low, high); ...] *)
Lemma optional_box_run (u threshold : R) (box : list ascii) (low high seq_length : nat)
    (seq : list ascii) (g : RandomState) :
  (low < high)%nat → Forall (λ c, c ∈ base_chars) box → (seq_length ≤ length seq)%nat →
  ∃ seq' g',
    (if Rlt_dec u threshold then
       box_pos ← draw (rng_randint low high);
       lift (insert_box box box_pos 0 seq_length seq)
     else ret seq) g = (Ok seq', g')
    ∧ length seq' = length seq
    ∧ (∀ i, (i < low)%nat → seq' !! i = seq !! i)
    ∧ (Forall (λ c, c ∈ base_chars) seq → Forall (λ c, c ∈ base_chars) seq').
Proof.
  intros Hlt Hbox Hseq_length. destruct (Rlt_dec u threshold).
  - pose proof (rng_randint_spec low high g Hlt) as Hpos.
    rewrite (bind_ok _ _ g (rng_randint low high g).2 (rng_randint low high g).1)
      by apply draw_run.
    destruct (insert_box_run box (rng_randint low high g).1 0 seq_length seq)
      as (seq' & Hrun & Hlen & Hbefore & _ & HP); [done|].
    exists seq', (rng_randint low high g).2. unfold lift. rewrite Hrun.
    split; [done|]. split; [done|]. split.
    + intros i Hi. apply Hbefore. lia.
    + intros Hseq. by apply HP.
  - exists seq, g. by split.
Qed.

Lemma generate_sample_run (n_samples seq_length i : nat) (g : RandomState) :
  ∃ sample g',
    generate_sample n_samples seq_length i g = (Ok sample, g')
    ∧ String.length sample.1 = seq_length
    ∧ Kmer.all_bases sample.1 = true
    ∧ sample.2 = (if bool_decide (i < n_samples / 2)%nat then 1%nat else O)
    ∧ (sample.2 = 1%nat → (35 ≤ seq_length)%nat →
       ∃ pos, (20 ≤ pos < 30)%nat ∧ substring pos 6 sample.1 = "TATAAA"%string).
Proof.
  unfold generate_sample.
  pose proof (rng_choice_n_spec base_chars seq_length g) as [Hlen0 Hbases0]; [done|].
  rewrite (bind_ok _ _ g (rng_choice_n base_chars seq_length g).2
             (rng_choice_n base_chars seq_length g).1) by apply draw_run.
  set (seq0 := (rng_choice_n base_chars seq_length g).1) in *.
  set (g0 := (rng_choice_n base_chars seq_length g).2).
  case_bool_decide as Hpromoter.
  - pose proof (rng_randint_spec 20 30 g0 ltac:(lia)) as Hpos.
    rewrite (bind_ok _ _ g0 (rng_randint 20 30 g0).2 (rng_randint 20 30 g0).1)
      by apply draw_run.
    set (pos := (rng_randint 20 30 g0).1) in *. set (g1 := (rng_randint 20 30 g0).2).
    destruct (insert_box_run tata_box pos 0 seq_length seq0)
      as (seq1 & Hrun1 & Hlen1 & _ & Htata & HP1); [lia|].
    rewrite (bind_ok _ _ g1 g1 seq1) by (unfold lift; by rewrite Hrun1).
    rewrite (bind_ok _ _ g1 (rng_random g1).2 (rng_random g1).1) by apply draw_run.
    destruct (optional_box_run (rng_random g1).1 0.6 caat_box 45 55 seq_length seq1
                (rng_random g1).2)
      as (seq2 & g2 & Hrun2 & Hlen2 & Hbefore2 & HP2);
      [lia | by apply (base_chars_box "CCAAT") | lia |].
    rewrite (bind_ok _ _ _ _ _ Hrun2).
    rewrite (bind_ok _ _ g2 (rng_random g2).2 (rng_random g2).1) by apply draw_run.
    destruct (optional_box_run (rng_random g2).1 0.3 gc_box 60 70 seq_length seq2
                (rng_random g2).2)
      as (seq3 & g3 & Hrun3 & Hlen3 & Hbefore3 & HP3);
      [lia | by apply (base_chars_box "GGGCGG") | lia |].
    rewrite (bind_ok _ _ _ _ _ Hrun3).
    eexists _, g3. split; [reflexivity|]. cbn [fst snd].
    split; [rewrite length_string_of_list_ascii; lia|].
    split.
    { apply all_bases_string_of_list_ascii, HP3, HP2, HP1; [|done].
      by apply (base_chars_box "TATAAA"). }
    split; [done|]. intros _ Hlong. exists pos. split; [done|].
    rewrite substring_string_of_list_ascii.
    change 6%nat with (length tata_box).
    rewrite (box_preserved tata_box seq3 pos); [done|].
    intros m c Hm.
    assert (m < 6)%nat as Hm6 by (apply lookup_lt_Some in Hm; exact Hm).
    rewrite Hbefore3, Hbefore2 by lia.
    replace (pos + m)%nat with (pos + 0 + m)%nat by lia. apply Htata; [done | lia].
  - eexists _, g0. split; [reflexivity|]. cbn [fst snd].
    split; [by rewrite length_string_of_list_ascii|].
    split; [by apply all_bases_string_of_list_ascii|]. split; [done|]. done.
Qed.

Lemma mapM_run {S B C : Type} (Q : B → C → Prop) (f : B → M S C) (xs : list B) (g : S) :
  (∀ x g, ∃ y g', f x g = (Ok y, g') ∧ Q x y) →
  ∃ ys g', mapM f xs g = (Ok ys, g') ∧ Forall2 Q xs ys.
Proof.
  intros Hf. revert g. induction xs as [|x xs IH]; intros g.
  - exists [], g. split; [done | constructor].
  - destruct (Hf x g) as (y & g1 & Hy & HQ). destruct (IH g1) as (ys & g2 & Hys & Hall).
    exists (y :: ys), g2. cbn [mapM].
    rewrite (bind_ok _ _ _ _ _ Hy), (bind_ok _ _ _ _ _ Hys). split; [done|].
    by constructor.
Qed.

Lemma omap_lookup_seq {B : Type} (pre l : list B) :
  omap (λ i, (pre ++ l) !! i) (seq (length pre) (length l)) = l.
Proof.
  revert pre. induction l as [|x l IH]; intros pre; [done|].
  cbn [length seq omap list_omap].
  rewrite (lookup_app_r pre (x :: l)), Nat.sub_diag by lia. cbn [lookup list_lookup].
  f_equal. specialize (IH (pre ++ [x])).
  rewrite <- app_assoc, length_app in IH. cbn [length app] in IH.
  by rewrite Nat.add_1_r in IH.
Qed.

Lemma take_rows_fmap {B C : Type} (f : B → C) (l : list B) (idx : list nat) :
  Forall (λ i, (i < length l)%nat) idx →
  take_rows (f <$> l) idx = Ok (f <$> omap (λ i, l !! i) idx).
Proof.
  unfold take_rows. induction 1 as [|i idx Hi _ IH]; [done|].
  destruct (lookup_lt_is_Some_2 l i Hi) as [b Hb].
  cbn [map result_all omap list_omap]. rewrite IH, Hb.
  unfold py_index. by rewrite list_lookup_fmap, Hb.
Qed.

(** Indexing by a permutation of the positions rearranges the list, and
    does so in step for two lists read off the same list of pairs. *)
Lemma take_rows_pairs {B C : Type} (l : list (B * C)) (idx : list nat) :
  idx ≡ₚ seq 0 (length l) →
  ∃ ps, ps ≡ₚ l
        ∧ take_rows (l.*1) idx = Ok (ps.*1)
        ∧ take_rows (l.*2) idx = Ok (ps.*2).
Proof.
  intros Hperm. exists (omap (λ i, l !! i) idx).
  assert (Forall (λ i, (i < length l)%nat) idx) as Hrange.
  { apply Forall_forall. intros i Hi. rewrite Hperm in Hi.
    apply elem_of_seq in Hi. lia. }
  split; [|split; by apply take_rows_fmap].
  rewrite Hperm. pose proof (omap_lookup_seq [] l) as Hall. cbn in Hall.
  by rewrite Hall.
Qed.

Lemma count_label_seq (n half : nat) (samples : list (string * nat)) (base : nat) :
  Forall2 (λ i (sample : string * nat),
             sample.2 = if bool_decide (i < half)%nat then 1%nat else O)
          (seq base n) samples →
  count_label 1 (samples.*2) = (Nat.min (base + n) half - Nat.min base half)%nat
  ∧ count_label 0 (samples.*2) = (n - (Nat.min (base + n) half - Nat.min base half))%nat.
Proof.
  revert base samples. induction n as [|n IH]; intros base samples Hall.
  - apply Forall2_nil_inv_l in Hall as ->. cbn. split; lia.
  - cbn [seq] in Hall. apply Forall2_cons_inv_l in Hall as (sample & rest & Hs & Hrest & ->).
    destruct (IH (S base) rest Hrest) as [IH1 IH0].
    cbn [fmap list_fmap]. unfold count_label in *.
    rewrite !filter_cons, Hs.
    case_bool_decide; (destruct (decide _) as [Heq | Hne]; [| ]);
      (destruct (decide _) as [Heq' | Hne']; [| ]); try done;
      cbn [length]; rewrite ?IH1, ?IH0; split; lia.
Qed.

(** X23. [generate_promoter_dataset] refuses a seed above [2**32 - 1] with
    the [ValueError] of [np.random.seed].  For every other seed and every
    [n_samples] and [seq_length] it returns [n_samples] sequences with as
    many labels, every sequence of length [seq_length] over A, C, G, T,
    exactly [n_samples // 2] labels 1 and the rest 0.  When
    [seq_length >= 35] every sequence labelled 1 contains the TATA box
    [TATAAA] at a position between 20 and 29: the later CAAT and GC boxes,
    written from position 45 on, never overwrite it, and the final shuffle
    moves sequences and labels together. *)
Theorem generate_promoter_dataset_balanced (n_samples seq_length seed : nat) :
  ((2 ^ 32 ≤ Z.of_nat seed)%Z →
     generate_promoter_dataset n_samples seq_length seed = Raise ValueError)
  ∧ ((Z.of_nat seed < 2 ^ 32)%Z →
     ∃ sequences labels,
       generate_promoter_dataset n_samples seq_length seed = Ok (sequences, labels)
       ∧ length sequences = n_samples ∧ length labels = n_samples
       ∧ Forall (λ sequence, String.length sequence = seq_length
                             ∧ Kmer.all_bases sequence = true) sequences
       ∧ count_label 1 labels = (n_samples / 2)%nat
       ∧ count_label 0 labels = (n_samples - n_samples / 2)%nat
       ∧ ((35 ≤ seq_length)%nat →
          Forall2 (λ sequence label,
                     label = 1%nat →
                     ∃ pos, (20 ≤ pos < 30)%nat
                            ∧ substring pos 6 sequence = "TATAAA"%string)
                  sequences labels)).
Proof.
  split.
  { intros Hseed. unfold generate_promoter_dataset.
    by rewrite (random_state_overflow seed Hseed). }
  intros Hseed. unfold generate_promoter_dataset.
  rewrite (random_state_ok seed Hseed), result_bind_ok.
  destruct (mapM_run
              (λ i (sample : string * nat),
                 String.length sample.1 = seq_length
                 ∧ Kmer.all_bases sample.1 = true
                 ∧ sample.2 = (if bool_decide (i < n_samples / 2)%nat then 1%nat else O)
                 ∧ (sample.2 = 1%nat → (35 ≤ seq_length)%nat →
                    ∃ pos, (20 ≤ pos < 30)%nat
                           ∧ substring pos 6 sample.1 = "TATAAA"%string))
              (generate_sample n_samples seq_length) (seq 0 n_samples) (rng_seed seed))
    as (samples & g1 & Hsamples & Hall).
  { intros i g. destruct (generate_sample_run n_samples seq_length i g)
      as (sample & g' & Hrun & Hrest). by exists sample, g'. }
  rewrite (bind_ok _ _ _ _ _ Hsamples). cbn zeta.
  assert (length samples = n_samples) as Hlen
    by (by rewrite <- (Forall2_length _ _ _ Hall), length_seq).
  set (idx := (rng_permutation (length (samples.*1)) g1).1).
  rewrite (bind_ok _ _ g1 (rng_permutation (length (samples.*1)) g1).2 idx)
    by apply draw_run.
  destruct (take_rows_pairs samples idx) as (ps & Hps & Hseqs & Hlabels).
  { subst idx. rewrite length_fmap. apply rng_permutation_perm. }
  set (g2 := (rng_permutation (length (samples.*1)) g1).2).
  rewrite (bind_ok _ _ g2 g2 (ps.*1)) by (unfold lift; by rewrite Hseqs).
  rewrite (bind_ok _ _ g2 g2 (ps.*2)) by (unfold lift; by rewrite Hlabels).
  exists (ps.*1), (ps.*2). split; [done|].
  assert (Forall (λ sample : string * nat,
                    String.length sample.1 = seq_length
                    ∧ Kmer.all_bases sample.1 = true
                    ∧ (sample.2 = 1%nat → (35 ≤ seq_length)%nat →
                       ∃ pos, (20 ≤ pos < 30)%nat
                              ∧ substring pos 6 sample.1 = "TATAAA"%string)) ps) as Hps_ok.
  { rewrite Hps. apply Forall_forall. intros sample Hin.
    apply list_elem_of_lookup in Hin as [i Hi].
    destruct (Forall2_lookup_r _ _ _ _ _ Hall Hi) as (j & _ & H1 & H2 & _ & H4). done. }
  split; [by rewrite length_fmap, Hps|]. split; [by rewrite length_fmap, Hps|].
  split; [|split; [|split]].
  - apply Forall_fmap. eapply Forall_impl; [exact Hps_ok|]. by intros sample (? & ? & _).
  - assert (ps.*2 ≡ₚ samples.*2) as Hperm by (by rewrite Hps).
    unfold count_label. rewrite Hperm.
    destruct (count_label_seq n_samples (n_samples / 2) samples 0) as [H1 _].
    { eapply Forall2_impl; [exact Hall|]. by intros i sample (_ & _ & ? & _). }
    unfold count_label in H1. rewrite H1.
    pose proof (Nat.Div0.div_le_upper_bound n_samples 2 n_samples). lia.
  - assert (ps.*2 ≡ₚ samples.*2) as Hperm by (by rewrite Hps).
    unfold count_label. rewrite Hperm.
    destruct (count_label_seq n_samples (n_samples / 2) samples 0) as [_ H0].
    { eapply Forall2_impl; [exact Hall|]. by intros i sample (_ & _ & ? & _). }
    unfold count_label in H0. rewrite H0.
    pose proof (Nat.Div0.div_le_upper_bound n_samples 2 n_samples). lia.
  - intros Hlong. apply Forall2_fmap, Forall_Forall2_diag.
    eapply Forall_impl; [exact Hps_ok|]. intros sample (_ & _ & Htata) Hlabel. by apply Htata.
Qed.

End PromoterData.
